(** * Scribble: a shallow embedding of the annotation compiler's driver

    The development follows the TypeScript sources of the tool:
    - [bin/scribble.ts]   ([computeContractsNeedingInstr], [instrumentFiles],
                           [fixNameConflicts], [getFQName], [replaceNode],
                           [fixRenamingErrors], [topoSort], [pickVersion],
                           [copy], [move], [remove], and the
                           loops of the driver that merge the contents, join
                           the flattened units, write the files and disarm);
    - [spec-lang/tc/typeenv.ts] ([TypeEnv]);
    - [util/metadata.ts]  ([parseSrcTriple], [ppSrcTripple], [contains],
                           [reNumber], [getInstrFileIdx],
                           [generateSrcMap2SrcMap], [generatePropertyMap],
                           [generateInstrumentationMetadata]);
    - [test/integration/utils.ts] ([toAst], [findContract], [findFunction],
                           [isomorphic]).

    Host AST nodes are JavaScript objects compared by identity; every node
    carries a stable integer [id], so a [Map] or [Set] keyed by nodes is a
    [gmap] or [gset] keyed by that id.  JavaScript numbers that hold byte
    offsets, lengths, indices and counters are integers ([Z] or [nat]). *)

From Stdlib Require Import ZArith Lia Ascii.
From stdpp Require Import gmap strings list fin_maps pretty relations.

Open Scope string_scope.
Open Scope list_scope.

(** ** Part I: definitions *)

(** *** Control effects of the driver

    A call either returns, terminates the process through [error]
    ([console.error] followed by [process.exit(1)]), or throws (a failed
    [assert], or a [TypeError] raised by the runtime). *)

Inductive Outcome (A : Type) : Type :=
| Returned (a : A)
| Exited (stderr : string) (code : Z)
| Thrown (msg : string).

Arguments Returned {A} a.
Arguments Exited {A} stderr code.
Arguments Thrown {A} msg.

Definition bindO {A B : Type} (m : Outcome A) (k : A -> Outcome B) : Outcome B :=
  match m with
  | Returned a => k a
  | Exited s c => Exited s c
  | Thrown s => Thrown s
  end.

#[global] Instance Outcome_bind : MBind Outcome := fun A B k m => bindO m k.
#[global] Instance Outcome_ret : MRet Outcome := fun A a => Returned a.

(** Modelled from the spec: [assert(cond, msg)] of [util] is not among the
    sources; a failed assertion is an internal error, which throws. *)
Definition assert (cond : bool) (msg : string) : Outcome unit :=
  if cond then Returned tt else Thrown msg.

(** [error(msg)]: prints on stderr and exits with code 1; it never returns. *)
Definition error {A : Type} (msg : string) : Outcome A := Exited msg 1%Z.

(** Visit the elements of an array in order, stopping at the first one that
    does not return. *)
Fixpoint mapO {A B : Type} (f : A -> Outcome B) (l : list A) : Outcome (list B) :=
  match l with
  | [] => Returned []
  | x :: rest => y ← f x; ys ← mapO f rest; Returned (y :: ys)
  end.

(** [[...new Set(xs)]]: the distinct elements, each at its first occurrence. *)
Fixpoint uniq {A : Type} `{EqDecision A} (seen l : list A) : list A :=
  match l with
  | [] => []
  | x :: rest =>
      if decide (x ∈ seen) then uniq seen rest else x :: uniq (x :: seen) rest
  end.

(** *** Source ranges ([util/metadata.ts]) *)

(** [SrcTriple = [number, number, number]]: start offset, length and index of
    the file in the source list. *)
Record SrcTriple : Type := mkSrcTriple { src0 : Z; src1 : Z; src2 : Z }.

(** Offsets and lengths of a real file are non-negative and far below 2^53,
    the range in which JavaScript's number arithmetic is exact. *)
Definition wf_triple (t : SrcTriple) : Prop :=
  (0 <= src0 t)%Z /\ (0 <= src1 t)%Z /\ (0 <= src2 t)%Z /\
  (src0 t + src1 t < 2 ^ 53)%Z /\ (src2 t < 2 ^ 53)%Z.

Definition ppSrcTripple (src : SrcTriple) : string :=
  pretty (src0 src) +:+ ":" +:+ pretty (src1 src) +:+ ":" +:+ pretty (src2 src).

Section SrcRanges.
(** [parseSrcTriple] splits at [":"] and applies the host's
    [Number.parseInt] to each part; the host function is a parameter. *)
Variable parseSrcTriple : string -> SrcTriple.

Definition contains (a b : SrcTriple + string) : bool :=
  let a := match a with inl t => t | inr s => parseSrcTriple s end in
  let b := match b with inl t => t | inr s => parseSrcTriple s end in
  (src2 a =? src2 b)%Z && (src0 a <=? src0 b)%Z
    && (src0 a + src1 a >=? src0 b + src1 b)%Z.

Definition reNumber (src : string) (to : Z) : string :=
  let t := parseSrcTriple src in
  ppSrcTripple (mkSrcTriple (src0 t) (src1 t) to).
End SrcRanges.

(** *** Compiler version selection ([bin/scribble.ts]) *)

(** [versionUsedMap : Map<string, string>] iterates in insertion order, so
    it is a list of (target, version) entries. *)
Definition pickVersion (versionUsedMap : list (string * string)) : Outcome string :=
  let versions := uniq [] (map snd versionUsedMap) in
  match versions with
  | [v] => Returned v
  | _ =>
      (* versions.length !== 1 *)
      error ("Multiple compiler versions detected: "
               +:+ String.concat "," versions
               +:+ ". Please specify an exact version to use with '--compiler-version'.")
  end.

(** *** The host AST (solc-typed-ast), as far as the driver reads it *)

Module ContractKind.
Inductive t : Set := Contract | Library | Interface.
#[global] Instance eq_dec : EqDecision t.
Proof. solve_decision. Defined.
End ContractKind.

Module FunctionKind.
Inductive t : Set := Constructor | Function | Receive | Fallback | Free.
#[global] Instance eq_dec : EqDecision t.
Proof. solve_decision. Defined.
End FunctionKind.

Module FunctionVisibility.
Inductive t : Set := External | Public | Internal | Private | Default.
#[global] Instance eq_dec : EqDecision t.
Proof. solve_decision. Defined.
End FunctionVisibility.

Module FunctionStateMutability.
Inductive t : Set := Pure | View | Constant | Payable | NonPayable.
#[global] Instance eq_dec : EqDecision t.
Proof. solve_decision. Defined.
End FunctionStateMutability.

Record FunctionDefinition : Type := mkFunction {
  fun_id : nat;
  fun_name : string;
  fun_kind : FunctionKind.t;
  visibility : FunctionVisibility.t;
  stateMutability : FunctionStateMutability.t;
  (** the id of the body block; [None] is [undefined] *)
  vBody : option nat
}.

Record ContractDefinition : Type := mkContract {
  contract_id : nat;
  contract_name : string;
  contract_kind : ContractKind.t;
  (** ids of the C3-linearized bases, the contract itself first *)
  vLinearizedBaseContracts : list nat;
  vFunctions : list FunctionDefinition
}.

(** *** The type environment ([spec-lang/tc/typeenv.ts]) *)

(** A user function of the specification language ([define name(..) T = e]):
    its name, and the node id of its definition in the specification AST. *)
Record SUserFunctionDefinition : Type := mkUserFun {
  ufun_name : string;
  ufun_node : nat
}.

#[global] Instance SUserFunctionDefinition_eq_dec : EqDecision SUserFunctionDefinition.
Proof. solve_decision. Defined.

Module TypeEnv.
Section WithTypes.
(** Types of the specification language. *)
Variable SType : Type.

Record t : Type := mk {
  typeMap : gmap nat SType;
  userFunctions : gmap nat (gmap string SUserFunctionDefinition)
}.

Definition empty : t := mk ∅ ∅.

Definition hasType (env : t) (node : nat) : bool :=
  bool_decide (is_Some (typeMap env !! node)).

Definition typeOf (env : t) (node : nat) : Outcome SType :=
  match typeMap env !! node with
  | Some res => Returned res
  | None => Thrown ("Missing type for node " +:+ pretty node)
  end.

Definition define (env : t) (node : nat) (typ : SType) : t :=
  mk (<[node := typ]> (typeMap env)) (userFunctions env).

(** The loop of [getUserFunction] over [scope.vLinearizedBaseContracts]. *)
Fixpoint getUserFunction_loop (env : t) (bases : list nat) (name : string)
  : option SUserFunctionDefinition :=
  match bases with
  | [] => None
  | base :: rest =>
      match userFunctions env !! base with
      | None => getUserFunction_loop env rest name
      | Some funM =>
          match funM !! name with
          | Some res => Some res
          | None => getUserFunction_loop env rest name
          end
      end
  end.

Definition getUserFunction (env : t) (scope : ContractDefinition) (name : string)
  : option SUserFunctionDefinition :=
  getUserFunction_loop env (vLinearizedBaseContracts scope) name.

Definition defineUserFunction (env : t) (scope : nat) (fn : SUserFunctionDefinition) : t :=
  let funM := match userFunctions env !! scope with
              | Some funM => funM
              | None => ∅
              end in
  mk (typeMap env) (<[scope := <[ufun_name fn := fn]> funM]> (userFunctions env)).

(** The entry of [userFunctions] for a contract and a name. *)
Definition stored (env : t) (c : nat) (name : string) : option SUserFunctionDefinition :=
  userFunctions env !! c ≫= fun funM => funM !! name.

(** The environment after a sequence of [defineUserFunction] calls, the
    earliest first. *)
Definition defineAll (calls : list (nat * SUserFunctionDefinition)) (env : t) : t :=
  foldl (fun e call => defineUserFunction e call.1 call.2) env calls.

(** What the calls registered for a contract and a name: the function of
    the latest call for that pair. *)
Definition registered (calls : list (nat * SUserFunctionDefinition))
           (scope : nat) (name : string) : option SUserFunctionDefinition :=
  snd <$> last (filter (fun call =>
                          call.1 = scope /\ ufun_name call.2 = name) calls).
End WithTypes.

Arguments typeMap {SType} _.
Arguments userFunctions {SType} _.
Arguments empty {SType}.
Arguments getUserFunction_loop {SType} _ _ _.
Arguments getUserFunction {SType} _ _ _.
Arguments defineUserFunction {SType} _ _ _.
Arguments defineAll {SType} _ _.
Arguments stored {SType} _ _ _.
End TypeEnv.

(** Modelled from the spec: [isExternallyVisible] and [isChangingState] of
    [util] are not among the sources; a function is externally
    visible when it is external or public, and it changes state unless it is
    constant, pure or view. *)
Definition isExternallyVisible (fn : FunctionDefinition) : bool :=
  bool_decide (visibility fn ∈ [FunctionVisibility.External; FunctionVisibility.Public]).

Definition isChangingState (fn : FunctionDefinition) : bool :=
  negb (bool_decide (stateMutability fn ∈
          [FunctionStateMutability.Constant; FunctionStateMutability.Pure;
           FunctionStateMutability.View])).

(** [imp.vSourceUnit]: the imported unit (its node id) and its
    [absolutePath]. *)
Record ImportDirective : Type := mkImport {
  vSourceUnit : nat;
  vSourceUnit_absolutePath : string
}.

Record SourceUnit : Type := mkUnit {
  unit_id : nat;
  absolutePath : string;
  sourceEntryKey : string;
  sourceListIndex : Z;
  vImportDirectives : list ImportDirective;
  (** free functions *)
  unit_vFunctions : list FunctionDefinition;
  vContracts : list ContractDefinition
}.

(** *** Annotations ([instrumenter/annotations.ts], as used by the driver) *)

Record Location : Type := mkLocation { loc_offset : Z; loc_line : Z; loc_column : Z }.
Record Range : Type := mkRange { range_start : Location; range_end : Location }.

(** The scope of a declaration, [decl.vScope]: for a contract member the
    contract, with the name and the unit that metadata generation reads. *)
Record ContractScope : Type := mkContractScope {
  scope_contract_id : nat;
  scope_contract_name : string;
  scope_sourceEntryKey : string;
  scope_sourceListIndex : Z
}.

Inductive VScope : Type :=
| InContract (c : ContractScope)
| InSourceUnit (unit : nat)
| InOther.

(** [annotation.target]: a function, a state variable or a contract. *)
Inductive AnnotationTarget : Type :=
| TargetFunction (fn : nat) (vScope : VScope)
| TargetVariable (var : nat) (vScope : VScope)
| TargetContract (c : ContractScope).

(** Modelled from the spec: the classes of [instrumenter/annotations.ts] are
    not among the sources.  An annotation record is a property
    ([if_succeeds], [invariant]) or a user function ([define]); [instanceof]
    tests the class. *)
Inductive AnnotationClass : Set := PropertyMetaData | UserFunctionDefinitionMetaData.

#[global] Instance AnnotationClass_eq_dec : EqDecision AnnotationClass.
Proof. solve_decision. Defined.

(** Modelled from the spec: the annotation metadata record, with the fields
    that the driver and the metadata emitter read. *)
Record AnnotationMetaData : Type := mkAnnotation {
  annot_class : AnnotationClass;
  annot_id : nat;
  original : string;
  target : AnnotationTarget;
  targetName : string;
  message : string;
  predicateFileLoc : Range;
  annotationFileRange : Range;
  (** [annotationLoc]: offset and length of the annotation in its file *)
  annotationLoc : Z * Z;
  (** the file index in [raw.src] *)
  raw_src_fileIdx : string
}.

Definition isProperty (annot : AnnotationMetaData) : bool :=
  bool_decide (annot_class annot = PropertyMetaData).

Definition isUserFunction (annot : AnnotationMetaData) : bool :=
  bool_decide (annot_class annot = UserFunctionDefinitionMetaData).

(** *** Selecting what to instrument ([instrumentFiles] in [bin/scribble.ts]) *)

Definition newline : string := String (Ascii.ascii_of_nat 10) EmptyString.

Definition prettyError {A : Type} (type msg unitPath : string) (location : Location)
           (annotation : string) : Outcome A :=
  let coords := pretty (loc_line location) +:+ ":" +:+ pretty (loc_column location) in
  error (String.concat (newline +:+ newline)
           [unitPath +:+ ":" +:+ coords +:+ " " +:+ type +:+ ": " +:+ msg; "In:"; annotation]).

(** What the annotation extractor and the checker raise when they fail. *)
Record AnnotationError : Type := mkAnnotationError {
  (** [SyntaxError], [UnsupportedByTargetError], [STypeError] or [SemError] *)
  err_handled : bool;
  err_class : string;
  err_message : string;
  err_location : Location;
  err_annotation : string
}.

Definition WorkItem : Type :=
  ContractDefinition * option FunctionDefinition * list AnnotationMetaData.

(** The variables that the first loop of [instrumentFiles] updates. *)
Record InstrState : Type := mkInstrState {
  worklist : list WorkItem;
  ctx_annotations : list AnnotationMetaData;
  changed : bool;
  changedSourceUnits : list SourceUnit
}.

(** Commands over that state; the state at a throw is the one reached. *)
Definition Instr (A : Type) : Type := InstrState -> InstrState * Outcome A.

Definition instr_ret {A : Type} (a : A) : Instr A := fun st => (st, Returned a).

Definition instr_bind {A B : Type} (m : Instr A) (k : A -> Instr B) : Instr B :=
  fun st =>
    match m st with
    | (st', Returned a) => k a st'
    | (st', Exited s c) => (st', Exited s c)
    | (st', Thrown s) => (st', Thrown s)
    end.

Definition liftO {A : Type} (o : Outcome A) : Instr A := fun st => (st, o).

Fixpoint forEach {A : Type} (l : list A) (body : A -> Instr unit) : Instr unit :=
  match l with
  | [] => instr_ret tt
  | x :: rest => instr_bind (body x) (fun _ => forEach rest body)
  end.

(** [worklist.push(item); ctx.annotations.push(...annots); changed = true] *)
Definition pushWork (item : WorkItem) : Instr unit :=
  fun st => (mkInstrState (worklist st ++ [item]) (ctx_annotations st ++ item.2) true
                          (changedSourceUnits st), Returned tt).

(** A command that, whenever it returns, has appended [items] to the
    worklist and established [Q]. *)
Definition appends {A : Type} (m : Instr A) (items : list WorkItem) (Q : Prop) : Prop :=
  forall st st' a, m st = (st', Returned a) -> worklist st' = worklist st ++ items /\ Q.

(** A command that keeps [R] true of every entry of the worklist, however
    it ends. *)
Definition keeps {A : Type} (R : WorkItem -> Prop) (m : Instr A) : Prop :=
  forall st st' o, Forall R (worklist st) -> m st = (st', o) -> Forall R (worklist st').

(** An entry that is not the contract-level entry of an interface. *)
Definition notInterfaceEntry (item : WorkItem) : Prop :=
  item.1.2 = None -> contract_kind item.1.1 <> ContractKind.Interface.

(** A command that returns from every state. *)
Definition returns {A : Type} (m : Instr A) : Prop :=
  forall st, exists st' a, m st = (st', Returned a).

Section InstrumentFiles.
(** [AnnotationExtractor.extract] on a contract or function node, with the
    files and filters of the context. *)
Variable extract : nat -> list AnnotationMetaData + AnnotationError.
(** [getScopeUnit(node).absolutePath] *)
Variable scopeUnitPath : nat -> string.
(** [tcAnnotation] followed by [scAnnotation], for an annotation of a
    contract and possibly one of its functions; [None] when both pass. *)
Variable check : AnnotationMetaData -> ContractDefinition -> option FunctionDefinition
                 -> option AnnotationError.
(** [ctx.files] *)
Variable files : gmap string string.
Variable contractInvMap : gmap nat (list AnnotationMetaData).
Variable contractsNeedingInstr : gset nat.

Definition getAnnotationsOrDie (node : nat) : Outcome (list AnnotationMetaData) :=
  match extract node with
  | inl annotations => Returned annotations
  | inr e =>
      if err_handled e
      then prettyError (err_class e) (err_message e) (scopeUnitPath node)
                       (err_location e) (err_annotation e)
      else Thrown (err_message e)
  end.

Definition tcOrDie (annotation : AnnotationMetaData) (fn : option FunctionDefinition)
           (contract : ContractDefinition) (unitPath : string) : Outcome unit :=
  match check annotation contract fn with
  | None => Returned tt
  | Some e =>
      let scope := match fn with
                   | None => contract_name contract
                   | Some f => contract_name contract +:+ "." +:+ fun_name f
                   end in
      if err_handled e
      then prettyError "TypeError" (err_message e) unitPath (err_location e)
                       (original annotation)
      else error ("Internal error in type-checking " +:+ original annotation
                    +:+ " of " +:+ scope +:+ ": " +:+ err_message e)
  end.

Definition ContractKind_pp (k : ContractKind.t) : string :=
  match k with
  | ContractKind.Contract => "contract"
  | ContractKind.Library => "library"
  | ContractKind.Interface => "interface"
  end.

(** The condition under which [instrumentFiles] interposes on a function. *)
Definition interposes (needsStateInvariantInstr : bool) (contract : ContractDefinition)
           (fn : FunctionDefinition) (annotations : list AnnotationMetaData) : bool :=
  bool_decide (0 < length annotations) ||
  (needsStateInvariantInstr && isExternallyVisible fn && isChangingState fn
     && bool_decide (contract_kind contract = ContractKind.Contract)
     && bool_decide (fun_kind fn = FunctionKind.Function)).

Definition visitFunction (srcUnit : SourceUnit) (contract : ContractDefinition)
           (needsStateInvariantInstr : bool) (fn : FunctionDefinition) : Instr unit :=
  match vBody fn with
  | None => instr_ret tt
  | Some _ =>
      instr_bind (liftO (getAnnotationsOrDie (fun_id fn))) (fun annotations =>
      instr_bind (forEach annotations (fun annot =>
                    liftO (tcOrDie annot (Some fn) contract (absolutePath srcUnit)))) (fun _ =>
      if interposes needsStateInvariantInstr contract fn annotations
      then pushWork (contract, Some fn, annotations)
      else instr_ret tt))
  end.

Definition visitContract (srcUnit : SourceUnit) (contract : ContractDefinition) : Instr unit :=
  let contractAnnot := default [] (contractInvMap !! contract_id contract) in
  let userFuns := filter (fun a => isUserFunction a = true) contractAnnot in
  instr_bind (forEach contractAnnot (fun annot =>
                liftO (tcOrDie annot None contract (absolutePath srcUnit)))) (fun _ =>
  let needsStateInvariantInstr := bool_decide (contract_id contract ∈ contractsNeedingInstr) in
  if bool_decide (contract_kind contract = ContractKind.Interface)
  then instr_ret tt
  else
    instr_bind
      (if needsStateInvariantInstr || bool_decide (0 < length userFuns)
       then
         instr_bind (pushWork (contract, None, contractAnnot)) (fun _ =>
         liftO (assert
                  (negb (bool_decide (contract_kind contract ∈
                                        [ContractKind.Library; ContractKind.Interface])))
                  ("Shouldn't be instrumenting " +:+ ContractKind_pp (contract_kind contract)
                     +:+ " " +:+ contract_name contract +:+ " with contract invs")))
       else instr_ret tt) (fun _ =>
    forEach (vFunctions contract) (visitFunction srcUnit contract needsStateInvariantInstr))).

Definition visitUnit (srcUnit : SourceUnit) : Instr unit :=
  instr_bind (fun st => (mkInstrState (worklist st) (ctx_annotations st) false
                                      (changedSourceUnits st), Returned tt)) (fun _ =>
  instr_bind (liftO (assert (bool_decide (is_Some (files !! sourceEntryKey srcUnit)))
                            ("Missing source for " +:+ absolutePath srcUnit))) (fun _ =>
  instr_bind (forEach (unit_vFunctions srcUnit) (fun fn =>
                instr_bind (liftO (getAnnotationsOrDie (fun_id fn))) (fun _ => instr_ret tt)))
             (fun _ =>
  instr_bind (forEach (vContracts srcUnit) (visitContract srcUnit)) (fun _ =>
  fun st =>
    if changed st
    then (mkInstrState (worklist st) (ctx_annotations st) (changed st)
                       (changedSourceUnits st ++ [srcUnit]), Returned tt)
    else (st, Returned tt))))).

(** The first loop of [instrumentFiles]: the worklist, the annotations
    recorded in the context and the changed units.  The second loop hands
    each entry of the worklist to the contract or function instrumenter. *)
Definition instrumentFiles_worklist (units : list SourceUnit) : InstrState * Outcome unit :=
  forEach units visitUnit (mkInstrState [] [] false []).

(** The worklist entry of a function, when its extraction succeeds. *)
Definition functionEntry (contract : ContractDefinition) (fn : FunctionDefinition)
  : list WorkItem :=
  match vBody fn, extract (fun_id fn) with
  | Some _, inl annotations =>
      if interposes (bool_decide (contract_id contract ∈ contractsNeedingInstr))
                    contract fn annotations
      then [(contract, Some fn, annotations)] else []
  | _, _ => []
  end.

(** The worklist entries of a contract, when nothing fails. *)
Definition contractEntries (contract : ContractDefinition) : list WorkItem :=
  let contractAnnot := default [] (contractInvMap !! contract_id contract) in
  if bool_decide (contract_kind contract = ContractKind.Interface) then []
  else
    (if bool_decide (contract_id contract ∈ contractsNeedingInstr)
        || bool_decide (0 < length (filter (fun a => isUserFunction a = true) contractAnnot))
     then [(contract, None, contractAnnot)] else [])
    ++ vFunctions contract ≫= functionEntry contract.
(** The two conditions under which the contract itself is pushed. *)
Definition wantsContractEntry (contract : ContractDefinition) : bool :=
  bool_decide (contract_id contract ∈ contractsNeedingInstr)
  || bool_decide (0 < length (filter (fun a => isUserFunction a = true)
                                (default [] (contractInvMap !! contract_id contract)))).

Definition contractVisited (contract : ContractDefinition) : Prop :=
  contract_kind contract <> ContractKind.Interface ->
  (wantsContractEntry contract = true -> contract_kind contract <> ContractKind.Library) /\
  (forall fn, fn ∈ vFunctions contract -> is_Some (vBody fn) ->
              is_Some (match extract (fun_id fn) with inl a => Some a | inr _ => None end)).

End InstrumentFiles.

(** *** Sample inputs *)

Module Sample.
Definition fnInc : FunctionDefinition :=
  mkFunction 11 "inc" FunctionKind.Function FunctionVisibility.Public
             FunctionStateMutability.NonPayable (Some 12).
Definition fnGet : FunctionDefinition :=
  mkFunction 13 "get" FunctionKind.Function FunctionVisibility.Public
             FunctionStateMutability.View (Some 14).
Definition fnAbstract : FunctionDefinition :=
  mkFunction 15 "reset" FunctionKind.Function FunctionVisibility.Public
             FunctionStateMutability.NonPayable None.
Definition contractA : ContractDefinition :=
  mkContract 10 "A" ContractKind.Contract [10] [fnInc; fnGet; fnAbstract].
Definition libraryL : ContractDefinition :=
  mkContract 20 "L" ContractKind.Library [20] [].
Definition unitA : SourceUnit := mkUnit 1 "a.sol" "a.sol" 0 [] [] [contractA].
Definition unitL : SourceUnit := mkUnit 2 "l.sol" "l.sol" 1 [] [] [libraryL].
Definition sources : gmap string string :=
  {[ "a.sol" := "contract A { }"; "l.sol" := "library L { }" ]}.
Definition noAnnotations : nat -> list AnnotationMetaData + AnnotationError :=
  fun _ => inl [].
Definition scopeA : ContractScope := mkContractScope 10 "A" "a.sol" 0.
Definition predicateRange : Range := mkRange (mkLocation 27 1 27) (mkLocation 33 1 33).
Definition annotationRange : Range := mkRange (mkLocation 16 1 16) (mkLocation 34 1 34).
(** [#invariant x >= 0;] on contract [A], and a user function next to it. *)
Definition invariantA : AnnotationMetaData :=
  mkAnnotation PropertyMetaData 0 "#invariant x >= 0;" (TargetContract scopeA) "A" ""
               predicateRange annotationRange (16, 18)%Z "0".
Definition defineA : AnnotationMetaData :=
  mkAnnotation UserFunctionDefinitionMetaData 1 "#define nonNeg() bool = x >= 0;"
               (TargetContract scopeA) "A" "" predicateRange annotationRange (40, 31)%Z "0".
Definition unitPath : nat -> string := fun _ => "a.sol".
Definition checks : AnnotationMetaData -> ContractDefinition -> option FunctionDefinition
                    -> option AnnotationError := fun _ _ _ => None.
(** The worklist loop on [unitA] when [A] needs invariant instrumentation. *)
Definition runA : InstrState * Outcome unit :=
  instrumentFiles_worklist noAnnotations unitPath checks sources
                           {[ 10 := [invariantA; defineA] ]} {[ 10 ]} [unitA].
(** [#invariant true;] on the library [L]. *)
Definition invariantL : AnnotationMetaData :=
  mkAnnotation PropertyMetaData 2 "#invariant true;"
               (TargetContract (mkContractScope 20 "L" "l.sol" 1)) "L" ""
               (mkRange (mkLocation 15 1 15) (mkLocation 19 1 19))
               (mkRange (mkLocation 4 1 4) (mkLocation 20 1 20)) (4, 16)%Z "1".
End Sample.

(** *** Instrumentation metadata ([util/metadata.ts]) *)

Inductive TargetType : Set := target_function | target_variable | target_contract.

Record PropertyDesc : Type := mkPropertyDesc {
  pd_id : nat;
  pd_contract : string;
  pd_filename : string;
  pd_propertySource : string;
  pd_annotationSource : string;
  pd_target : TargetType;
  pd_targetName : string;
  pd_debugEventSignature : string;
  pd_message : string;
  pd_instrumentationRanges : list string;
  pd_checkRanges : list string
}.

Record InstrumentationMetaData : Type := mkMetaData {
  propertyMap : list PropertyDesc;
  instrToOriginalMap : list (string * string);
  otherInstrumentation : list string;
  originalSourceList : list string;
  instrSourceList : list string
}.

Inductive OutputMode : Set := mode_files | mode_flat | mode_json.

#[global] Instance OutputMode_eq_dec : EqDecision OutputMode.
Proof. solve_decision. Defined.

Definition OutputMode_pp (mode : OutputMode) : string :=
  match mode with
  | mode_files => "files"
  | mode_flat => "flat"
  | mode_json => "json"
  end.

Inductive NodeClass : Set :=
| IsSourceUnit
| IsStructuredDocumentation
| IsParameterList (nParameters : nat)
| IsOtherNode.

#[global] Instance NodeClass_eq_dec : EqDecision NodeClass.
Proof. solve_decision. Defined.

(** A node of the host AST as metadata generation sees it: its id, its
    [src], its class, and the [absolutePath] of the unit it is or lies in
    ([None] when [getClosestParentByType(SourceUnit)] finds none). *)
Record ASTNode : Type := mkNode {
  node_id : nat;
  node_src : string;
  node_class : NodeClass;
  node_unitPath : option string
}.

(** A unit with the nodes that [walkChildren] visits, in order. *)
Record WalkedUnit : Type := mkWalkedUnit {
  wu_unit : SourceUnit;
  wu_descendants : list ASTNode
}.

(** Modelled from the spec: the class [InstrumentationContext] is not among
    the sources; this is the part of it that metadata generation reads.
    Maps keyed by annotations are keyed by their ids, which are unique. *)
Record InstrumentationContext : Type := mkContext {
  ctx_annotationList : list AnnotationMetaData;
  debugEventDefs : gmap nat string;
  evaluationStatements : gmap nat (list ASTNode);
  instrumetnedCheck : list (AnnotationMetaData * list ASTNode);
  generalInstrumentationNodes : list ASTNode;
  outputMode : OutputMode;
  utilsUnit : SourceUnit
}.

(** [list.indexOf(x)]: [-1] when absent. *)
Fixpoint indexOf (l : list string) (x : string) : Z :=
  match l with
  | [] => -1
  | y :: rest =>
      if decide (y = x) then 0
      else let i := indexOf rest x in if decide (i = -1)%Z then -1 else (i + 1)%Z
  end.

(** [map.get(annotation)] on the entries of a [Map] keyed by annotations. *)
Definition lookupChecks (m : list (AnnotationMetaData * list ASTNode)) (id : nat)
  : option (list ASTNode) :=
  (fun found => found.2.2) <$> list_find (fun entry => annot_id entry.1 = id) m.

Definition rangeToSrc (range : Range) (fileIdx : Z) : string :=
  pretty (loc_offset (range_start range)) +:+ ":"
    +:+ pretty (loc_offset (range_end range) - loc_offset (range_start range))%Z +:+ ":"
    +:+ pretty fileIdx.

Definition ppRange (r : Z * Z) (fileIdx : Z) : string :=
  pretty r.1 +:+ ":" +:+ pretty r.2 +:+ ":" +:+ pretty fileIdx.

Section Metadata.
Variable parseSrcTriple : string -> SrcTriple.
(** [dedup] and [pp] of [util] *)
Variable dedup : list string -> list string.
Variable pp : ASTNode -> string.
Variable ppList : list string -> string.

Definition getInstrFileIdx (node : ASTNode) (mode : OutputMode)
           (instrSourceList : list string) : Outcome Z :=
  if decide (mode <> mode_files) then Returned 0%Z
  else
    match node_unitPath node with
    | None => Thrown ("No source unit for " +:+ pp node)
    | Some path =>
        let idx := indexOf instrSourceList path in
        _ ← assert (negb (bool_decide (idx = -1)%Z))
              ("Unit " +:+ path +:+ " missing from instrumented source list "
                 +:+ ppList instrSourceList);
        Returned idx
    end.

(** The node of a unit itself, as passed to [getInstrFileIdx]. *)
Definition unitNode (u : SourceUnit) : ASTNode :=
  mkNode (unit_id u) "" IsSourceUnit (Some (absolutePath u)).

Definition walkNode (ctx : InstrumentationContext) (newSrcMap : gmap nat (Z * Z))
           (instrSourceList : list string) (u : SourceUnit) (newSrcListIdx : Z)
           (node : ASTNode) : Outcome (list (string * string)) :=
  if decide (node_src node = "0:0:0") then Returned []
  else if decide (node_class node = IsStructuredDocumentation) then Returned []
  else
    let originalSrc := reNumber parseSrcTriple (node_src node) newSrcListIdx in
    match newSrcMap !! node_id node with
    | None =>
        _ ← assert (bool_decide (node_class node = IsParameterList 0))
              ("Missing new source for node #" +:+ pretty (node_id node));
        Returned []
    | Some newSrc =>
        instrFileIdx ← getInstrFileIdx (unitNode u) (outputMode ctx) instrSourceList;
        Returned [(ppRange newSrc instrFileIdx, originalSrc)]
    end.

Definition generateSrcMap2SrcMap (ctx : InstrumentationContext)
           (sortedUnits : list WalkedUnit) (utils : SourceUnit)
           (newSrcMap : gmap nat (Z * Z))
           (originalSourceList instrSourceList : list string)
  : Outcome (list (string * string) * list string) :=
  fromUnits ← mapO (fun wu =>
      let newSrcListIdx := indexOf originalSourceList (absolutePath (wu_unit wu)) in
      if decide (unit_id (wu_unit wu) = unit_id utils) then Returned []
      else
        pairs ← mapO (walkNode ctx newSrcMap instrSourceList (wu_unit wu) newSrcListIdx)
                     (wu_descendants wu);
        Returned (concat pairs)) sortedUnits;
  fromChecks ← mapO (fun entry : AnnotationMetaData * list ASTNode =>
      let (property, assertions) := entry in
      mapO (fun assertion =>
          let assertionSrc := newSrcMap !! node_id assertion in
          instrFileIdx ← getInstrFileIdx assertion (outputMode ctx) instrSourceList;
          match assertionSrc with
          | None => Thrown ("Missing new source for assertion of property "
                              +:+ original property)
          | Some src =>
              Returned (ppRange src instrFileIdx,
                        pretty (annotationLoc property).1 +:+ ":"
                          +:+ pretty (annotationLoc property).2 +:+ ":"
                          +:+ raw_src_fileIdx property)
          end) assertions) (instrumetnedCheck ctx);
  other ← mapO (fun node =>
      match newSrcMap !! node_id node with
      | None => Thrown ("Missing new source for general instrumentation node " +:+ pp node)
      | Some nodeSrc =>
          instrFileIdx ← getInstrFileIdx node (outputMode ctx) instrSourceList;
          Returned (ppRange nodeSrc instrFileIdx)
      end) (generalInstrumentationNodes ctx);
  Returned (concat fromUnits ++ concat fromChecks, dedup other).

(** The contract and the kind of target of a property, or the assertion that
    fails. *)
Definition propertyTarget (annotation : AnnotationMetaData)
  : Outcome (ContractScope * TargetType) :=
  match target annotation with
  | TargetFunction _ (InContract c) => Returned (c, target_function)
  | TargetFunction _ _ => Thrown "Instrumenting free functions is not supported yet"
  | TargetVariable _ (InContract c) => Returned (c, target_variable)
  | TargetVariable _ _ => Thrown "Instrumenting is supported for state variables only"
  | TargetContract c => Returned (c, target_contract)
  end.

Definition describeProperty (ctx : InstrumentationContext) (newSrcMap : gmap nat (Z * Z))
           (instrSourceList : list string) (annotation : AnnotationMetaData)
  : Outcome PropertyDesc :=
  ct ← propertyTarget annotation;
  let contract := ct.1 in
  let targetType := ct.2 in
  let filename := scope_sourceEntryKey contract in
  let signature := default "" (debugEventDefs ctx !! annot_id annotation) in
  let propertySource :=
    rangeToSrc (predicateFileLoc annotation) (scope_sourceListIndex contract) in
  let annotationSource :=
    rangeToSrc (annotationFileRange annotation) (scope_sourceListIndex contract) in
  statements ← match evaluationStatements ctx !! annot_id annotation with
               | Some nodes => Returned nodes
               | None => Thrown "TypeError: Cannot read property 'map' of undefined"
               end;
  instrumentationRanges ← mapO (fun node =>
      match newSrcMap !! node_id node with
      | None => Thrown ("Missing source for instrumentation node " +:+ pp node
                          +:+ " of annotation " +:+ original annotation)
      | Some src =>
          instrFileIdx ← getInstrFileIdx node (outputMode ctx) instrSourceList;
          Returned (ppRange src instrFileIdx)
      end) statements;
  annotationChecks ← match lookupChecks (instrumetnedCheck ctx) (annot_id annotation) with
                     | Some checks => Returned checks
                     | None => Thrown ("Missing check expression for "
                                         +:+ original annotation)
                     end;
  checkRanges ← mapO (fun annotationCheck =>
      let checkRange := newSrcMap !! node_id annotationCheck in
      annotationFileIdx ← getInstrFileIdx annotationCheck (outputMode ctx) instrSourceList;
      match checkRange with
      | None => Thrown ("Missing src range for annotation check node "
                          +:+ pp annotationCheck +:+ " of " +:+ original annotation)
      | Some r => Returned (ppRange r annotationFileIdx)
      end) annotationChecks;
  Returned (mkPropertyDesc (annot_id annotation) (scope_contract_name contract) filename
              propertySource annotationSource targetType (targetName annotation)
              signature (message annotation)
              (dedup instrumentationRanges) (dedup checkRanges)).

Fixpoint generatePropertyMap_loop (ctx : InstrumentationContext)
         (newSrcMap : gmap nat (Z * Z)) (instrSourceList : list string)
         (annotations : list AnnotationMetaData) : Outcome (list PropertyDesc) :=
  match annotations with
  | [] => Returned []
  | annotation :: rest =>
      if isProperty annotation
      then
        desc ← describeProperty ctx newSrcMap instrSourceList annotation;
        descs ← generatePropertyMap_loop ctx newSrcMap instrSourceList rest;
        Returned (desc :: descs)
      else generatePropertyMap_loop ctx newSrcMap instrSourceList rest
  end.

Definition generatePropertyMap (ctx : InstrumentationContext)
           (newSrcMap : gmap nat (Z * Z)) (instrSourceList : list string)
  : Outcome (list PropertyDesc) :=
  generatePropertyMap_loop ctx newSrcMap instrSourceList (ctx_annotationList ctx).

(** The name under which an entry of [instrSourceList] is reported. *)
Definition instrumentedName (utilsPath name : string) : string :=
  if decide (name = "--" \/ name = utilsPath) then name else name +:+ ".instrumented".

(** What the property map is expected to report as the kind of target of an
    annotation: [function] for a function, [variable] for a state variable,
    [contract] for a contract. *)
Definition expectedTargetKind (t : AnnotationTarget) : TargetType :=
  match t with
  | TargetFunction _ _ => target_function
  | TargetVariable _ _ => target_variable
  | TargetContract _ => target_contract
  end.

(** The contract that encloses the target of an annotation: the target
    itself when it is a contract, and the contract that is the scope of a
    function or of a state variable; a free function and a variable outside
    a contract have none. *)
Definition enclosingContract (t : AnnotationTarget) : option ContractScope :=
  match t with
  | TargetContract c => Some c
  | TargetFunction _ (InContract c) => Some c
  | TargetVariable _ (InContract c) => Some c
  | TargetFunction _ _ => None
  | TargetVariable _ _ => None
  end.

(** What a record of the property map is expected to carry of its
    annotation: the id, the name and the file of the enclosing contract, the
    kind and the name of the target, the message, the signature of the
    debug event (empty when the annotation has none), and the two source
    ranges in the form [offset:length:fileIndex], the file index being that
    of the unit of the enclosing contract. *)
Definition describes (ctx : InstrumentationContext) (annotation : AnnotationMetaData)
           (desc : PropertyDesc) : Prop :=
  exists contract,
    enclosingContract (target annotation) = Some contract /\
    pd_id desc = annot_id annotation /\
    pd_contract desc = scope_contract_name contract /\
    pd_filename desc = scope_sourceEntryKey contract /\
    pd_target desc = expectedTargetKind (target annotation) /\
    pd_targetName desc = targetName annotation /\
    pd_message desc = message annotation /\
    pd_debugEventSignature desc
      = match debugEventDefs ctx !! annot_id annotation with
        | Some signature => signature
        | None => ""
        end /\
    pd_propertySource desc =
      pretty (loc_offset (range_start (predicateFileLoc annotation))) +:+ ":"
        +:+ pretty (loc_offset (range_end (predicateFileLoc annotation))
                    - loc_offset (range_start (predicateFileLoc annotation)))%Z +:+ ":"
        +:+ pretty (scope_sourceListIndex contract) /\
    pd_annotationSource desc =
      pretty (loc_offset (range_start (annotationFileRange annotation))) +:+ ":"
        +:+ pretty (loc_offset (range_end (annotationFileRange annotation))
                    - loc_offset (range_start (annotationFileRange annotation)))%Z +:+ ":"
        +:+ pretty (scope_sourceListIndex contract).

(** A generated node that has a range in the printed output and a file in
    the instrumented source list. *)
Definition located (ctx : InstrumentationContext) (newSrcMap : gmap nat (Z * Z))
           (instrSourceList : list string) (node : ASTNode) : Prop :=
  is_Some (newSrcMap !! node_id node) /\
  exists idx, getInstrFileIdx node (outputMode ctx) instrSourceList = Returned idx.

(** A property whose target is a contract or lies in one, and whose
    generated nodes are recorded in the context and located. *)
Definition recordable (ctx : InstrumentationContext) (newSrcMap : gmap nat (Z * Z))
           (instrSourceList : list string) (annotation : AnnotationMetaData) : Prop :=
  is_Some (enclosingContract (target annotation)) /\
  (exists nodes, evaluationStatements ctx !! annot_id annotation = Some nodes /\
                 Forall (located ctx newSrcMap instrSourceList) nodes) /\
  (exists checks, lookupChecks (instrumetnedCheck ctx) (annot_id annotation) = Some checks /\
                  Forall (located ctx newSrcMap instrSourceList) checks).

(** The first value of [instrSourceList], before the suffixes are added. *)
Definition instrSourceList0 (ctx : InstrumentationContext) (paths : list string)
           (outputFile : option string) : Outcome (list string) :=
  if decide (outputMode ctx = mode_files)
  then Returned (paths ++ [absolutePath (utilsUnit ctx)])
  else
    match outputFile with
    | None => Thrown ("Must provide output file in " +:+ OutputMode_pp (outputMode ctx)
                        +:+ " mode")
    | Some file => Returned [file]
    end.

Definition generateInstrumentationMetadata (ctx : InstrumentationContext)
           (newSrcMap : gmap nat (Z * Z)) (originalUnits : list WalkedUnit)
           (arm : bool) (outputFile : option string) : Outcome InstrumentationMetaData :=
  let utils := utilsUnit ctx in
  let originalSourceList :=
    map (fun wu => absolutePath (wu_unit wu))
        (filter (fun wu => unit_id (wu_unit wu) <> unit_id utils) originalUnits) in
  instrSourceList ← instrSourceList0 ctx originalSourceList outputFile;
  maps ← generateSrcMap2SrcMap ctx originalUnits utils newSrcMap
                               originalSourceList instrSourceList;
  propertyMap ← generatePropertyMap ctx newSrcMap instrSourceList;
  let instrSourceList :=
    map (instrumentedName (absolutePath utils)) instrSourceList in
  let originalSourceList :=
    if arm then map (fun name => name +:+ ".original") originalSourceList
    else originalSourceList in
  Returned (mkMetaData propertyMap maps.1 maps.2 originalSourceList instrSourceList).
End Metadata.

Module SampleMetadata.
Definition utils : SourceUnit :=
  mkUnit 99 "__scribble_ReentrancyUtils.sol" "__scribble_ReentrancyUtils.sol" 1 [] [] [].
Definition statementNode : ASTNode := mkNode 50 "0:0:0" IsOtherNode (Some "a.sol").
Definition checkNode : ASTNode := mkNode 51 "0:0:0" IsOtherNode (Some "a.sol").
Definition context : InstrumentationContext :=
  mkContext [Sample.invariantA; Sample.defineA] ∅ {[ 0 := [statementNode] ]}
            [(Sample.invariantA, [checkNode])] [] mode_files utils.
Definition printed : gmap nat (Z * Z) := {[ 50 := (100, 20)%Z; 51 := (130, 12)%Z ]}.
Definition units : list WalkedUnit := [mkWalkedUnit Sample.unitA []; mkWalkedUnit utils []].
Definition parse : string -> SrcTriple := fun _ => mkSrcTriple 0 0 0.
Definition ppNode : ASTNode -> string := fun node => pretty (node_id node).
Definition ppNames : list string -> string := String.concat ",".
Definition properties : Outcome (list PropertyDesc) :=
  generatePropertyMap (uniq []) ppNode ppNames context printed
                      ["a.sol"; "__scribble_ReentrancyUtils.sol"].
Definition metadata (arm : bool) : Outcome InstrumentationMetaData :=
  generateInstrumentationMetadata parse (uniq []) ppNode ppNames context printed units
                                  arm None.
Definition returned {A : Type} (d : A) (o : Outcome A) : A :=
  match o with Returned a => a | _ => d end.
End SampleMetadata.

Module SampleFunctionProperty.
(** [#if_succeeds x > old(x);] on the function [inc] of contract [A]. *)
Definition ifSucceedsInc : AnnotationMetaData :=
  mkAnnotation PropertyMetaData 3 "#if_succeeds x > old(x);"
               (TargetFunction 11 (InContract Sample.scopeA)) "inc" "P1"
               (mkRange (mkLocation 62 3 17) (mkLocation 72 3 27))
               (mkRange (mkLocation 49 3 4) (mkLocation 73 3 28)) (49, 24)%Z "0".
Definition context : InstrumentationContext :=
  mkContext [ifSucceedsInc] {[ 3 := "AssertionFailed(string)" ]} {[ 3 := [] ]}
            [(ifSucceedsInc, [])] [] mode_flat SampleMetadata.utils.
Definition properties : Outcome (list PropertyDesc) :=
  generatePropertyMap (uniq []) SampleMetadata.ppNode SampleMetadata.ppNames context ∅
                      ["flat.sol"].
End SampleFunctionProperty.

(** *** Contracts needing instrumentation ([bin/scribble.ts]) *)

(** Modelled from the spec: the type [CHA] of [instrumenter/cha.ts] is not
    among the sources; for each contract it holds the parents and the
    children.  [parents] maps a contract to an array and [children] to a
    [Set]; a set is kept as the list of its elements in insertion order, the
    order in which [for ... of] visits them. *)
Record CHA : Type := mkCHA {
  parents : gmap nat (list nat);
  children : gmap nat (list nat)
}.

(** One step along the inheritance graph, to a parent or to a child. *)
Definition chaEdge (cha : CHA) (a b : nat) : Prop :=
  (exists ps, parents cha !! a = Some ps /\ b ∈ ps) \/
  (exists cs, children cha !! a = Some cs /\ b ∈ cs).

(** [annots.filter((annot) => annot instanceof PropertyMetaData).length > 0] *)
Definition hasProperty (annots : list AnnotationMetaData) : bool :=
  bool_decide (0 < length (filter (fun annot => isProperty annot = true) annots)).

(** The loop of [computeContractsNeedingInstr].  The array [wave] is used as
    a stack ([push] and [pop] work at its end), so it is kept with its last
    element first.  [None] means that the fuel ran out. *)
Fixpoint bfsLoop (fuel : nat) (cha : CHA) (wave : list nat) (visited : gset nat)
  : option (Outcome (gset nat)) :=
  match fuel with
  | 0 => None
  | S fuel =>
      match wave with
      | [] => Some (Returned visited)
      | cur :: wave =>
          if decide (cur ∈ visited) then bfsLoop fuel cha wave visited
          else
            let visited := {[cur]} ∪ visited in
            match parents cha !! cur with
            | None => Some (Thrown "TypeError: undefined is not iterable")
            | Some ps =>
                let wave := rev (filter (fun parent => parent ∉ visited) ps) ++ wave in
                match children cha !! cur with
                | None => Some (Thrown "TypeError: undefined is not iterable")
                | Some cs =>
                    let wave := rev (filter (fun child => child ∉ visited) cs) ++ wave in
                    bfsLoop fuel cha wave visited
                end
            end
      end
  end.

(** The number of pushes still possible: the parents and children of the
    contracts not yet visited. *)
Definition pendingPushes (cha : CHA) (visited : gset nat) : nat :=
  sum_list (map (fun entry : nat * list nat =>
                   if decide (entry.1 ∈ visited) then 0
                   else length entry.2 + length (default [] (children cha !! entry.1)))
                (map_to_list (parents cha))).

(** The annotated contracts, in the order of the map's entries. *)
Definition annotatedContracts (contractAnnotMap : list (nat * list AnnotationMetaData))
  : list nat :=
  map fst (filter (fun entry => hasProperty entry.2 = true) contractAnnotMap).

Definition computeContractsNeedingInstr (cha : CHA)
           (contractAnnotMap : list (nat * list AnnotationMetaData))
  : option (Outcome (gset nat)) :=
  let wave := rev (annotatedContracts contractAnnotMap) in
  bfsLoop (S (length wave + pendingPushes cha ∅)) cha wave ∅.

(** Every contract the traversal can reach has an entry in both maps of the
    analysis. *)
Definition chaCovers (cha : CHA) (seeds : list nat) : Prop :=
  forall c, (c ∈ seeds \/ exists a, chaEdge cha a c) ->
            is_Some (parents cha !! c) /\ is_Some (children cha !! c).

(** The set [visited] is closed under the edges, up to the contracts still
    in [wave]. *)
Definition closedUpTo (cha : CHA) (visited : gset nat) (wave : list nat) : Prop :=
  forall v n, v ∈ visited -> chaEdge cha v n -> n ∈ visited \/ n ∈ wave.

Module SampleCHA.
(** [contract A] (10) with [#invariant], [contract B is A] (11), and an
    unrelated [contract C] (12). *)
Definition hierarchy : CHA :=
  mkCHA {[ 10 := []; 11 := [10]; 12 := [] ]} {[ 10 := [11]; 11 := []; 12 := [] ]}.
Definition annotations : list (nat * list AnnotationMetaData) :=
  [(10, [Sample.invariantA; Sample.defineA]); (12, [Sample.defineA])].
End SampleCHA.

(** *** Topological sort of the units ([topoSort] in [bin/scribble.ts]) *)

(** [Set.add] on a set of units (compared by identity) and on a set of unit
    ids, both kept in insertion order. *)
Definition setAdd (s : list SourceUnit) (u : SourceUnit) : list SourceUnit :=
  if decide (unit_id u ∈ map unit_id s) then s else s ++ [u].

Definition idSetAdd (s : list nat) (x : nat) : list nat :=
  if decide (x ∈ s) then s else s ++ [x].

(** The maps of [topoSort].  The values of [importersM] are [Set] objects
    that two keys may share, so the map holds a handle and [importerSets]
    the set behind each handle; the handle of a set is the id of the unit
    for which [getOrInit] created it. *)
Record TopoState : Type := mkTopo {
  importersM : gmap nat nat;
  importerSets : gmap nat (list SourceUnit);
  nImportsM : gmap nat Z
}.

(** [new Map(units.map((unit) => [unit.absolutePath, unit]))]: later entries
    replace earlier ones. *)
Definition mkPathMap (units : list SourceUnit) : gmap string SourceUnit :=
  foldl (fun m u => <[absolutePath u := u]> m) ∅ units.

(** The set that [importersM] holds for a unit; a unit without entry reads
    as the empty set that [getOrInit] would create for it. *)
Definition importersOf (st : TopoState) (unitId : nat) : list SourceUnit :=
  match importersM st !! unitId with
  | Some handle => default [] (importerSets st !! handle)
  | None => []
  end.

(** The body of the loop over [unit.vImportDirectives]. *)
Definition recordImport (pathMap : gmap string SourceUnit) (u : SourceUnit)
           (acc : TopoState * list nat) (imp : ImportDirective)
  : Outcome (TopoState * list nat) :=
  let st := acc.1 in
  match pathMap !! vSourceUnit_absolutePath imp with
  | None => Thrown ""
  | Some importee =>
      let importees := idSetAdd acc.2 (unit_id importee) in
      (* getOrInit(importee, importersM, new Set()) *)
      let init :=
        match importersM st !! unit_id importee with
        | Some handle => (handle, importersM st, importerSets st)
        | None => (unit_id importee,
                   <[unit_id importee := unit_id importee]> (importersM st),
                   <[unit_id importee := []]> (importerSets st))
        end in
      let handle := init.1.1 in
      (* importers.add(unit) *)
      let sets := <[handle := setAdd (default [] (init.2 !! handle)) u]> init.2 in
      (* importersM.set(imp.vSourceUnit, importers) *)
      Returned (mkTopo (<[vSourceUnit imp := handle]> init.1.2) sets (nImportsM st),
                importees)
  end.

Fixpoint foldO {A B : Type} (f : B -> A -> Outcome B) (l : list A) (b : B) : Outcome B :=
  match l with
  | [] => Returned b
  | x :: rest => b' ← f b x; foldO f rest b'
  end.

(** The body of the first loop over the units. *)
Definition recordUnit (pathMap : gmap string SourceUnit) (st : TopoState) (u : SourceUnit)
  : Outcome TopoState :=
  acc ← foldO (recordImport pathMap u) (vImportDirectives u) (st, []);
  Returned (mkTopo (importersM acc.1) (importerSets acc.1)
                   (<[unit_id u := Z.of_nat (length acc.2)]> (nImportsM acc.1))).

(** The loop over the importers of the unit just sorted. *)
Fixpoint releaseImporters (n : gmap nat Z) (q importers : list SourceUnit)
  : Outcome (gmap nat Z * list SourceUnit) :=
  match importers with
  | [] => Returned (n, q)
  | importer :: rest =>
      match n !! unit_id importer with
      | None => Thrown ""
      | Some k =>
          let newNImports := (k - 1)%Z in
          _ ← assert (bool_decide (0 <= newNImports)%Z) "";
          releaseImporters (<[unit_id importer := newNImports]> n)
                           (if decide (newNImports = 0%Z) then q ++ [importer] else q)
                           rest
      end
  end.

(** The [while (q.length > 0)] loop; [None] means that the fuel ran out. *)
Fixpoint sortLoop (fuel : nat) (st : TopoState) (n : gmap nat Z) (q sorted : list SourceUnit)
  : option (Outcome (list SourceUnit)) :=
  match fuel with
  | 0 => None
  | S fuel =>
      match q with
      | [] => Some (Returned sorted)
      | cur :: q =>
          let sorted := sorted ++ [cur] in
          match releaseImporters n q (importersOf st (unit_id cur)) with
          | Returned (n', q') => sortLoop fuel st n' q' sorted
          | Exited msg code => Some (Exited msg code)
          | Thrown msg => Some (Thrown msg)
          end
      end
  end.

Definition topoSortFailure (sorted units : nat) : string :=
  "Topo sort didn't preserve list: sorted - " +:+ pretty sorted
    +:+ " original - " +:+ pretty units.

Definition topoSort (units : list SourceUnit) : option (Outcome (list SourceUnit)) :=
  let pathMap := mkPathMap units in
  match foldO (recordUnit pathMap) units (mkTopo ∅ ∅ ∅) with
  | Returned st =>
      let q := filter (fun u => nImportsM st !! unit_id u = Some 0%Z) units in
      match sortLoop (S (length units)) st (nImportsM st) q [] with
      | Some (Returned sorted) =>
          Some (_ ← assert (bool_decide (length sorted = length units))
                      (topoSortFailure (length sorted) (length units));
                Returned sorted)
      | other => other
      end
  | Exited msg code => Some (Exited msg code)
  | Thrown msg => Some (Thrown msg)
  end.

(** [u] imports [v], both units of the list. *)
Definition importsIn (units : list SourceUnit) (u v : SourceUnit) : Prop :=
  u ∈ units /\ v ∈ units /\ unit_id v ∈ map vSourceUnit (vImportDirectives u).

(** The units are distinct objects with distinct paths, and every import
    directive refers to the unit of the list that has the imported path. *)
Definition unitsClosed (units : list SourceUnit) : Prop :=
  NoDup (map unit_id units) /\ NoDup (map absolutePath units) /\
  forall u imp, u ∈ units -> imp ∈ vImportDirectives u ->
                exists v, v ∈ units /\ absolutePath v = vSourceUnit_absolutePath imp /\
                          unit_id v = vSourceUnit imp.

(** The ids of the units that [u] imports, as the set [importees] holds
    them. *)
Definition importeeIds (u : SourceUnit) : list nat :=
  foldl idSetAdd [] (map vSourceUnit (vImportDirectives u)).

(** The number of importees of [u] that are not among [done]. *)
Definition pending (done : list nat) (u : SourceUnit) : nat :=
  length (filter (fun x => x ∉ done) (importeeIds u)).

(** Every key of [importersM] holds the set created for that very unit. *)
Definition handlesOk (st : TopoState) : Prop :=
  forall k handle, importersM st !! k = Some handle -> handle = k.

(** The ids that the import directives of a unit refer to. *)
Definition importTargets (u : SourceUnit) : list nat :=
  map vSourceUnit (vImportDirectives u).

(** The invariant of the [while] loop of [topoSort]: the units sorted or
    queued are distinct units of the list; the counter of a unit is the
    number of its importees not yet sorted; the units sorted or queued are
    those whose importees are all sorted; and every sorted unit comes after
    its importees. *)
Definition sortInv (units : list SourceUnit) (n : gmap nat Z) (q sorted : list SourceUnit)
  : Prop :=
  NoDup (map unit_id (sorted ++ q)) /\
  (forall u, u ∈ sorted ++ q -> u ∈ units) /\
  (forall u, u ∈ units ->
             n !! unit_id u = Some (Z.of_nat (pending (map unit_id sorted) u))) /\
  (forall u, u ∈ units -> (u ∈ sorted ++ q <-> pending (map unit_id sorted) u = 0)) /\
  (forall i u, sorted !! i = Some u ->
               forall x, x ∈ importeeIds u ->
                         exists j v, j < i /\ sorted !! j = Some v /\ unit_id v = x).

(** What the first loop of [topoSort] leaves in the maps. *)
Definition graphBuilt (units : list SourceUnit) (st : TopoState) : Prop :=
  (forall v, v ∈ units ->
             NoDup (map unit_id (importersOf st (unit_id v))) /\
             forall u, u ∈ importersOf st (unit_id v) <-> importsIn units u v) /\
  (forall u, u ∈ units -> nImportsM st !! unit_id u = Some (Z.of_nat (pending [] u))).

Module SampleUnits.
(** [a.sol] imports [b.sol]; [x.sol] and [y.sol] import each other. *)
Definition unitB : SourceUnit := mkUnit 2 "b.sol" "b.sol" 1 [] [] [].
Definition unitA : SourceUnit := mkUnit 1 "a.sol" "a.sol" 0 [mkImport 2 "b.sol"] [] [].
Definition unitX : SourceUnit := mkUnit 4 "x.sol" "x.sol" 0 [mkImport 5 "y.sol"] [] [].
Definition unitY : SourceUnit := mkUnit 5 "y.sol" "y.sol" 1 [mkImport 4 "x.sol"] [] [].
End SampleUnits.

(** *** Flattening: name conflicts and broken references ([bin/scribble.ts]) *)

(** Definitions are objects shared between the units that declare them and
    the nodes that refer to them, and [fixNameConflicts] changes their
    [name] in place; so the declarations live in the AST context, indexed by
    node id, and units and references hold ids. *)
Inductive DeclKind : Set :=
| ContractDefinitionNode
| StructDefinitionNode
| EnumDefinitionNode
| FunctionDefinitionNode
| VariableDeclarationNode
| SourceUnitNode
| ImportDirectiveNode
| OtherDeclaration.

#[global] Instance DeclKind_eq_dec : EqDecision DeclKind.
Proof. solve_decision. Defined.

(** [node.vScope], and the result of [getTypeScope]: a unit, a contract, or
    some other node. *)
Inductive NodeScope : Set :=
| ScopeSourceUnit (unitId : nat)
| ScopeContractDefinition (contractId : nat)
| ScopeOtherNode.

#[global] Instance NodeScope_eq_dec : EqDecision NodeScope.
Proof. solve_decision. Defined.

Record Declaration : Type := mkDecl {
  decl_kind : DeclKind;
  decl_name : string;
  decl_vScope : NodeScope
}.

Definition ASTContext : Type := nat -> Declaration.

(** [def.name += suffix] *)
Definition appendToName (ctx : ASTContext) (def : nat) (suffix : string) : ASTContext :=
  fun x =>
    if decide (x = def)
    then mkDecl (decl_kind (ctx x)) (decl_name (ctx x) +:+ suffix) (decl_vScope (ctx x))
    else ctx x.

Inductive RefClass : Set := IdentifierNode | UserDefinedTypeNameNode | MemberAccessNode.

#[global] Instance RefClass_eq_dec : EqDecision RefClass.
Proof. solve_decision. Defined.

(** An [Identifier], [UserDefinedTypeName] or [MemberAccess]: its name (the
    member name of an access), the id of the declaration it refers to
    ([None] when [vReferencedDeclaration] is [undefined]), the result of
    [getTypeScope] on it, and the AST context that it is registered in. *)
Record RefNode : Type := mkRef {
  ref_id : nat;
  ref_class : RefClass;
  ref_name : string;
  ref_referencedDeclaration : option nat;
  ref_typeScope : NodeScope;
  ref_context : nat
}.

(** How the parent of a node holds it: as the value of a property (an own
    property, or one behind a getter and a setter of the prototype chain),
    as [vExpression] holds the base of a member access; or as an element of
    an array-valued property, as [vArguments] holds the arguments of a call.
    The walk of a unit reaches a node through its parent, so every node it
    reaches has one. *)
Inductive ChildSlot : Set := InProperty | InArray.

#[global] Instance ChildSlot_eq_dec : EqDecision ChildSlot.
Proof. solve_decision. Defined.

(** A node as the renaming pass sees it: one of the three classes that it
    selects, or a node of another class, with its [type] and id. *)
Inductive NodeLabel : Type :=
| Selected (node : RefNode)
| Unselected (type : string) (id : nat).

(** A node with its children, in the order of [node.children]. *)
#[warnings="-register-all"] Inductive NodeTree : Type :=
| TNode (label : NodeLabel) (children : list (ChildSlot * NodeTree)).

Definition refType (class : RefClass) : string :=
  match class with
  | IdentifierNode => "Identifier"
  | UserDefinedTypeNameNode => "UserDefinedTypeName"
  | MemberAccessNode => "MemberAccess"
  end.

Definition labelType (label : NodeLabel) : string :=
  match label with
  | Selected node => refType (ref_class node)
  | Unselected type _ => type
  end.

Definition labelId (label : NodeLabel) : nat :=
  match label with
  | Selected node => ref_id node
  | Unselected _ id => id
  end.

(** [memberAccess.vExpression] as the pass looks at it: an identifier with
    its referenced declaration, or another expression. *)
Inductive BaseExpression : Set :=
| BaseIdentifier (referencedDeclaration : option nat)
| BaseOtherExpression.

Definition labelBase (label : NodeLabel) : BaseExpression :=
  match label with
  | Selected node =>
      if decide (ref_class node = IdentifierNode)
      then BaseIdentifier (ref_referencedDeclaration node)
      else BaseOtherExpression
  | Unselected _ _ => BaseOtherExpression
  end.

(** The base of a member access is its one child. *)
Definition vExpression (children : list (ChildSlot * NodeTree)) : BaseExpression :=
  match children with
  | (_, TNode label _) :: _ => labelBase label
  | [] => BaseOtherExpression
  end.

(** A unit as flattening sees it: its id, its top-level contracts, structs
    and enums, and the trees of its children. *)
Record FlatUnit : Type := mkFlatUnit {
  flat_id : nat;
  flat_vContracts : list nat;
  flat_vStructs : list nat;
  flat_vEnums : list nat;
  flat_children : list (ChildSlot * NodeTree)
}.

Definition unitLabel (u : FlatUnit) : NodeLabel := Unselected "SourceUnit" (flat_id u).

(** [getOrInit(name, nameMap, []).push(def)], on a map that iterates in
    insertion order.  Modelled from the spec: [getOrInit] of [util] is not
    among the sources; it returns the value stored for the key, after
    storing the given initial value when there is none. *)
Fixpoint pushDef (nameMap : list (string * list nat)) (name : string) (def : nat)
  : list (string * list nat) :=
  match nameMap with
  | [] => [(name, [def])]
  | (n, defs) :: rest =>
      if decide (n = name) then (n, defs ++ [def]) :: rest
      else (n, defs) :: pushDef rest name def
  end.

(** The top-level definitions in the order in which [fixNameConflicts]
    meets them. *)
Definition topLevelDefs (units : list FlatUnit) : list nat :=
  units ≫= fun u => flat_vContracts u ++ flat_vStructs u ++ flat_vEnums u.

Definition collectNames (ctx : ASTContext) (units : list FlatUnit)
  : list (string * list nat) :=
  foldl (fun nameMap u =>
           let addAll := foldl (fun m def => pushDef m (decl_name (ctx def)) def) in
           addAll (addAll (addAll nameMap (flat_vContracts u)) (flat_vStructs u))
                  (flat_vEnums u))
        [] units.

(** [for (let defIdx = ...; defIdx < defs.length; defIdx++)
       defs[defIdx].name += `_${defIdx}`] from [defIdx] on. *)
Fixpoint renameFrom (ctx : ASTContext) (defIdx : nat) (defs : list nat) : ASTContext :=
  match defs with
  | [] => ctx
  | def :: rest => renameFrom (appendToName ctx def ("_" +:+ pretty defIdx)) (S defIdx) rest
  end.

Definition fixNameConflicts (units : list FlatUnit) (ctx : ASTContext) : ASTContext :=
  foldl (fun ctx entry => renameFrom ctx 1 (tail entry.2)) ctx (collectNames ctx units).

Module ExternalReferenceType.
Inductive t : Set := UserDefined | Builtin.
#[global] Instance eq_dec : EqDecision t.
Proof. solve_decision. Defined.
End ExternalReferenceType.

(** The getter of the host AST: an identifier with a declaration in the
    context is user-defined, any other is a builtin. *)
Definition vIdentifierType (node : RefNode) : ExternalReferenceType.t :=
  match ref_referencedDeclaration node with
  | Some _ => ExternalReferenceType.UserDefined
  | None => ExternalReferenceType.Builtin
  end.

(** [getFQName(def, atUseSite)]; the type scope of a function definition is
    its [vScope]. *)
Definition getFQName (ctx : ASTContext) (def : nat) (atUseSite : RefNode) : Outcome string :=
  if decide (decl_kind (ctx def) = ContractDefinitionNode)
  then Returned (decl_name (ctx def))
  else
    match decl_vScope (ctx def) with
    | ScopeOtherNode => Thrown ""
    | ScopeSourceUnit _ => Returned (decl_name (ctx def))
    | ScopeContractDefinition scope =>
        if decide (decl_kind (ctx def) = FunctionDefinitionNode /\
                   decl_vScope (ctx def) = ref_typeScope atUseSite)
        then Returned (decl_name (ctx def))
        else Returned (decl_name (ctx scope) +:+ "." +:+ decl_name (ctx def))
    end.

(** The classes of definition that the renaming pass looks at. *)
Definition isMaterial (kind : DeclKind) : bool :=
  bool_decide (kind ∈ [ContractDefinitionNode; StructDefinitionNode; EnumDefinitionNode;
                       FunctionDefinitionNode; VariableDeclarationNode]).

Definition isUnitOrContract (scope : NodeScope) : bool :=
  match scope with
  | ScopeSourceUnit _ | ScopeContractDefinition _ => true
  | ScopeOtherNode => false
  end.

(** The base of a member access is an identifier that refers to a source
    unit or to an import directive. *)
Definition baseIsUnit (ctx : ASTContext) (base : BaseExpression) : bool :=
  match base with
  | BaseIdentifier (Some b) =>
      bool_decide (decl_kind (ctx b) = SourceUnitNode \/
                   decl_kind (ctx b) = ImportDirectiveNode)
  | _ => false
  end.

(** [factory.makeIdentifierFor(def)], with the id the factory assigns; the
    node is registered in the context of the factory. *)
Definition makeIdentifierFor (ctx : ASTContext) (factoryContext newId def : nat)
           (place : RefNode) : RefNode :=
  mkRef newId IdentifierNode (decl_name (ctx def)) (Some def) (ref_typeScope place)
        factoryContext.

(** What a step of the pass leaves in the place of a node: the node
    itself, with the name it then has, or the node that [replaceNode] has
    put there. *)
Inductive Fixed : Type :=
| Kept (node : RefNode)
| Replaced (newNode : RefNode).

Definition fixedNode (fixed : Fixed) : RefNode :=
  match fixed with
  | Kept node => node
  | Replaced newNode => newNode
  end.

(** [replaceNode(oldNode, newNode)] for a node that [parent] holds in
    [slot].  The two nodes must be of one context.  The search through the
    own properties of the parent and through the accessors of its
    prototype chain finds a node that is the value of a property, and
    rebinds the property; it does not find an element of an array, and the
    final assertion fails.  The early return for a node without a parent is
    not taken: the pass calls [replaceNode] on nodes that the walk of a unit
    has reached below the unit. *)
Definition replaceNode (parent : NodeLabel) (slot : ChildSlot) (oldNode newNode : RefNode)
  : Outcome Fixed :=
  _ ← assert (bool_decide (ref_context oldNode = ref_context newNode)) "Context mismatch";
  match slot with
  | InProperty => Returned (Replaced newNode)
  | InArray =>
      Thrown ("Couldn't find child " +:+ refType (ref_class oldNode) +:+ "#"
                +:+ pretty (ref_id oldNode) +:+ " under parent " +:+ labelType parent
                +:+ "#" +:+ pretty (labelId parent))
  end.

(** The body of the loop of [fixRenamingErrors] for the node [refNode],
    which [parent] holds in [slot] and whose [vExpression] is [base]: what
    stands in the place of the node afterwards, and the next id of the
    factory. *)
Definition fixRef (ctx : ASTContext) (factoryContext nextId : nat) (parent : NodeLabel)
           (slot : ChildSlot) (base : BaseExpression) (refNode : RefNode)
  : Outcome (Fixed * nat) :=
  if decide (ref_class refNode = IdentifierNode /\
             vIdentifierType refNode <> ExternalReferenceType.UserDefined)
  then Returned (Kept refNode, nextId)
  else
    match ref_referencedDeclaration refNode with
    | None => Returned (Kept refNode, nextId)
    | Some def =>
        if negb (isMaterial (decl_kind (ctx def))) then Returned (Kept refNode, nextId)
        else if bool_decide (decl_kind (ctx def) = VariableDeclarationNode)
                && negb (isUnitOrContract (decl_vScope (ctx def))
                         && bool_decide (ref_class refNode = MemberAccessNode))
        then Returned (Kept refNode, nextId)
        else
          fqDefName ← getFQName ctx def refNode;
          if decide (ref_class refNode = MemberAccessNode)
          then
            if baseIsUnit ctx base
            then
              let newNode := makeIdentifierFor ctx factoryContext nextId def refNode in
              fixed ← replaceNode parent slot refNode newNode;
              Returned (fixed, S nextId)
            else Returned (Kept refNode, nextId)
          else
            if decide (fqDefName <> ref_name refNode)
            then Returned (Kept (mkRef (ref_id refNode) (ref_class refNode) fqDefName
                                       (ref_referencedDeclaration refNode)
                                       (ref_typeScope refNode) (ref_context refNode)),
                           nextId)
            else Returned (Kept refNode, nextId)
    end.

Section VisitChildren.
Context {A B : Type}.
Variable visit : ChildSlot -> nat -> A -> Outcome (B * nat).

(** The children of a node in turn, each from the factory id that the
    one before has left. *)
Fixpoint visitChildren (nextId : nat) (children : list (ChildSlot * A))
  : Outcome (list (ChildSlot * B) * nat) :=
  match children with
  | [] => Returned ([], nextId)
  | (slot, child) :: rest =>
      fixed ← visit slot nextId child;
      others ← visitChildren fixed.2 rest;
      Returned ((slot, fixed.1) :: others.1, others.2)
  end.
End VisitChildren.

(** The loop of [fixRenamingErrors] over the nodes that
    [getChildrenBySelector] has collected from a tree, which it does in
    the order of [walk]: a node before its children, and the children in
    order.  A node is dealt with once, and nothing that the loop changes
    before it comes to a node is read there.  When a member access has been
    replaced, the loop still comes to the nodes below it, which the tree
    holds no longer: what it does to them is done, and does not show in the
    tree. *)
Fixpoint fixTree (ctx : ASTContext) (factoryContext : nat) (parent : NodeLabel)
         (slot : ChildSlot) (nextId : nat) (tree : NodeTree) : Outcome (NodeTree * nat) :=
  match tree with
  | TNode label children =>
      let below := visitChildren (fun slot nextId child =>
                                    fixTree ctx factoryContext label slot nextId child) in
      match label with
      | Unselected _ _ =>
          fixed ← below nextId children;
          Returned (TNode label fixed.1, fixed.2)
      | Selected refNode =>
          here ← fixRef ctx factoryContext nextId parent slot (vExpression children) refNode;
          fixed ← below here.2 children;
          match here.1 with
          | Kept node => Returned (TNode (Selected node) fixed.1, fixed.2)
          | Replaced newNode => Returned (TNode (Selected newNode) [], fixed.2)
          end
      end
  end.

Fixpoint fixRenamingErrors (ctx : ASTContext) (factoryContext nextId : nat)
         (units : list FlatUnit) : Outcome (list FlatUnit * nat) :=
  match units with
  | [] => Returned ([], nextId)
  | u :: rest =>
      fixed ← visitChildren (fixTree ctx factoryContext (unitLabel u)) nextId
                            (flat_children u);
      others ← fixRenamingErrors ctx factoryContext fixed.2 rest;
      Returned (mkFlatUnit (flat_id u) (flat_vContracts u) (flat_vStructs u)
                           (flat_vEnums u) fixed.1
                  :: others.1, others.2)
  end.

(** A step that returns has returned, from some id of the factory between
    [lo] and [hi]. *)
Definition bodyReturned (ctx : ASTContext) (factoryContext lo hi : nat) (parent : NodeLabel) (slot : ChildSlot)
           (base : BaseExpression) (node : RefNode) (fixed : Fixed) : Prop :=
  exists m m', lo <= m /\ m' <= hi /\
               fixRef ctx factoryContext m parent slot base node = Returned (fixed, m').
(** A node that the loop comes to, with what it reads of its surroundings:
    the parent, the slot, and the base when the node is a member access. *)
Record Visit : Type := mkVisit {
  visit_node : RefNode;
  visit_parent : NodeLabel;
  visit_slot : ChildSlot;
  visit_vExpression : BaseExpression
}.

(** [getChildrenBySelector] with the selector of the pass, on the tree that
    [parent] holds in [slot]. *)
Fixpoint selectedNodes (parent : NodeLabel) (slot : ChildSlot) (tree : NodeTree)
  : list Visit :=
  match tree with
  | TNode label children =>
      match label with
      | Selected node => [mkVisit node parent slot (vExpression children)]
      | Unselected _ _ => []
      end
      ++ flat_map (fun child => selectedNodes label child.1 child.2) children
  end.

(** [unit.getChildrenBySelector(...)] *)
Definition getChildrenBySelector (u : FlatUnit) : list Visit :=
  flat_map (fun child => selectedNodes (unitLabel u) child.1 child.2) (flat_children u).


(** The number of definitions before position [i] that have the name of the
    definition at position [i]. *)
Definition earlierSameName (ctx : ASTContext) (defs : list nat) (i : nat) (def : nat) : nat :=
  length (filter (fun d => decl_name (ctx d) = decl_name (ctx def)) (take i defs)).

(** The entries of [nameMap] after the definitions [defs] have been added:
    one entry for each name, with the definitions of that name in order. *)
Definition grouped (ctx : ASTContext) (defs : list nat) (nameMap : list (string * list nat))
  : Prop :=
  NoDup (map fst nameMap) /\
  (forall n ds, (n, ds) ∈ nameMap -> ds = filter (fun d => decl_name (ctx d) = n) defs) /\
  (forall d, d ∈ defs -> decl_name (ctx d) ∈ map fst nameMap).

Section ChildrenFixed.
Variable related : ChildSlot -> NodeTree -> NodeTree -> Prop.

(** Two lists of children of the same length, with the same slots, and
    related one by one. *)
Fixpoint childrenFixed (children children' : list (ChildSlot * NodeTree)) : Prop :=
  match children, children' with
  | [], [] => True
  | (slot, child) :: rest, (slot', child') :: rest' =>
      slot' = slot /\ related slot child child' /\ childrenFixed rest rest'
  | _, _ => False
  end.
End ChildrenFixed.

(** The tree [tree'] is what stands in the place of [tree] when every
    selected node has been dealt with as [R] says: a node of another class
    is as before; a selected node that was kept has its children, dealt
    with in the same way; and a node that was replaced has given way to a
    new node without children. *)
Fixpoint treeFixed (R : NodeLabel -> ChildSlot -> BaseExpression -> RefNode -> Fixed -> Prop)
         (parent : NodeLabel) (slot : ChildSlot) (tree tree' : NodeTree) : Prop :=
  match tree, tree' with
  | TNode label children, TNode label' children' =>
      let below := childrenFixed (fun slot child child' =>
                                    treeFixed R label slot child child') in
      match label, label' with
      | Unselected type id, Unselected type' id' =>
          type' = type /\ id' = id /\ below children children'
      | Selected node, Selected node' =>
          (R parent slot (vExpression children) node (Kept node') /\
           below children children') \/
          (R parent slot (vExpression children) node (Replaced node') /\ children' = [])
      | _, _ => False
      end
  end.



Module SampleFlatten.
(** [a.sol] (unit 1) declares [contract C] (3) and the constant [X] (7);
    [b.sol] (unit 2) declares [contract C] (4), [struct C] (5) and
    [contract D] (6), imports [a.sol] as the unit [A] and [X] under the
    alias [Y]; in [D] a state variable refers to the contract [C] of
    [b.sol], another has the initial value [Y], and a statement holds the
    expression [A.C]. *)
Definition context : ASTContext := fun x =>
  match x with
  | 1 | 2 => mkDecl SourceUnitNode "" ScopeOtherNode
  | 3 => mkDecl ContractDefinitionNode "C" (ScopeSourceUnit 1)
  | 4 => mkDecl ContractDefinitionNode "C" (ScopeSourceUnit 2)
  | 5 => mkDecl StructDefinitionNode "C" (ScopeSourceUnit 2)
  | 6 => mkDecl ContractDefinitionNode "D" (ScopeSourceUnit 2)
  | 7 => mkDecl VariableDeclarationNode "X" (ScopeSourceUnit 1)
  | _ => mkDecl OtherDeclaration "" ScopeOtherNode
  end.
Definition refC : RefNode :=
  mkRef 10 UserDefinedTypeNameNode "C" (Some 4) (ScopeContractDefinition 6) 0.
Definition refY : RefNode :=
  mkRef 11 IdentifierNode "Y" (Some 7) (ScopeContractDefinition 6) 0.
Definition refAC : RefNode :=
  mkRef 12 MemberAccessNode "C" (Some 3) (ScopeContractDefinition 6) 0.
Definition refA : RefNode :=
  mkRef 13 IdentifierNode "A" (Some 1) (ScopeContractDefinition 6) 0.
Definition contractD (statement : NodeTree) : ChildSlot * NodeTree :=
  (InArray,
   TNode (Unselected "ContractDefinition" 6)
     [(InArray, TNode (Unselected "VariableDeclaration" 30)
                  [(InProperty, TNode (Selected refC) [])]);
      (InArray, TNode (Unselected "VariableDeclaration" 31)
                  [(InProperty, TNode (Selected refY) [])]);
      (InArray, statement)]).
Definition accessAC : NodeTree :=
  TNode (Selected refAC) [(InProperty, TNode (Selected refA) [])].
Definition unitA : FlatUnit := mkFlatUnit 1 [3] [] [] [].
Definition unitB : FlatUnit :=
  mkFlatUnit 2 [4; 6] [5] []
    [contractD (TNode (Unselected "ExpressionStatement" 32) [(InProperty, accessAC)])].
(** The same unit with the call [f(A.C)] for a statement: the member
    access is an element of the arguments of the call. *)
Definition unitCall : FlatUnit :=
  mkFlatUnit 2 [4; 6] [5] []
    [contractD (TNode (Unselected "FunctionCall" 33) [(InArray, accessAC)])].
Definition renamed : ASTContext := fixNameConflicts [unitA; unitB] context.
(** [b.sol] after the pass, with the identifier that the factory makes
    from the id [newId]. *)
Definition unitB' (newId : nat) : FlatUnit :=
  mkFlatUnit 2 [4; 6] [5] []
    [(InArray,
      TNode (Unselected "ContractDefinition" 6)
        [(InArray, TNode (Unselected "VariableDeclaration" 30)
                     [(InProperty,
                       TNode (Selected (mkRef 10 UserDefinedTypeNameNode "C_1" (Some 4)
                                              (ScopeContractDefinition 6) 0)) [])]);
         (InArray, TNode (Unselected "VariableDeclaration" 31)
                     [(InProperty, TNode (Selected refY) [])]);
         (InArray, TNode (Unselected "ExpressionStatement" 32)
                     [(InProperty,
                       TNode (Selected (mkRef newId IdentifierNode "C" (Some 3)
                                              (ScopeContractDefinition 6) 0)) [])])])].
End SampleFlatten.

(** *** Sequences of calls on a type environment *)

(** A call that updates a [TypeEnv]: [define(node, typ)] or
    [defineUserFunction(scope, fun)]. *)
Inductive TypeEnvCall (SType : Type) : Type :=
| CallDefine (node : nat) (typ : SType)
| CallDefineUserFunction (scope : nat) (fn : SUserFunctionDefinition).

Arguments CallDefine {SType} node typ.
Arguments CallDefineUserFunction {SType} scope fn.

Definition applyCall {SType : Type} (env : TypeEnv.t SType) (call : TypeEnvCall SType)
  : TypeEnv.t SType :=
  match call with
  | CallDefine node typ => TypeEnv.define SType env node typ
  | CallDefineUserFunction scope fn => TypeEnv.defineUserFunction env scope fn
  end.

(** The environment after the calls, the earliest first. *)
Definition applyCalls {SType : Type} (calls : list (TypeEnvCall SType))
           (env : TypeEnv.t SType) : TypeEnv.t SType :=
  foldl applyCall env calls.

(** The types that the calls gave to a node, the earliest first. *)
Definition typesDefined {SType : Type} (calls : list (TypeEnvCall SType)) (node : nat)
  : list SType :=
  omap (fun call => match call with
                    | CallDefine n typ => if decide (n = node) then Some typ else None
                    | CallDefineUserFunction _ _ => None
                    end) calls.

(** *** Lookups of the test utilities ([test/integration/utils.ts]) *)

(** The inner loop of [findContract], over [unit.vContracts]. *)
Fixpoint findContract_loop (name : string) (contracts : list ContractDefinition)
  : option ContractDefinition :=
  match contracts with
  | [] => None
  | contract :: rest =>
      if decide (contract_name contract = name) then Some contract
      else findContract_loop name rest
  end.

(** [findContract(name, sources)]; it ends in [throw new Error(``)]. *)
Fixpoint findContract (name : string) (sources : list SourceUnit)
  : Outcome ContractDefinition :=
  match sources with
  | [] => Thrown ""
  | srcUnit :: rest =>
      match findContract_loop name (vContracts srcUnit) with
      | Some contract => Returned contract
      | None => findContract name rest
      end
  end.

Fixpoint findFunction_loop (name : string) (fns : list FunctionDefinition)
  : Outcome FunctionDefinition :=
  match fns with
  | [] => Thrown ""
  | fn :: rest => if decide (name = fun_name fn) then Returned fn
                  else findFunction_loop name rest
  end.

Definition findFunction (name : string) (contract : ContractDefinition)
  : Outcome FunctionDefinition :=
  findFunction_loop name (vFunctions contract).

(** *** Compiling a test source ([toAst] in [test/integration/utils.ts]) *)

Record CompileFailure : Type := mkCompileFailure {
  compilerVersion : string;
  errors : list string
}.

Section ToAst.
(** The result of the host compiler and the units that the reader builds
    from it. *)
Variables (CompileData Units : Type).
(** [new VersionDetectionStrategy(content, ...).select()]: the candidate
    compiler versions, in the order in which they are tried. *)
Variable select : string -> list string.
(** [compile(fileName, content, compilerVersion, finder, [])], where
    [finder] is [createFileSystemImportFinder(fileName, files, [])]: the
    finder records in the map [files] the sources it resolves, so the call
    gives the map as it leaves it, and the result of the compiler. *)
Variable compile : string -> string -> string -> gmap string string
                   -> gmap string string * Outcome CompileData.
Variable detectCompileErrors : CompileData -> list string.
(** [new ASTReader().read(data)] *)
Variable read : CompileData -> Outcome Units.

Definition compilerFailuresMessage (failures : list CompileFailure) : string :=
  String.concat newline
    ("Compiler failures detected:"
       :: map (fun failure => compilerVersion failure +:+ ":" +:+ newline
                                +:+ String.concat newline (errors failure))
              failures).

(** The loop over the versions, with the map [files] and the failures
    collected so far, and what follows the loop.  Every attempt hands the
    same map to its finder. *)
Fixpoint toAst_loop (fileName content : string) (versions : list string)
         (files : gmap string string) (failures : list CompileFailure)
  : Outcome (Units * gmap string string * string) :=
  match versions with
  | [] =>
      if decide (length failures = 0)
      then Thrown "Unexpected empty compiler failures array"
      else Thrown (compilerFailuresMessage failures)
  | version :: rest =>
      let compiled := compile fileName content version files in
      data ← compiled.2;
      let errors := detectCompileErrors data in
      if decide (length errors = 0)
      then
        units ← read data;
        Returned (units, compiled.1, version)
      else toAst_loop fileName content rest compiled.1
                      (failures ++ [mkCompileFailure version errors])
  end.

(** [toAst(fileName, content)]: the units, the file map and the version
    used (the reader itself is left out of the result). *)
Definition toAst (fileName content : string)
  : Outcome (Units * gmap string string * string) :=
  toAst_loop fileName content (select content) (<[fileName := content]> ∅) [].

(** The versions [versions] are tried in turn from the map [files]; with
    each one the file compiles, but with errors; [failed] are the failures
    recorded for them and [files'] is the map after the last attempt. *)
Fixpoint allFail (fileName content : string) (versions : list string)
         (files : gmap string string) (failed : list CompileFailure)
         (files' : gmap string string) : Prop :=
  match versions, failed with
  | [], [] => files' = files
  | version :: rest, failure :: others =>
      let compiled := compile fileName content version files in
      (exists data, compiled.2 = Returned data /\
                    detectCompileErrors data <> [] /\
                    failure = mkCompileFailure version (detectCompileErrors data)) /\
      allFail fileName content rest compiled.1 others files'
  | _, _ => False
  end.
End ToAst.

(** A compiler that rejects the file with the first version, meeting the
    import of [b.sol] on the way, and accepts it with the second. *)
Definition sampleCompile (fileName content version : string) (files : gmap string string)
  : gmap string string * Outcome (list string) :=
  (<["b.sol" := "contract B { }"]> files,
   Returned (if decide (version = "0.7.5") then ["ParserError"] else [])).

(** *** Invariants and completion of the worklist loop of [instrumentFiles] *)

(** The annotations recorded in the context are those of the worklist
    entries, in order. *)
Definition annotationsRecorded (st : InstrState) : Prop :=
  ctx_annotations st = worklist st ≫= (fun item => item.2).

(** A command that keeps an invariant of the state, however it ends. *)
Definition preserves {A : Type} (I : InstrState -> Prop) (m : Instr A) : Prop :=
  forall st st' o, I st -> m st = (st', o) -> I st'.

(** From [st] to [st'] the list of changed units stayed as it was, the
    worklist only grew, and [changed] was set exactly if it grew. *)
Definition marksChange (st st' : InstrState) : Prop :=
  changedSourceUnits st' = changedSourceUnits st /\
  length (worklist st) <= length (worklist st') /\
  changed st' = changed st || bool_decide (length (worklist st) < length (worklist st')).

Definition marking {A : Type} (m : Instr A) : Prop :=
  forall st st' o, m st = (st', o) -> marksChange st st'.

(** A command that returns, from whatever state, exactly when [Q] holds. *)
Definition returnsIff {A : Type} (m : Instr A) (Q : Prop) : Prop :=
  forall st, (exists st' a, m st = (st', Returned a)) <-> Q.

Section InstrumentFilesConditions.
Variable extract : nat -> list AnnotationMetaData + AnnotationError.
Variable check : AnnotationMetaData -> ContractDefinition -> option FunctionDefinition
                 -> option AnnotationError.
Variable files : gmap string string.
Variable contractInvMap : gmap nat (list AnnotationMetaData).
Variable contractsNeedingInstr : gset nat.

(** The annotations of a function with a body can be extracted and pass the
    checker. *)
Definition functionInstrumentable (contract : ContractDefinition) (fn : FunctionDefinition)
  : Prop :=
  is_Some (vBody fn) ->
  exists annotations,
    extract (fun_id fn) = inl annotations /\
    forall annot, annot ∈ annotations -> check annot contract (Some fn) = None.

(** The annotations of the contract pass the checker; and unless it is an
    interface, it is not a library that would get a contract-level entry,
    and its functions are instrumentable. *)
Definition contractInstrumentable (contract : ContractDefinition) : Prop :=
  (forall annot, annot ∈ default [] (contractInvMap !! contract_id contract) ->
                 check annot contract None = None) /\
  (contract_kind contract <> ContractKind.Interface ->
   (wantsContractEntry contractInvMap contractsNeedingInstr contract = true ->
    contract_kind contract <> ContractKind.Library) /\
   forall fn, fn ∈ vFunctions contract -> functionInstrumentable contract fn).

(** The unit has its source text in [ctx.files], extraction succeeds on its
    free functions, and its contracts are instrumentable. *)
Definition unitInstrumentable (srcUnit : SourceUnit) : Prop :=
  is_Some (files !! sourceEntryKey srcUnit) /\
  (forall fn, fn ∈ unit_vFunctions srcUnit ->
              exists annotations, extract (fun_id fn) = inl annotations) /\
  (forall contract, contract ∈ vContracts srcUnit -> contractInstrumentable contract).
End InstrumentFilesConditions.

(** *** What the renaming pass keeps *)

(** What [fixRenamingErrors] leaves of a node in the node that stands in
    its place: the declaration referred to and the type scope; and also the
    class, the id and the context when the node was kept; a node that was
    replaced was a member access and has given way to an identifier whose
    id the factory assigned. *)
Definition sameReferent (nextId nextId' : nat) (node : RefNode) (fixed : Fixed) : Prop :=
  ref_referencedDeclaration (fixedNode fixed) = ref_referencedDeclaration node /\
  ref_typeScope (fixedNode fixed) = ref_typeScope node /\
  match fixed with
  | Kept node' =>
      ref_class node' = ref_class node /\ ref_id node' = ref_id node /\
      ref_context node' = ref_context node
  | Replaced newNode =>
      ref_class node = MemberAccessNode /\ ref_class newNode = IdentifierNode /\
      nextId <= ref_id newNode < nextId'
  end.

(** A member access on a unit or an import refers to a definition at file
    level, as in the host AST: a contract, or a definition whose scope is a
    unit. *)
Definition unitMemberAtFileLevel (ctx : ASTContext) (v : Visit) : Prop :=
  forall def,
    ref_class (visit_node v) = MemberAccessNode ->
    baseIsUnit ctx (visit_vExpression v) = true ->
    ref_referencedDeclaration (visit_node v) = Some def ->
    decl_kind (ctx def) = ContractDefinitionNode \/
    exists unitId, decl_vScope (ctx def) = ScopeSourceUnit unitId.

Module SampleCollision.
(** One unit that declares the contracts [C] (1), [C] (2) and [C_1] (3). *)
Definition context : ASTContext := fun x =>
  match x with
  | 1 | 2 => mkDecl ContractDefinitionNode "C" (ScopeSourceUnit 0)
  | 3 => mkDecl ContractDefinitionNode "C_1" (ScopeSourceUnit 0)
  | _ => mkDecl OtherDeclaration "" ScopeOtherNode
  end.
Definition units : list FlatUnit := [mkFlatUnit 0 [1; 2; 3] [] [] []].
End SampleCollision.

(** *** Parsing source triples ([parseSrcTriple] in [util/metadata.ts])

    A string is the sequence of its code units, and the functions of the
    host below are modelled on code units below 256.  A number that holds
    an integer is a [Z], and [None] stands for [NaN]. *)

(** The white space and line terminators that [Number.parseInt] skips. *)
Definition isWhiteSpace (c : Ascii.ascii) : bool :=
  bool_decide (Ascii.nat_of_ascii c ∈ [9; 10; 11; 12; 13; 32; 160]).

Fixpoint trimStart (s : string) : string :=
  match s with
  | String c rest => if isWhiteSpace c then trimStart rest else s
  | EmptyString => s
  end.

(** The value of a digit or letter as a digit of some radix. *)
Definition digitValue (c : Ascii.ascii) : option Z :=
  let n := Z.of_nat (Ascii.nat_of_ascii c) in
  if (48 <=? n)%Z && (n <=? 57)%Z then Some (n - 48)%Z
  else if (97 <=? n)%Z && (n <=? 122)%Z then Some (n - 87)%Z
  else if (65 <=? n)%Z && (n <=? 90)%Z then Some (n - 55)%Z
  else None.

(** The digits of the radix at the start of [s], read from the left; [acc]
    is the value read so far, [None] when no digit has been read yet. *)
Fixpoint parseDigits (radix : Z) (s : string) (acc : option Z) : option Z :=
  match s with
  | String c rest =>
      match digitValue c with
      | Some d =>
          if (d <? radix)%Z
          then parseDigits radix rest (Some (default 0 acc * radix + d)%Z)
          else acc
      | None => acc
      end
  | EmptyString => acc
  end.

Definition stripSign (s : string) : Z * string :=
  match s with
  | String c rest =>
      if decide (c = "-"%char) then ((-1)%Z, rest)
      else if decide (c = "+"%char) then (1%Z, rest)
      else (1%Z, s)
  | EmptyString => (1%Z, s)
  end.

(** With no radix given, a prefix [0x] or [0X] selects radix 16. *)
Definition stripHexPrefix (s : string) : Z * string :=
  match s with
  | String c1 (String c2 rest) =>
      if decide (c1 = "0"%char /\ (c2 = "x"%char \/ c2 = "X"%char)) then (16%Z, rest)
      else (10%Z, s)
  | _ => (10%Z, s)
  end.

(** [Number.parseInt(s)] *)
Definition parseInt (s : string) : option Z :=
  let signed := stripSign (trimStart s) in
  let prefixed := stripHexPrefix signed.2 in
  (fun mathInt => signed.1 * mathInt)%Z <$> parseDigits prefixed.1 prefixed.2 None.

(** [s.split(sep)] for a separator of one code unit. *)
Fixpoint split (sep : Ascii.ascii) (s : string) : list string :=
  match s with
  | EmptyString => [""]
  | String c rest =>
      if decide (c = sep) then "" :: split sep rest
      else match split sep rest with
           | part :: parts => String c part :: parts
           | [] => [String c ""]
           end
  end.

(** [parseSrcTriple(src)]: the array that the cast presents as a triple. *)
Definition parseSrcTriple (src : string) : list (option Z) :=
  map parseInt (split ":"%char src).

(** A string of decimal digits, at least one. *)
Definition isDecimal (s : string) : Prop :=
  s <> "" /\
  forall c, c ∈ String.list_ascii_of_string s ->
            (48 <= Z.of_nat (Ascii.nat_of_ascii c) <= 57)%Z.

Module SampleTriples.
(** A reading of the array as a record, for the strings that hold three
    integers. *)
Definition parse (src : string) : SrcTriple :=
  match parseSrcTriple src with
  | [Some a; Some b; Some c] => mkSrcTriple a b c
  | _ => mkSrcTriple 0 0 0
  end.
End SampleTriples.

(** *** Where the entries of the source map come from *)

Section SrcMapEntries.
Variable parse : string -> SrcTriple.
Variable pp : ASTNode -> string.
Variable ppList : list string -> string.
Variable ctx : InstrumentationContext.
Variable newSrcMap : gmap nat (Z * Z).
Variables (originalSourceList instrSourceList : list string).

(** An entry for a node of an original unit: the node is not new, is not
    structured documentation and has a range in the printed output; the
    entry pairs that range, in the file of the unit, with the node's own
    range renumbered to the unit's place in the original source list. *)
Definition fromWalkedNode (sortedUnits : list WalkedUnit) (utils : SourceUnit)
           (entry : string * string) : Prop :=
  exists wu node newSrc instrFileIdx,
    wu ∈ sortedUnits /\ unit_id (wu_unit wu) <> unit_id utils /\
    node ∈ wu_descendants wu /\
    node_src node <> "0:0:0" /\ node_class node <> IsStructuredDocumentation /\
    newSrcMap !! node_id node = Some newSrc /\
    getInstrFileIdx pp ppList (unitNode (wu_unit wu)) (outputMode ctx) instrSourceList
      = Returned instrFileIdx /\
    entry = (ppRange newSrc instrFileIdx,
             reNumber parse (node_src node)
                      (indexOf originalSourceList (absolutePath (wu_unit wu)))).

(** An entry for an assertion that checks a property: it pairs the range of
    the assertion in the printed output with the location of the
    annotation in its original file. *)
Definition fromCheck (entry : string * string) : Prop :=
  exists property assertions assertion assertionSrc instrFileIdx,
    (property, assertions) ∈ instrumetnedCheck ctx /\ assertion ∈ assertions /\
    newSrcMap !! node_id assertion = Some assertionSrc /\
    getInstrFileIdx pp ppList assertion (outputMode ctx) instrSourceList
      = Returned instrFileIdx /\
    entry = (ppRange assertionSrc instrFileIdx,
             pretty (annotationLoc property).1 +:+ ":"
               +:+ pretty (annotationLoc property).2 +:+ ":"
               +:+ raw_src_fileIdx property).
End SrcMapEntries.

(** *** The source text of each unit (the merge loop of [bin/scribble.ts]) *)

(** The body of the loop over the units of a target: a path that has no
    text yet gets the text that the target's files hold for the unit. *)
Definition addContents (files : gmap string string) (contentsMap : gmap string string)
           (srcUnit : SourceUnit) : gmap string string :=
  if decide (is_Some (contentsMap !! absolutePath srcUnit)) then contentsMap
  else
    match files !! sourceEntryKey srcUnit with
    | Some contents => <[absolutePath srcUnit := contents]> contentsMap
    | None => contentsMap
    end.

(** [contentsMap] after the loop over the targets; a target is given by its
    units ([groupsMap.get(target)]) and its files ([filesMap.get(target)]). *)
Definition mergeContents (groups : list (list SourceUnit * gmap string string))
  : gmap string string :=
  foldl (fun contentsMap group => foldl (addContents group.2) contentsMap group.1) ∅ groups.

(** The texts that the targets offer for a path, in the order of the
    loop. *)
Definition offeredContents (path : string)
           (groups : list (list SourceUnit * gmap string string)) : list string :=
  groups ≫= fun group =>
    omap (fun srcUnit => if decide (absolutePath srcUnit = path)
                         then group.2 !! sourceEntryKey srcUnit else None) group.1.

(** *** Joining the printed units ([flat] and [json] modes, [bin/scribble.ts]) *)

Definition isParameterList (node : ASTNode) : bool :=
  match node_class node with
  | IsParameterList _ => true
  | _ => false
  end.

Section Flatten.
Variable pp : ASTNode -> string.
(** [newContents]: the text that [print] produced for each unit. *)
Variable newContents : gmap nat string.
(** [newSrcMap]: the range of each printed node in the text of its unit. *)
Variable newSrcMap : gmap nat (Z * Z).

(** The callback of [unit.walkChildren]. *)
Definition flattenNode (flatContents : string) (flatSrcMap : gmap nat (Z * Z))
           (node : ASTNode) : Outcome (gmap nat (Z * Z)) :=
  match newSrcMap !! node_id node with
  | None =>
      _ ← assert (isParameterList node) ("Missing source for node " +:+ pp node);
      Returned flatSrcMap
  | Some localSrc =>
      Returned (<[node_id node := (Z.of_nat (String.length flatContents) + localSrc.1,
                                   localSrc.2)%Z]> flatSrcMap)
  end.

(** The body of the loop over [sortedUnits]; appending the text of a unit
    that [newContents] does not hold appends [undefined]. *)
Definition flattenUnit (acc : string * gmap nat (Z * Z)) (wu : WalkedUnit)
  : Outcome (string * gmap nat (Z * Z)) :=
  let flatContents := if decide (acc.1 <> "") then acc.1 +:+ newline else acc.1 in
  flatSrcMap ← foldO (flattenNode flatContents) (wu_descendants wu) acc.2;
  Returned (flatContents +:+ default "undefined" (newContents !! unit_id (wu_unit wu)),
            flatSrcMap).

(** [flatContents] and [flatSrcMap] after the loop. *)
Definition flattenUnits (sortedUnits : list WalkedUnit)
  : Outcome (string * gmap nat (Z * Z)) :=
  foldO flattenUnit sortedUnits ("", ∅).
End Flatten.

Module SampleFlat.
(** Two printed units, each with one printed node: the opening brace of
    [contract A { }] and that of [library L { }]. *)
Definition braceA : ASTNode := mkNode 60 "11:1:0" IsOtherNode (Some "a.sol").
Definition braceL : ASTNode := mkNode 61 "10:1:1" IsOtherNode (Some "l.sol").
Definition units : list WalkedUnit :=
  [mkWalkedUnit Sample.unitA [braceA]; mkWalkedUnit Sample.unitL [braceL]].
Definition printedText : gmap nat string :=
  {[ 1 := "contract A { }"; 2 := "library L { }" ]}.
Definition printedRanges : gmap nat (Z * Z) := {[ 60 := (11, 1)%Z; 61 := (10, 1)%Z ]}.
End SampleFlat.

(** *** Writing the instrumented files ([files] mode, [bin/scribble.ts]) *)

(** The world outside the process: the files, as a map from their names to
    their contents, and the lines printed on stderr. *)
Record World : Type := mkWorld {
  fileSystem : gmap string string;
  stderrLines : list string
}.

(** Commands on the world; the world at a throw is the one reached. *)
Definition IO (A : Type) : Type := World -> World * Outcome A.

Definition io_ret {A : Type} (a : A) : IO A := fun w => (w, Returned a).

Definition io_bind {A B : Type} (m : IO A) (k : A -> IO B) : IO B :=
  fun w =>
    match m w with
    | (w', Returned a) => k a w'
    | (w', Exited s c) => (w', Exited s c)
    | (w', Thrown s) => (w', Thrown s)
    end.

Fixpoint io_forEach {A : Type} (l : list A) (body : A -> IO unit) : IO unit :=
  match l with
  | [] => io_ret tt
  | x :: rest => io_bind (body x) (fun _ => io_forEach rest body)
  end.

(** [console.error(line)] *)
Definition consoleError (line : string) : IO unit :=
  fun w => (mkWorld (fileSystem w) (stderrLines w ++ [line]), Returned tt).

(** [fse.writeFileSync(file, contents)]: creates the file or replaces its
    contents. *)
Definition writeFileSync (file contents : string) : IO unit :=
  fun w => (mkWorld (<[file := contents]> (fileSystem w)) (stderrLines w), Returned tt).

(** [fse.copyFileSync(from, to)]: replaces [to]; throws when [from] does not
    exist. *)
Definition copyFileSync (from to : string) : IO unit :=
  fun w =>
    match fileSystem w !! from with
    | Some contents =>
        (mkWorld (<[to := contents]> (fileSystem w)) (stderrLines w), Returned tt)
    | None => (w, Thrown ("ENOENT: no such file or directory, copyfile '" +:+ from
                            +:+ "' -> '" +:+ to +:+ "'"))
    end.

(** [copy(from, to, options)] *)
Definition copy (quiet : bool) (from to : string) : IO unit :=
  io_bind (if quiet then io_ret tt
           else consoleError ("Copying " +:+ from +:+ " to " +:+ to)) (fun _ =>
  copyFileSync from to).

(** The output of [files] mode: the instrumented version of every changed
    unit, the utilities unit, and under [--arm] the swap.  [newContents] is
    the text that [printUnits] produced for each unit. *)
Definition writeInstrumentedFiles (quiet arm : bool) (newContents : nat -> string)
           (changedUnits : list SourceUnit) (utils : SourceUnit) : IO unit :=
  io_bind (io_forEach changedUnits (fun srcUnit =>
             let instrumentedFileName := absolutePath srcUnit +:+ ".instrumented" in
             io_bind (if quiet then io_ret tt
                      else consoleError (absolutePath srcUnit +:+ " -> "
                                           +:+ instrumentedFileName)) (fun _ =>
             writeFileSync instrumentedFileName (newContents (unit_id srcUnit)))))
          (fun _ =>
  io_bind (writeFileSync (absolutePath utils) (newContents (unit_id utils))) (fun _ =>
  if arm
  then io_forEach changedUnits (fun srcUnit =>
         let instrumentedFileName := absolutePath srcUnit +:+ ".instrumented" in
         let originalFileName := absolutePath srcUnit +:+ ".original" in
         io_bind (copy quiet (absolutePath srcUnit) originalFileName) (fun _ =>
         copy quiet instrumentedFileName (absolutePath srcUnit)))
  else io_ret tt)).

(** The names of the files that the output of [files] mode touches. *)
Definition outputNames (changedUnits : list SourceUnit) (utils : SourceUnit) : list string :=
  absolutePath utils
    :: map absolutePath changedUnits
    ++ map (fun u => absolutePath u +:+ ".instrumented") changedUnits
    ++ map (fun u => absolutePath u +:+ ".original") changedUnits.

(** *** Comparing ASTs ([isomorphic] in [test/integration/utils.ts]) *)

(** The value of a field of a node: a number, a string, a boolean or a
    bigint, which are the values that [isomorphic] compares, or anything
    else (an object, an array, [undefined]). *)
Inductive FieldValue : Type :=
| NumberValue (z : Z)
| StringValue (s : string)
| BooleanValue (b : bool)
| BigintValue (z : Z)
| OtherValue.

#[global] Instance FieldValue_eq_dec : EqDecision FieldValue.
Proof. solve_decision. Defined.

(** A node as [isomorphic] sees it: its constructor, the map that
    [getFieldValues()] returns, and its children. *)
#[warnings="-register-all"] Inductive TreeNode : Type :=
| mkTree (constructorName : string) (fieldValues : gmap string FieldValue)
         (children : list TreeNode).

Definition isPrimitive (v : FieldValue) : bool :=
  match v with
  | OtherValue => false
  | _ => true
  end.

(** The loop over [aProps.entries()]: no field other than [src] and [id]
    holds a primitive value in [a] that differs from what [b] holds. *)
Definition fieldsAgree (aProps bProps : gmap string FieldValue) : bool :=
  forallb (fun entry : string * FieldValue =>
             if decide (entry.1 = "src" \/ entry.1 = "id") then true
             else negb (isPrimitive entry.2
                        && negb (bool_decide (bProps !! entry.1 = Some entry.2))))
          (map_to_list aProps).

Fixpoint isomorphic (a b : TreeNode) : Outcome bool :=
  match a, b with
  | mkTree aConstructor aProps aChildren, mkTree bConstructor bProps bChildren =>
      if negb (bool_decide (aConstructor = bConstructor)) then Returned false
      else
        _ ← assert (bool_decide (size aProps = size bProps))
              "Objects of the same type should have the same number of fields";
        if negb (fieldsAgree aProps bProps) then Returned false
        else if negb (bool_decide (length aChildren = length bChildren)) then Returned false
        else
          (fix loop (aChildren bChildren : list TreeNode) : Outcome bool :=
             match aChildren, bChildren with
             | aChild :: aRest, bChild :: bRest =>
                 match isomorphic aChild bChild with
                 | Returned true => loop aRest bRest
                 | other => other
                 end
             | _, _ => Returned true
             end) aChildren bChildren
  end.

(** The tree with the values of the fields [src] and [id] of every node
    changed by [move]. *)
Fixpoint relocate (move : string -> FieldValue -> FieldValue) (a : TreeNode) : TreeNode :=
  match a with
  | mkTree aConstructor aProps aChildren =>
      mkTree aConstructor (alter (move "src") "src" (alter (move "id") "id" aProps))
             (map (relocate move) aChildren)
  end.

Module SampleTree.
(** [x + 1], as a binary operation over an identifier and a literal. *)
Definition identifier : TreeNode :=
  mkTree "Identifier" {[ "id" := NumberValue 7; "src" := StringValue "10:1:0";
                         "name" := StringValue "x" ]} [].
Definition literal : TreeNode :=
  mkTree "Literal" {[ "id" := NumberValue 8; "src" := StringValue "14:1:0";
                      "value" := StringValue "1" ]} [].
Definition sum : TreeNode :=
  mkTree "BinaryOperation" {[ "id" := NumberValue 9; "src" := StringValue "10:5:0";
                              "operator" := StringValue "+" ]} [identifier; literal].
End SampleTree.

(** *** Disarming ([--disarm], [bin/scribble.ts]) *)

(** [s.replace(pattern, replacement)] for a string pattern: the first
    occurrence is replaced, if there is one. *)
Definition replaceFirst (pattern replacement s : string) : string :=
  match String.index 0 pattern s with
  | Some i =>
      String.substring 0 i s +:+ replacement
        +:+ String.substring (i + String.length pattern)
                             (String.length s - (i + String.length pattern)) s
  | None => s
  end.

(** [set.add(x)] on a [Set] of strings, kept in insertion order. *)
Definition strSetAdd (s : list string) (x : string) : list string :=
  if decide (x ∈ s) then s else s ++ [x].

(** [fse.moveSync(src, dest, { overwrite: true })] of fs-extra 9: the source
    must exist and differ from the destination, which is replaced. *)
Definition moveSync (src dest : string) : IO unit :=
  fun w =>
    match fileSystem w !! src with
    | None => (w, Thrown ("ENOENT: no such file or directory, stat '" +:+ src +:+ "'"))
    | Some contents =>
        if decide (src = dest)
        then (w, Thrown "Source and destination must not be the same.")
        else (mkWorld (<[dest := contents]> (delete src (fileSystem w))) (stderrLines w),
              Returned tt)
    end.

(** [fse.removeSync(filePath)]: no error when the file does not exist. *)
Definition removeSync (filePath : string) : IO unit :=
  fun w => (mkWorld (delete filePath (fileSystem w)) (stderrLines w), Returned tt).

(** [move(from, to, options)] *)
Definition move (quiet : bool) (from to : string) : IO unit :=
  io_bind (if quiet then io_ret tt
           else consoleError ("Moving " +:+ from +:+ " to " +:+ to)) (fun _ =>
  moveSync from to).

(** [remove(filePath, options)] *)
Definition remove (quiet : bool) (filePath : string) : IO unit :=
  io_bind (if quiet then io_ret tt
           else consoleError ("Removing " +:+ filePath)) (fun _ =>
  removeSync filePath).

(** The part of the loop over the targets that [--disarm] runs for one
    target, given the names of the files of its compilation
    ([targetResult.files]): the backups and the instrumented files that
    exist are collected in [originalFiles] and [instrumentationFiles];
    [helperFileName] is the path of the utilities file, [None] when the
    utilities directory is [--]. *)
Definition collectTarget (fs : gmap string string) (helperFileName : option string)
           (acc : list string * list string) (targetNames : list string)
  : list string * list string :=
  let acc :=
    foldl (fun acc targetName =>
             let originalFileName := targetName +:+ ".original" in
             let instrFileName := targetName +:+ ".instrumented" in
             (if bool_decide (is_Some (fs !! originalFileName))
              then strSetAdd acc.1 originalFileName else acc.1,
              if bool_decide (is_Some (fs !! instrFileName))
              then strSetAdd acc.2 instrFileName else acc.2))
          acc targetNames in
  match helperFileName with
  | Some helper =>
      if bool_decide (is_Some (fs !! helper)) then (acc.1, strSetAdd acc.2 helper) else acc
  | None => acc
  end.

(** What [--disarm] does once every target has compiled: each backup is
    moved back, and the instrumented files are removed unless
    [--keep-instrumented] is given. *)
Definition disarm (quiet keepInstrumented : bool) (helperFileName : option string)
           (targetFiles : list (list string)) : IO unit :=
  fun w =>
    let sets := foldl (collectTarget (fileSystem w) helperFileName) ([], []) targetFiles in
    io_bind (io_forEach sets.1 (fun originalFileName =>
               move quiet originalFileName
                    (replaceFirst ".sol.original" ".sol" originalFileName)))
            (fun _ =>
    if keepInstrumented then io_ret tt
    else io_forEach sets.2 (remove quiet)) w.

(** The names of the targets' files are such that disarming can tell them
    from the files it made when arming: no name is the backup or the
    instrumented version of another or the utilities file, and the name of
    a backup maps back to the name it was made for (as it does for a name
    that ends in [.sol] and does not contain [.sol.original]). *)
Definition disarmable (helperFileName : option string) (names : list string) : Prop :=
  forall t, t ∈ names ->
    replaceFirst ".sol.original" ".sol" (t +:+ ".original") = t /\
    helperFileName <> Some t /\
    forall t', t' ∈ names -> t <> t' +:+ ".original" /\ t <> t' +:+ ".instrumented".

(** The part of [disarmable] that does not speak of the utilities file: no
    name is the backup or the instrumented version of another, and the name
    of a backup maps back to the name it was made for. *)
Definition restorable (names : list string) : Prop :=
  forall t, t ∈ names ->
    replaceFirst ".sol.original" ".sol" (t +:+ ".original") = t /\
    forall t', t' ∈ names -> t <> t' +:+ ".original" /\ t <> t' +:+ ".instrumented".

(** What the two sets hold after the loop has seen the targets with the
    files [names]: the backups that exist; and instrumented files that
    exist, all those of the names among them. *)
Definition collected (fs : gmap string string) (helperFileName : option string)
           (names : list string) (acc : list string * list string) : Prop :=
  NoDup acc.1 /\ NoDup acc.2 /\
  (forall x, x ∈ acc.1 <->
             exists t, t ∈ names /\ x = t +:+ ".original" /\ is_Some (fs !! x)) /\
  (forall x, x ∈ acc.2 ->
             is_Some (fs !! x) /\
             ((exists t, t ∈ names /\ x = t +:+ ".instrumented") \/ helperFileName = Some x)) /\
  (forall t, t ∈ names -> is_Some (fs !! (t +:+ ".instrumented")) ->
             t +:+ ".instrumented" ∈ acc.2).

(** ** Part II: properties *)

(** *** [contains] *)

Section ContainsOrder.
Variable parseSrcTriple : string -> SrcTriple.
Lemma contains_triples_unfold a b :
    contains parseSrcTriple (inl a) (inl b) = true <->
    src2 a = src2 b /\ (src0 a <= src0 b)%Z /\ (src0 b + src1 b <= src0 a + src1 a)%Z.
Proof.
    unfold contains. rewrite !andb_true_iff, Z.eqb_eq, Z.leb_le, Z.geb_le. tauto.
Qed.

(** C10: on well-formed source triples [contains] is reflexive, transitive
    and antisymmetric, and it only relates ranges of the same file. *)
Theorem contains_partial_order :
    (forall a, wf_triple a -> contains parseSrcTriple (inl a) (inl a) = true) /\
    (forall a b c, wf_triple a -> wf_triple b -> wf_triple c ->
        contains parseSrcTriple (inl a) (inl b) = true ->
        contains parseSrcTriple (inl b) (inl c) = true ->
        contains parseSrcTriple (inl a) (inl c) = true) /\
    (forall a b, wf_triple a -> wf_triple b ->
        contains parseSrcTriple (inl a) (inl b) = true ->
        contains parseSrcTriple (inl b) (inl a) = true -> a = b) /\
    (forall a b, wf_triple a -> wf_triple b ->
        contains parseSrcTriple (inl a) (inl b) = true -> src2 a = src2 b).
Proof.
    repeat split.
    - intros a _. apply contains_triples_unfold. lia.
    - intros a b c _ _ _ Hab Hbc.
      apply contains_triples_unfold in Hab, Hbc. apply contains_triples_unfold. lia.
    - intros [a0 a1 a2] [b0 b1 b2] _ _ Hab Hba.
      apply contains_triples_unfold in Hab, Hba. simpl in *.
      f_equal; lia.
    - intros a b _ _ Hab. apply contains_triples_unfold in Hab. tauto.
Qed.
End ContainsOrder.

Lemma contains_partial_order_witness :
  contains (fun _ => mkSrcTriple 0 0 0) (inl (mkSrcTriple 10 30 0)) (inl (mkSrcTriple 15 5 0))
  = true.
Proof.
  apply (proj1 (proj2 (contains_partial_order (fun _ => mkSrcTriple 0 0 0)))
               (mkSrcTriple 10 30 0) (mkSrcTriple 12 20 0) (mkSrcTriple 15 5 0)).
  - unfold wf_triple; simpl; lia.
  - unfold wf_triple; simpl; lia.
  - unfold wf_triple; simpl; lia.
  - reflexivity.
  - reflexivity.
Defined.

(** *** [pickVersion] *)

Lemma elem_of_uniq {A : Type} `{EqDecision A} (seen l : list A) (x : A) :
  x ∈ uniq seen l <-> x ∈ l /\ x ∉ seen.
Proof.
  revert seen; induction l as [|y l IH]; intros seen; simpl.
  - rewrite elem_of_nil. tauto.
  - destruct (decide (y ∈ seen)) as [Hy|Hy].
    + rewrite IH, elem_of_cons. split; [tauto|].
      intros [[->|?] ?]; tauto.
    + rewrite elem_of_cons, IH, !elem_of_cons. split.
      * intros [->|[? Hn]]; [tauto|]. split; [tauto|]. intros ?. apply Hn. tauto.
      * intros [[->|?] Hn]; [tauto|].
        destruct (decide (x = y)) as [->|Hne]; [tauto|]. right. split; [done|].
        intros [?|?]; tauto.
Qed.

Lemma NoDup_uniq {A : Type} `{EqDecision A} (seen l : list A) : NoDup (uniq seen l).
Proof.
  revert seen; induction l as [|y l IH]; intros seen; simpl.
  - constructor.
  - destruct (decide (y ∈ seen)); [apply IH|].
    constructor; [|apply IH]. rewrite elem_of_uniq, elem_of_cons. tauto.
Qed.

Lemma uniq_head {A : Type} `{EqDecision A} (x : A) (l : list A) :
  exists rest, uniq [] (x :: l) = x :: rest.
Proof. simpl. destruct (decide (x ∈ [])) as [H0|_]; [inversion H0|]. eauto. Qed.

Lemma uniq_all_equal {A : Type} `{EqDecision A} (v : A) (seen l : list A) :
  (forall x, x ∈ l -> x = v) -> uniq seen l = [] \/ uniq seen l = [v].
Proof.
  revert seen; induction l as [|y l IH]; intros seen Hall; simpl; [tauto|].
  assert (y = v) as -> by (apply Hall; left).
  assert (forall x, x ∈ l -> x = v) as Hl by (intros; apply Hall; by right).
  destruct (decide (v ∈ seen)); [by apply IH|].
  right. f_equal.
  destruct (IH (v :: seen) Hl) as [E|E]; [done|].
  assert (v ∈ uniq (v :: seen) l) as Hin by (rewrite E; left).
  apply elem_of_uniq in Hin as [_ Hn]. exfalso. apply Hn. left.
Qed.

(** C4: with one common version [pickVersion] returns it; with two distinct
    versions it prints the versions it detected and exits with code 1, and
    so returns nothing. *)
Theorem pickVersion_single_or_exit (versionUsedMap : list (string * string)) :
  (forall v, versionUsedMap <> [] ->
             (forall t v', (t, v') ∈ versionUsedMap -> v' = v) ->
             pickVersion versionUsedMap = Returned v) /\
  (forall t1 v1 t2 v2,
      (t1, v1) ∈ versionUsedMap -> (t2, v2) ∈ versionUsedMap -> v1 <> v2 ->
      (forall v, pickVersion versionUsedMap <> Returned v) /\
      exists versions,
        NoDup versions /\
        (forall v, v ∈ versions <-> exists t, (t, v) ∈ versionUsedMap) /\
        pickVersion versionUsedMap =
          Exited ("Multiple compiler versions detected: "
                    +:+ String.concat "," versions
                    +:+ ". Please specify an exact version to use with '--compiler-version'.")
                 1%Z).
Proof.
  split.
  - intros v Hne Hall. unfold pickVersion.
    destruct versionUsedMap as [|[t0 v0] m]; [done|]. simpl map.
    assert (forall x, x ∈ v0 :: map snd m -> x = v) as Hall'.
    { intros x Hx. change (v0 :: map snd m) with (map snd ((t0, v0) :: m)) in Hx.
      apply list_elem_of_fmap in Hx as [[t v'] [-> Hin]]. by apply (Hall t). }
    destruct (uniq_all_equal v [] (v0 :: map snd m) Hall') as [E|E]; rewrite E.
    + destruct (uniq_head v0 (map snd m)) as [rest Hr]. congruence.
    + done.
  - intros t1 v1 t2 v2 H1 H2 Hne.
    set (versions := uniq [] (map snd versionUsedMap)).
    assert (forall v, v ∈ versions <-> exists t, (t, v) ∈ versionUsedMap) as Hmem.
    { intros v. unfold versions. rewrite elem_of_uniq, list_elem_of_fmap. split.
      - intros [[[t v'] [-> Hin]] _]. eauto.
      - intros [t Hin]. split; [exists (t, v); eauto|]. apply not_elem_of_nil. }
    assert (pickVersion versionUsedMap =
          Exited ("Multiple compiler versions detected: "
                    +:+ String.concat "," versions
                    +:+ ". Please specify an exact version to use with '--compiler-version'.")
                 1%Z) as Hexit.
    { unfold pickVersion. fold versions.
      destruct versions as [|a [|b rest]] eqn:E; try reflexivity.
      exfalso. apply Hne.
      assert (v1 ∈ [a]) as Ha1 by (apply Hmem; eauto).
      assert (v2 ∈ [a]) as Ha2 by (apply Hmem; eauto).
      apply list_elem_of_singleton in Ha1, Ha2. congruence. }
    split.
    + intros v. rewrite Hexit. discriminate.
    + exists versions. split; [apply NoDup_uniq|]. split; [exact Hmem|exact Hexit].
Qed.

Lemma pickVersion_single_or_exit_witness :
  pickVersion [("a.sol", "0.6.12"); ("b.sol", "0.6.12")] = Returned "0.6.12" /\
  (forall v, pickVersion [("a.sol", "0.6.12"); ("b.sol", "0.7.5")] <> Returned v).
Proof.
  split.
  - apply (proj1 (pickVersion_single_or_exit _)); [done|].
    intros t v' Hin. repeat (apply elem_of_cons in Hin as [Hin|Hin]; [congruence|]).
    inversion Hin.
  - apply (proj2 (pickVersion_single_or_exit _) "a.sol" "0.6.12" "b.sol" "0.7.5").
    + left.
    + right; left.
    + discriminate.
Defined.

(** *** [TypeEnv] *)

Section TypeEnvFacts.
Context {SType : Type}.
Implicit Types (env : TypeEnv.t SType) (calls : list (nat * SUserFunctionDefinition)).

Local Abbreviation stored := TypeEnv.stored.

Lemma stored_defineUserFunction env scope fn c name :
    stored (TypeEnv.defineUserFunction env scope fn) c name =
      if decide (scope = c /\ ufun_name fn = name) then Some fn else stored env c name.
Proof.
    unfold stored, TypeEnv.defineUserFunction; simpl.
    destruct (decide (scope = c)) as [->|Hc].
    - rewrite lookup_insert_eq; simpl.
      destruct (decide (ufun_name fn = name)) as [->|Hn].
      + rewrite lookup_insert_eq. by rewrite decide_True.
      + rewrite lookup_insert_ne by done. rewrite decide_False by tauto.
        by destruct (TypeEnv.userFunctions env !! c).
    - rewrite lookup_insert_ne by done. by rewrite decide_False by tauto.
Qed.

Lemma stored_empty c name : stored (@TypeEnv.empty SType) c name = None.
Proof. unfold stored; simpl. by rewrite lookup_empty. Qed.

Lemma stored_defineAll calls env c name :
    stored (TypeEnv.defineAll calls env) c name =
      match TypeEnv.registered calls c name with
      | Some fn => Some fn
      | None => stored env c name
      end.
Proof.
    revert env. induction calls as [|[s fn] calls IH] using rev_ind; intros env.
    - reflexivity.
    - unfold TypeEnv.defineAll, TypeEnv.registered in *.
      rewrite foldl_app; simpl. rewrite stored_defineUserFunction, filter_app.
      rewrite filter_cons, filter_nil; simpl.
      destruct (decide (s = c /\ ufun_name fn = name)) as [Heq|Hne].
      + by rewrite last_snoc.
      + rewrite app_nil_r. apply IH.
Qed.

Lemma getUserFunction_loop_first env bases name i b fn :
    bases !! i = Some b ->
    stored env b name = Some fn ->
    (forall j b', j < i -> bases !! j = Some b' -> stored env b' name = None) ->
    TypeEnv.getUserFunction_loop env bases name = Some fn.
Proof.
    revert i; induction bases as [|b0 bases IH]; intros i Hi Hfn Hbefore; [done|].
    destruct i as [|i]; simpl in *.
    - injection Hi as ->. unfold stored in Hfn.
      destruct (TypeEnv.userFunctions env !! b) as [funM|]; simpl in Hfn; [|done].
      by rewrite Hfn.
    - assert (stored env b0 name = None) as H0 by (apply (Hbefore 0 b0); [lia|done]).
      assert (TypeEnv.getUserFunction_loop env bases name = Some fn) as Hrest.
      { apply (IH i); [done..|]. intros j b' Hj Hb'. apply (Hbefore (S j) b'); [lia|done]. }
      unfold stored in H0.
      destruct (TypeEnv.userFunctions env !! b0) as [funM|]; simpl in H0; [|done].
      by rewrite H0.
Qed.

Lemma getUserFunction_loop_none env bases name :
    (forall b, b ∈ bases -> stored env b name = None) ->
    TypeEnv.getUserFunction_loop env bases name = None.
Proof.
    induction bases as [|b0 bases IH]; intros Hall; [done|]. simpl.
    assert (stored env b0 name = None) as H0 by (apply Hall; left).
    assert (TypeEnv.getUserFunction_loop env bases name = None) as Hrest.
    { apply IH. intros b Hb. apply Hall. by right. }
    unfold stored in H0.
    destruct (TypeEnv.userFunctions env !! b0) as [funM|]; simpl in H0; [|done].
    by rewrite H0.
Qed.

(** C8: in an environment filled by [defineUserFunction] calls,
    [getUserFunction] returns what was registered for the first contract
    of the scope's linearized base list that defines the name, and
    [undefined] when none does; a definition in a contract that comes
    earlier in the list shadows the definitions of the later ones. *)
Theorem getUserFunction_first_definer calls (scope : ContractDefinition) (name : string) :
    let env := TypeEnv.defineAll calls (@TypeEnv.empty SType) in
    (forall i b fn,
        vLinearizedBaseContracts scope !! i = Some b ->
        TypeEnv.registered calls b name = Some fn ->
        (forall j b', j < i -> vLinearizedBaseContracts scope !! j = Some b' ->
                      TypeEnv.registered calls b' name = None) ->
        TypeEnv.getUserFunction env scope name = Some fn) /\
    ((forall b, b ∈ vLinearizedBaseContracts scope ->
                TypeEnv.registered calls b name = None) ->
     TypeEnv.getUserFunction env scope name = None) /\
    (forall derived rest fn,
        vLinearizedBaseContracts scope = derived :: rest ->
        TypeEnv.registered calls derived name = Some fn ->
        TypeEnv.getUserFunction env scope name = Some fn).
Proof.
    intros env.
    assert (forall c, stored env c name = TypeEnv.registered calls c name) as Hst.
    { intros c. unfold env. rewrite stored_defineAll, stored_empty.
      by destruct (TypeEnv.registered calls c name). }
    assert (forall i b fn,
        vLinearizedBaseContracts scope !! i = Some b ->
        TypeEnv.registered calls b name = Some fn ->
        (forall j b', j < i -> vLinearizedBaseContracts scope !! j = Some b' ->
                      TypeEnv.registered calls b' name = None) ->
        TypeEnv.getUserFunction env scope name = Some fn) as Hfirst.
    { intros i b fn Hi Hfn Hbefore. unfold TypeEnv.getUserFunction.
      apply (getUserFunction_loop_first _ _ _ i b); [done|by rewrite Hst|].
      intros j b' Hj Hb'. rewrite Hst. by apply (Hbefore j). }
    split; [exact Hfirst|]. split.
    - intros Hall. unfold TypeEnv.getUserFunction.
      apply getUserFunction_loop_none. intros b Hb. rewrite Hst. by apply Hall.
    - intros derived rest fn Hlin Hfn.
      apply (Hfirst 0 derived fn); [by rewrite Hlin|done|]. intros j b' Hj. lia.
Qed.
End TypeEnvFacts.

(** A base contract (id 1) and a derived contract (id 2) both define [f];
    the lookup from the derived contract finds the derived definition. *)
Lemma getUserFunction_first_definer_witness :
  TypeEnv.getUserFunction
    (TypeEnv.defineAll [(1, mkUserFun "f" 10); (2, mkUserFun "f" 20)] (@TypeEnv.empty unit))
    (mkContract 2 "Derived" ContractKind.Contract [2; 1] []) "f"
  = Some (mkUserFun "f" 20).
Proof.
  apply (proj1 (getUserFunction_first_definer
                  [(1, mkUserFun "f" 10); (2, mkUserFun "f" 20)]
                  (mkContract 2 "Derived" ContractKind.Contract [2; 1] []) "f") 0 2).
  - reflexivity.
  - vm_compute. reflexivity.
  - intros j b' Hj. lia.
Defined.

(** *** [instrumentFiles] *)

Section InstrumentFilesFacts.
Variable extract : nat -> list AnnotationMetaData + AnnotationError.
Variable scopeUnitPath : nat -> string.
Variable check : AnnotationMetaData -> ContractDefinition -> option FunctionDefinition
                 -> option AnnotationError.
Variable files : gmap string string.
Variable contractInvMap : gmap nat (list AnnotationMetaData).
Variable contractsNeedingInstr : gset nat.

Local Abbreviation visitFunction' := (visitFunction extract scopeUnitPath check).
Local Abbreviation visitContract' :=
  (visitContract extract scopeUnitPath check contractInvMap contractsNeedingInstr).
Local Abbreviation visitUnit' :=
  (visitUnit extract scopeUnitPath check files contractInvMap contractsNeedingInstr).
Local Abbreviation run :=
  (instrumentFiles_worklist extract scopeUnitPath check files contractInvMap
                            contractsNeedingInstr).
Local Abbreviation functionEntry' := (functionEntry extract contractsNeedingInstr).
Local Abbreviation contractEntries' :=
  (contractEntries extract contractInvMap contractsNeedingInstr).
Local Abbreviation wantsContractEntry := (wantsContractEntry contractInvMap contractsNeedingInstr).
Local Abbreviation contractVisited :=
  (contractVisited extract contractInvMap contractsNeedingInstr).

Lemma instr_bind_returned {A B : Type} (m : Instr A) (k : A -> Instr B) st st' b :
  instr_bind m k st = (st', Returned b) ->
  exists st1 a, m st = (st1, Returned a) /\ k a st1 = (st', Returned b).
Proof.
  unfold instr_bind. destruct (m st) as [st1 [a|s c|s]]; intros H; try discriminate.
  eauto.
Qed.

Lemma forEach_returned {A : Type} (l : list A) (body : A -> Instr unit)
      (items : A -> list WorkItem) (Q : A -> Prop) :
  (forall x, x ∈ l -> appends (body x) (items x) (Q x)) ->
  appends (forEach l body) (l ≫= items) (forall x, x ∈ l -> Q x).
Proof.
  induction l as [|x l IH]; intros Hbody st st' [] Hrun; simpl in *.
  - injection Hrun as <-. rewrite app_nil_r. split; [done|]. intros x Hx. inversion Hx.
  - apply instr_bind_returned in Hrun as (st1 & [] & Hx & Hrest).
    apply (Hbody x) in Hx as [Hw1 HQ]; [|left].
    apply IH in Hrest as [Hw2 HQs]; [|intros y Hy; apply Hbody; by right].
    split.
    + rewrite Hw2, Hw1. by rewrite <- app_assoc.
    + intros y Hy. apply elem_of_cons in Hy as [->|Hy]; auto.
Qed.

Lemma list_bind_nil {A B : Type} (l : list A) : l ≫= (fun _ => @nil B) = [].
Proof. induction l as [|x l IH]; csimpl; [done|by rewrite IH]. Qed.

Lemma forEach_liftO_returned {A : Type} (l : list A) (f : A -> Outcome unit) :
  appends (forEach l (fun x => liftO (f x))) [] True.
Proof.
  intros st st' a Hrun.
  apply (forEach_returned l _ (fun _ => []) (fun _ => True)) in Hrun as [Hw _].
  - split; [|done]. by rewrite Hw, list_bind_nil.
  - intros x _ s s' [] Hx. unfold liftO in Hx. injection Hx as <- _.
    by rewrite app_nil_r.
Qed.

Lemma visitFunction_returned srcUnit contract fn :
  appends (visitFunction' srcUnit contract
             (bool_decide (contract_id contract ∈ contractsNeedingInstr)) fn)
          (functionEntry' contract fn)
          (is_Some (vBody fn) -> is_Some (match extract (fun_id fn) with
                                          | inl a => Some a | inr _ => None end)).
Proof.
  intros st st' [] Hrun. unfold visitFunction, functionEntry in *.
  destruct (vBody fn) as [body|].
  - apply instr_bind_returned in Hrun as (st1 & annotations & Hget & Hrun).
    unfold liftO, getAnnotationsOrDie in Hget.
    destruct (extract (fun_id fn)) as [a|e].
    + injection Hget as <- <-.
      apply instr_bind_returned in Hrun as (st2 & [] & Htc & Hrun).
      apply forEach_liftO_returned in Htc as [Htc _]. rewrite app_nil_r in Htc.
      split; [|eauto].
      destruct (interposes _ contract fn a).
      * unfold pushWork in Hrun. injection Hrun as <-. simpl. by rewrite Htc.
      * injection Hrun as <-. by rewrite app_nil_r.
    + destruct (err_handled e); inversion Hget.
  - injection Hrun as <-. rewrite app_nil_r. split; [done|]. intros [? ?]; done.
Qed.

Lemma visitContract_returned srcUnit contract :
  appends (visitContract' srcUnit contract) (contractEntries' contract)
          (contractVisited contract).
Proof.
  intros st st' [] Hrun. unfold visitContract, contractEntries, contractVisited in *.
  apply instr_bind_returned in Hrun as (st1 & [] & Htc & Hrun).
  apply forEach_liftO_returned in Htc as [Htc _]. rewrite app_nil_r in Htc.
  destruct (bool_decide (contract_kind contract = ContractKind.Interface)) eqn:Hitf.
  - injection Hrun as <-. rewrite app_nil_r. split; [done|].
    apply bool_decide_eq_true in Hitf. done.
  - apply instr_bind_returned in Hrun as (st2 & [] & Hpush & Hrun).
    apply (forEach_returned _ _ (functionEntry' contract)
             (fun fn => is_Some (vBody fn) ->
                        is_Some (match extract (fun_id fn) with
                                 | inl a => Some a | inr _ => None end)))
      in Hrun as [Hw HQ]; [|intros fn _; apply visitFunction_returned].
    fold (wantsContractEntry contract) in *.
    destruct (wantsContractEntry contract) eqn:Hwant.
    + apply instr_bind_returned in Hpush as (st3 & [] & Hpush & Hassert).
      unfold pushWork in Hpush. injection Hpush as <-.
      unfold liftO, assert in Hassert.
      destruct (bool_decide (contract_kind contract ∈ _)) eqn:Hkind;
        simpl in Hassert; [discriminate|].
      injection Hassert as <-. simpl in Hw.
      split; [rewrite Hw, Htc; by rewrite <- app_assoc|].
      intros _. split; [|exact HQ]. intros _ Hlib.
      apply bool_decide_eq_false in Hkind. apply Hkind. rewrite Hlib. left.
    + injection Hpush as <-. split; [by rewrite Hw, Htc|].
      intros _. split; [done|exact HQ].
Qed.

Lemma visitUnit_returned srcUnit :
  appends (visitUnit' srcUnit) (vContracts srcUnit ≫= contractEntries')
          (forall c, c ∈ vContracts srcUnit -> contractVisited c).
Proof.
  intros st st' [] Hrun. unfold visitUnit in Hrun.
  apply instr_bind_returned in Hrun as (st1 & [] & Hreset & Hrun).
  injection Hreset as <-.
  apply instr_bind_returned in Hrun as (st2 & [] & Hfiles & Hrun).
  unfold liftO in Hfiles. injection Hfiles as <- _.
  apply instr_bind_returned in Hrun as (st3 & [] & Hfree & Hrun).
  apply (forEach_returned _ _ (fun _ => []) (fun _ => True)) in Hfree as [Hfree _].
  2:{ intros fn _ s s' [] Hfn.
      apply instr_bind_returned in Hfn as (s1 & a & Hget & Hret).
      unfold liftO in Hget. injection Hget as <- _. injection Hret as <-.
      by rewrite app_nil_r. }
  assert (worklist st3 = worklist st) as Hst3.
  { rewrite Hfree. simpl. by rewrite list_bind_nil, app_nil_r. }
  apply instr_bind_returned in Hrun as (st4 & [] & Hcontracts & Hrun).
  apply (forEach_returned _ _ contractEntries' contractVisited) in Hcontracts
    as [Hw HQ]; [|intros c _; apply visitContract_returned].
  split; [|exact HQ].
  destruct (changed st4); injection Hrun as <-; simpl; by rewrite Hw, Hst3.
Qed.

Lemma instrumentFiles_worklist_returned units st :
  run units = (st, Returned tt) ->
  worklist st = units ≫= (fun u => vContracts u ≫= contractEntries') /\
  (forall u c, u ∈ units -> c ∈ vContracts u -> contractVisited c).
Proof.
  intros Hrun. unfold instrumentFiles_worklist in Hrun.
  apply (forEach_returned _ _ (fun u => vContracts u ≫= contractEntries')
           (fun u => forall c, c ∈ vContracts u -> contractVisited c))
    in Hrun as [Hw HQ]; [|intros u _; apply visitUnit_returned].
  split; [exact Hw|]. intros u c Hu. by apply HQ.
Qed.

Lemma elem_of_functionEntry contract fn item :
  item ∈ functionEntry' contract fn <->
  exists annotations,
    item = (contract, Some fn, annotations) /\ is_Some (vBody fn) /\
    extract (fun_id fn) = inl annotations /\
    interposes (bool_decide (contract_id contract ∈ contractsNeedingInstr))
               contract fn annotations = true.
Proof.
  unfold functionEntry. destruct (vBody fn) as [body|].
  - destruct (extract (fun_id fn)) as [a|e].
    + destruct (interposes _ contract fn a) eqn:Hi.
      * rewrite list_elem_of_singleton. split.
        -- intros ->. exists a. eauto.
        -- intros (a' & -> & _ & Ha' & _). congruence.
      * rewrite elem_of_nil. split; [done|].
        intros (a' & _ & _ & Ha' & Hi'). congruence.
    + rewrite elem_of_nil. split; [done|]. intros (a' & _ & _ & Ha' & _). congruence.
  - rewrite elem_of_nil. split; [done|]. intros (a' & _ & [? ?] & _). congruence.
Qed.

Lemma elem_of_contractEntries contract item :
  item ∈ contractEntries' contract <->
  contract_kind contract <> ContractKind.Interface /\
  ((item = (contract, None, default [] (contractInvMap !! contract_id contract))
    /\ wantsContractEntry contract = true)
   \/ exists fn, fn ∈ vFunctions contract /\ item ∈ functionEntry' contract fn).
Proof.
  unfold contractEntries. fold (wantsContractEntry contract).
  destruct (bool_decide (contract_kind contract = ContractKind.Interface)) eqn:Hitf.
  - apply bool_decide_eq_true in Hitf. rewrite elem_of_nil. tauto.
  - apply bool_decide_eq_false in Hitf.
    rewrite elem_of_app, list_elem_of_bind.
    destruct (wantsContractEntry contract).
    + rewrite list_elem_of_singleton. split.
      * intros [->|(fn & ? & ?)]; split; eauto.
      * intros [_ [[-> _]|(fn & ? & ?)]]; eauto.
    + rewrite elem_of_nil. split.
      * intros [[]|(fn & ? & ?)]; split; eauto.
      * intros [_ [[_ ?]|(fn & ? & ?)]]; [done|eauto].
Qed.

Lemma instr_bind_keeps {A B : Type} R (m : Instr A) (k : A -> Instr B) :
  keeps R m -> (forall a, keeps R (k a)) -> keeps R (instr_bind m k).
Proof.
  intros Hm Hk st st' o HR Hrun. unfold instr_bind in Hrun.
  destruct (m st) as [st1 [a|msg c|msg]] eqn:Hst.
  - apply (Hk a st1 st' o); [|done]. by apply (Hm st st1 (Returned a)).
  - injection Hrun as <- _. by apply (Hm st st1 (Exited msg c)).
  - injection Hrun as <- _. by apply (Hm st st1 (Thrown msg)).
Qed.

Lemma liftO_keeps {A : Type} R (o : Outcome A) : keeps R (liftO o).
Proof. intros st st' o' HR Hrun. unfold liftO in Hrun. by injection Hrun as <- _. Qed.

Lemma instr_ret_keeps {A : Type} R (a : A) : keeps R (instr_ret a).
Proof. intros st st' o' HR Hrun. unfold instr_ret in Hrun. by injection Hrun as <- _. Qed.

Lemma pushWork_keeps R item : R item -> keeps R (pushWork item).
Proof.
  intros Hitem st st' o HR Hrun. unfold pushWork in Hrun. injection Hrun as <- _.
  simpl. apply Forall_app. split; [done|]. by constructor.
Qed.

Lemma forEach_keeps {A : Type} R (l : list A) (body : A -> Instr unit) :
  (forall x, x ∈ l -> keeps R (body x)) -> keeps R (forEach l body).
Proof.
  induction l as [|x l IH]; intros Hbody; simpl.
  - apply instr_ret_keeps.
  - apply instr_bind_keeps; [apply Hbody; left|].
    intros _. apply IH. intros y Hy. apply Hbody. by right.
Qed.

Lemma visitContract_keeps srcUnit contract :
  keeps notInterfaceEntry (visitContract' srcUnit contract).
Proof.
  unfold visitContract. apply instr_bind_keeps.
  { apply forEach_keeps. intros a _. apply liftO_keeps. }
  intros _. destruct (bool_decide (contract_kind contract = ContractKind.Interface)) eqn:Hitf.
  - apply instr_ret_keeps.
  - apply bool_decide_eq_false in Hitf. apply instr_bind_keeps.
    + destruct (_ || _); [|apply instr_ret_keeps].
      apply instr_bind_keeps; [|intros _; apply liftO_keeps].
      apply pushWork_keeps. by intros _.
    + intros _. apply forEach_keeps. intros fn _. unfold visitFunction.
      destruct (vBody fn); [|apply instr_ret_keeps].
      apply instr_bind_keeps; [apply liftO_keeps|]. intros annotations.
      apply instr_bind_keeps; [apply forEach_keeps; intros a _; apply liftO_keeps|].
      intros _. destruct (interposes _ _ _ _); [|apply instr_ret_keeps].
      apply pushWork_keeps. intros Hnone. discriminate.
Qed.

Lemma instrumentFiles_worklist_keeps units st o :
  run units = (st, o) -> Forall notInterfaceEntry (worklist st).
Proof.
  intros Hrun. unfold instrumentFiles_worklist in Hrun.
  assert (keeps notInterfaceEntry (forEach units visitUnit')) as Hkeeps.
  2:{ apply (Hkeeps _ st o) in Hrun; [done|]. simpl. constructor. }
  apply forEach_keeps. intros u _. unfold visitUnit.
  apply instr_bind_keeps.
  { intros s s' o' HR Hs. by injection Hs as <- _. }
  intros _. apply instr_bind_keeps; [apply liftO_keeps|].
  intros _. apply instr_bind_keeps.
  { apply forEach_keeps. intros fn _.
    apply instr_bind_keeps; [apply liftO_keeps|intros; apply instr_ret_keeps]. }
  intros _. apply instr_bind_keeps.
  { apply forEach_keeps. intros c _. apply visitContract_keeps. }
  intros _ s s' o' HR Hs. destruct (changed s); by injection Hs as <- _.
Qed.

Lemma instr_bind_returns {A B : Type} (m : Instr A) (k : A -> Instr B) :
  returns m -> (forall a, returns (k a)) -> returns (instr_bind m k).
Proof.
  intros Hm Hk st. destruct (Hm st) as (st1 & a & Hst).
  destruct (Hk a st1) as (st2 & b & Hst2). exists st2, b.
  unfold instr_bind. by rewrite Hst.
Qed.

Lemma forEach_returns {A : Type} (l : list A) (body : A -> Instr unit) :
  (forall x, x ∈ l -> returns (body x)) -> returns (forEach l body).
Proof.
  induction l as [|x l IH]; intros Hbody; simpl.
  - intros st. by exists st, tt.
  - apply instr_bind_returns; [apply Hbody; left|].
    intros _. apply IH. intros y Hy. apply Hbody. by right.
Qed.

Lemma instrumentFiles_worklist_returns units :
  (forall u, u ∈ units -> is_Some (files !! sourceEntryKey u)) ->
  (forall n, exists annotations, extract n = inl annotations) ->
  (forall a c f, check a c f = None) ->
  (forall u c, u ∈ units -> c ∈ vContracts u -> wantsContractEntry c = true ->
               contract_kind c = ContractKind.Contract) ->
  exists st, run units = (st, Returned tt).
Proof.
  intros Hfiles Hextract Hcheck Hkind.
  assert (forall n, returns (liftO (getAnnotationsOrDie extract scopeUnitPath n))) as Hget.
  { intros n st. destruct (Hextract n) as [a Ha]. exists st, a.
    unfold liftO, getAnnotationsOrDie. by rewrite Ha. }
  assert (forall (l : list AnnotationMetaData) fn c path,
             returns (forEach l (fun annot => liftO (tcOrDie check annot fn c path)))) as Htc.
  { intros l fn c path. apply forEach_returns. intros a _ st. exists st, tt.
    unfold liftO, tcOrDie. by rewrite Hcheck. }
  assert (returns (forEach units visitUnit')) as Hall.
  { apply forEach_returns. intros u Hu. unfold visitUnit.
    apply instr_bind_returns; [intros st; eauto|]. intros _.
    apply instr_bind_returns.
    { intros st. exists st, tt. unfold liftO, assert.
      by rewrite bool_decide_eq_true_2 by auto. }
    intros _. apply instr_bind_returns.
    { apply forEach_returns. intros fn _.
      apply instr_bind_returns; [apply Hget|]. intros _ st. by exists st, tt. }
    intros _. apply instr_bind_returns.
    2:{ intros _ st. destruct (changed st); eauto. }
    apply forEach_returns. intros c Hc. unfold visitContract.
    apply instr_bind_returns; [apply Htc|]. intros _.
    destruct (bool_decide (contract_kind c = ContractKind.Interface));
      [intros st; by exists st, tt|].
    apply instr_bind_returns.
    - fold (wantsContractEntry c). destruct (wantsContractEntry c) eqn:Hwant.
      + apply instr_bind_returns; [intros st; eauto|]. intros _ st. exists st, tt.
        unfold liftO, assert. rewrite (Hkind u c Hu Hc Hwant).
        rewrite bool_decide_eq_false_2; [done|].
        intros Hin. repeat (apply elem_of_cons in Hin as [Hin|Hin]; [discriminate|]).
        inversion Hin.
      + intros st. by exists st, tt.
    - intros _. apply forEach_returns. intros fn _. unfold visitFunction.
      destruct (vBody fn); [|intros st; by exists st, tt].
      apply instr_bind_returns; [apply Hget|]. intros annotations.
      apply instr_bind_returns; [apply Htc|]. intros _.
      destruct (interposes _ _ _ _); intros st; eauto. }
  destruct (Hall (mkInstrState [] [] false [])) as (st & [] & Hst). by exists st.
Qed.

(** C6: in a contract that needs state-invariant instrumentation, a
    function with a body enters the worklist exactly when it carries an
    annotation, or it is externally visible and state-changing, its
    contract is of kind [contract] and it is a plain function; a function
    without a body never enters it.  (The host compiler gives the functions
    of an interface no body.)  The first conjunct states when the loop runs
    to its end. *)
Theorem function_interposed_iff (units : list SourceUnit) :
  ((forall u, u ∈ units -> is_Some (files !! sourceEntryKey u)) ->
   (forall n, exists annotations, extract n = inl annotations) ->
   (forall a c f, check a c f = None) ->
   (forall u c, u ∈ units -> c ∈ vContracts u -> wantsContractEntry c = true ->
                contract_kind c = ContractKind.Contract) ->
   exists st, run units = (st, Returned tt)) /\
  (forall st u c fn,
      run units = (st, Returned tt) ->
      u ∈ units -> c ∈ vContracts u -> fn ∈ vFunctions c ->
      contract_id c ∈ contractsNeedingInstr ->
      (contract_kind c = ContractKind.Interface -> vBody fn = None) ->
      (is_Some (vBody fn) ->
       ((exists annotations, (c, Some fn, annotations) ∈ worklist st) <->
        ((exists annotations, extract (fun_id fn) = inl annotations /\ 0 < length annotations) \/
         (isExternallyVisible fn = true /\ isChangingState fn = true /\
          contract_kind c = ContractKind.Contract /\
          fun_kind fn = FunctionKind.Function)))) /\
      (vBody fn = None -> forall annotations, (c, Some fn, annotations) ∉ worklist st)).
Proof.
  split; [apply instrumentFiles_worklist_returns|].
  intros st u c fn Hrun Hu Hc Hfn Hneeds Hitf.
  apply instrumentFiles_worklist_returned in Hrun as [Hw Hvisited].
  assert (forall item, item ∈ worklist st <->
            exists u' c', u' ∈ units /\ c' ∈ vContracts u' /\ item ∈ contractEntries' c')
    as Hmem.
  { intros item. rewrite Hw, list_elem_of_bind. split.
    - intros (u' & Hin & Hu'). apply list_elem_of_bind in Hin as (c' & ? & ?). eauto.
    - intros (u' & c' & ? & ? & ?). exists u'. split; [|done].
      apply list_elem_of_bind. eauto. }
  assert (forall annotations, (c, Some fn, annotations) ∈ worklist st ->
            is_Some (vBody fn) /\ extract (fun_id fn) = inl annotations /\
            interposes true c fn annotations = true) as Hfwd.
  { intros annotations Hin. apply Hmem in Hin as (u' & c' & _ & _ & Hin).
    apply elem_of_contractEntries in Hin as [_ [[Heq _]|(fn' & _ & Hin)]];
      [discriminate|].
    apply elem_of_functionEntry in Hin as (a' & Heq & Hbody & Hext & Hint).
    injection Heq as <- <- <-.
    by rewrite bool_decide_eq_true_2 in Hint by done. }
  split.
  - intros Hbody.
    assert (contract_kind c <> ContractKind.Interface) as Hnitf.
    { intros Hk. apply Hitf in Hk. rewrite Hk in Hbody. by destruct Hbody. }
    destruct (Hvisited u c Hu Hc Hnitf) as [_ Hext].
    specialize (Hext fn Hfn Hbody).
    destruct (extract (fun_id fn)) as [a|e] eqn:Ha; [|by destruct Hext].
    assert (interposes true c fn a = true ->
            exists annotations, (c, Some fn, annotations) ∈ worklist st) as Hback.
    { intros Hint. exists a. apply Hmem. exists u, c. split; [done|]. split; [done|].
      apply elem_of_contractEntries. split; [done|]. right. exists fn. split; [done|].
      apply elem_of_functionEntry. exists a.
      by rewrite bool_decide_eq_true_2 by done. }
    split.
    + intros [annotations Hin]. apply Hfwd in Hin as (_ & Hext' & Hint).
      unfold interposes in Hint. apply orb_true_iff in Hint as [Hlen|Hrest].
      * left. exists annotations. split; [done|]. by apply bool_decide_eq_true in Hlen.
      * right. rewrite !andb_true_iff, !bool_decide_eq_true in Hrest. tauto.
    + intros [(annotations & Hext' & Hlen)|(Hvis & Hchg & Hck & Hfk)]; apply Hback.
      * assert (annotations = a) as -> by congruence.
        unfold interposes. by rewrite bool_decide_eq_true_2 by done.
      * unfold interposes. rewrite Hvis, Hchg. simpl.
        rewrite (bool_decide_eq_true_2 _ Hck), (bool_decide_eq_true_2 _ Hfk).
        apply orb_true_r.
  - intros Hbody annotations Hin. apply Hfwd in Hin as ([b Hb] & _). congruence.
Qed.

(** What the loop guarantees of its contract-level entries: none is an
    interface, and when the loop runs to its end none is a library. *)
Lemma contract_entries_exclude_interfaces_and_libraries
        (units : list SourceUnit) st o c annotations :
  run units = (st, o) ->
  (c, None, annotations) ∈ worklist st ->
  contract_kind c <> ContractKind.Interface /\
  (o = Returned tt -> contract_kind c <> ContractKind.Library).
Proof.
  intros Hrun Hin. split.
  - apply instrumentFiles_worklist_keeps in Hrun.
    rewrite Forall_forall in Hrun. by apply (Hrun _ Hin).
  - intros ->. apply instrumentFiles_worklist_returned in Hrun as [Hw Hvisited].
    rewrite Hw in Hin. apply list_elem_of_bind in Hin as (u & Hin & Hu).
    apply list_elem_of_bind in Hin as (c' & Hin & Hc').
    apply elem_of_contractEntries in Hin as [Hnitf [[Heq Hwant]|(fn & _ & Hin)]].
    + injection Heq as -> _. by apply (Hvisited u c' Hu Hc' Hnitf).
    + apply elem_of_functionEntry in Hin as (a' & Heq & _). discriminate.
Qed.
End InstrumentFilesFacts.

Lemma function_interposed_iff_witness :
  (exists annotations,
      (Sample.contractA, Some Sample.fnInc, annotations) ∈ worklist Sample.runA.1) <->
  ((exists annotations,
       Sample.noAnnotations (fun_id Sample.fnInc) = inl annotations /\ 0 < length annotations) \/
   (isExternallyVisible Sample.fnInc = true /\ isChangingState Sample.fnInc = true /\
    contract_kind Sample.contractA = ContractKind.Contract /\
    fun_kind Sample.fnInc = FunctionKind.Function)).
Proof.
  refine (proj1 (proj2 (function_interposed_iff Sample.noAnnotations Sample.unitPath
                          Sample.checks Sample.sources {[ 10 := [Sample.invariantA; Sample.defineA] ]}
                          {[ 10 ]} [Sample.unitA])
                       Sample.runA.1 Sample.unitA Sample.contractA Sample.fnInc
                       _ _ _ _ _ _) _).
  - vm_compute. reflexivity.
  - left.
  - left.
  - left.
  - vm_compute. reflexivity.
  - discriminate.
  - by eexists.
Defined.

Example runA_worklist :
  worklist Sample.runA.1
  = [(Sample.contractA, None, [Sample.invariantA; Sample.defineA]);
     (Sample.contractA, Some Sample.fnInc, [])].
Proof. vm_compute. reflexivity. Qed.

(** *** Metadata *)

Lemma bind_returned {A B : Type} (m : Outcome A) (k : A -> Outcome B) (b : B) :
  m ≫= k = Returned b -> exists a, m = Returned a /\ k a = Returned b.
Proof. destruct m as [a|msg c|msg]; intros H; try discriminate. eauto. Qed.

Lemma mapO_returns {A B : Type} (f : A -> Outcome B) (l : list A) :
  Forall (fun x => exists y, f x = Returned y) l -> exists ys, mapO f l = Returned ys.
Proof.
  induction 1 as [|x l [y Hy] _ [ys Hys]]; simpl; [eauto|].
  rewrite Hy; simpl. rewrite Hys; simpl. eauto.
Qed.

Section MetadataFacts.
Variable dedup : list string -> list string.
Variable pp : ASTNode -> string.
Variable ppList : list string -> string.
Variable ctx : InstrumentationContext.
Variable newSrcMap : gmap nat (Z * Z).

Local Abbreviation describeProperty' := (describeProperty dedup pp ppList ctx newSrcMap).
Local Abbreviation generatePropertyMap' := (generatePropertyMap dedup pp ppList ctx newSrcMap).
Local Abbreviation located' := (located pp ppList ctx newSrcMap).
Local Abbreviation recordable' := (recordable pp ppList ctx newSrcMap).

Lemma propertyTarget_returned annotation contract targetType :
  propertyTarget annotation = Returned (contract, targetType) <->
  enclosingContract (target annotation) = Some contract /\
  targetType = expectedTargetKind (target annotation).
Proof.
  unfold propertyTarget.
  destruct (target annotation) as [fn [c| |]|var [c| |]|c]; simpl; split;
    first [ intros [=]; subst; done | intros [[=] ->]; subst; done ].
Qed.

Lemma describeProperty_returned instrSourceList annotation desc :
  describeProperty' instrSourceList annotation = Returned desc ->
  describes ctx annotation desc.
Proof.
  unfold describeProperty. intros H.
  apply bind_returned in H as ([contract targetType] & Htarget & H).
  apply propertyTarget_returned in Htarget as [Hcontract ->].
  apply bind_returned in H as (statements & _ & H).
  apply bind_returned in H as (ranges & _ & H).
  apply bind_returned in H as (checks & _ & H).
  apply bind_returned in H as (checkRanges & _ & H).
  injection H as <-. exists contract. cbn [pd_id pd_contract pd_filename pd_target
    pd_targetName pd_message pd_debugEventSignature pd_propertySource
    pd_annotationSource fst snd]. unfold rangeToSrc.
  repeat split; done.
Qed.

Lemma describeProperty_returns instrSourceList annotation :
  recordable' instrSourceList annotation ->
  exists desc, describeProperty' instrSourceList annotation = Returned desc.
Proof.
  intros ([contract Hcontract] & (nodes & Hnodes & Hlnodes) & (checks & Hchecks & Hlchecks)).
  assert (propertyTarget annotation
          = Returned (contract, expectedTargetKind (target annotation))) as Hct
    by (by apply propertyTarget_returned).
  unfold describeProperty. rewrite Hct; cbn [mbind Outcome_bind bindO]. rewrite Hnodes; cbn [mbind Outcome_bind bindO].
  destruct (mapO_returns
              (fun node =>
                 match newSrcMap !! node_id node with
                 | None => Thrown ("Missing source for instrumentation node " +:+ pp node
                                     +:+ " of annotation " +:+ original annotation)
                 | Some src =>
                     instrFileIdx ← getInstrFileIdx pp ppList node (outputMode ctx)
                                                    instrSourceList;
                     Returned (ppRange src instrFileIdx)
                 end) nodes) as [ranges Hranges].
  { eapply Forall_impl; [exact Hlnodes|]. intros node [[src Hsrc] [idx Hidx]].
    rewrite Hsrc, Hidx. simpl. eauto. }
  rewrite Hranges; cbn [mbind Outcome_bind bindO]. rewrite Hchecks; cbn [mbind Outcome_bind bindO].
  destruct (mapO_returns
              (fun annotationCheck =>
                 let checkRange := newSrcMap !! node_id annotationCheck in
                 annotationFileIdx ← getInstrFileIdx pp ppList annotationCheck
                                                     (outputMode ctx) instrSourceList;
                 match checkRange with
                 | None => Thrown ("Missing src range for annotation check node "
                                     +:+ pp annotationCheck +:+ " of " +:+ original annotation)
                 | Some r => Returned (ppRange r annotationFileIdx)
                 end) checks) as [checkRanges HcheckRanges].
  { eapply Forall_impl; [exact Hlchecks|]. intros node [[src Hsrc] [idx Hidx]].
    simpl. rewrite Hsrc, Hidx. simpl. eauto. }
  cbv zeta in HcheckRanges. rewrite HcheckRanges; cbn [mbind Outcome_bind bindO]. eauto.
Qed.

(** C5: the property map holds one record for each property annotation
    recorded in the context, in order, with that annotation's id, the name
    of the enclosing contract, the kind of the target ([function],
    [variable] or [contract], by what the target is) and its name, the
    message, the debug-event signature and the two source ranges;
    user-function annotations leave no record.  The second conjunct states
    when the map is produced. *)
Theorem property_map_one_record_per_property (instrSourceList : list string) :
  (forall result,
      generatePropertyMap' instrSourceList = Returned result ->
      Forall2 (describes ctx)
              (filter (fun a => isProperty a = true) (ctx_annotationList ctx)) result) /\
  (Forall (fun a => isProperty a = true -> recordable' instrSourceList a)
          (ctx_annotationList ctx) ->
   exists result, generatePropertyMap' instrSourceList = Returned result).
Proof.
  unfold generatePropertyMap. split.
  - induction (ctx_annotationList ctx) as [|a l IH]; intros result H; simpl in H.
    + injection H as <-. constructor.
    + rewrite filter_cons. destruct (isProperty a) eqn:Ha.
      * apply bind_returned in H as (desc & Hdesc & H).
        apply bind_returned in H as (descs & Hdescs & H). injection H as <-.
        rewrite decide_True by done. constructor; [|by apply IH].
        by apply describeProperty_returned in Hdesc.
      * rewrite decide_False by (by intros ?). by apply IH.
  - induction 1 as [|a l Ha _ [descs Hdescs]]; simpl; [eauto|].
    destruct (isProperty a) eqn:Hp; [|eauto].
    destruct (describeProperty_returns instrSourceList a (Ha eq_refl)) as [desc Hdesc].
    rewrite Hdesc; simpl. rewrite Hdescs; simpl. eauto.
Qed.
End MetadataFacts.

Example sample_property_map :
  SampleMetadata.properties =
    Returned [mkPropertyDesc 0 "A" "a.sol" "27:6:0" "16:18:0" target_contract "A" "" ""
                             ["100:20:0"] ["130:12:0"]].
Proof. vm_compute. reflexivity. Qed.

Example sample_function_property :
  SampleFunctionProperty.properties =
    Returned [mkPropertyDesc 3 "A" "a.sol" "62:10:0" "49:24:0" target_function "inc"
                             "AssertionFailed(string)" "P1" [] []].
Proof. vm_compute. reflexivity. Qed.

Lemma property_map_one_record_per_property_witness :
  Forall2 (describes SampleMetadata.context)
          [Sample.invariantA]
          [mkPropertyDesc 0 "A" "a.sol" "27:6:0" "16:18:0" target_contract "A" "" ""
                          ["100:20:0"] ["130:12:0"]].
Proof.
  apply (proj1 (property_map_one_record_per_property
                  (uniq []) SampleMetadata.ppNode SampleMetadata.ppNames
                  SampleMetadata.context SampleMetadata.printed
                  ["a.sol"; "__scribble_ReentrancyUtils.sol"])).
  exact sample_property_map.
Defined.

Section SourceLists.
Variable parseSrcTriple : string -> SrcTriple.
Variable dedup : list string -> list string.
Variable pp : ASTNode -> string.
Variable ppList : list string -> string.
Variable ctx : InstrumentationContext.
Variable newSrcMap : gmap nat (Z * Z).

Lemma instrumentedName_cases (utilsPath : string) :
  instrumentedName utilsPath "--" = "--" /\
  instrumentedName utilsPath utilsPath = utilsPath /\
  (forall name, name <> "--" -> name <> utilsPath ->
                instrumentedName utilsPath name = name +:+ ".instrumented").
Proof.
  unfold instrumentedName. split; [|split].
  - rewrite decide_True; [done|by left].
  - rewrite decide_True; [done|by right].
  - intros name H1 H2. rewrite decide_False; [done|]. intros [?|?]; done.
Qed.

(** C9: [instrSourceList] holds each entry of the instrumented source list
    with [.instrumented] appended, except the utilities unit path and the
    stdout marker [--], which stay as they are; [originalSourceList] holds
    the paths of the original units with [.original] appended when [arm] is
    set and unchanged otherwise.  The last conjunct states when the record
    is produced. *)
Theorem source_lists_suffixes (originalUnits : list WalkedUnit) (arm : bool)
        (outputFile : option string) :
  let utilsPath := absolutePath (utilsUnit ctx) in
  let paths := map (fun wu => absolutePath (wu_unit wu))
                   (filter (fun wu => unit_id (wu_unit wu) <> unit_id (utilsUnit ctx))
                           originalUnits) in
  (forall md,
      generateInstrumentationMetadata parseSrcTriple dedup pp ppList ctx newSrcMap
                                      originalUnits arm outputFile = Returned md ->
      (outputMode ctx = mode_files ->
       instrSourceList md = map (instrumentedName utilsPath) (paths ++ [utilsPath])) /\
      (outputMode ctx <> mode_files ->
       exists file, outputFile = Some file /\
                    instrSourceList md = [instrumentedName utilsPath file]) /\
      (arm = true -> originalSourceList md = map (fun name => name +:+ ".original") paths) /\
      (arm = false -> originalSourceList md = paths)) /\
  (instrumentedName utilsPath "--" = "--" /\
   instrumentedName utilsPath utilsPath = utilsPath /\
   (forall name, name <> "--" -> name <> utilsPath ->
                 instrumentedName utilsPath name = name +:+ ".instrumented")) /\
  (forall instr0 maps properties,
      instrSourceList0 ctx paths outputFile = Returned instr0 ->
      generateSrcMap2SrcMap parseSrcTriple dedup pp ppList ctx originalUnits (utilsUnit ctx)
                            newSrcMap paths instr0 = Returned maps ->
      generatePropertyMap dedup pp ppList ctx newSrcMap instr0 = Returned properties ->
      exists md,
        generateInstrumentationMetadata parseSrcTriple dedup pp ppList ctx newSrcMap
                                        originalUnits arm outputFile = Returned md).
Proof.
  intros utilsPath paths. split; [|split; [apply instrumentedName_cases|]].
  - intros md H. unfold generateInstrumentationMetadata in H. fold paths utilsPath in H.
    apply bind_returned in H as (instr0 & Hinstr0 & H).
    apply bind_returned in H as (maps & _ & H).
    apply bind_returned in H as (properties & _ & H).
    injection H as <-. simpl. unfold instrSourceList0 in Hinstr0. fold utilsPath in Hinstr0.
    repeat split.
    + intros Hmode. rewrite decide_True in Hinstr0 by done. by injection Hinstr0 as <-.
    + intros Hmode. rewrite decide_False in Hinstr0 by done.
      destruct outputFile as [file|]; [|discriminate].
      injection Hinstr0 as <-. by exists file.
    + by intros ->.
    + by intros ->.
  - intros instr0 maps properties Hinstr0 Hmaps Hproperties.
    unfold generateInstrumentationMetadata. fold paths.
    rewrite Hinstr0; cbn [mbind Outcome_bind bindO].
    rewrite Hmaps; cbn [mbind Outcome_bind bindO].
    rewrite Hproperties; cbn [mbind Outcome_bind bindO]. eauto.
Qed.
End SourceLists.

Example sample_metadata_armed :
  SampleMetadata.metadata true =
    Returned (mkMetaData
                [mkPropertyDesc 0 "A" "a.sol" "27:6:0" "16:18:0" target_contract "A" "" ""
                                ["100:20:0"] ["130:12:0"]]
                [("130:12:0", "16:18:0")] []
                ["a.sol.original"]
                ["a.sol.instrumented"; "__scribble_ReentrancyUtils.sol"]).
Proof. vm_compute. reflexivity. Qed.

Lemma source_lists_suffixes_witness :
  instrSourceList (SampleMetadata.returned (mkMetaData [] [] [] [] [])
                                           (SampleMetadata.metadata true))
  = ["a.sol.instrumented"; "__scribble_ReentrancyUtils.sol"].
Proof.
  refine (proj1 (proj1 (source_lists_suffixes
                          SampleMetadata.parse (uniq []) SampleMetadata.ppNode
                          SampleMetadata.ppNames SampleMetadata.context
                          SampleMetadata.printed SampleMetadata.units true None) _ _) _).
  - rewrite sample_metadata_armed. reflexivity.
  - reflexivity.
Defined.

(** *** [computeContractsNeedingInstr] *)

Lemma elem_of_rev {A : Type} (x : A) (l : list A) : x ∈ rev l <-> x ∈ l.
Proof. rewrite !list_elem_of_In. symmetry. apply in_rev. Qed.

Section NeedingInstr.
Variable cha : CHA.

Lemma sum_list_visit {A : Type} (g g' : A -> nat) (l : list A) (x : A) (w : nat) :
  (forall y, g' y <= g y) -> x ∈ l -> g' x + w <= g x ->
  sum_list (map g' l) + w <= sum_list (map g l).
Proof.
  intros Hle Hin Hx. induction l as [|y l IH]; [inversion Hin|]. simpl.
  assert (sum_list (map g' l) <= sum_list (map g l)) as Hrest.
  { clear -Hle. induction l as [|z l IH]; simpl; [lia|]. specialize (Hle z). lia. }
  apply elem_of_cons in Hin as [->|Hin].
  - lia.
  - specialize (IH Hin). specialize (Hle y). lia.
Qed.

Lemma pendingPushes_visit cur ps visited :
  parents cha !! cur = Some ps -> cur ∉ visited ->
  pendingPushes cha ({[cur]} ∪ visited)
    + (length ps + length (default [] (children cha !! cur)))
  <= pendingPushes cha visited.
Proof.
  intros Hps Hcur. unfold pendingPushes.
  apply (sum_list_visit _ _ _ (cur, ps)).
  - intros [c l]; simpl. repeat case_decide; try lia. set_solver.
  - by apply elem_of_map_to_list.
  - simpl. rewrite decide_True by set_solver. rewrite decide_False by done. lia.
Qed.

Lemma bfsLoop_fuel fuel wave visited :
  length wave + pendingPushes cha visited < fuel ->
  bfsLoop fuel cha wave visited <> None.
Proof.
  revert wave visited. induction fuel as [|fuel IH]; intros wave visited Hfuel; [lia|].
  simpl. destruct wave as [|cur wave]; [done|]. simpl in Hfuel.
  destruct (decide (cur ∈ visited)) as [Hin|Hnin]; [apply IH; lia|].
  destruct (parents cha !! cur) as [ps|] eqn:Hps; [|done].
  destruct (children cha !! cur) as [cs|] eqn:Hcs; [|done].
  apply IH. pose proof (pendingPushes_visit cur ps visited Hps Hnin) as Hpend.
  rewrite Hcs in Hpend; simpl in Hpend.
  rewrite !length_app, !length_rev.
  pose proof (length_filter (fun parent => parent ∉ {[cur]} ∪ visited) ps).
  pose proof (length_filter (fun child => child ∉ {[cur]} ∪ visited) cs).
  lia.
Qed.

Lemma bfsLoop_sound fuel wave visited result :
  bfsLoop fuel cha wave visited = Some (Returned result) ->
  forall x, x ∈ result -> x ∈ visited \/ exists w, w ∈ wave /\ rtc (chaEdge cha) w x.
Proof.
  revert wave visited. induction fuel as [|fuel IH]; intros wave visited Hrun x Hx;
    [discriminate|].
  simpl in Hrun. destruct wave as [|cur wave].
  { injection Hrun as <-. by left. }
  destruct (decide (cur ∈ visited)) as [Hin|Hnin].
  { destruct (IH _ _ Hrun x Hx) as [?|(w & Hw & Hreach)]; [by left|].
    right. exists w. split; [by right|done]. }
  destruct (parents cha !! cur) as [ps|] eqn:Hps; [|discriminate].
  destruct (children cha !! cur) as [cs|] eqn:Hcs; [|discriminate].
  destruct (IH _ _ Hrun x Hx) as [Hvis|(w & Hw & Hreach)].
  - apply elem_of_union in Hvis as [Hcur|Hvis]; [|by left].
    apply elem_of_singleton in Hcur as ->. right. exists cur. split; [left|done].
  - right. rewrite !elem_of_app, !elem_of_rev, !list_elem_of_filter in Hw.
    destruct Hw as [[_ Hw]|[[_ Hw]|Hw]].
    + exists cur. split; [left|]. eapply rtc_l; [|exact Hreach]. right. eauto.
    + exists cur. split; [left|]. eapply rtc_l; [|exact Hreach]. left. eauto.
    + exists w. split; [by right|done].
Qed.

Lemma bfsLoop_complete fuel wave visited result :
  bfsLoop fuel cha wave visited = Some (Returned result) ->
  closedUpTo cha visited wave ->
  visited ⊆ result /\ (forall w, w ∈ wave -> w ∈ result) /\ closedUpTo cha result [].
Proof.
  revert wave visited. induction fuel as [|fuel IH]; intros wave visited Hrun Hclosed;
    [discriminate|].
  simpl in Hrun. destruct wave as [|cur wave].
  { injection Hrun as <-. split; [done|]. split; [|done]. intros w Hw. inversion Hw. }
  destruct (decide (cur ∈ visited)) as [Hin|Hnin].
  { destruct (IH _ _ Hrun) as (Hsub & Hwave & Hres).
    - intros v n Hv He. destruct (Hclosed v n Hv He) as [?|Hn]; [by left|].
      apply elem_of_cons in Hn as [->|?]; [by left|by right].
    - split; [done|]. split; [|done]. intros w Hw.
      apply elem_of_cons in Hw as [->|?]; [by apply Hsub|by apply Hwave]. }
  destruct (parents cha !! cur) as [ps|] eqn:Hps; [|discriminate].
  destruct (children cha !! cur) as [cs|] eqn:Hcs; [|discriminate].
  destruct (IH _ _ Hrun) as (Hsub & Hwave & Hres).
  - intros v n Hv He.
    destruct (decide (n ∈ {[cur]} ∪ visited)) as [?|Hn]; [by left|]. right.
    rewrite !elem_of_app, !elem_of_rev, !list_elem_of_filter.
    apply elem_of_union in Hv as [Hv|Hv].
    + apply elem_of_singleton in Hv as ->.
      destruct He as [(ps' & Hps' & Hn')|(cs' & Hcs' & Hn')].
      * right; left. split; [done|]. congruence.
      * left. split; [done|]. congruence.
    + destruct (Hclosed v n Hv He) as [?|Hn'].
      { exfalso. apply Hn, elem_of_union. by right. }
      apply elem_of_cons in Hn' as [->|?]; [|by right; right].
      exfalso. apply Hn, elem_of_union. left. by apply elem_of_singleton.
  - split; [intros x Hx; apply Hsub, elem_of_union; by right|].
    split; [|done]. intros w Hw.
    apply elem_of_cons in Hw as [->|Hw].
    { apply Hsub, elem_of_union. left. by apply elem_of_singleton. }
    apply Hwave. rewrite !elem_of_app. by right; right.
Qed.

Lemma bfsLoop_returns fuel wave visited :
  length wave + pendingPushes cha visited < fuel ->
  (forall w, w ∈ wave -> is_Some (parents cha !! w) /\ is_Some (children cha !! w)) ->
  (forall a c, chaEdge cha a c -> is_Some (parents cha !! c) /\ is_Some (children cha !! c)) ->
  exists result, bfsLoop fuel cha wave visited = Some (Returned result).
Proof.
  intros Hfuel Hwave Hedges. revert wave visited Hfuel Hwave.
  induction fuel as [|fuel IH]; intros wave visited Hfuel Hwave; [lia|].
  simpl. destruct wave as [|cur wave]; [eauto|]. simpl in Hfuel.
  destruct (decide (cur ∈ visited)) as [Hin|Hnin].
  { apply IH; [lia|]. intros w Hw. apply Hwave. by right. }
  destruct (Hwave cur) as [[ps Hps] [cs Hcs]]; [left|]. rewrite Hps, Hcs.
  pose proof (pendingPushes_visit cur ps visited Hps Hnin) as Hpend.
  rewrite Hcs in Hpend; simpl in Hpend.
  apply IH.
  - rewrite !length_app, !length_rev.
    pose proof (length_filter (fun parent => parent ∉ {[cur]} ∪ visited) ps).
    pose proof (length_filter (fun child => child ∉ {[cur]} ∪ visited) cs).
    lia.
  - intros w Hw. rewrite !elem_of_app, !elem_of_rev, !list_elem_of_filter in Hw.
    destruct Hw as [[_ Hw]|[[_ Hw]|Hw]].
    + apply (Hedges cur). right. eauto.
    + apply (Hedges cur). left. eauto.
    + apply Hwave. by right.
Qed.

(** C1: [computeContractsNeedingInstr] always has fuel to finish; what it
    returns is exactly the set of contracts reachable, along parent and
    child edges, from a contract whose annotations include a property; and
    it returns whenever the analysis has an entry for every contract it
    meets. *)
Theorem contracts_needing_instr_reachable
        (contractAnnotMap : list (nat * list AnnotationMetaData)) :
  computeContractsNeedingInstr cha contractAnnotMap <> None /\
  (forall result,
      computeContractsNeedingInstr cha contractAnnotMap = Some (Returned result) ->
      forall c, c ∈ result <->
                exists a annots, (a, annots) ∈ contractAnnotMap /\
                                 (exists annot, annot ∈ annots /\ isProperty annot = true) /\
                                 rtc (chaEdge cha) a c) /\
  (chaCovers cha (annotatedContracts contractAnnotMap) ->
   exists result, computeContractsNeedingInstr cha contractAnnotMap = Some (Returned result)).
Proof.
  unfold computeContractsNeedingInstr.
  assert (forall a, a ∈ annotatedContracts contractAnnotMap <->
            exists annots, (a, annots) ∈ contractAnnotMap /\
                           exists annot, annot ∈ annots /\ isProperty annot = true) as Hseed.
  { intros a. unfold annotatedContracts. rewrite list_elem_of_fmap. split.
    - intros ([a' annots] & -> & Hin). apply list_elem_of_filter in Hin as [Hp Hin].
      exists annots. split; [done|]. unfold hasProperty in Hp.
      apply bool_decide_eq_true in Hp. simpl in Hp.
      destruct (filter (fun annot => isProperty annot = true) annots) as [|annot l] eqn:Hf;
        [simpl in Hp; lia|].
      assert (annot ∈ filter (fun annot => isProperty annot = true) annots) as Hmem
          by (rewrite Hf; left).
      apply list_elem_of_filter in Hmem as [? ?]. eauto.
    - intros (annots & Hin & annot & Hannot & Hp). exists (a, annots). split; [done|].
      apply list_elem_of_filter. split; [|done]. unfold hasProperty. simpl.
      apply bool_decide_eq_true.
      assert (annot ∈ filter (fun annot => isProperty annot = true) annots) as Hf
          by (by apply list_elem_of_filter).
      destruct (filter (fun annot => isProperty annot = true) annots);
        [inversion Hf|simpl; lia]. }
  split; [|split].
  - apply bfsLoop_fuel. lia.
  - intros result Hrun c. split.
    + intros Hc. destruct (bfsLoop_sound _ _ _ _ Hrun c Hc) as [?|(w & Hw & Hreach)];
        [set_solver|].
      apply elem_of_rev, Hseed in Hw as (annots & ? & ?). eauto.
    + intros (a & annots & Hin & Hp & Hreach).
      destruct (bfsLoop_complete _ _ _ _ Hrun) as (_ & Hwave & Hclosed).
      { intros v n Hv. set_solver. }
      assert (a ∈ result) as Ha by (apply Hwave, elem_of_rev, Hseed; eauto).
      clear Hin Hp. induction Hreach as [|x y z Hxy _ IH]; [done|].
      apply IH. destruct (Hclosed x y Ha Hxy) as [?|Hnil]; [done|inversion Hnil].
  - intros Hcovers. cbv zeta. apply bfsLoop_returns.
    + lia.
    + intros w Hw. apply Hcovers. left. apply elem_of_rev. exact Hw.
    + intros a c He. apply Hcovers. right. eauto.
Qed.
End NeedingInstr.

Example sample_contracts_needing_instr :
  computeContractsNeedingInstr SampleCHA.hierarchy SampleCHA.annotations
  = Some (Returned ({[ 10; 11 ]} : gset nat)).
Proof. vm_compute. reflexivity. Qed.

Example sample_library_needs_instr :
  computeContractsNeedingInstr (mkCHA {[ 20 := [] ]} {[ 20 := [] ]})
                               [(20, [Sample.invariantL])]
  = Some (Returned ({[ 20 ]} : gset nat)).
Proof. vm_compute. reflexivity. Qed.

Lemma contracts_needing_instr_reachable_witness :
  11 ∈ ({[ 10; 11 ]} : gset nat) <->
  exists a annots, (a, annots) ∈ SampleCHA.annotations /\
                   (exists annot, annot ∈ annots /\ isProperty annot = true) /\
                   rtc (chaEdge SampleCHA.hierarchy) a 11.
Proof.
  apply (proj1 (proj2 (contracts_needing_instr_reachable
                         SampleCHA.hierarchy SampleCHA.annotations))).
  exact sample_contracts_needing_instr.
Defined.

(** *** [topoSort]: the import maps *)

Lemma foldl_idSetAdd (l s : list nat) :
  NoDup s ->
  NoDup (foldl idSetAdd s l) /\ forall x, x ∈ foldl idSetAdd s l <-> x ∈ s \/ x ∈ l.
Proof.
  revert s. induction l as [|y l IH]; intros s Hs; simpl.
  - split; [done|]. intros x. rewrite elem_of_nil. tauto.
  - assert (NoDup (idSetAdd s y) /\ forall x, x ∈ idSetAdd s y <-> x ∈ s \/ x = y) as [Hnd Hmem].
    { unfold idSetAdd. destruct (decide (y ∈ s)) as [Hy|Hy].
      - split; [done|]. intros x. split; [tauto|]. intros [?| ->]; done.
      - split.
        + apply NoDup_app. repeat split; [done| |apply NoDup_singleton].
          intros x Hx Hx'. apply list_elem_of_singleton in Hx'. by subst.
        + intros x. rewrite elem_of_app, list_elem_of_singleton. tauto. }
    destruct (IH _ Hnd) as [Hnd' Hmem']. split; [done|].
    intros x. rewrite Hmem', Hmem, elem_of_cons. tauto.
Qed.

Lemma importeeIds_spec (u : SourceUnit) :
  NoDup (importeeIds u) /\ forall x, x ∈ importeeIds u <-> x ∈ importTargets u.
Proof.
  unfold importeeIds, importTargets.
  destruct (foldl_idSetAdd (map vSourceUnit (vImportDirectives u)) []) as [Hnd Hmem];
    [constructor|].
  split; [done|]. intros x. rewrite Hmem, elem_of_nil. tauto.
Qed.

Lemma foldl_insert_lookup_ne {K V A : Type} `{Countable K} (key : A -> K) (val : A -> V)
      (l : list A) (m : gmap K V) (k : K) :
  k ∉ map key l ->
  foldl (fun m x => <[key x := val x]> m) m l !! k = m !! k.
Proof.
  revert m. induction l as [|x l IH]; intros m Hk; [done|]. simpl in *.
  rewrite not_elem_of_cons in Hk. destruct Hk as [Hne Hk].
  rewrite IH by done. by rewrite lookup_insert_ne.
Qed.

Lemma foldl_insert_lookup {K V A : Type} `{Countable K} (key : A -> K) (val : A -> V)
      (l : list A) (m : gmap K V) (a : A) :
  NoDup (map key l) -> a ∈ l ->
  foldl (fun m x => <[key x := val x]> m) m l !! key a = Some (val a).
Proof.
  revert m. induction l as [|x l IH]; intros m Hnd Ha; [inversion Ha|].
  simpl in *. apply NoDup_cons in Hnd as [Hx Hnd].
  apply elem_of_cons in Ha as [->|Ha]; [|by apply IH].
  rewrite foldl_insert_lookup_ne by done. apply lookup_insert_eq.
Qed.

Lemma mkPathMap_lookup (units : list SourceUnit) (v : SourceUnit) :
  NoDup (map absolutePath units) -> v ∈ units ->
  mkPathMap units !! absolutePath v = Some v.
Proof. apply (foldl_insert_lookup absolutePath (fun u => u)). Qed.

Lemma setAdd_idem (s : list SourceUnit) (u : SourceUnit) : setAdd (setAdd s u) u = setAdd s u.
Proof.
  unfold setAdd at 2 3. destruct (decide (unit_id u ∈ map unit_id s)) as [Hin|Hnin].
  - unfold setAdd. by rewrite decide_True.
  - unfold setAdd. rewrite decide_True; [done|].
    rewrite map_app, elem_of_app. right. simpl. left.
Qed.

Lemma recordImport_spec pathMap u st importees imp importee :
  handlesOk st ->
  pathMap !! vSourceUnit_absolutePath imp = Some importee ->
  unit_id importee = vSourceUnit imp ->
  exists st',
    recordImport pathMap u (st, importees) imp
      = Returned (st', idSetAdd importees (vSourceUnit imp)) /\
    handlesOk st' /\ nImportsM st' = nImportsM st /\
    forall k, importersOf st' k =
              if decide (k = vSourceUnit imp) then setAdd (importersOf st k) u
              else importersOf st k.
Proof.
  intros Hok Hpath Hid. unfold recordImport. simpl. rewrite Hpath, Hid.
  set (k0 := vSourceUnit imp).
  destruct (importersM st !! k0) as [h|] eqn:Hk0; simpl.
  - assert (h = k0) as -> by (by apply Hok).
    eexists. split; [reflexivity|]. split; [|split; [done|]].
    + intros k h Hk. simpl in Hk.
      destruct (decide (k0 = k)) as [->|Hne].
      * rewrite lookup_insert_eq in Hk. congruence.
      * rewrite lookup_insert_ne in Hk by done. by apply Hok.
    + intros k. unfold importersOf; simpl.
      destruct (decide (k = k0)) as [->|Hne].
      * by rewrite lookup_insert_eq, lookup_insert_eq, Hk0.
      * rewrite lookup_insert_ne by done.
        destruct (importersM st !! k) as [h|] eqn:Hk; [|done].
        assert (h = k) as -> by (by apply Hok). by rewrite lookup_insert_ne.
  - eexists. split; [reflexivity|]. split; [|split; [done|]].
    + intros k h Hk. simpl in Hk.
      destruct (decide (k0 = k)) as [->|Hne].
      * rewrite lookup_insert_eq in Hk. congruence.
      * rewrite !lookup_insert_ne in Hk by done. by apply Hok.
    + intros k. unfold importersOf; simpl.
      destruct (decide (k = k0)) as [->|Hne].
      * by rewrite !lookup_insert_eq, Hk0.
      * rewrite !lookup_insert_ne by done.
        destruct (importersM st !! k) as [h|] eqn:Hk; [|done].
        assert (h = k) as -> by (by apply Hok). by rewrite !lookup_insert_ne.
Qed.

Lemma recordImports_spec pathMap u (imports : list ImportDirective) st importees :
  handlesOk st ->
  (forall imp, imp ∈ imports ->
               exists importee, pathMap !! vSourceUnit_absolutePath imp = Some importee /\
                                unit_id importee = vSourceUnit imp) ->
  exists st',
    foldO (recordImport pathMap u) imports (st, importees)
      = Returned (st', foldl idSetAdd importees (map vSourceUnit imports)) /\
    handlesOk st' /\ nImportsM st' = nImportsM st /\
    forall k, importersOf st' k =
              if decide (k ∈ map vSourceUnit imports) then setAdd (importersOf st k) u
              else importersOf st k.
Proof.
  revert st importees. induction imports as [|imp imports IH]; intros st importees Hok Hres.
  - exists st. split; [done|]. split; [done|]. split; [done|].
    intros k. destruct (decide (k ∈ map vSourceUnit [])) as [Hk|_]; [inversion Hk|done].
  - destruct (Hres imp) as (importee & Hpath & Hid); [left|].
    destruct (recordImport_spec pathMap u st importees imp importee Hok Hpath Hid)
      as (st1 & Hstep & Hok1 & Hn1 & Himp1).
    destruct (IH st1 (idSetAdd importees (vSourceUnit imp)) Hok1) as (st2 & Hrun & Hok2 & Hn2 & Himp2).
    { intros imp' Himp'. apply Hres. by right. }
    exists st2. simpl. rewrite Hstep. cbn [mbind Outcome_bind bindO].
    split; [exact Hrun|]. split; [done|]. split; [congruence|].
    intros k. rewrite Himp2, Himp1.
    destruct (decide (k = vSourceUnit imp)) as [->|Hne].
    + rewrite (decide_True (P := vSourceUnit imp ∈ vSourceUnit imp :: _)) by left.
      destruct (decide (vSourceUnit imp ∈ map vSourceUnit imports)); [apply setAdd_idem|done].
    + destruct (decide (k ∈ map vSourceUnit imports)) as [Hin|Hnin].
      * rewrite decide_True; [done|by right].
      * rewrite decide_False; [done|]. rewrite not_elem_of_cons. done.
Qed.

Lemma recordUnits_spec pathMap (l : list SourceUnit) st :
  handlesOk st ->
  (forall u imp, u ∈ l -> imp ∈ vImportDirectives u ->
                 exists importee, pathMap !! vSourceUnit_absolutePath imp = Some importee /\
                                  unit_id importee = vSourceUnit imp) ->
  exists st',
    foldO (recordUnit pathMap) l st = Returned st' /\ handlesOk st' /\
    (forall k, importersOf st' k =
               foldl (fun s u => if decide (k ∈ importTargets u) then setAdd s u else s)
                     (importersOf st k) l) /\
    nImportsM st' =
      foldl (fun m u => <[unit_id u := Z.of_nat (length (importeeIds u))]> m) (nImportsM st) l.
Proof.
  revert st. induction l as [|u l IH]; intros st Hok Hres.
  - exists st. by repeat split.
  - destruct (recordImports_spec pathMap u (vImportDirectives u) st [] Hok)
      as (st1 & Hrun1 & Hok1 & Hn1 & Himp1).
    { intros imp Himp. apply (Hres u); [left|done]. }
    set (st2 := mkTopo (importersM st1) (importerSets st1)
                       (<[unit_id u := Z.of_nat (length (importeeIds u))]> (nImportsM st1))).
    destruct (IH st2) as (st3 & Hrun3 & Hok3 & Himp3 & Hn3).
    { exact Hok1. }
    { intros u' imp Hu'. apply Hres. by right. }
    exists st3. split; [|split; [done|split]].
    + assert (recordUnit pathMap st u = Returned st2) as Hstep.
      { unfold recordUnit. rewrite Hrun1. reflexivity. }
      cbn [foldO]. rewrite Hstep. exact Hrun3.
    + intros k. rewrite Himp3. simpl. f_equal.
      change (importersOf st2 k) with (importersOf st1 k). apply Himp1.
    + rewrite Hn3. simpl. by rewrite Hn1.
Qed.

Lemma fold_setAdd_spec (k : nat) (l s : list SourceUnit) :
  NoDup (map unit_id (s ++ l)) ->
  let r := foldl (fun s u => if decide (k ∈ importTargets u) then setAdd s u else s) s l in
  NoDup (map unit_id r) /\
  forall u, u ∈ r <-> u ∈ s \/ (u ∈ l /\ k ∈ importTargets u).
Proof.
  revert s. induction l as [|a l IH]; intros s Hnd; simpl.
  - rewrite app_nil_r in Hnd. split; [done|]. intros u. rewrite elem_of_nil. tauto.
  - assert (unit_id a ∉ map unit_id s) as Ha.
    { rewrite map_app in Hnd. apply NoDup_app in Hnd as (_ & Hdisj & _).
      intros Hin. apply (Hdisj _ Hin). left. }
    assert (NoDup (map unit_id ((s ++ [a]) ++ l))) as Hnd' by (by rewrite <- app_assoc).
    destruct (decide (k ∈ importTargets a)) as [Hk|Hk].
    + unfold setAdd. rewrite decide_False by done.
      destruct (IH (s ++ [a]) Hnd') as [Hr Hmem]. split; [done|].
      intros u. rewrite Hmem, elem_of_app, list_elem_of_singleton, elem_of_cons.
      split; [intros [[?| ->]|[? ?]]; tauto|intros [?|[[ ->|?] ?]]; tauto].
    + assert (NoDup (map unit_id (s ++ l))) as Hnd''.
      { rewrite map_app in *. simpl in Hnd. apply NoDup_app in Hnd as (H1 & H2 & H3).
        apply NoDup_cons in H3 as [_ H3]. apply NoDup_app. repeat split; [done| |done].
        intros x Hx Hx'. apply (H2 x Hx). by right. }
      destruct (IH s Hnd'') as [Hr Hmem]. split; [done|].
      intros u. rewrite Hmem, elem_of_cons.
      split; [tauto|intros [?|[[ ->|?] ?]]; tauto].
Qed.

Lemma pending_nil (u : SourceUnit) : pending [] u = length (importeeIds u).
Proof.
  unfold pending. f_equal. induction (importeeIds u) as [|x l IH]; [done|].
  rewrite filter_cons. rewrite decide_True by apply not_elem_of_nil. by rewrite IH.
Qed.

Lemma unitsClosed_resolves (units : list SourceUnit) u imp :
  unitsClosed units -> u ∈ units -> imp ∈ vImportDirectives u ->
  exists importee, mkPathMap units !! vSourceUnit_absolutePath imp = Some importee /\
                   unit_id importee = vSourceUnit imp /\ importee ∈ units.
Proof.
  intros (_ & Hpaths & Hres) Hu Himp.
  destruct (Hres u imp Hu Himp) as (v & Hv & Hpath & Hid).
  exists v. rewrite <- Hpath. split; [by apply mkPathMap_lookup|done].
Qed.

Lemma topoSort_graphBuilt (units : list SourceUnit) :
  unitsClosed units ->
  exists st, foldO (recordUnit (mkPathMap units)) units (mkTopo ∅ ∅ ∅) = Returned st /\
             graphBuilt units st.
Proof.
  intros Hclosed. pose proof Hclosed as (Hids & Hpaths & Hres).
  destruct (recordUnits_spec (mkPathMap units) units (mkTopo ∅ ∅ ∅))
    as (st & Hrun & _ & Himp & Hn).
  { intros k h Hk. simpl in Hk. by rewrite lookup_empty in Hk. }
  { intros u imp Hu Himp.
    destruct (unitsClosed_resolves units u imp Hclosed Hu Himp) as (v & ? & ? & _). eauto. }
  exists st. split; [done|]. split.
  - intros v Hv.
    destruct (fold_setAdd_spec (unit_id v) units []) as [Hnd Hmem]; [done|].
    rewrite Himp. change (importersOf (mkTopo ∅ ∅ ∅) (unit_id v)) with (@nil SourceUnit).
    split; [exact Hnd|]. intros u. rewrite Hmem, elem_of_nil. unfold importsIn, importTargets.
    tauto.
  - intros u Hu. rewrite Hn, pending_nil. simpl.
    apply (foldl_insert_lookup unit_id (fun u => Z.of_nat (length (importeeIds u)))); done.
Qed.

Lemma filter_snoc_in (l done : list nat) (x : nat) :
  NoDup l -> x ∈ l -> x ∉ done ->
  length (filter (fun y => y ∉ done ++ [x]) l) + 1 = length (filter (fun y => y ∉ done) l).
Proof.
  intros Hnd Hx Hdone. induction l as [|y l IH]; [inversion Hx|].
  apply NoDup_cons in Hnd as [Hy Hnd]. rewrite !filter_cons.
  apply elem_of_cons in Hx as [->|Hx].
  - rewrite decide_False by (rewrite elem_of_app, list_elem_of_singleton; tauto).
    rewrite decide_True by done. simpl.
    assert (filter (fun y0 => y0 ∉ done ++ [y]) l = filter (fun y0 => y0 ∉ done) l) as ->; [|lia].
    clear IH Hnd. induction l as [|z l IH]; [done|]. rewrite !filter_cons.
    rewrite not_elem_of_cons in Hy. destruct Hy as [Hne Hy]. rewrite (IH Hy).
    destruct (decide (z ∉ done)) as [Hz|Hz].
    + rewrite decide_True; [done|]. rewrite elem_of_app, list_elem_of_singleton.
      intros [?|?]; [done|]. by subst.
    + rewrite decide_False; [done|]. rewrite elem_of_app. intros Hn. apply Hz. tauto.
  - specialize (IH Hnd Hx).
    assert (y <> x) as Hne by (intros ->; done).
    destruct (decide (y ∉ done)) as [Hz|Hz].
    + rewrite decide_True; [simpl; lia|]. rewrite elem_of_app, list_elem_of_singleton. tauto.
    + rewrite decide_False; [done|]. rewrite elem_of_app. intros Hn. apply Hz. tauto.
Qed.

Lemma filter_snoc_notin (l done : list nat) (x : nat) :
  x ∉ l -> filter (fun y => y ∉ done ++ [x]) l = filter (fun y => y ∉ done) l.
Proof.
  intros Hx. induction l as [|z l IH]; [done|]. rewrite !filter_cons.
  rewrite not_elem_of_cons in Hx. destruct Hx as [Hne Hx]. rewrite (IH Hx).
  destruct (decide (z ∉ done)) as [Hz|Hz].
  - rewrite decide_True; [done|]. rewrite elem_of_app, list_elem_of_singleton.
    intros [?|?]; [done|]. by subst.
  - rewrite decide_False; [done|]. rewrite elem_of_app. intros Hn. apply Hz. tauto.
Qed.

Lemma pending_snoc_in (done : list nat) (x : nat) (u : SourceUnit) :
  x ∈ importeeIds u -> x ∉ done -> pending (done ++ [x]) u + 1 = pending done u.
Proof. intros. apply filter_snoc_in; [apply importeeIds_spec|done..]. Qed.

Lemma pending_snoc_notin (done : list nat) (x : nat) (u : SourceUnit) :
  x ∉ importeeIds u -> pending (done ++ [x]) u = pending done u.
Proof. intros. unfold pending. by rewrite filter_snoc_notin. Qed.

Lemma pending_zero (done : list nat) (u : SourceUnit) :
  pending done u = 0 <-> forall x, x ∈ importeeIds u -> x ∈ done.
Proof.
  unfold pending. rewrite length_zero_iff_nil. split.
  - intros Hnil x Hx. destruct (decide (x ∈ done)) as [?|Hn]; [done|].
    assert (x ∈ filter (fun y => y ∉ done) (importeeIds u)) as Hin
        by (by apply list_elem_of_filter).
    rewrite Hnil in Hin. inversion Hin.
  - intros Hall. induction (importeeIds u) as [|y l IH]; [done|].
    rewrite filter_cons. rewrite decide_False.
    + apply IH. intros x Hx. apply Hall. by right.
    + intros Hn. apply Hn, Hall. left.
Qed.

Lemma pending_snoc_le (done : list nat) (x : nat) (u : SourceUnit) :
  pending (done ++ [x]) u <= pending done u.
Proof.
  destruct (decide (x ∈ importeeIds u)) as [Hin|Hnin].
  - destruct (decide (x ∈ done)) as [Hd|Hd].
    + unfold pending. apply Nat.eq_le_incl. f_equal. apply list_filter_iff.
      intros y. rewrite elem_of_app, list_elem_of_singleton. split; [tauto|].
      intros Hy [?| ->]; done.
    + pose proof (pending_snoc_in done x u Hin Hd). lia.
  - rewrite pending_snoc_notin by done. lia.
Qed.

(** *** [topoSort]: the sorting loop *)

Lemma releaseImporters_spec (newCount : SourceUnit -> nat) (importers : list SourceUnit)
      (n : gmap nat Z) (q : list SourceUnit) :
  NoDup (map unit_id importers) ->
  (forall b, b ∈ importers -> n !! unit_id b = Some (Z.of_nat (newCount b) + 1)%Z) ->
  exists n',
    releaseImporters n q importers
      = Returned (n', q ++ filter (fun b => newCount b = 0) importers) /\
    (forall b, b ∈ importers -> n' !! unit_id b = Some (Z.of_nat (newCount b))) /\
    (forall k, k ∉ map unit_id importers -> n' !! k = n !! k).
Proof.
  revert n q. induction importers as [|b l IH]; intros n q Hnd Hn.
  - exists n. simpl. rewrite app_nil_r. split; [done|]. split; [|done].
    intros b Hb. inversion Hb.
  - simpl in Hnd. apply NoDup_cons in Hnd as [Hb Hnd].
    simpl. rewrite (Hn b) by left.
    replace (Z.of_nat (newCount b) + 1 - 1)%Z with (Z.of_nat (newCount b)) by lia.
    rewrite bool_decide_eq_true_2 by lia. cbn [assert mbind Outcome_bind bindO].
    destruct (IH (<[unit_id b := Z.of_nat (newCount b)]> n)
                 (if decide (Z.of_nat (newCount b) = 0%Z) then q ++ [b] else q) Hnd)
      as (n' & Hrun & Hin & Hout).
    { intros b' Hb'. rewrite lookup_insert_ne; [apply Hn; by right|].
      intros Heq. apply Hb. rewrite Heq. apply list_elem_of_fmap. by exists b'. }
    exists n'. split; [|split].
    + rewrite Hrun. f_equal. f_equal. rewrite filter_cons.
      destruct (decide (newCount b = 0)) as [H0|H0].
      * rewrite decide_True by lia. by rewrite <- app_assoc.
      * by rewrite decide_False by lia.
    + intros b' Hb'. apply elem_of_cons in Hb' as [->|Hb']; [|by apply Hin].
      rewrite Hout by done. apply lookup_insert_eq.
    + intros k Hk. rewrite not_elem_of_cons in Hk. destruct Hk as [Hne Hk].
      rewrite Hout by done. by rewrite lookup_insert_ne.
Qed.

Lemma NoDup_map_filter {A B : Type} (f : A -> B) (P : A -> Prop) `{forall x, Decision (P x)}
      (l : list A) :
  NoDup (map f l) -> NoDup (map f (filter P l)).
Proof.
  induction l as [|x l IH]; intros Hnd; [done|]. simpl in Hnd.
  apply NoDup_cons in Hnd as [Hx Hnd]. rewrite filter_cons.
  destruct (decide (P x)); [|by apply IH]. simpl. apply NoDup_cons. split; [|by apply IH].
  intros Hin. apply Hx. apply list_elem_of_fmap in Hin as (y & -> & Hy).
  apply list_elem_of_filter in Hy as [_ Hy]. apply list_elem_of_fmap. by exists y.
Qed.

Section SortLoop.
Variable units : list SourceUnit.
Variable st : TopoState.
Hypothesis Hids : NoDup (map unit_id units).
Hypothesis Hgraph : graphBuilt units st.
Hypothesis Hresolved :
  forall u x, u ∈ units -> x ∈ importeeIds u -> exists v, v ∈ units /\ unit_id v = x.

Lemma unit_id_inj u v : u ∈ units -> v ∈ units -> unit_id u = unit_id v -> u = v.
Proof.
  clear Hgraph Hresolved. induction units as [|w l IH]; intros Hu Hv Heq; [inversion Hu|].
  simpl in Hids. apply NoDup_cons in Hids as [Hw Hnd].
  apply elem_of_cons in Hu as [->|Hu]; apply elem_of_cons in Hv as [->|Hv].
  - done.
  - exfalso. apply Hw. rewrite Heq. apply list_elem_of_fmap. by exists v.
  - exfalso. apply Hw. rewrite <- Heq. apply list_elem_of_fmap. by exists u.
  - by apply IH.
Qed.

Lemma importsIn_importee u v :
  importsIn units u v <-> u ∈ units /\ v ∈ units /\ unit_id v ∈ importeeIds u.
Proof.
  unfold importsIn. destruct (importeeIds_spec u) as [_ Hmem]. rewrite Hmem.
  unfold importTargets. tauto.
Qed.

Lemma sortInv_init :
  sortInv units (nImportsM st)
          (filter (fun u => nImportsM st !! unit_id u = Some 0%Z) units) [].
Proof.
  destruct Hgraph as [_ Hn]. unfold sortInv. simpl. repeat split.
  - by apply NoDup_map_filter.
  - intros u Hu. by apply list_elem_of_filter in Hu as [_ Hu].
  - done.
  - intros Hin. apply list_elem_of_filter in Hin as [H0 _].
    rewrite (Hn u) in H0 by done. injection H0. lia.
  - intros H0. apply list_elem_of_filter. split; [|done].
    rewrite (Hn u) by done. by rewrite H0.
  - intros i u Hi. by rewrite lookup_nil in Hi.
Qed.

Lemma sortInv_step n cur q sorted :
  sortInv units n (cur :: q) sorted ->
  exists n' q',
    releaseImporters n q (importersOf st (unit_id cur)) = Returned (n', q') /\
    sortInv units n' q' (sorted ++ [cur]).
Proof.
  intros (Hnd & Hsub & Hn & Hready & Hord).
  set (ids := map unit_id sorted).
  assert (cur ∈ units) as Hcur by (apply Hsub; rewrite elem_of_app, elem_of_cons; tauto).
  assert (unit_id cur ∉ ids) as Hfresh.
  { rewrite map_app in Hnd. apply NoDup_app in Hnd as (_ & Hdisj & _).
    intros Hin. apply (Hdisj _ Hin). simpl. left. }
  destruct Hgraph as [Himp _]. destruct (Himp cur Hcur) as [HLnd HL].
  set (L := importersOf st (unit_id cur)) in *.
  set (newCount := pending (ids ++ [unit_id cur])).
  assert (forall b, b ∈ L -> b ∈ units /\ pending ids b = newCount b + 1) as HLcount.
  { intros b Hb. apply HL, importsIn_importee in Hb as (Hbu & _ & Hb). split; [done|].
    unfold newCount. by rewrite pending_snoc_in. }
  destruct (releaseImporters_spec newCount L n q HLnd) as (n' & Hrun & Hin & Hout).
  { intros b Hb. destruct (HLcount b Hb) as [Hbu Hcount].
    rewrite (Hn b Hbu). fold ids. rewrite Hcount. f_equal. lia. }
  exists n', (q ++ filter (fun b => newCount b = 0) L). split; [exact Hrun|].
  assert (forall b, b ∈ filter (fun b => newCount b = 0) L ->
                    b ∈ units /\ b ∉ sorted ++ cur :: q) as Hnew.
  { intros b Hb. apply list_elem_of_filter in Hb as [H0 Hb].
    destruct (HLcount b Hb) as [Hbu Hcount]. split; [done|].
    intros Hold. apply (Hready b Hbu) in Hold. fold ids in Hold. lia. }
  assert (map unit_id (sorted ++ [cur]) = ids ++ [unit_id cur]) as Hsnoc
      by (by rewrite map_app).
  unfold sortInv. rewrite !Hsnoc. fold newCount.
  split; [|split; [|split; [|split]]].
  - rewrite !map_app. simpl. fold ids. rewrite <- app_assoc. simpl.
    rewrite map_app in Hnd. simpl in Hnd.
    apply NoDup_app in Hnd as (Hnd1 & Hdisj & Hnd2).
    apply NoDup_cons in Hnd2 as [Hcq Hnd2].
    assert (forall x, x ∈ map unit_id (filter (fun b => newCount b = 0) L) ->
                      (x ∉ ids) /\ x <> unit_id cur /\ (x ∉ map unit_id q)) as Hnewids.
    { intros x Hx. apply list_elem_of_fmap in Hx as (b & -> & Hb).
      destruct (Hnew b Hb) as [Hbu Hnotin].
      assert (forall w, w ∈ sorted ++ cur :: q -> unit_id b <> unit_id w) as Hne.
      { intros w Hw Heq. apply Hnotin.
        assert (b = w) as -> by (apply unit_id_inj; [done|by apply Hsub|done]). done. }
      split; [|split].
      - intros Hin'. apply list_elem_of_fmap in Hin' as (w & Heq & Hw).
        apply (Hne w); [|done]. rewrite elem_of_app. tauto.
      - apply Hne. rewrite elem_of_app, elem_of_cons. tauto.
      - intros Hin'. apply list_elem_of_fmap in Hin' as (w & Heq & Hw).
        apply (Hne w); [|done]. rewrite elem_of_app, elem_of_cons. tauto. }
    apply NoDup_app. split; [done|]. split.
    + intros x Hx Hx'. apply elem_of_cons in Hx' as [->|Hx']; [done|].
      apply elem_of_app in Hx' as [Hx'|Hx'].
      * apply (Hdisj x Hx). by right.
      * by apply Hnewids in Hx' as [? _].
    + apply NoDup_cons. split.
      * rewrite elem_of_app. intros [?|Hx']; [done|]. by apply Hnewids in Hx' as (_ & ? & _).
      * apply NoDup_app. split; [done|]. split; [|by apply NoDup_map_filter].
        intros x Hx Hx'. by apply Hnewids in Hx' as (_ & _ & ?).
  - intros u Hu. rewrite !elem_of_app, list_elem_of_singleton in Hu.
    destruct Hu as [[Hu| ->]|[Hu|Hu]]; [| done | |by apply Hnew in Hu as [? _]].
    + apply Hsub. rewrite elem_of_app. tauto.
    + apply Hsub. rewrite elem_of_app, elem_of_cons. tauto.
  - intros u Hu. destruct (decide (unit_id cur ∈ importeeIds u)) as [Hc|Hc].
    + apply Hin, HL, importsIn_importee. done.
    + rewrite Hout.
      * rewrite (Hn u Hu). fold ids. f_equal. f_equal. unfold newCount.
        by rewrite pending_snoc_notin.
      * intros Hx. apply list_elem_of_fmap in Hx as (b & Heq & Hb). apply Hc.
        assert (u = b) as -> by (apply unit_id_inj; [done|by apply HLcount|done]).
        by apply HL, importsIn_importee in Hb as (_ & _ & ?).
  - intros u Hu. split.
    + intros Hin'. rewrite !elem_of_app, list_elem_of_singleton in Hin'.
      destruct Hin' as [Hold|[Hold|Hnew']].
      * assert (pending ids u = 0) as H0.
        { apply (Hready u Hu). rewrite elem_of_app, elem_of_cons.
          destruct Hold as [?| ->]; tauto. }
        pose proof (pending_snoc_le ids (unit_id cur) u). unfold newCount. lia.
      * assert (pending ids u = 0) as H0.
        { apply (Hready u Hu). rewrite elem_of_app, elem_of_cons. tauto. }
        pose proof (pending_snoc_le ids (unit_id cur) u). unfold newCount. lia.
      * by apply list_elem_of_filter in Hnew' as [? _].
    + intros H0. rewrite !elem_of_app, list_elem_of_singleton.
      destruct (decide (pending ids u = 0)) as [Hold|Hold].
      * apply (Hready u Hu) in Hold. rewrite elem_of_app, elem_of_cons in Hold.
        destruct Hold as [?|[->|?]]; tauto.
      * right; right. apply list_elem_of_filter. split; [done|].
        apply HL, importsIn_importee. split; [done|]. split; [done|].
        destruct (decide (unit_id cur ∈ importeeIds u)) as [?|Hnot]; [done|].
        unfold newCount in H0. rewrite pending_snoc_notin in H0 by done. done.
  - intros i u Hi x Hx. destruct (decide (i < length sorted)) as [Hlt|Hge].
    + rewrite lookup_app_l in Hi by done.
      destruct (Hord i u Hi x Hx) as (j & v & Hj & Hv & Hvx).
      exists j, v. split; [done|]. split; [|done]. rewrite lookup_app_l; [done|lia].
    + assert (i = length sorted /\ u = cur) as [-> ->].
      { rewrite lookup_app_r in Hi by lia.
        destruct (i - length sorted) as [|k] eqn:Hk; simpl in Hi; [|by rewrite lookup_nil in Hi].
        injection Hi as <-. split; [lia|done]. }
      assert (pending ids cur = 0) as H0.
      { apply (Hready cur Hcur). rewrite elem_of_app, elem_of_cons. tauto. }
      rewrite pending_zero in H0. specialize (H0 x Hx).
      apply list_elem_of_fmap in H0 as (v & -> & Hv).
      apply list_elem_of_lookup in Hv as [j Hj]. exists j, v.
      split; [by apply lookup_lt_Some in Hj|]. split; [|done].
      rewrite lookup_app_l; [done|]. by apply lookup_lt_Some in Hj.
Qed.
End SortLoop.

Lemma NoDup_map_length {A B : Type} (f : A -> B) (l k : list A) :
  NoDup (map f l) -> (forall x, x ∈ l -> x ∈ k) -> length l <= length k.
Proof.
  intros Hnd Hsub. rewrite <- (length_map f l), <- (length_map f k).
  apply submseteq_length, NoDup_submseteq; [done|].
  intros y Hy. apply list_elem_of_fmap in Hy as (x & -> & Hx).
  apply list_elem_of_fmap. exists x. split; [done|by apply Hsub].
Qed.

Section SortResult.
Variable units : list SourceUnit.
Variable st : TopoState.
Hypothesis Hids : NoDup (map unit_id units).
Hypothesis Hgraph : graphBuilt units st.
Hypothesis Hresolved :
  forall u x, u ∈ units -> x ∈ importeeIds u -> exists v, v ∈ units /\ unit_id v = x.

Lemma sortLoop_runs fuel n q sorted :
  sortInv units n q sorted ->
  length units < fuel + length sorted ->
  exists result n',
    sortLoop fuel st n q sorted = Some (Returned result) /\ sortInv units n' [] result.
Proof.
  revert n q sorted. induction fuel as [|fuel IH]; intros n q sorted Hinv Hfuel.
  - exfalso. destruct Hinv as (Hnd & Hsub & _).
    pose proof (NoDup_map_length unit_id (sorted ++ q) units Hnd Hsub) as Hlen.
    rewrite length_app in Hlen. lia.
  - simpl. destruct q as [|cur q]; [eauto|].
    destruct (sortInv_step units st Hids Hgraph n cur q sorted Hinv) as (n' & q' & Hrun & Hinv').
    rewrite Hrun. apply (IH n' q' (sorted ++ [cur]) Hinv').
    rewrite length_app. simpl. lia.
Qed.

Lemma sorted_position n sorted i u v :
  sortInv units n [] sorted ->
  sorted !! i = Some u -> importsIn units u v ->
  exists j, j < i /\ sorted !! j = Some v.
Proof.
  intros (Hnd & Hsub & _ & _ & Hord) Hi Himp.
  apply (importsIn_importee units) in Himp as (Hu & Hv & Hx).
  destruct (Hord i u Hi _ Hx) as (j & v' & Hj & Hv' & Heq).
  exists j. split; [done|]. rewrite Hv'. f_equal.
  apply (unit_id_inj units Hids); [|done..].
  apply Hsub. rewrite app_nil_r. apply list_elem_of_lookup. eauto.
Qed.

Lemma sorted_position_tc n sorted u v :
  sortInv units n [] sorted ->
  tc (importsIn units) u v ->
  forall i, sorted !! i = Some u -> exists j, j < i /\ sorted !! j = Some v.
Proof.
  intros Hinv Htc. induction Htc as [u v Huv|u w v Huw _ IH]; intros i Hi.
  - by apply (sorted_position n sorted i u v).
  - destruct (sorted_position n sorted i u w Hinv Hi Huw) as (j & Hj & Hw).
    destruct (IH j Hw) as (k & Hk & Hv). exists k. split; [lia|done].
Qed.

Lemma cyclic_not_sorted n sorted u :
  sortInv units n [] sorted -> tc (importsIn units) u u -> u ∉ sorted.
Proof.
  intros Hinv Htc Hin. apply list_elem_of_lookup in Hin as [i Hi].
  destruct (sorted_position_tc n sorted u u Hinv Htc i Hi) as (j & Hj & Hu).
  destruct Hinv as (Hnd & _). rewrite app_nil_r in Hnd.
  assert (i = j); [|lia].
  apply (NoDup_lookup (map unit_id sorted) i j (unit_id u) Hnd).
  - change (map unit_id sorted) with (unit_id <$> sorted). by rewrite list_lookup_fmap, Hi.
  - change (map unit_id sorted) with (unit_id <$> sorted). by rewrite list_lookup_fmap, Hu.
Qed.

Lemma acyclic_all_sorted n sorted :
  (forall u, ~ tc (importsIn units) u u) ->
  sortInv units n [] sorted ->
  forall u, u ∈ units -> u ∈ sorted.
Proof.
  intros Hacyclic (Hnd & Hsub & _ & Hready & _) u.
  assert (sn (importsIn units) u) as Hsn.
  { apply tc_finite_sn; [intros x; apply Hacyclic|].
    exists units. intros y Hy. clear -Hy.
    induction Hy as [x y (_ & ? & _)|x y z _ _ IH]; done. }
  induction Hsn as [u _ IH]. intros Hu.
  specialize (Hready u Hu). rewrite app_nil_r in Hready. apply Hready.
  apply pending_zero. intros x Hx.
  destruct (Hresolved u x Hu Hx) as (v & Hv & <-).
  apply list_elem_of_fmap. exists v. split; [done|].
  apply (IH v); [|done]. unfold flip. apply importsIn_importee. done.
Qed.
End SortResult.

(** C3: for distinct units whose import directives refer to units of the
    list, [topoSort] returns, when no unit transitively imports itself, a
    permutation of the list in which every unit comes after the units it
    imports; and when some unit transitively imports itself, its final
    assertion fails, the sorted list being shorter than the input. *)
Theorem topoSort_sorts_or_fails (units : list SourceUnit) :
  unitsClosed units ->
  ((forall u, ~ tc (importsIn units) u u) ->
   exists sorted,
     topoSort units = Some (Returned sorted) /\ sorted ≡ₚ units /\
     forall i j u v, sorted !! i = Some u -> sorted !! j = Some v ->
                     importsIn units u v -> j < i) /\
  (forall u, tc (importsIn units) u u ->
             exists k, k < length units /\
                       topoSort units
                       = Some (Thrown (topoSortFailure k (length units)))).
Proof.
  intros Hclosed. pose proof Hclosed as (Hids & Hpaths & Hres).
  destruct (topoSort_graphBuilt units Hclosed) as (st & Hbuild & Hgraph).
  assert (forall u x, u ∈ units -> x ∈ importeeIds u ->
                      exists v, v ∈ units /\ unit_id v = x) as Hresolved.
  { intros u x Hu Hx. apply importeeIds_spec in Hx.
    apply list_elem_of_fmap in Hx as (imp & -> & Himp).
    destruct (Hres u imp Hu Himp) as (v & ? & _ & ?). eauto. }
  destruct (sortLoop_runs units st Hids Hgraph (S (length units)) (nImportsM st)
              (filter (fun u => nImportsM st !! unit_id u = Some 0%Z) units) [])
    as (sorted & n' & Hrun & Hinv).
  { by apply sortInv_init. }
  { simpl. lia. }
  assert (NoDup sorted /\ forall u, u ∈ sorted -> u ∈ units) as [Hnd Hsub].
  { destruct Hinv as (Hnd & Hsub & _). rewrite app_nil_r in Hnd, Hsub.
    split; [|done]. by apply (NoDup_fmap_1 unit_id). }
  assert (NoDup units) as Hunits by (by apply (NoDup_fmap_1 unit_id)).
  split.
  - intros Hacyclic.
    pose proof (acyclic_all_sorted units Hresolved n' sorted Hacyclic Hinv) as Hall.
    assert (sorted ≡ₚ units) as Hperm.
    { apply NoDup_Permutation; [done..|]. intros u. split; [apply Hsub|apply Hall]. }
    exists sorted. split; [|split; [done|]].
    + unfold topoSort. rewrite Hbuild, Hrun. unfold assert.
      rewrite bool_decide_eq_true_2; [done|]. by rewrite Hperm.
    + intros i j u v Hi Hj Himp.
      destruct (sorted_position units Hids n' sorted i u v Hinv Hi Himp) as (j' & Hlt & Hj').
      assert (j = j'); [|lia]. by apply (NoDup_lookup sorted j j' v).
  - intros u Hcycle.
    pose proof (cyclic_not_sorted units Hids n' sorted u Hinv Hcycle) as Hnot.
    assert (u ∈ units) as Hu.
    { clear -Hcycle. remember u as v in Hcycle at 1.
      clear Heqv. induction Hcycle as [x y (_ & ? & _)|x y z _ _ IH]; done. }
    assert (length sorted < length units) as Hlen.
    { assert (length (u :: sorted) <= length units); [|simpl in *; lia].
      apply (NoDup_map_length (fun x => x)).
      - rewrite map_id. by apply NoDup_cons.
      - intros x Hx. apply elem_of_cons in Hx as [->|Hx]; [done|by apply Hsub]. }
    exists (length sorted). split; [done|].
    unfold topoSort. rewrite Hbuild, Hrun. unfold assert.
    rewrite bool_decide_eq_false_2 by lia. reflexivity.
Qed.

Example sample_topoSort :
  topoSort [SampleUnits.unitA; SampleUnits.unitB]
  = Some (Returned [SampleUnits.unitB; SampleUnits.unitA]).
Proof. vm_compute. reflexivity. Qed.

Example sample_topoSort_cycle :
  topoSort [SampleUnits.unitX; SampleUnits.unitY]
  = Some (Thrown "Topo sort didn't preserve list: sorted - 0 original - 2").
Proof. vm_compute. reflexivity. Qed.

Lemma sample_units_closed :
  unitsClosed [SampleUnits.unitA; SampleUnits.unitB] /\
  unitsClosed [SampleUnits.unitX; SampleUnits.unitY].
Proof.
  split; (split; [|split]).
  - apply (bool_decide_unpack _). vm_compute. exact I.
  - apply (bool_decide_unpack _). vm_compute. exact I.
  - intros u imp Hu Himp.
    apply elem_of_cons in Hu as [->|Hu]; [|apply list_elem_of_singleton in Hu as ->].
    + apply list_elem_of_singleton in Himp as ->.
      exists SampleUnits.unitB. split; [by right; left|done].
    + inversion Himp.
  - apply (bool_decide_unpack _). vm_compute. exact I.
  - apply (bool_decide_unpack _). vm_compute. exact I.
  - intros u imp Hu Himp.
    apply elem_of_cons in Hu as [->|Hu]; [|apply list_elem_of_singleton in Hu as ->].
    + apply list_elem_of_singleton in Himp as ->.
      exists SampleUnits.unitY. split; [by right; left|done].
    + apply list_elem_of_singleton in Himp as ->.
      exists SampleUnits.unitX. split; [by left|done].
Qed.

Lemma sample_units_acyclic u :
  ~ tc (importsIn [SampleUnits.unitA; SampleUnits.unitB]) u u.
Proof.
  assert (forall x y, importsIn [SampleUnits.unitA; SampleUnits.unitB] x y ->
                      x = SampleUnits.unitA /\ y = SampleUnits.unitB) as Hstep.
  { intros x y (Hx & Hy & Hxy).
    apply elem_of_cons in Hx as [->|Hx]; [|apply list_elem_of_singleton in Hx as ->].
    - split; [done|]. apply list_elem_of_singleton in Hxy.
      apply elem_of_cons in Hy as [->|Hy]; [discriminate|].
      by apply list_elem_of_singleton in Hy.
    - inversion Hxy. }
  assert (forall x y, tc (importsIn [SampleUnits.unitA; SampleUnits.unitB]) x y ->
                      x = SampleUnits.unitA /\ y = SampleUnits.unitB) as Htc.
  { intros x y Hxy. induction Hxy as [x y Hxy|x y z Hxy _ [-> _]]; [by apply Hstep|].
    apply Hstep in Hxy as [_ Hxy]. discriminate. }
  intros Hcycle. apply Htc in Hcycle as [-> Heq]. discriminate.
Qed.

Lemma topoSort_sorts_or_fails_witness :
  (exists sorted,
      topoSort [SampleUnits.unitA; SampleUnits.unitB] = Some (Returned sorted) /\
      sorted ≡ₚ [SampleUnits.unitA; SampleUnits.unitB] /\
      forall i j u v, sorted !! i = Some u -> sorted !! j = Some v ->
                      importsIn [SampleUnits.unitA; SampleUnits.unitB] u v -> j < i) /\
  (exists k, k < 2 /\
             topoSort [SampleUnits.unitX; SampleUnits.unitY]
             = Some (Thrown (topoSortFailure k 2))).
Proof.
  split.
  - apply (proj1 (topoSort_sorts_or_fails [SampleUnits.unitA; SampleUnits.unitB]
                    (proj1 sample_units_closed))).
    apply sample_units_acyclic.
  - apply (proj2 (topoSort_sorts_or_fails [SampleUnits.unitX; SampleUnits.unitY]
                    (proj2 sample_units_closed)) SampleUnits.unitX).
    apply (tc_l _ _ SampleUnits.unitY).
    + split; [by left|]. split; [by right; left|]. left.
    + apply tc_once. split; [by right; left|]. split; [by left|]. left.
Defined.

(** *** Flattening *)

Lemma collectNames_topLevelDefs (ctx : ASTContext) (units : list FlatUnit) :
  collectNames ctx units
  = foldl (fun m def => pushDef m (decl_name (ctx def)) def) [] (topLevelDefs units).
Proof.
  unfold collectNames, topLevelDefs. generalize (@nil (string * list nat)).
  induction units as [|u units IH]; intros m; [done|].
  cbn [foldl]. rewrite IH. rewrite bind_cons, !foldl_app. done.
Qed.

Lemma pushDef_keys (m : list (string * list nat)) (name : string) (def : nat) :
  map fst (pushDef m name def)
  = if decide (name ∈ map fst m) then map fst m else map fst m ++ [name].
Proof.
  induction m as [|[n ds] m IH].
  - simpl. destruct (decide (name ∈ [])) as [Hin|_]; [inversion Hin|done].
  - simpl. destruct (decide (n = name)) as [->|Hne]; simpl.
    + rewrite decide_True; [done|left].
    + rewrite IH. destruct (decide (name ∈ map fst m)) as [Hin|Hnin].
      * rewrite decide_True; [done|by right].
      * rewrite decide_False; [done|]. rewrite not_elem_of_cons. split; [congruence|done].
Qed.

Lemma elem_of_pushDef (m : list (string * list nat)) (name : string) (def : nat) n ds :
  NoDup (map fst m) ->
  (n, ds) ∈ pushDef m name def ->
  (n <> name /\ (n, ds) ∈ m) \/
  (n = name /\ ((exists ds0, (name, ds0) ∈ m /\ ds = ds0 ++ [def]) \/
                ((name ∉ map fst m) /\ ds = [def]))).
Proof.
  induction m as [|[n0 ds0] m IH]; simpl; intros Hnd.
  - intros Hin. apply list_elem_of_singleton in Hin. injection Hin as -> ->.
    right. split; [done|]. right. split; [apply not_elem_of_nil|done].
  - apply NoDup_cons in Hnd as [Hn0 Hnd]. destruct (decide (n0 = name)) as [->|Hne].
    + intros Hin. apply elem_of_cons in Hin as [Heq|Hin].
      * injection Heq as -> ->. right. split; [done|]. left. exists ds0. split; [left|done].
      * left. split; [|by right]. intros ->. apply Hn0.
        apply list_elem_of_fmap. by exists (name, ds).
    + intros Hin. apply elem_of_cons in Hin as [Heq|Hin].
      * injection Heq as -> ->. left. split; [done|left].
      * destruct (IH Hnd Hin) as [[Hn Hm]|[-> [(ds1 & Hm & ->)|[Hnot ->]]]].
        -- left. split; [done|by right].
        -- right. split; [done|]. left. exists ds1. split; [by right|done].
        -- right. split; [done|]. right. split; [|done].
           rewrite not_elem_of_cons. split; [congruence|done].
Qed.

Lemma grouped_snoc (ctx : ASTContext) (defs : list nat) (def : nat) nameMap :
  grouped ctx defs nameMap ->
  grouped ctx (defs ++ [def]) (pushDef nameMap (decl_name (ctx def)) def).
Proof.
  intros (Hnd & Hgroups & Hkeys). set (name := decl_name (ctx def)).
  assert (forall n, filter (fun d => decl_name (ctx d) = n) (defs ++ [def])
                    = filter (fun d => decl_name (ctx d) = n) defs
                        ++ (if decide (name = n) then [def] else [])) as Hfilter.
  { intros n. rewrite filter_app, filter_cons, filter_nil. done. }
  split; [|split].
  - rewrite pushDef_keys. destruct (decide (name ∈ map fst nameMap)) as [Hin|Hnin]; [done|].
    apply NoDup_app. split; [done|]. split; [|apply NoDup_singleton].
    intros x Hx Hx'. apply list_elem_of_singleton in Hx'. by subst.
  - intros n ds Hin. rewrite Hfilter.
    apply (elem_of_pushDef _ _ _ _ _ Hnd) in Hin
      as [[Hn Hm]|[-> [(ds0 & Hm & ->)|[Hnot ->]]]].
    + rewrite decide_False by done. rewrite app_nil_r. by apply Hgroups.
    + rewrite decide_True by done. f_equal. by apply Hgroups.
    + rewrite decide_True by done.
      assert (filter (fun d => decl_name (ctx d) = name) defs = []) as ->; [|done].
      destruct (filter _ defs) as [|d l] eqn:Hf; [done|]. exfalso. apply Hnot.
      assert (d ∈ filter (fun d => decl_name (ctx d) = name) defs) as Hd
          by (rewrite Hf; left).
      apply list_elem_of_filter in Hd as [<- Hd]. by apply Hkeys.
  - intros d Hd. rewrite pushDef_keys. apply elem_of_app in Hd as [Hd|Hd].
    + destruct (decide (name ∈ map fst nameMap)); [by apply Hkeys|].
      rewrite elem_of_app. left. by apply Hkeys.
    + apply list_elem_of_singleton in Hd as ->. fold name.
      destruct (decide (name ∈ map fst nameMap)); [done|].
      rewrite elem_of_app, list_elem_of_singleton. by right.
Qed.

Lemma collectNames_grouped (ctx : ASTContext) (units : list FlatUnit) :
  grouped ctx (topLevelDefs units) (collectNames ctx units).
Proof.
  rewrite collectNames_topLevelDefs.
  induction (topLevelDefs units) as [|def defs IH] using rev_ind.
  - split; [constructor|]. split; [intros n ds Hin; inversion Hin|intros d Hd; inversion Hd].
  - rewrite foldl_app. simpl. by apply grouped_snoc.
Qed.

Lemma appendToName_fields ctx def suffix x :
  decl_kind (appendToName ctx def suffix x) = decl_kind (ctx x) /\
  decl_vScope (appendToName ctx def suffix x) = decl_vScope (ctx x).
Proof. unfold appendToName. by destruct (decide (x = def)). Qed.

Lemma renameFrom_spec (defs : list nat) (ctx : ASTContext) (defIdx : nat) :
  NoDup defs ->
  (forall j d, defs !! j = Some d ->
               decl_name (renameFrom ctx defIdx defs d)
               = decl_name (ctx d) +:+ "_" +:+ pretty (defIdx + j)) /\
  (forall x, x ∉ defs -> renameFrom ctx defIdx defs x = ctx x) /\
  (forall x, decl_kind (renameFrom ctx defIdx defs x) = decl_kind (ctx x) /\
             decl_vScope (renameFrom ctx defIdx defs x) = decl_vScope (ctx x)).
Proof.
  revert ctx defIdx. induction defs as [|d0 defs IH]; intros ctx defIdx Hnd; simpl.
  - split; [intros j d Hj; by rewrite lookup_nil in Hj|]. by split.
  - apply NoDup_cons in Hnd as [Hd0 Hnd].
    destruct (IH (appendToName ctx d0 ("_" +:+ pretty defIdx)) (S defIdx) Hnd)
      as (Hin & Hout & Hfields).
    split; [|split].
    + intros [|j] d Hj; simpl in Hj.
      * injection Hj as <-. rewrite Hout by done. unfold appendToName.
        rewrite decide_True by done. simpl. by rewrite Nat.add_0_r.
      * rewrite (Hin j d Hj). unfold appendToName. rewrite decide_False.
        -- by replace (S defIdx + j) with (defIdx + S j) by lia.
        -- intros ->. apply Hd0. apply list_elem_of_lookup. eauto.
    + intros x Hx. rewrite not_elem_of_cons in Hx. destruct Hx as [Hne Hx].
      rewrite Hout by done. unfold appendToName. by rewrite decide_False.
    + intros x. destruct (Hfields x) as [-> ->]. apply appendToName_fields.
Qed.

Lemma renameGroups_spec (groups : list (string * list nat)) (ctx : ASTContext) :
  NoDup (groups ≫= snd) ->
  let ctx' := foldl (fun ctx entry => renameFrom ctx 1 (tail entry.2)) ctx groups in
  (forall n ds j d, (n, ds) ∈ groups -> ds !! j = Some d ->
                    decl_name (ctx' d)
                    = if decide (j = 0) then decl_name (ctx d)
                      else decl_name (ctx d) +:+ "_" +:+ pretty j) /\
  (forall x, x ∉ groups ≫= snd -> ctx' x = ctx x) /\
  (forall x, decl_kind (ctx' x) = decl_kind (ctx x) /\
             decl_vScope (ctx' x) = decl_vScope (ctx x)).
Proof.
  revert ctx. induction groups as [|[n0 ds0] groups IH]; intros ctx Hnd; cbn [foldl snd].
  - split; [intros n ds j d Hin; inversion Hin|]. by split.
  - rewrite bind_cons in Hnd. simpl in Hnd. apply NoDup_app in Hnd as (Hnd0 & Hdisj & Hnd).
    assert (NoDup (tail ds0)) as Hndt by (destruct ds0; [done|by apply NoDup_cons in Hnd0 as [_ ?]]).
    destruct (renameFrom_spec (tail ds0) ctx 1 Hndt) as (Hin1 & Hout1 & Hfields1).
    destruct (IH (renameFrom ctx 1 (tail ds0)) Hnd) as (Hin & Hout & Hfields).
    assert (forall x, x ∈ tail ds0 -> x ∈ ds0) as Htail
        by (intros x Hx; destruct ds0; [done|by right]).
    split; [|split].
    + intros n ds j d Hg Hj. apply elem_of_cons in Hg as [Heq|Hg].
      * injection Heq as -> ->.
        assert (d ∈ ds0) as Hd by (apply list_elem_of_lookup; eauto).
        rewrite Hout by (intros Hx; by apply (Hdisj d)).
        destruct j as [|j].
        -- rewrite decide_True by done. rewrite Hout1; [done|].
           destruct ds0 as [|d0 ds0]; [done|]. simpl in *. injection Hj as ->.
           by apply NoDup_cons in Hnd0 as [? _].
        -- rewrite decide_False by done. destruct ds0 as [|d0 ds0]; [done|]. simpl in *.
           by rewrite (Hin1 j d Hj).
      * assert (d ∈ groups ≫= snd) as Hd.
        { apply list_elem_of_bind. exists (n, ds). split; [|done].
          simpl. apply list_elem_of_lookup. eauto. }
        rewrite (Hin n ds j d Hg Hj).
        rewrite Hout1; [done|]. intros Hx. apply (Hdisj d); [by apply Htail|done].
    + intros x Hx. rewrite bind_cons, not_elem_of_app in Hx. destruct Hx as [Hx0 Hx].
      rewrite Hout by done. apply Hout1. intros Hxt. by apply Hx0, Htail.
    + intros x. destruct (Hfields x) as [-> ->]. apply Hfields1.
Qed.

Lemma groups_NoDup (ctx : ASTContext) (defs : list nat) (groups : list (string * list nat)) :
  NoDup (map fst groups) ->
  (forall n ds, (n, ds) ∈ groups -> ds = filter (fun d => decl_name (ctx d) = n) defs) ->
  NoDup defs ->
  NoDup (groups ≫= snd).
Proof.
  intros Hkeys Hgroups Hdefs. induction groups as [|[n ds] groups IH]; [constructor|].
  simpl in Hkeys. apply NoDup_cons in Hkeys as [Hn Hkeys].
  rewrite bind_cons. simpl. apply NoDup_app. split; [|split].
  - rewrite (Hgroups n ds) by left. by apply NoDup_filter.
  - intros x Hx Hx'. apply list_elem_of_bind in Hx' as ([n' ds'] & Hx' & Hg). simpl in Hx'.
    rewrite (Hgroups n ds) in Hx by left.
    rewrite (Hgroups n' ds') in Hx' by (by right).
    apply list_elem_of_filter in Hx as [Hname _].
    apply list_elem_of_filter in Hx' as [Hname' _].
    apply Hn. apply list_elem_of_fmap. exists (n', ds'). split; [simpl; congruence|done].
  - apply IH; [done|]. intros n' ds' Hg. apply Hgroups. by right.
Qed.

Lemma filter_lookup_position {A : Type} (P : A -> Prop) `{forall x, Decision (P x)}
      (l : list A) (i : nat) (x : A) :
  l !! i = Some x -> P x -> filter P l !! length (filter P (take i l)) = Some x.
Proof.
  intros Hi Hx. pose proof (take_drop_middle l i x Hi) as Hsplit.
  set (before := take i l) in *. set (after := drop (S i) l) in *.
  clearbody before after. subst l.
  rewrite filter_app, filter_cons, decide_True by done.
  rewrite lookup_app_r by lia. by rewrite Nat.sub_diag.
Qed.

Lemma fixNameConflicts_names (units : list FlatUnit) (ctx : ASTContext) :
  NoDup (topLevelDefs units) ->
  (forall i def, topLevelDefs units !! i = Some def ->
                 decl_name (fixNameConflicts units ctx def)
                 = if decide (earlierSameName ctx (topLevelDefs units) i def = 0)
                   then decl_name (ctx def)
                   else decl_name (ctx def) +:+ "_"
                          +:+ pretty (earlierSameName ctx (topLevelDefs units) i def)) /\
  (forall x, x ∉ topLevelDefs units -> fixNameConflicts units ctx x = ctx x) /\
  (forall x, decl_kind (fixNameConflicts units ctx x) = decl_kind (ctx x) /\
             decl_vScope (fixNameConflicts units ctx x) = decl_vScope (ctx x)).
Proof.
  intros Hnd. destruct (collectNames_grouped ctx units) as (Hkeys & Hgroups & Hall).
  pose proof (groups_NoDup ctx _ _ Hkeys Hgroups Hnd) as Hdisj.
  destruct (renameGroups_spec (collectNames ctx units) ctx Hdisj) as (Hin & Hout & Hfields).
  unfold fixNameConflicts. split; [|split; [|done]].
  - intros i def Hi.
    assert (def ∈ topLevelDefs units) as Hdef by (apply list_elem_of_lookup; eauto).
    specialize (Hall def Hdef). apply list_elem_of_fmap in Hall as ([n ds] & Hn & Hg).
    simpl in Hn. subst n. apply (Hin _ ds _ def Hg).
    rewrite (Hgroups _ ds Hg). unfold earlierSameName.
    by apply (filter_lookup_position (fun d => decl_name (ctx d) = decl_name (ctx def))).
  - intros x Hx. apply Hout. intros Hin'. apply Hx.
    apply list_elem_of_bind in Hin' as ([n ds] & Hxds & Hg). simpl in Hxds.
    rewrite (Hgroups n ds Hg) in Hxds. by apply list_elem_of_filter in Hxds as [_ ?].
Qed.

Lemma getFQName_returns (ctx : ASTContext) (def : nat) (node : RefNode) :
  decl_kind (ctx def) = ContractDefinitionNode \/
  isUnitOrContract (decl_vScope (ctx def)) = true ->
  (exists fq, getFQName ctx def node = Returned fq) /\
  (decl_kind (ctx def) = ContractDefinitionNode \/
   (exists unitId, decl_vScope (ctx def) = ScopeSourceUnit unitId) ->
   getFQName ctx def node = Returned (decl_name (ctx def))).
Proof.
  intros Hok. unfold getFQName.
  destruct (decide (decl_kind (ctx def) = ContractDefinitionNode)) as [Hc|Hc].
  - split; eauto.
  - destruct Hok as [?|Hscope]; [done|].
    destruct (decl_vScope (ctx def)) as [u|c|]; [| |discriminate].
    + split; eauto.
    + split.
      * destruct (decide _); eauto.
      * intros [?|[u Hu]]; [done|discriminate].
Qed.

Lemma NodeTree_forall_ind (P : NodeTree -> Prop) :
  (forall label children,
      Forall (fun child => P child.2) children -> P (TNode label children)) ->
  forall tree, P tree.
Proof.
  intros Hnode. fix IH 1. intros [label children]. apply Hnode.
  induction children as [|[slot child] children IHchildren]; constructor;
    [apply IH|apply IHchildren].
Qed.

Lemma replaceNode_returned parent slot oldNode newNode fixed :
  replaceNode parent slot oldNode newNode = Returned fixed ->
  fixed = Replaced newNode /\ slot = InProperty /\
  ref_context oldNode = ref_context newNode.
Proof.
  unfold replaceNode, assert. case_bool_decide as Hctx; [|discriminate].
  cbn [mbind Outcome_bind bindO]. destruct slot; [|discriminate].
  intros [= <-]. done.
Qed.


Lemma isMaterial_not_unit (ctx : ASTContext) (def : nat) :
  isMaterial (decl_kind (ctx def)) = true ->
  baseIsUnit ctx (BaseIdentifier (Some def)) = false.
Proof.
  intros Hmat. apply bool_decide_eq_true in Hmat. simpl.
  apply bool_decide_eq_false_2. intros [Hk|Hk]; rewrite Hk in Hmat;
    repeat (apply elem_of_cons in Hmat as [?|Hmat]; [discriminate|]); inversion Hmat.
Qed.

Section RenamingPass.
Variable ctx : ASTContext.
Variable factoryContext : nat.

Local Abbreviation fixRef' := (fixRef ctx factoryContext).
Local Abbreviation fixTree' := (fixTree ctx factoryContext).



Lemma fixRef_sameReferent nextId nextId' parent slot base node fixed :
  fixRef' nextId parent slot base node = Returned (fixed, nextId') ->
  nextId <= nextId' /\ sameReferent nextId nextId' node fixed.
Proof.
  assert (forall n, n <= n /\ sameReferent n n node (Kept node)) as Hsame.
  { intros n. split; [done|]. unfold sameReferent. simpl. tauto. }
  intros H. unfold fixRef in H.
  destruct (decide _) as [_|_]; [injection H as <- <-; apply Hsame|].
  destruct (ref_referencedDeclaration node) as [def|] eqn:Href;
    [|injection H as <- <-; apply Hsame].
  destruct (negb (isMaterial (decl_kind (ctx def)))); [injection H as <- <-; apply Hsame|].
  destruct (_ && _); [injection H as <- <-; apply Hsame|].
  apply bind_returned in H as (fq & _ & H).
  destruct (decide (ref_class node = MemberAccessNode)) as [Hm|Hm].
  - destruct (baseIsUnit ctx base); [|injection H as <- <-; apply Hsame].
    apply bind_returned in H as (fx & Hrepl & H). injection H as <- <-.
    apply replaceNode_returned in Hrepl as (-> & _).
    split; [lia|]. unfold sameReferent, makeIdentifierFor. simpl.
    split; [done|]. split; [done|]. split; [done|]. split; [done|]. lia.
  - destruct (decide (fq <> ref_name node)); [|injection H as <- <-; apply Hsame].
    injection H as <- <-. split; [done|]. unfold sameReferent. simpl. rewrite Href. tauto.
Qed.

(** A node that was kept is kept again, whatever the factory and the
    parent, as long as its base has not become a unit; and it looks the
    same as a base. *)
Lemma fixRef_kept nextId nextId' parent slot base node node' :
  fixRef' nextId parent slot base node = Returned (Kept node', nextId') ->
  nextId' = nextId /\
  labelBase (Selected node') = labelBase (Selected node) /\
  forall m parent' slot' base',
    (baseIsUnit ctx base = false -> baseIsUnit ctx base' = false) ->
    fixRef' m parent' slot' base' node' = Returned (Kept node', m).
Proof.
  intros H. unfold fixRef in H.
  destruct (decide (ref_class node = IdentifierNode /\
                    vIdentifierType node <> ExternalReferenceType.UserDefined)) as [Hb|Hb].
  { injection H as <- <-. split; [done|]. split; [done|]. intros m parent' slot' base' _.
    unfold fixRef. by rewrite decide_True. }
  destruct (ref_referencedDeclaration node) as [def|] eqn:Href.
  2:{ injection H as <- <-. split; [done|]. split; [done|]. intros m parent' slot' base' _.
      unfold fixRef. rewrite decide_False by done. by rewrite Href. }
  destruct (isMaterial (decl_kind (ctx def))) eqn:Hmat; simpl in H.
  2:{ injection H as <- <-. split; [done|]. split; [done|]. intros m parent' slot' base' _.
      unfold fixRef. rewrite decide_False by done. by rewrite Href, Hmat. }
  destruct (bool_decide (decl_kind (ctx def) = VariableDeclarationNode)
            && negb (isUnitOrContract (decl_vScope (ctx def))
                     && bool_decide (ref_class node = MemberAccessNode))) eqn:Hguard.
  { injection H as <- <-. split; [done|]. split; [done|]. intros m parent' slot' base' _.
    unfold fixRef. rewrite decide_False by done. by rewrite Href, Hmat, Hguard. }
  apply bind_returned in H as (fq & Hfq & H).
  destruct (decide (ref_class node = MemberAccessNode)) as [Hm|Hm].
  - destruct (baseIsUnit ctx base) eqn:Hbase.
    + apply bind_returned in H as (fx & Hrepl & H). injection H as -> _.
      apply replaceNode_returned in Hrepl as (? & _). discriminate.
    + injection H as <- <-. split; [done|]. split; [done|].
      intros m parent' slot' base' Hbase'. unfold fixRef. rewrite decide_False by done.
      rewrite Href, Hmat. simpl. rewrite Hguard, Hfq. cbn [mbind Outcome_bind bindO].
      rewrite decide_True by done. by rewrite (Hbase' eq_refl).
  - destruct (decide (fq <> ref_name node)) as [Hne|Heq].
    + injection H as <- <-. split; [done|].
      split; [unfold labelBase; simpl; by rewrite Href|].
      intros m parent' slot' base' _. unfold fixRef, vIdentifierType. simpl.
      rewrite decide_False.
      2:{ intros [Hc Hx]. apply Hb. split; [done|]. unfold vIdentifierType.
          by rewrite Href. }
      rewrite Hmat. simpl. rewrite Hguard.
      unfold getFQName in Hfq |- *. cbn [ref_typeScope]. rewrite Hfq.
      cbn [mbind Outcome_bind bindO].
      rewrite decide_False by done. by rewrite decide_False by (by intros ?).
    + injection H as <- <-. split; [done|]. split; [done|].
      intros m parent' slot' base' _. unfold fixRef. rewrite decide_False by done.
      rewrite Href, Hmat. simpl. rewrite Hguard, Hfq. cbn [mbind Outcome_bind bindO].
      rewrite decide_False by done. by rewrite decide_False by done.
Qed.

(** The identifier that has replaced a member access on a unit is kept,
    and is no unit as a base. *)
Lemma fixRef_replaced nextId nextId' parent slot base node newNode :
  unitMemberAtFileLevel ctx (mkVisit node parent slot base) ->
  fixRef' nextId parent slot base node = Returned (Replaced newNode, nextId') ->
  baseIsUnit ctx (labelBase (Selected newNode)) = false /\
  forall m parent' slot' base',
    fixRef' m parent' slot' base' newNode = Returned (Kept newNode, m).
Proof.
  intros Htop H. unfold fixRef in H.
  destruct (decide _) as [_|_]; [discriminate|].
  destruct (ref_referencedDeclaration node) as [def|] eqn:Href; [|discriminate].
  destruct (isMaterial (decl_kind (ctx def))) eqn:Hmat; simpl in H; [|discriminate].
  destruct (bool_decide (decl_kind (ctx def) = VariableDeclarationNode)
            && negb (isUnitOrContract (decl_vScope (ctx def))
                     && bool_decide (ref_class node = MemberAccessNode))) eqn:Hguard;
    [discriminate|].
  apply bind_returned in H as (fq & Hfq & H).
  destruct (decide (ref_class node = MemberAccessNode)) as [Hm|Hm].
  2:{ destruct (decide (fq <> ref_name node)); discriminate. }
  destruct (baseIsUnit ctx base) eqn:Hbase; [|discriminate].
  apply bind_returned in H as (fx & Hrepl & H). injection H as -> _.
  apply replaceNode_returned in Hrepl as ([= ->] & _).
  split; [unfold makeIdentifierFor, labelBase; simpl; by apply isMaterial_not_unit|].
  intros m parent' slot' base'.
  unfold fixRef, makeIdentifierFor, vIdentifierType. simpl.
  rewrite Hmat. simpl.
  destruct (bool_decide (decl_kind (ctx def) = VariableDeclarationNode)) eqn:Hv; simpl.
  - by rewrite andb_false_r.
  - specialize (Htop def Hm Hbase Href).
    destruct (getFQName_returns ctx def
                (mkRef nextId IdentifierNode (decl_name (ctx def)) (Some def)
                       (ref_typeScope node) factoryContext)) as [_ Hname].
    { destruct Htop as [?|[u Hu]]; [by left|right]. by rewrite Hu. }
    rewrite (Hname Htop). cbn [mbind Outcome_bind bindO].
    by rewrite decide_False by (by intros ?).
Qed.

Lemma fixTree_unfold parent slot nextId label children :
  fixTree' parent slot nextId (TNode label children)
  = match label with
    | Unselected _ _ =>
        fixed ← visitChildren (fixTree' label) nextId children;
        Returned (TNode label fixed.1, fixed.2)
    | Selected refNode =>
        here ← fixRef' nextId parent slot (vExpression children) refNode;
        fixed ← visitChildren (fixTree' label) here.2 children;
        match here.1 with
        | Kept node => Returned (TNode (Selected node) fixed.1, fixed.2)
        | Replaced newNode => Returned (TNode (Selected newNode) [], fixed.2)
        end
    end.
Proof. reflexivity. Qed.

Lemma bodyReturned_weaken lo hi lo' hi' parent slot base node fixed :
  lo' <= lo -> hi <= hi' ->
  bodyReturned ctx factoryContext lo hi parent slot base node fixed ->
  bodyReturned ctx factoryContext lo' hi' parent slot base node fixed.
Proof. intros ? ? (m & m' & ? & ? & ?). exists m, m'. split; [lia|]. split; [lia|done]. Qed.

Lemma childrenFixed_impl (related related' : ChildSlot -> NodeTree -> NodeTree -> Prop)
      children children' :
  Forall (fun child => forall slot child', related slot child.2 child' ->
                                           related' slot child.2 child') children ->
  childrenFixed related children children' -> childrenFixed related' children children'.
Proof.
  intros Hall. revert children'.
  induction Hall as [|[slot child] children Hchild _ IH]; intros [|[slot' child'] children'];
    simpl; try done.
  intros (-> & Hrel & Hrest). split; [done|]. split; [by apply Hchild|by apply IH].
Qed.

Lemma treeFixed_impl
      (R R' : NodeLabel -> ChildSlot -> BaseExpression -> RefNode -> Fixed -> Prop) :
  (forall parent slot base node fixed,
      R parent slot base node fixed -> R' parent slot base node fixed) ->
  forall tree parent slot tree',
    treeFixed R parent slot tree tree' -> treeFixed R' parent slot tree tree'.
Proof.
  intros HR. induction tree as [label children IH] using NodeTree_forall_ind.
  intros parent slot [label' children'] H. simpl in *.
  assert (forall cs', childrenFixed (fun s c c' => treeFixed R label s c c') children cs' ->
                      childrenFixed (fun s c c' => treeFixed R' label s c c') children cs')
    as Hbelow.
  { intros cs'. apply childrenFixed_impl. eapply Forall_impl; [exact IH|].
    intros child Hchild s c'. apply Hchild. }
  destruct label as [node|type id], label' as [node'|type' id']; try done.
  - destruct H as [[Hnode Hchildren]|[Hnode ->]]; [left|right]; split; auto.
  - destruct H as (-> & -> & Hchildren). auto.
Qed.

Lemma visitChildren_fixed (label : NodeLabel) (children : list (ChildSlot * NodeTree)) :
  Forall (fun child =>
            forall parent slot n tree' n',
              fixTree' parent slot n child.2 = Returned (tree', n') ->
              n <= n' /\
              treeFixed (bodyReturned ctx factoryContext n n') parent slot child.2 tree')
         children ->
  forall n children' n',
    visitChildren (fixTree' label) n children = Returned (children', n') ->
    n <= n' /\
    childrenFixed (fun slot child child' =>
                     treeFixed (bodyReturned ctx factoryContext n n') label slot child child')
                  children children'.
Proof.
  induction 1 as [|[slot child] children Hchild Hall IH]; intros n children' n' H.
  - injection H as <- <-. done.
  - cbn [visitChildren] in H. apply bind_returned in H as ([child' n1] & Hvisit & H).
    apply bind_returned in H as ([rest' n2] & Hrest & H). injection H as <- <-.
    cbn [fst snd] in *.
    apply Hchild in Hvisit as [Hle1 Hfixed]. apply IH in Hrest as [Hle2 Hothers].
    split; [lia|]. simpl. split; [done|]. split.
    + eapply treeFixed_impl; [|exact Hfixed]. intros ? ? ? ? ?.
      apply bodyReturned_weaken; lia.
    + eapply childrenFixed_impl; [|exact Hothers]. apply Forall_forall.
      intros c _ s c'. apply treeFixed_impl. intros ? ? ? ? ?.
      apply bodyReturned_weaken; lia.
Qed.

(** The tree that the loop returns is the tree it was given with every
    selected node dealt with by a step that returned. *)
Lemma fixTree_fixed tree :
  forall parent slot n tree' n',
    fixTree' parent slot n tree = Returned (tree', n') ->
    n <= n' /\ treeFixed (bodyReturned ctx factoryContext n n') parent slot tree tree'.
Proof.
  induction tree as [label children IH] using NodeTree_forall_ind.
  intros parent slot n tree' n' H. rewrite fixTree_unfold in H.
  destruct label as [node|type id].
  - apply bind_returned in H as ([fx n1] & Hhere & H).
    apply bind_returned in H as ([children' n2] & Hbelow & H). cbn [fst snd] in *.
    pose proof (fixRef_sameReferent _ _ _ _ _ _ _ Hhere) as [Hle1 _].
    apply (visitChildren_fixed (Selected node) children IH) in Hbelow as [Hle2 Hbelow].
    assert (bodyReturned ctx factoryContext n n2 parent slot (vExpression children) node fx)
      as Hbody.
    { exists n, n1. split; [done|]. split; [done|]. exact Hhere. }
    destruct fx as [node'|newNode]; injection H as <- <-; (split; [lia|]); simpl.
    + left. split; [done|]. eapply childrenFixed_impl; [|exact Hbelow].
      apply Forall_forall. intros c _ s c'. apply treeFixed_impl. intros ? ? ? ? ?.
      apply bodyReturned_weaken; lia.
    + by right.
  - apply bind_returned in H as ([children' n2] & Hbelow & H). injection H as <- <-.
    apply (visitChildren_fixed (Unselected type id) children IH) in Hbelow as [Hle Hbelow].
    split; [done|]. simpl. done.
Qed.



Lemma visitChildren_idempotent (label : NodeLabel) (children : list (ChildSlot * NodeTree)) :
  Forall (fun child =>
            forall parent slot n tree' n',
              Forall (unitMemberAtFileLevel ctx) (selectedNodes parent slot child.2) ->
              fixTree' parent slot n child.2 = Returned (tree', n') ->
              (baseIsUnit ctx (vExpression [(slot, child.2)]) = false ->
               baseIsUnit ctx (vExpression [(slot, tree')]) = false) /\
              forall parent' slot' m, fixTree' parent' slot' m tree' = Returned (tree', m))
         children ->
  Forall (unitMemberAtFileLevel ctx)
         (flat_map (fun child => selectedNodes label child.1 child.2) children) ->
  forall n children' n',
    visitChildren (fixTree' label) n children = Returned (children', n') ->
    (baseIsUnit ctx (vExpression children) = false ->
     baseIsUnit ctx (vExpression children') = false) /\
    forall label' m, visitChildren (fixTree' label') m children' = Returned (children', m).
Proof.
  induction 1 as [|[slot child] children Hchild _ IH]; intros Hall n children' n' H.
  - injection H as <- <-. done.
  - simpl in Hall. apply Forall_app in Hall as [Hhere Hrest].
    cbn [visitChildren] in H. apply bind_returned in H as ([child' n1] & Hvisit & H).
    apply bind_returned in H as ([rest' n2] & Hothers & H). injection H as <- <-.
    cbn [fst snd] in *.
    destruct (Hchild label slot n child' n1 Hhere Hvisit) as [Hbase Hagain].
    destruct (IH Hrest n1 rest' n2 Hothers) as [_ Hrestagain].
    split.
    + destruct child as [l cs], child' as [l' cs']. exact Hbase.
    + intros label' m. cbn [visitChildren]. rewrite Hagain.
      cbn [mbind Outcome_bind bindO fst snd]. by rewrite Hrestagain.
Qed.

(** On the tree that it has returned the loop changes nothing and takes
    no id from the factory. *)
Lemma fixTree_idempotent tree :
  forall parent slot n tree' n',
    Forall (unitMemberAtFileLevel ctx) (selectedNodes parent slot tree) ->
    fixTree' parent slot n tree = Returned (tree', n') ->
    (baseIsUnit ctx (vExpression [(slot, tree)]) = false ->
     baseIsUnit ctx (vExpression [(slot, tree')]) = false) /\
    forall parent' slot' m, fixTree' parent' slot' m tree' = Returned (tree', m).
Proof.
  induction tree as [label children IH] using NodeTree_forall_ind.
  intros parent slot n tree' n' Hall H. cbn [selectedNodes] in *. rewrite ?fixTree_unfold in *.
  apply Forall_app in Hall as [Hhere Hbelow].
  destruct label as [node|type id].
  - apply Forall_cons in Hhere as [Hnode _].
    apply bind_returned in H as ([fx n1] & Hfix & H).
    apply bind_returned in H as ([children' n2] & Hchildren & H). cbn [fst snd] in *.
    destruct (visitChildren_idempotent (Selected node) children IH Hbelow n1 children' n2
                Hchildren) as [Hbase Hagain].
    destruct fx as [node'|newNode]; injection H as <- <-.
    + destruct (fixRef_kept _ _ _ _ _ _ _ Hfix) as (_ & Hlabel & Hkept).
      split; [cbn [vExpression]; by rewrite Hlabel|].
      intros parent' slot' m. rewrite fixTree_unfold.
      rewrite (Hkept m parent' slot' (vExpression children') Hbase).
      cbn [mbind Outcome_bind bindO fst snd]. by rewrite Hagain.
    + destruct (fixRef_replaced _ _ _ _ _ _ _ Hnode Hfix) as [Hnot Hkept].
      split; [by intros _|].
      intros parent' slot' m. rewrite fixTree_unfold. by rewrite Hkept.
  - apply bind_returned in H as ([children' n2] & Hchildren & H). injection H as <- <-.
    destruct (visitChildren_idempotent (Unselected type id) children IH Hbelow n children' n2
                Hchildren) as [_ Hagain].
    split; [done|]. intros parent' slot' m. rewrite fixTree_unfold. by rewrite Hagain.
Qed.
End RenamingPass.



Example sample_renamed :
  map (fun def => decl_name (SampleFlatten.renamed def)) [3; 4; 5; 6; 7]
  = ["C"; "C_1"; "C_2"; "D"; "X"].
Proof. vm_compute. reflexivity. Qed.




(** C2: the identifier [Y], an import alias of the file-level constant [X],
    is not rewritten.  In the sample the pass renames the reference to the
    second contract [C] and replaces the member access [A.C], but it leaves
    the name [Y] on the identifier whose referent is called [X]: the guard
    on variable declarations skips every identifier that refers to one, the
    aliased ones too. *)
Theorem aliased_constant_identifier_kept :
  fixRenamingErrors SampleFlatten.renamed 0 20 [SampleFlatten.unitA; SampleFlatten.unitB]
  = Returned ([SampleFlatten.unitA; SampleFlatten.unitB' 20], 21) /\
  SampleFlatten.refY
  = mkRef 11 IdentifierNode "Y" (Some 7) (ScopeContractDefinition 6) 0 /\
  decl_kind (SampleFlatten.renamed 7) = VariableDeclarationNode /\
  decl_name (SampleFlatten.renamed 7) = "X" /\
  getFQName SampleFlatten.renamed 7 SampleFlatten.refY = Returned "X".
Proof. repeat split; vm_compute; reflexivity. Qed.

(** A member access on a unit that is an argument of a call, as in
    [f(A.C)], is an element of an array of its parent: [replaceNode] does
    not find it, and the pass stops at its last assertion. *)
Lemma member_access_in_arguments_throws :
  fixRenamingErrors SampleFlatten.renamed 0 20 [SampleFlatten.unitA; SampleFlatten.unitCall]
  = Thrown "Couldn't find child MemberAccess#12 under parent FunctionCall#33".
Proof. vm_compute. reflexivity. Qed.



(** *** [TypeEnv]: the type map *)

Section TypeEnvCalls.
Context {SType : Type}.
Implicit Types (calls : list (TypeEnvCall SType)).

Lemma typeMap_applyCalls calls (env : TypeEnv.t SType) node :
  TypeEnv.typeMap (applyCalls calls env) !! node =
    match last (typesDefined calls node) with
    | Some typ => Some typ
    | None => TypeEnv.typeMap env !! node
    end.
Proof.
  revert env. induction calls as [|call calls IH] using rev_ind; intros env; [done|].
  unfold applyCalls, typesDefined in *. rewrite foldl_app, omap_app. simpl.
  destruct call as [n typ|scope fn]; simpl.
  - destruct (decide (n = node)) as [->|Hne].
    + by rewrite last_snoc, lookup_insert_eq.
    + rewrite app_nil_r, lookup_insert_ne by done. apply IH.
  - rewrite app_nil_r. apply IH.
Qed.

Lemma userFunctions_applyCalls calls (env : TypeEnv.t SType) scope name fn :
  TypeEnv.stored (applyCalls calls env) scope name = Some fn ->
  TypeEnv.stored env scope name = Some fn \/
  (ufun_name fn = name /\ CallDefineUserFunction scope fn ∈ calls).
Proof.
  revert env. induction calls as [|call calls IH] using rev_ind; intros env; [by left|].
  unfold applyCalls in *. rewrite foldl_app. simpl. intros H.
  destruct call as [n typ|s f]; simpl in H.
  - destruct (IH env H) as [?|[? ?]]; [by left|right].
    split; [done|]. apply elem_of_app. by left.
  - rewrite stored_defineUserFunction in H.
    destruct (decide (s = scope /\ ufun_name f = name)) as [[-> <-]|Hne].
    + injection H as ->. right. split; [done|]. apply elem_of_app. right. left.
    + destruct (IH env H) as [?|[? ?]]; [by left|right].
      split; [done|]. apply elem_of_app. by left.
Qed.

Lemma getUserFunction_loop_stored (env : TypeEnv.t SType) bases name fn :
  TypeEnv.getUserFunction_loop env bases name = Some fn ->
  exists base, base ∈ bases /\ TypeEnv.stored env base name = Some fn.
Proof.
  induction bases as [|b bases IH]; simpl; [done|]. intros H.
  destruct (TypeEnv.userFunctions env !! b) as [funM|] eqn:Hb.
  - destruct (funM !! name) as [res|] eqn:Hres.
    + injection H as ->. exists b. split; [left|].
      unfold TypeEnv.stored. by rewrite Hb.
    + destruct (IH H) as (base & ? & ?). exists base. split; [by right|done].
  - destruct (IH H) as (base & ? & ?). exists base. split; [by right|done].
Qed.

(** X1: after any sequence of [define] and [defineUserFunction] calls on a
    new environment, [hasType] tells whether a [define] call named the
    node, and [typeOf] returns the type of the latest such call and throws
    [Missing type] when there is none; [defineUserFunction] calls have no
    effect on either. *)
Theorem typeOf_latest_define calls (node : nat) :
  let env := applyCalls calls TypeEnv.empty in
  TypeEnv.hasType SType env node = bool_decide (typesDefined calls node <> []) /\
  TypeEnv.typeOf SType env node =
    match last (typesDefined calls node) with
    | Some typ => Returned typ
    | None => Thrown ("Missing type for node " +:+ pretty node)
    end.
Proof.
  intros env. unfold TypeEnv.hasType, TypeEnv.typeOf, env.
  rewrite typeMap_applyCalls. cbn [TypeEnv.typeMap TypeEnv.empty]. rewrite lookup_empty.
  split.
  - apply bool_decide_ext.
    destruct (typesDefined calls node) as [|t l _] using rev_ind.
    + simpl. split; [by intros [? ?]|done].
    + rewrite last_snoc. split; [intros _ Hnil; by destruct l|eauto].
  - by destruct (last _).
Qed.

(** X2: whatever [getUserFunction] returns bears the name that was asked
    for and was registered by a [defineUserFunction] call for one of the
    linearized bases of the scope; it never returns a function of a
    contract outside that list. *)
Theorem getUserFunction_only_registered calls (scope : ContractDefinition)
        (name : string) (fn : SUserFunctionDefinition) :
  TypeEnv.getUserFunction (applyCalls calls TypeEnv.empty) scope name = Some fn ->
  ufun_name fn = name /\
  exists base, base ∈ vLinearizedBaseContracts scope /\
               CallDefineUserFunction base fn ∈ calls.
Proof.
  intros H. apply getUserFunction_loop_stored in H as (base & Hbase & Hst).
  apply userFunctions_applyCalls in Hst as [Hst|[Hname Hcall]].
  - by rewrite stored_empty in Hst.
  - split; [done|]. by exists base.
Qed.
End TypeEnvCalls.

Lemma getUserFunction_only_registered_witness :
  ufun_name (mkUserFun "f" 10) = "f" /\
  exists base, base ∈ vLinearizedBaseContracts
                        (mkContract 2 "Derived" ContractKind.Contract [2; 1] []) /\
               CallDefineUserFunction base (mkUserFun "f" 10)
                 ∈ [CallDefine 7 tt; CallDefineUserFunction 1 (mkUserFun "f" 10)].
Proof.
  apply (getUserFunction_only_registered
           [CallDefine 7 tt; CallDefineUserFunction 1 (mkUserFun "f" 10)]
           (mkContract 2 "Derived" ContractKind.Contract [2; 1] []) "f").
  vm_compute. reflexivity.
Defined.

(** *** [pickVersion]: when it returns *)

(** X3: [pickVersion] returns a version exactly when the map is not empty
    and all its targets used that version; on an empty map it exits with
    the message for several versions, the list of versions being empty. *)
Theorem pickVersion_returns_iff (versionUsedMap : list (string * string)) :
  (forall v, pickVersion versionUsedMap = Returned v <->
             versionUsedMap <> [] /\
             forall t v', (t, v') ∈ versionUsedMap -> v' = v) /\
  pickVersion [] =
    Exited ("Multiple compiler versions detected: "
              +:+ ". Please specify an exact version to use with '--compiler-version'.")
           1%Z.
Proof.
  split; [|reflexivity]. intros v. split.
  - unfold pickVersion. intros H.
    destruct (uniq [] (map snd versionUsedMap)) as [|a [|b rest]] eqn:E;
      try discriminate.
    injection H as ->. split.
    + intros ->. discriminate.
    + intros t v' Hin.
      assert (v' ∈ uniq [] (map snd versionUsedMap)) as Hv'.
      { apply elem_of_uniq. split; [|apply not_elem_of_nil].
        apply list_elem_of_fmap. by exists (t, v'). }
      rewrite E in Hv'. by apply list_elem_of_singleton in Hv'.
  - intros [Hne Hall]. unfold pickVersion.
    destruct versionUsedMap as [|[t0 v0] m]; [done|]. simpl map.
    assert (forall x, x ∈ v0 :: map snd m -> x = v) as Hall'.
    { intros x Hx. change (v0 :: map snd m) with (map snd ((t0, v0) :: m)) in Hx.
      apply list_elem_of_fmap in Hx as [[t v'] [-> Hin]]. by apply (Hall t). }
    destruct (uniq_all_equal v [] (v0 :: map snd m) Hall') as [E|E]; rewrite E.
    + destruct (uniq_head v0 (map snd m)) as [rest Hr]. congruence.
    + done.
Qed.

(** *** [findContract] and [findFunction] *)

Lemma findContract_loop_find name contracts :
  findContract_loop name contracts
  = snd <$> list_find (fun c => contract_name c = name) contracts.
Proof.
  induction contracts as [|c l IH]; [done|]. simpl.
  destruct (decide (contract_name c = name)); [done|].
  rewrite IH. by destruct (list_find _ l) as [[? ?]|].
Qed.

Lemma findContract_find name sources :
  findContract name sources
  = match list_find (fun c => contract_name c = name) (sources ≫= vContracts) with
    | Some found => Returned found.2
    | None => Thrown ""
    end.
Proof.
  induction sources as [|u l IH]; [done|]. cbn [findContract]. rewrite bind_cons.
  rewrite findContract_loop_find.
  destruct (list_find _ (vContracts u)) as [[i c]|] eqn:Hu.
  - apply list_find_Some in Hu as (Hi & Hc & Hbefore). simpl.
    assert (list_find (fun c => contract_name c = name) (vContracts u ++ l ≫= vContracts)
            = Some (i, c)) as ->; [|done].
    apply list_find_Some. split; [by apply lookup_app_l_Some|]. split; [done|].
    intros j y Hj Hlt. apply (Hbefore j); [|done].
    apply lookup_lt_Some in Hi.
    rewrite lookup_app_l in Hj by lia. done.
  - simpl. rewrite IH. apply list_find_None in Hu.
    destruct (list_find _ (l ≫= vContracts)) as [[i c]|] eqn:Hl.
    + apply list_find_Some in Hl as (Hi & Hc & Hbefore).
      assert (list_find (fun c => contract_name c = name) (vContracts u ++ l ≫= vContracts)
              = Some (length (vContracts u) + i, c)) as ->; [|done].
      apply list_find_Some. split; [|split; [done|]].
      * rewrite lookup_app_r by lia. by replace (_ + i - _) with i by lia.
      * intros j y Hj Hlt. destruct (decide (j < length (vContracts u))) as [Hlt'|Hge].
        -- rewrite lookup_app_l in Hj by done.
           rewrite Forall_forall in Hu. apply Hu. by apply list_elem_of_lookup_2 in Hj.
        -- rewrite lookup_app_r in Hj by lia. apply (Hbefore _ _ Hj). lia.
    + apply list_find_None in Hl.
      assert (list_find (fun c => contract_name c = name) (vContracts u ++ l ≫= vContracts)
              = None) as ->; [|done].
      apply list_find_None. by apply Forall_app.
Qed.

Lemma findFunction_loop_find name fns :
  findFunction_loop name fns
  = match list_find (fun fn => name = fun_name fn) fns with
    | Some found => Returned found.2
    | None => Thrown ""
    end.
Proof.
  induction fns as [|fn l IH]; [done|]. simpl.
  destruct (decide (name = fun_name fn)); [done|].
  rewrite IH. by destruct (list_find _ l) as [[? ?]|].
Qed.

(** X4: [findContract] returns the first contract of that name, in the
    order of the units and of the contracts in each unit, and throws an
    error with an empty message when no unit has one; [findFunction] does
    the same over the functions of a contract. *)
Theorem find_returns_first_match (name : string) :
  (forall sources,
      let all := sources ≫= vContracts in
      (forall i c, all !! i = Some c -> contract_name c = name ->
                   (forall j c', all !! j = Some c' -> j < i -> contract_name c' <> name) ->
                   findContract name sources = Returned c) /\
      ((forall c, c ∈ all -> contract_name c <> name) ->
       findContract name sources = Thrown "") /\
      (forall c, findContract name sources = Returned c ->
                 c ∈ all /\ contract_name c = name)) /\
  (forall contract,
      let all := vFunctions contract in
      (forall i fn, all !! i = Some fn -> fun_name fn = name ->
                    (forall j fn', all !! j = Some fn' -> j < i -> fun_name fn' <> name) ->
                    findFunction name contract = Returned fn) /\
      ((forall fn, fn ∈ all -> fun_name fn <> name) ->
       findFunction name contract = Thrown "") /\
      (forall fn, findFunction name contract = Returned fn ->
                  fn ∈ all /\ fun_name fn = name)).
Proof.
  split.
  - intros sources all. rewrite findContract_find. fold all. repeat split.
    + intros i c Hi Hc Hbefore.
      assert (list_find (fun c => contract_name c = name) all = Some (i, c)) as ->; [|done].
      apply list_find_Some. eauto.
    + intros Hnone.
      assert (list_find (fun c => contract_name c = name) all = None) as ->; [|done].
      apply list_find_None, Forall_forall. exact Hnone.
    + destruct (list_find _ all) as [[i c']|] eqn:Hf; [|discriminate].
      injection H as <-. apply list_find_Some in Hf as (Hi & _ & _).
      by apply list_elem_of_lookup_2 in Hi.
    + destruct (list_find _ all) as [[i c']|] eqn:Hf; [|discriminate].
      injection H as <-. by apply list_find_Some in Hf as (_ & ? & _).
  - intros contract all. unfold findFunction. rewrite findFunction_loop_find. fold all.
    repeat split.
    + intros i fn Hi Hfn Hbefore.
      assert (list_find (fun fn => name = fun_name fn) all = Some (i, fn)) as ->; [|done].
      apply list_find_Some. split; [done|]. split; [done|].
      intros j y Hj Hlt Heq. by apply (Hbefore j y).
    + intros Hnone.
      assert (list_find (fun fn => name = fun_name fn) all = None) as ->; [|done].
      apply list_find_None, Forall_forall. intros fn Hfn Heq. by apply (Hnone fn).
    + destruct (list_find _ all) as [[i fn']|] eqn:Hf; [|discriminate].
      injection H as <-. apply list_find_Some in Hf as (Hi & _ & _).
      by apply list_elem_of_lookup_2 in Hi.
    + destruct (list_find _ all) as [[i fn']|] eqn:Hf; [|discriminate].
      injection H as <-. by apply list_find_Some in Hf as (_ & ? & _).
Qed.

Lemma find_returns_first_match_witness :
  findContract "L" [Sample.unitA; Sample.unitL] = Returned Sample.libraryL.
Proof.
  apply (proj1 (proj1 (find_returns_first_match "L") [Sample.unitA; Sample.unitL]) 1).
  - reflexivity.
  - reflexivity.
  - intros j c' Hj Hlt. destruct j as [|j]; [|lia].
    injection Hj as <-. discriminate.
Defined.

(** *** [toAst] *)

Section ToAstFacts.
Variables (CompileData Units : Type).
Variable select : string -> list string.
Variable compile : string -> string -> string -> gmap string string
                   -> gmap string string * Outcome CompileData.
Variable detectCompileErrors : CompileData -> list string.
Variable read : CompileData -> Outcome Units.
Variables (fileName content : string).

Local Abbreviation toAst_loop' :=
  (toAst_loop CompileData Units compile detectCompileErrors read fileName content).

Local Abbreviation allFail' :=
  (allFail CompileData compile detectCompileErrors fileName content).

Lemma toAst_loop_failed versions files failed files' rest failures :
  allFail' versions files failed files' ->
  toAst_loop' (versions ++ rest) files failures
  = toAst_loop' rest files' (failures ++ failed).
Proof.
  revert files failed failures.
  induction versions as [|v versions IH]; intros files [|f failed] failures H;
    simpl in H; try done.
  - subst files'. by rewrite app_nil_r.
  - destruct H as [(data & Hdata & Herr & ->) Hrest].
    cbn [app toAst_loop]. rewrite Hdata. cbn [mbind Outcome_bind bindO].
    destruct (decide (length (detectCompileErrors data) = 0)) as [Hlen|_].
    + by destruct (detectCompileErrors data).
    + rewrite (IH _ _ _ Hrest). by rewrite <- app_assoc.
Qed.

(** X5: [toAst] tries the candidate versions in order, handing each attempt
    the one file map, which starts with the file itself and which the
    attempts may extend.  It returns the units read from the first version
    that compiles without errors, with the map as that attempt leaves it
    and with that version; with no candidate at all it throws [Unexpected
    empty compiler failures array]; and when every candidate reports errors
    it throws one message that lists each version with its errors, in the
    order tried. *)
Theorem toAst_first_clean_version :
  (forall pre version post failed files data units,
      select content = pre ++ version :: post ->
      allFail' pre (<[fileName := content]> ∅) failed files ->
      (compile fileName content version files).2 = Returned data ->
      detectCompileErrors data = [] ->
      read data = Returned units ->
      toAst CompileData Units select compile detectCompileErrors read fileName content
      = Returned (units, (compile fileName content version files).1, version)) /\
  (select content = [] ->
   toAst CompileData Units select compile detectCompileErrors read fileName content
   = Thrown "Unexpected empty compiler failures array") /\
  (forall failed files,
      select content <> [] ->
      allFail' (select content) (<[fileName := content]> ∅) failed files ->
      toAst CompileData Units select compile detectCompileErrors read fileName content
      = Thrown (compilerFailuresMessage failed)).
Proof.
  unfold toAst. split; [|split].
  - intros pre version post failed files data units Hsel Hpre Hdata Herr Hread.
    rewrite Hsel, (toAst_loop_failed pre _ failed files) by done.
    cbn [toAst_loop]. rewrite Hdata. cbn [mbind Outcome_bind bindO].
    rewrite Herr. simpl. by rewrite Hread.
  - by intros ->.
  - intros failed files Hne Hall.
    rewrite <- (app_nil_r (select content)), (toAst_loop_failed _ _ failed files) by done.
    simpl. destruct failed as [|f failed]; [|done].
    destruct (select content); done.
Qed.
End ToAstFacts.

Lemma toAst_first_clean_version_witness :
  toAst (list string) nat (fun _ => ["0.7.5"; "0.6.12"]) sampleCompile (fun data => data)
        (fun _ => Returned 0) "a.sol" "import 'b.sol'; contract A { }"
  = Returned (0, (sampleCompile "a.sol" "import 'b.sol'; contract A { }" "0.6.12"
                    (<["b.sol" := "contract B { }"]>
                       (<["a.sol" := "import 'b.sol'; contract A { }"]> ∅))).1,
              "0.6.12").
Proof.
  apply (proj1 (toAst_first_clean_version (list string) nat (fun _ => ["0.7.5"; "0.6.12"])
                  sampleCompile (fun data => data) (fun _ => Returned 0)
                  "a.sol" "import 'b.sol'; contract A { }")
               ["0.7.5"] "0.6.12" [] [mkCompileFailure "0.7.5" ["ParserError"]]
               _ [] 0).
  - reflexivity.
  - simpl. split; [|reflexivity]. exists ["ParserError"]. by repeat split.
  - reflexivity.
  - reflexivity.
  - reflexivity.
Defined.

(** *** [instrumentFiles]: recorded annotations, changed units, completion *)

Lemma instr_bind_preserves {A B : Type} (I : InstrState -> Prop) (m : Instr A)
      (k : A -> Instr B) :
  preserves I m -> (forall a, preserves I (k a)) -> preserves I (instr_bind m k).
Proof.
  intros Hm Hk st st' o HI Hrun. unfold instr_bind in Hrun.
  destruct (m st) as [st1 [a|s c|s]] eqn:Hst.
  - apply (Hk a st1 st' o); [by apply (Hm st st1 (Returned a))|done].
  - injection Hrun as <- <-. by apply (Hm st st1 (Exited s c)).
  - injection Hrun as <- <-. by apply (Hm st st1 (Thrown s)).
Qed.

Lemma liftO_preserves {A : Type} (I : InstrState -> Prop) (o : Outcome A) :
  preserves I (liftO o).
Proof. intros st st' o' HI Hrun. unfold liftO in Hrun. by injection Hrun as <- _. Qed.

Lemma instr_ret_preserves {A : Type} (I : InstrState -> Prop) (a : A) :
  preserves I (instr_ret a).
Proof. intros st st' o HI Hrun. unfold instr_ret in Hrun. by injection Hrun as <- _. Qed.

Lemma forEach_preserves {A : Type} (I : InstrState -> Prop) (l : list A)
      (body : A -> Instr unit) :
  (forall x, preserves I (body x)) -> preserves I (forEach l body).
Proof.
  intros Hbody. induction l as [|x l IH]; simpl.
  - apply instr_ret_preserves.
  - apply instr_bind_preserves; [apply Hbody|]. intros _. apply IH.
Qed.

Lemma pushWork_recorded item : preserves annotationsRecorded (pushWork item).
Proof.
  intros st st' o HI Hrun. unfold pushWork in Hrun. injection Hrun as <- _.
  unfold annotationsRecorded in *. simpl. rewrite HI, bind_app. simpl.
  by rewrite app_nil_r.
Qed.

Lemma marksChange_refl st : marksChange st st.
Proof.
  unfold marksChange. split; [done|]. split; [done|].
  rewrite bool_decide_eq_false_2 by lia. by rewrite orb_false_r.
Qed.

Lemma marksChange_trans st1 st2 st3 :
  marksChange st1 st2 -> marksChange st2 st3 -> marksChange st1 st3.
Proof.
  unfold marksChange. intros (Hu1 & Hl1 & Hc1) (Hu2 & Hl2 & Hc2).
  split; [congruence|]. split; [lia|]. rewrite Hc2, Hc1.
  destruct (changed st1); simpl; [done|].
  repeat case_bool_decide; simpl; try done; lia.
Qed.

Lemma instr_bind_marking {A B : Type} (m : Instr A) (k : A -> Instr B) :
  marking m -> (forall a, marking (k a)) -> marking (instr_bind m k).
Proof.
  intros Hm Hk st st' o Hrun. unfold instr_bind in Hrun.
  destruct (m st) as [st1 [a|s c|s]] eqn:Hst.
  - apply (marksChange_trans st st1 st'); [by apply (Hm st st1 (Returned a))|].
    by apply (Hk a st1 st' o).
  - injection Hrun as <- <-. by apply (Hm st st1 (Exited s c)).
  - injection Hrun as <- <-. by apply (Hm st st1 (Thrown s)).
Qed.

Lemma liftO_marking {A : Type} (o : Outcome A) : marking (liftO o).
Proof.
  intros st st' o' Hrun. unfold liftO in Hrun. injection Hrun as <- _.
  apply marksChange_refl.
Qed.

Lemma instr_ret_marking {A : Type} (a : A) : marking (instr_ret a).
Proof.
  intros st st' o Hrun. unfold instr_ret in Hrun. injection Hrun as <- _.
  apply marksChange_refl.
Qed.

Lemma pushWork_marking item : marking (pushWork item).
Proof.
  intros st st' o Hrun. unfold pushWork in Hrun. injection Hrun as <- _.
  unfold marksChange. simpl. rewrite length_app. simpl.
  split; [done|]. split; [lia|].
  rewrite bool_decide_eq_true_2 by lia. by rewrite orb_true_r.
Qed.

Lemma forEach_marking {A : Type} (l : list A) (body : A -> Instr unit) :
  (forall x, marking (body x)) -> marking (forEach l body).
Proof.
  intros Hbody. induction l as [|x l IH]; simpl.
  - apply instr_ret_marking.
  - apply instr_bind_marking; [apply Hbody|]. intros _. apply IH.
Qed.

Lemma liftO_returnsIff {A : Type} (o : Outcome A) :
  returnsIff (liftO o) (exists a, o = Returned a).
Proof.
  intros st. unfold liftO. split.
  - intros (st' & a & H). injection H as _ ->. eauto.
  - intros [a ->]. eauto.
Qed.

Lemma instr_ret_returnsIff {A : Type} (a : A) : returnsIff (instr_ret a) True.
Proof. intros st. unfold instr_ret. split; [done|]. eauto. Qed.

Lemma instr_bind_returnsIff {A B : Type} (m : Instr A) (k : A -> Instr B) (P Q : Prop) :
  returnsIff m P -> (forall a, returnsIff (k a) Q) -> returnsIff (instr_bind m k) (P /\ Q).
Proof.
  intros Hm Hk st. unfold instr_bind. split.
  - intros (st' & b & H). destruct (m st) as [st1 [a|s c|s]] eqn:Hst; try discriminate.
    split; [apply (Hm st); eauto|apply (Hk a st1); eauto].
  - intros [HP HQ]. apply (Hm st) in HP as (st1 & a & ->).
    by apply (Hk a st1) in HQ.
Qed.

(** The value that a lifted outcome returns is known. *)
Lemma instr_bind_liftO_returnsIff {A B : Type} (o : Outcome A) (k : A -> Instr B)
      (Q : A -> Prop) :
  (forall a, returnsIff (k a) (Q a)) ->
  returnsIff (instr_bind (liftO o) k) (exists a, o = Returned a /\ Q a).
Proof.
  intros Hk st. unfold instr_bind, liftO. split.
  - intros (st' & b & H). destruct o as [a|s c|s]; try discriminate.
    exists a. split; [done|]. apply (Hk a st). eauto.
  - intros (a & -> & HQ). by apply (Hk a st) in HQ.
Qed.

Lemma forEach_returnsIff {A : Type} (l : list A) (body : A -> Instr unit)
      (Q : A -> Prop) :
  (forall x, returnsIff (body x) (Q x)) ->
  returnsIff (forEach l body) (forall x, x ∈ l -> Q x).
Proof.
  intros Hbody. induction l as [|x l IH]; simpl.
  - intros st. split; [intros _ y Hy; inversion Hy|]. intros _. unfold instr_ret. eauto.
  - intros st.
    rewrite (instr_bind_returnsIff (body x) _ (Q x) (forall y, y ∈ l -> Q y)
               (Hbody x) (fun _ => IH) st).
    split.
    + intros [Hx Hl] y Hy. apply elem_of_cons in Hy as [->|Hy]; auto.
    + intros Hall. split; [apply Hall; left|]. intros y Hy. apply Hall. by right.
Qed.

Lemma returnsIff_iff {A : Type} (m : Instr A) (P Q : Prop) :
  (P <-> Q) -> returnsIff m P -> returnsIff m Q.
Proof. intros HPQ Hm st. by rewrite (Hm st). Qed.

Section InstrumentFilesMore.
Variable extract : nat -> list AnnotationMetaData + AnnotationError.
Variable scopeUnitPath : nat -> string.
Variable check : AnnotationMetaData -> ContractDefinition -> option FunctionDefinition
                 -> option AnnotationError.
Variable files : gmap string string.
Variable contractInvMap : gmap nat (list AnnotationMetaData).
Variable contractsNeedingInstr : gset nat.

Local Abbreviation visitFunction' := (visitFunction extract scopeUnitPath check).
Local Abbreviation visitContract' :=
  (visitContract extract scopeUnitPath check contractInvMap contractsNeedingInstr).
Local Abbreviation visitUnit' :=
  (visitUnit extract scopeUnitPath check files contractInvMap contractsNeedingInstr).
Local Abbreviation run :=
  (instrumentFiles_worklist extract scopeUnitPath check files contractInvMap
                            contractsNeedingInstr).
Local Abbreviation contractEntries' :=
  (contractEntries extract contractInvMap contractsNeedingInstr).
Local Abbreviation wantsContractEntry' :=
  (wantsContractEntry contractInvMap contractsNeedingInstr).

Lemma visitContract_preserves I srcUnit contract :
  (forall item, preserves I (pushWork item)) -> preserves I (visitContract' srcUnit contract).
Proof.
  intros Hpush. unfold visitContract.
  apply instr_bind_preserves.
  { apply forEach_preserves. intros a. apply liftO_preserves. }
  intros _. destruct (bool_decide (contract_kind contract = ContractKind.Interface));
    [apply instr_ret_preserves|].
  apply instr_bind_preserves.
  - destruct (_ || _); [|apply instr_ret_preserves].
    apply instr_bind_preserves; [apply Hpush|]. intros _. apply liftO_preserves.
  - intros _. apply forEach_preserves. intros fn. unfold visitFunction.
    destruct (vBody fn); [|apply instr_ret_preserves].
    apply instr_bind_preserves; [apply liftO_preserves|]. intros annotations.
    apply instr_bind_preserves.
    { apply forEach_preserves. intros a. apply liftO_preserves. }
    intros _. destruct (interposes _ _ _ _); [apply Hpush|apply instr_ret_preserves].
Qed.

Lemma visitContract_marking srcUnit contract : marking (visitContract' srcUnit contract).
Proof.
  unfold visitContract.
  apply instr_bind_marking.
  { apply forEach_marking. intros a. apply liftO_marking. }
  intros _. destruct (bool_decide (contract_kind contract = ContractKind.Interface));
    [apply instr_ret_marking|].
  apply instr_bind_marking.
  - destruct (_ || _); [|apply instr_ret_marking].
    apply instr_bind_marking; [apply pushWork_marking|]. intros _. apply liftO_marking.
  - intros _. apply forEach_marking. intros fn. unfold visitFunction.
    destruct (vBody fn); [|apply instr_ret_marking].
    apply instr_bind_marking; [apply liftO_marking|]. intros annotations.
    apply instr_bind_marking.
    { apply forEach_marking. intros a. apply liftO_marking. }
    intros _. destruct (interposes _ _ _ _); [apply pushWork_marking|apply instr_ret_marking].
Qed.

(** X6: at every point of the worklist loop, and so for whatever way it
    ends, the annotations pushed onto [ctx.annotations] are exactly the
    annotation lists of the worklist entries, in the order of the
    entries. *)
Theorem context_annotations_follow_worklist (units : list SourceUnit) st o :
  run units = (st, o) ->
  ctx_annotations st = worklist st ≫= (fun item => item.2).
Proof.
  intros Hrun. unfold instrumentFiles_worklist in Hrun.
  assert (preserves annotationsRecorded (forEach units visitUnit')) as Hpres.
  { apply forEach_preserves. intros u. unfold visitUnit.
    apply instr_bind_preserves.
    { intros s s' o' HI Hs. injection Hs as <- _. exact HI. }
    intros _. apply instr_bind_preserves; [apply liftO_preserves|].
    intros _. apply instr_bind_preserves.
    { apply forEach_preserves. intros fn.
      apply instr_bind_preserves; [apply liftO_preserves|].
      intros _. apply instr_ret_preserves. }
    intros _. apply instr_bind_preserves.
    { apply forEach_preserves. intros c.
      apply visitContract_preserves, pushWork_recorded. }
    intros _ s s' o' HI Hs. destruct (changed s); injection Hs as <- _; exact HI. }
  apply (Hpres _ _ _ (eq_refl : annotationsRecorded (mkInstrState [] [] false [])) Hrun).
Qed.

Lemma visitUnit_changed srcUnit st st' :
  visitUnit' srcUnit st = (st', Returned tt) ->
  changedSourceUnits st' =
    changedSourceUnits st ++
      (if bool_decide (vContracts srcUnit ≫= contractEntries' <> []) then [srcUnit] else []).
Proof.
  intros Hrun.
  pose proof (visitUnit_returned extract scopeUnitPath check files contractInvMap
                contractsNeedingInstr srcUnit st st' tt Hrun) as [Hw _].
  unfold visitUnit in Hrun.
  apply instr_bind_returned in Hrun as (st1 & [] & Hreset & Hrun).
  injection Hreset as <-.
  apply instr_bind_returned in Hrun as (st2 & [] & Hfiles & Hrun).
  unfold liftO in Hfiles. injection Hfiles as <- _.
  apply instr_bind_returned in Hrun as (st3 & [] & Hfree & Hrun).
  assert (marksChange (mkInstrState (worklist st) (ctx_annotations st) false
                                    (changedSourceUnits st)) st3) as Hm3.
  { revert Hfree. apply forEach_marking. intros fn.
    apply instr_bind_marking; [apply liftO_marking|]. intros _. apply instr_ret_marking. }
  apply instr_bind_returned in Hrun as (st4 & [] & Hcontracts & Hrun).
  assert (marksChange st3 st4) as Hm4.
  { revert Hcontracts. apply forEach_marking. intros c. apply visitContract_marking. }
  pose proof (marksChange_trans _ _ _ Hm3 Hm4) as (Hu & Hlen & Hc). simpl in *.
  assert (worklist st' = worklist st4 /\
          changedSourceUnits st' =
            changedSourceUnits st4 ++ (if changed st4 then [srcUnit] else [])) as [Hw' ->].
  { destruct (changed st4); injection Hrun as <-; simpl; [done|by rewrite app_nil_r]. }
  rewrite Hu, Hc. f_equal. rewrite Hw' in Hw. rewrite Hw, length_app.
  set (items := vContracts srcUnit ≫= contractEntries').
  destruct (decide (items <> [])) as [Hne|He].
  - rewrite (bool_decide_eq_true_2 _ Hne). rewrite bool_decide_eq_true_2; [done|].
    destruct items; [done|simpl; lia].
  - rewrite (bool_decide_eq_false_2 _ He). rewrite bool_decide_eq_false_2; [done|].
    destruct items; [simpl; lia|]. exfalso. by apply He.
Qed.

(** X7: when the worklist loop runs to its end, the changed units are
    exactly the units of which a contract or a function entered the
    worklist, in the order of the input. *)
Theorem changed_units_have_entries (units : list SourceUnit) st :
  run units = (st, Returned tt) ->
  changedSourceUnits st
  = filter (fun u => vContracts u ≫= contractEntries' <> []) units.
Proof.
  unfold instrumentFiles_worklist.
  assert (forall s s', forEach units visitUnit' s = (s', Returned tt) ->
            changedSourceUnits s' =
              changedSourceUnits s
                ++ filter (fun u => vContracts u ≫= contractEntries' <> []) units)
    as Hgen; [|intros Hrun; by apply Hgen in Hrun].
  induction units as [|u units IH]; intros s s' Hrun; simpl in Hrun.
  - injection Hrun as <-. by rewrite app_nil_r.
  - apply instr_bind_returned in Hrun as (s1 & [] & Hu & Hrest).
    apply IH in Hrest. apply visitUnit_changed in Hu.
    rewrite Hrest, Hu, <- app_assoc. f_equal. rewrite filter_cons.
    destruct (decide (vContracts u ≫= contractEntries' <> [])) as [Hne|He].
    + by rewrite bool_decide_eq_true_2 by done.
    + by rewrite bool_decide_eq_false_2 by done.
Qed.

Lemma tcOrDie_returns annotation fn contract path :
  (exists a, tcOrDie check annotation fn contract path = Returned a) <->
  check annotation contract fn = None.
Proof.
  unfold tcOrDie. destruct (check annotation contract fn) as [e|].
  - split; [|done]. intros [a H]. by destruct (err_handled e).
  - split; [done|eauto].
Qed.

Lemma visitFunction_returnsIff srcUnit contract needs fn :
  returnsIff (visitFunction' srcUnit contract needs fn)
             (functionInstrumentable extract check contract fn).
Proof.
  unfold visitFunction, functionInstrumentable. destruct (vBody fn) as [body|].
  - eapply returnsIff_iff;
      [|apply (instr_bind_liftO_returnsIff _ _
                 (fun annotations =>
                    (forall annot, annot ∈ annotations ->
                                   check annot contract (Some fn) = None) /\ True))].
    + unfold getAnnotationsOrDie. destruct (extract (fun_id fn)) as [a|e].
      * split.
        -- intros (a' & Ha' & Hall & _) _. injection Ha' as <-. eauto.
        -- intros H. destruct (H (ltac:(eauto))) as (a' & Ha' & Hall).
           injection Ha' as <-. eauto.
      * split.
        -- intros (a' & Ha' & _). by destruct (err_handled e).
        -- intros H. destruct (H (ltac:(eauto))) as (a' & Ha' & _). discriminate.
    + intros annotations. apply instr_bind_returnsIff.
      * apply forEach_returnsIff. intros annot.
        eapply returnsIff_iff; [|apply liftO_returnsIff]. apply tcOrDie_returns.
      * intros _. destruct (interposes _ _ _ _).
        -- intros st. unfold pushWork. split; [done|]. eauto.
        -- apply instr_ret_returnsIff.
  - eapply returnsIff_iff; [|apply instr_ret_returnsIff].
    split; [intros _ [? ?]; done|done].
Qed.

Lemma visitContract_returnsIff srcUnit contract :
  returnsIff (visitContract' srcUnit contract)
             (contractInstrumentable extract check contractInvMap contractsNeedingInstr
                                     contract).
Proof.
  unfold visitContract, contractInstrumentable.
  apply instr_bind_returnsIff.
  { apply forEach_returnsIff. intros annot.
    eapply returnsIff_iff; [|apply liftO_returnsIff]. apply tcOrDie_returns. }
  intros _. fold (wantsContractEntry' contract).
  destruct (bool_decide (contract_kind contract = ContractKind.Interface)) eqn:Hitf.
  - apply bool_decide_eq_true in Hitf.
    eapply returnsIff_iff; [|apply instr_ret_returnsIff]. split; [done|done].
  - apply bool_decide_eq_false in Hitf.
    eapply returnsIff_iff;
      [|apply (instr_bind_returnsIff _ _
                 (wantsContractEntry' contract = true ->
                  contract_kind contract <> ContractKind.Library)
                 (forall fn, fn ∈ vFunctions contract ->
                             functionInstrumentable extract check contract fn))].
    + split; [by intros ? _|]. intros H. by apply H.
    + destruct (wantsContractEntry' contract) eqn:Hwant.
      * eapply returnsIff_iff;
          [|apply (instr_bind_returnsIff _ _ True
                     (contract_kind contract <> ContractKind.Library))].
        -- split; [by intros [_ ?] _|]. intros H. split; [done|by apply H].
        -- intros st. unfold pushWork. split; [done|]. eauto.
        -- intros _. eapply returnsIff_iff; [|apply liftO_returnsIff].
           unfold assert. destruct (contract_kind contract) eqn:Hk.
           ++ rewrite bool_decide_eq_false_2; [split; [done|eauto]|].
              intros Hin. repeat (apply elem_of_cons in Hin as [Hin|Hin]; [discriminate|]).
              inversion Hin.
           ++ rewrite bool_decide_eq_true_2 by left. simpl.
              split; [by intros [? ?]|done].
           ++ done.
      * eapply returnsIff_iff; [|apply instr_ret_returnsIff]. split; [done|done].
    + intros _. apply forEach_returnsIff. intros fn. apply visitFunction_returnsIff.
Qed.

(** X8: the worklist loop of [instrumentFiles] runs to its end exactly when
    every unit has its source text in [ctx.files], annotation extraction
    succeeds on every free function, every contract annotation passes the
    checker, no library is due a contract-level entry, and the annotations
    of every function with a body, in a contract that is not an interface,
    can be extracted and pass the checker. *)
Theorem worklist_loop_completes_iff (units : list SourceUnit) :
  (exists st, run units = (st, Returned tt)) <->
  forall u, u ∈ units ->
            unitInstrumentable extract check files contractInvMap contractsNeedingInstr u.
Proof.
  assert (returnsIff (forEach units visitUnit')
            (forall u, u ∈ units ->
               unitInstrumentable extract check files contractInvMap
                                  contractsNeedingInstr u)) as Hall.
  { apply forEach_returnsIff. intros u. unfold visitUnit, unitInstrumentable.
    eapply returnsIff_iff;
      [|apply (instr_bind_returnsIff _ _ True
                 (is_Some (files !! sourceEntryKey u) /\
                  (forall fn, fn ∈ unit_vFunctions u ->
                              exists annotations, extract (fun_id fn) = inl annotations) /\
                  (forall c, c ∈ vContracts u ->
                             contractInstrumentable extract check contractInvMap
                                                    contractsNeedingInstr c) /\ True))].
    - tauto.
    - intros st. split; [done|]. eauto.
    - intros _. apply instr_bind_returnsIff.
      { eapply returnsIff_iff; [|apply liftO_returnsIff]. unfold assert.
        case_bool_decide; [split; [done|eauto]|split; [by intros [? ?]|done]]. }
      intros _. apply instr_bind_returnsIff.
      { apply forEach_returnsIff. intros fn.
        eapply returnsIff_iff; [|apply (instr_bind_liftO_returnsIff _ _ (fun _ => True))].
        - unfold getAnnotationsOrDie. destruct (extract (fun_id fn)) as [a|e].
          + split; [eauto|]. intros _. eauto.
          + split; [intros (a' & Ha' & _); by destruct (err_handled e)|].
            intros [a' Ha']. discriminate.
        - intros a. apply instr_ret_returnsIff. }
      intros _. apply instr_bind_returnsIff.
      { apply forEach_returnsIff. intros c. apply visitContract_returnsIff. }
      intros _ st. split; [done|]. intros _. destruct (changed st); eauto. }
  unfold instrumentFiles_worklist. rewrite <- (Hall (mkInstrState [] [] false [])).
  split; [intros [st Hst]; eauto|]. intros (st & [] & Hst). eauto.
Qed.
End InstrumentFilesMore.

Lemma context_annotations_follow_worklist_witness :
  ctx_annotations Sample.runA.1 = worklist Sample.runA.1 ≫= (fun item => item.2).
Proof.
  apply (context_annotations_follow_worklist
           Sample.noAnnotations Sample.unitPath Sample.checks Sample.sources
           {[ 10 := [Sample.invariantA; Sample.defineA] ]} {[ 10 ]}
           [Sample.unitA] Sample.runA.1 Sample.runA.2).
  vm_compute. reflexivity.
Defined.

Lemma changed_units_have_entries_witness :
  changedSourceUnits Sample.runA.1
  = filter (fun u => vContracts u ≫=
                       contractEntries Sample.noAnnotations
                                       {[ 10 := [Sample.invariantA; Sample.defineA] ]}
                                       {[ 10 ]} <> [])
           [Sample.unitA].
Proof.
  apply (changed_units_have_entries
           Sample.noAnnotations Sample.unitPath Sample.checks Sample.sources
           {[ 10 := [Sample.invariantA; Sample.defineA] ]} {[ 10 ]}
           [Sample.unitA] Sample.runA.1).
  vm_compute. reflexivity.
Defined.

(** *** [instrumentFiles]: the assertion on libraries *)





Section LibraryAssertion.
Variable extract : nat -> list AnnotationMetaData + AnnotationError.
Variable scopeUnitPath : nat -> string.
Variable check : AnnotationMetaData -> ContractDefinition -> option FunctionDefinition
                 -> option AnnotationError.
Variable files : gmap string string.
Variable contractInvMap : gmap nat (list AnnotationMetaData).
Variable contractsNeedingInstr : gset nat.

Local Abbreviation visitContract' :=
  (visitContract extract scopeUnitPath check contractInvMap contractsNeedingInstr).
Local Abbreviation visitUnit' :=
  (visitUnit extract scopeUnitPath check files contractInvMap contractsNeedingInstr).
Local Abbreviation run :=
  (instrumentFiles_worklist extract scopeUnitPath check files contractInvMap
                            contractsNeedingInstr).
Local Abbreviation wantsContractEntry' :=
  (wantsContractEntry contractInvMap contractsNeedingInstr).
Local Abbreviation contractInstrumentable' :=
  (contractInstrumentable extract check contractInvMap contractsNeedingInstr).
Local Abbreviation unitInstrumentable' :=
  (unitInstrumentable extract check files contractInvMap contractsNeedingInstr).



End LibraryAssertion.


(** *** [topoSort]: unresolved imports, and the units without imports *)

Lemma mkPathMap_lookup_None (units : list SourceUnit) (path : string) :
  path ∉ map absolutePath units -> mkPathMap units !! path = None.
Proof.
  intros Hpath. unfold mkPathMap.
  rewrite (foldl_insert_lookup_ne absolutePath (fun u => u)) by done.
  apply lookup_empty.
Qed.

Lemma recordImport_outcome pathMap u acc imp :
  match pathMap !! vSourceUnit_absolutePath imp with
  | None => recordImport pathMap u acc imp = Thrown ""
  | Some _ => exists acc', recordImport pathMap u acc imp = Returned acc'
  end.
Proof.
  unfold recordImport. destruct (pathMap !! vSourceUnit_absolutePath imp); [|done].
  eauto.
Qed.

Lemma recordImports_outcome pathMap u imports acc :
  (exists acc', foldO (recordImport pathMap u) imports acc = Returned acc' /\
                forall imp, imp ∈ imports ->
                            is_Some (pathMap !! vSourceUnit_absolutePath imp)) \/
  (foldO (recordImport pathMap u) imports acc = Thrown "" /\
   exists imp, imp ∈ imports /\ pathMap !! vSourceUnit_absolutePath imp = None).
Proof.
  revert acc. induction imports as [|imp imports IH]; intros acc.
  - left. exists acc. split; [done|]. intros imp Himp. inversion Himp.
  - cbn [foldO]. pose proof (recordImport_outcome pathMap u acc imp) as Himp.
    destruct (pathMap !! vSourceUnit_absolutePath imp) as [importee|] eqn:Hpath.
    + destruct Himp as [acc1 ->]. cbn [mbind Outcome_bind bindO].
      destruct (IH acc1) as [(acc' & Hrun & Hall)|(Hrun & imp' & Hin & Hnone)].
      * left. exists acc'. split; [done|]. intros imp' Hin.
        apply elem_of_cons in Hin as [->|Hin]; [by rewrite Hpath|by apply Hall].
      * right. split; [done|]. exists imp'. split; [by right|done].
    + rewrite Himp. right. split; [done|]. exists imp. split; [left|done].
Qed.

Lemma recordUnit_imports pathMap st u :
  recordUnit pathMap st u
  = foldO (recordImport pathMap u) (vImportDirectives u) (st, []) ≫= fun acc =>
      Returned (mkTopo (importersM acc.1) (importerSets acc.1)
                       (<[unit_id u := Z.of_nat (length acc.2)]> (nImportsM acc.1))).
Proof. reflexivity. Qed.

Lemma recordUnits_outcome pathMap units st :
  (exists st', foldO (recordUnit pathMap) units st = Returned st' /\
               forall u imp, u ∈ units -> imp ∈ vImportDirectives u ->
                             is_Some (pathMap !! vSourceUnit_absolutePath imp)) \/
  (foldO (recordUnit pathMap) units st = Thrown "" /\
   exists u imp, u ∈ units /\ imp ∈ vImportDirectives u /\
                 pathMap !! vSourceUnit_absolutePath imp = None).
Proof.
  revert st. induction units as [|u units IH]; intros st.
  - left. exists st. split; [done|]. intros u imp Hu. inversion Hu.
  - cbn [foldO]. rewrite recordUnit_imports.
    destruct (recordImports_outcome pathMap u (vImportDirectives u) (st, []))
      as [(acc & -> & Hall)|(-> & imp & Hin & Hnone)].
    + cbn [mbind Outcome_bind bindO].
      destruct (IH (mkTopo (importersM acc.1) (importerSets acc.1)
                           (<[unit_id u := Z.of_nat (length acc.2)]> (nImportsM acc.1))))
        as [(st' & Hrun & Hall')|(Hrun & u' & imp & Hu' & Hin & Hnone)].
      * left. exists st'. split; [done|]. intros u' imp Hu' Himp.
        apply elem_of_cons in Hu' as [->|Hu']; [by apply Hall|by apply (Hall' u')].
      * right. split; [done|]. exists u', imp. split; [by right|done].
    + right. split; [done|]. exists u, imp. split; [left|done].
Qed.

(** X9: when an import directive names a path that no unit of the list
    has, [topoSort] fails at its first assertion, which carries an empty
    message; nothing is sorted. *)
Theorem topoSort_unresolved_import (units : list SourceUnit) (u : SourceUnit)
        (imp : ImportDirective) :
  u ∈ units -> imp ∈ vImportDirectives u ->
  vSourceUnit_absolutePath imp ∉ map absolutePath units ->
  topoSort units = Some (Thrown "").
Proof.
  intros Hu Himp Hpath. unfold topoSort.
  destruct (recordUnits_outcome (mkPathMap units) units (mkTopo ∅ ∅ ∅))
    as [(st' & _ & Hall)|(-> & _)]; [|done].
  destruct (Hall u imp Hu Himp) as [v Hv].
  by rewrite mkPathMap_lookup_None in Hv.
Qed.

Lemma topoSort_unresolved_import_witness :
  topoSort [SampleUnits.unitA] = Some (Thrown "").
Proof.
  apply (topoSort_unresolved_import [SampleUnits.unitA] SampleUnits.unitA
                                    (mkImport 2 "b.sol")).
  - left.
  - left.
  - apply (bool_decide_unpack _). vm_compute. exact I.
Defined.

Lemma releaseImporters_queue n q importers n' q' :
  releaseImporters n q importers = Returned (n', q') -> q `prefix_of` q'.
Proof.
  revert n q. induction importers as [|b l IH]; intros n q H; simpl in H.
  - by injection H as _ <-.
  - destruct (n !! unit_id b) as [k|]; [|discriminate].
    unfold assert in H. destruct (bool_decide (0 <= k - 1)%Z); [|discriminate].
    cbn [mbind Outcome_bind bindO] in H. apply IH in H.
    destruct (decide (k - 1 = 0)%Z); [|done].
    etrans; [|exact H]. by apply prefix_app_r.
Qed.

Lemma sortLoop_order fuel st n q sorted result :
  sortLoop fuel st n q sorted = Some (Returned result) ->
  (sorted ++ q) `prefix_of` result.
Proof.
  revert n q sorted. induction fuel as [|fuel IH]; intros n q sorted H; [done|].
  simpl in H. destruct q as [|cur q].
  - injection H as <-. by rewrite app_nil_r.
  - destruct (releaseImporters n q (importersOf st (unit_id cur)))
      as [[n' q']|msg c|msg] eqn:Hrel; try discriminate.
    apply IH in H. apply releaseImporters_queue in Hrel.
    etrans; [|exact H]. rewrite <- app_assoc. simpl.
    by apply prefix_app, prefix_cons.
Qed.

Lemma filter_ext_in {A : Type} (P Q : A -> Prop) `{forall x, Decision (P x)}
      `{forall x, Decision (Q x)} (l : list A) :
  (forall x, x ∈ l -> (P x <-> Q x)) -> filter P l = filter Q l.
Proof.
  induction l as [|a l IH]; intros Hiff; [done|].
  rewrite !filter_cons, IH by (intros x Hx; apply Hiff; by right).
  destruct (decide (P a)) as [HP|HP].
  - rewrite decide_True; [done|]. by apply (Hiff a); [left|].
  - rewrite decide_False; [done|]. intros HQ. apply HP. by apply (Hiff a); [left|].
Qed.

Lemma importeeIds_nil (u : SourceUnit) : importeeIds u = [] <-> vImportDirectives u = [].
Proof.
  split.
  - intros Hnil. destruct (vImportDirectives u) as [|imp l] eqn:Himp; [done|].
    assert (vSourceUnit imp ∈ importeeIds u) as Hin.
    { apply importeeIds_spec. unfold importTargets. rewrite Himp. left. }
    rewrite Hnil in Hin. inversion Hin.
  - intros Hnil. unfold importeeIds. by rewrite Hnil.
Qed.

(** X10: whatever list [topoSort] returns starts with the units that have
    no import directive, in the order in which the input has them; so the
    first unit of the result is the first unit of the input without
    imports. *)
Theorem topoSort_import_free_first (units sorted : list SourceUnit) :
  unitsClosed units ->
  topoSort units = Some (Returned sorted) ->
  filter (fun u => vImportDirectives u = []) units `prefix_of` sorted.
Proof.
  intros Hclosed Hsort.
  destruct (topoSort_graphBuilt units Hclosed) as (st & Hbuild & _ & Hcount).
  unfold topoSort in Hsort. rewrite Hbuild in Hsort.
  destruct (sortLoop _ st _ _ _) as [[result|msg c|msg]|] eqn:Hloop; try discriminate.
  apply sortLoop_order in Hloop. simpl in Hloop.
  assert (result = sorted) as ->.
  { unfold assert in Hsort. destruct (bool_decide _); [|discriminate].
    by injection Hsort as <-. }
  assert (filter (fun u => vImportDirectives u = []) units
          = filter (fun u => nImportsM st !! unit_id u = Some 0%Z) units) as ->; [|done].
  apply filter_ext_in. intros u Hu.
  rewrite (Hcount u Hu), <- importeeIds_nil, pending_nil.
  split.
  - intros ->. done.
  - intros Hz. injection Hz as Hz. destruct (importeeIds u); [done|simpl in Hz; lia].
Qed.

Lemma topoSort_import_free_first_witness :
  filter (fun u => vImportDirectives u = []) [SampleUnits.unitA; SampleUnits.unitB]
    `prefix_of` [SampleUnits.unitB; SampleUnits.unitA].
Proof.
  apply (topoSort_import_free_first [SampleUnits.unitA; SampleUnits.unitB]).
  - exact (proj1 sample_units_closed).
  - vm_compute. reflexivity.
Defined.

(** *** Flattening: what the two passes keep, and where renaming falls short *)

(** X11: [fixNameConflicts] does not check that a new name is free: when a
    definition is renamed to [name_k] and another top-level definition, the
    first of its name, is already called [name_k], the two distinct
    definitions bear the same name after the pass. *)
Theorem fixNameConflicts_may_collide (units : list FlatUnit) (ctx : ASTContext)
        (i j k def def' : nat) :
  NoDup (topLevelDefs units) ->
  topLevelDefs units !! i = Some def ->
  topLevelDefs units !! j = Some def' ->
  earlierSameName ctx (topLevelDefs units) i def = k -> 0 < k ->
  earlierSameName ctx (topLevelDefs units) j def' = 0 ->
  decl_name (ctx def') = decl_name (ctx def) +:+ "_" +:+ pretty k ->
  def <> def' /\
  decl_name (fixNameConflicts units ctx def) = decl_name (fixNameConflicts units ctx def').
Proof.
  intros Hnd Hi Hj Hk Hpos Hfirst Hname.
  destruct (fixNameConflicts_names units ctx Hnd) as (Hnames & _ & _).
  split.
  - intros <-. assert (i = j) as -> by (by apply (NoDup_lookup _ i j def Hnd)). lia.
  - rewrite (Hnames i def Hi), (Hnames j def' Hj), Hk, Hfirst.
    rewrite decide_False by lia. rewrite decide_True by done. by rewrite Hname.
Qed.

Lemma fixNameConflicts_may_collide_witness :
  2 <> 3 /\
  decl_name (fixNameConflicts SampleCollision.units SampleCollision.context 2)
  = decl_name (fixNameConflicts SampleCollision.units SampleCollision.context 3).
Proof.
  apply (fixNameConflicts_may_collide SampleCollision.units SampleCollision.context
                                      1 2 1 2 3).
  - apply (bool_decide_unpack _). vm_compute. exact I.
  - reflexivity.
  - reflexivity.
  - reflexivity.
  - lia.
  - reflexivity.
  - reflexivity.
Defined.

Lemma earlierSameName_distinct (ctx : ASTContext) (defs : list nat) (i def : nat) :
  NoDup (map (fun d => decl_name (ctx d)) defs) ->
  defs !! i = Some def ->
  earlierSameName ctx defs i def = 0.
Proof.
  intros Hnd Hi. unfold earlierSameName.
  destruct (filter _ (take i defs)) as [|d l] eqn:Hf; [done|exfalso].
  assert (d ∈ filter (fun d => decl_name (ctx d) = decl_name (ctx def)) (take i defs))
    as Hd by (rewrite Hf; left).
  apply list_elem_of_filter in Hd as [Hname Hd].
  apply list_elem_of_lookup in Hd as [j Hj].
  apply lookup_take_Some in Hj as [Hj Hlt].
  assert (j = i); [|lia].
  apply (NoDup_lookup _ j i (decl_name (ctx def)) Hnd).
  - by rewrite list_lookup_fmap, Hj; simpl; rewrite Hname.
  - by rewrite list_lookup_fmap, Hi.
Qed.

(** X12: [fixNameConflicts] changes nothing but names of top-level
    contracts, structs and enums: the kind and the scope of every
    declaration stay, every other declaration stays as it is, and when the
    top-level names are already distinct the pass changes nothing at
    all. *)
Theorem fixNameConflicts_only_renames (units : list FlatUnit) (ctx : ASTContext) :
  NoDup (topLevelDefs units) ->
  (forall x, decl_kind (fixNameConflicts units ctx x) = decl_kind (ctx x) /\
             decl_vScope (fixNameConflicts units ctx x) = decl_vScope (ctx x)) /\
  (forall x, x ∉ topLevelDefs units -> fixNameConflicts units ctx x = ctx x) /\
  (NoDup (map (fun d => decl_name (ctx d)) (topLevelDefs units)) ->
   forall x, fixNameConflicts units ctx x = ctx x).
Proof.
  intros Hnd. destruct (fixNameConflicts_names units ctx Hnd) as (Hnames & Hout & Hfields).
  split; [done|]. split; [done|]. intros Hdistinct x.
  destruct (decide (x ∈ topLevelDefs units)) as [Hin|Hnin]; [|by apply Hout].
  apply list_elem_of_lookup in Hin as [i Hi].
  pose proof (Hnames i x Hi) as Hname. destruct (Hfields x) as [Hkind Hscope].
  rewrite (earlierSameName_distinct ctx _ i x Hdistinct Hi) in Hname.
  rewrite decide_True in Hname by done.
  destruct (fixNameConflicts units ctx x), (ctx x). simpl in *. congruence.
Qed.

Lemma fixNameConflicts_only_renames_witness :
  fixNameConflicts [SampleFlatten.unitA] SampleFlatten.context 3 = SampleFlatten.context 3.
Proof.
  refine (proj2 (proj2 (fixNameConflicts_only_renames
                          [SampleFlatten.unitA] SampleFlatten.context _)) _ 3).
  - apply (bool_decide_unpack _). vm_compute. exact I.
  - apply (bool_decide_unpack _). vm_compute. exact I.
Defined.

Lemma sameReferent_weaken (n1 n2 n3 n4 : nat) (node : RefNode) (fixed : Fixed) :
  n1 <= n2 -> n3 <= n4 -> sameReferent n2 n3 node fixed -> sameReferent n1 n4 node fixed.
Proof.
  intros H12 H34 (Href & Hscope & Hrest). split; [done|]. split; [done|].
  destruct fixed; [done|]. destruct Hrest as (? & ? & ?). split; [done|]. split; [done|]. lia.
Qed.

(** X13: [fixRenamingErrors] never changes what a node refers to.  The
    units keep their ids and their top-level definitions, and the trees
    keep their shape but for the member accesses that were replaced: a node
    of another class is as before; a selected node that was kept has its
    class, id, context, type scope and referenced declaration, and its
    children in their slots; a member access that was replaced has given
    way, with its base, to one identifier with the same referenced
    declaration and type scope, whose id is one of those the factory
    handed out during the pass. *)
Theorem fixRenamingErrors_keeps_referents (ctx : ASTContext) (factoryContext : nat)
        (units units' : list FlatUnit) (nextId nextId' : nat) :
  fixRenamingErrors ctx factoryContext nextId units = Returned (units', nextId') ->
  nextId <= nextId' /\
  Forall2 (fun u u' =>
             flat_id u' = flat_id u /\
             flat_vContracts u' = flat_vContracts u /\
             flat_vStructs u' = flat_vStructs u /\
             flat_vEnums u' = flat_vEnums u /\
             childrenFixed (treeFixed (fun _ _ _ => sameReferent nextId nextId')
                                      (unitLabel u))
                           (flat_children u) (flat_children u'))
          units units'.
Proof.
  revert nextId units' nextId'.
  induction units as [|u units IH]; intros nextId units' nextId' H.
  - injection H as <- <-. split; [done|constructor].
  - cbn [fixRenamingErrors] in H.
    apply bind_returned in H as ([children' n1] & Hchildren & H).
    apply bind_returned in H as ([rest n2] & Hrest & H). injection H as <- <-.
    cbn [fst snd] in *.
    apply (visitChildren_fixed ctx factoryContext) in Hchildren as [Hle1 Hchildren].
    2:{ apply Forall_forall. intros child _. apply fixTree_fixed. }
    apply IH in Hrest as [Hle2 Hrest]. split; [lia|].
    constructor.
    + simpl. repeat split.
      eapply childrenFixed_impl; [|exact Hchildren]. apply Forall_forall.
      intros child _ slot child'. apply treeFixed_impl.
      intros parent s base node fixed (m & m' & Hm & Hm' & Hfix).
      apply fixRef_sameReferent in Hfix as [Hle Hsame].
      apply (sameReferent_weaken nextId m m' n2); [done|lia|done].
    + eapply Forall2_impl; [exact Hrest|]. intros x y (? & ? & ? & ? & Hall).
      repeat split; try done.
      eapply childrenFixed_impl; [|exact Hall]. apply Forall_forall.
      intros child _ slot child'. apply treeFixed_impl. intros parent s base node fixed.
      apply sameReferent_weaken; [lia|done].
Qed.

Lemma fixRenamingErrors_keeps_referents_witness :
  20 <= 21 /\
  Forall2 (fun u u' =>
             flat_id u' = flat_id u /\
             flat_vContracts u' = flat_vContracts u /\
             flat_vStructs u' = flat_vStructs u /\
             flat_vEnums u' = flat_vEnums u /\
             childrenFixed (treeFixed (fun _ _ _ => sameReferent 20 21) (unitLabel u))
                           (flat_children u) (flat_children u'))
          [SampleFlatten.unitA; SampleFlatten.unitB]
          [SampleFlatten.unitA; SampleFlatten.unitB' 20].
Proof.
  apply (fixRenamingErrors_keeps_referents SampleFlatten.renamed 0).
  vm_compute. reflexivity.
Defined.

(** X14: running [fixRenamingErrors] on its own result changes nothing and
    creates no node, provided that member accesses on a unit or an import
    refer to definitions at file level, as in the host AST. *)
Theorem fixRenamingErrors_idempotent (ctx : ASTContext) (factoryContext : nat)
        (units units' : list FlatUnit) (nextId nextId' : nat) :
  Forall (fun u => Forall (unitMemberAtFileLevel ctx) (getChildrenBySelector u)) units ->
  fixRenamingErrors ctx factoryContext nextId units = Returned (units', nextId') ->
  forall m, fixRenamingErrors ctx factoryContext m units' = Returned (units', m).
Proof.
  intros Htop. revert nextId units' nextId'.
  induction Htop as [|u units Hu _ IH]; intros nextId units' nextId' H m.
  - by injection H as <- <-.
  - cbn [fixRenamingErrors] in H.
    apply bind_returned in H as ([children' n1] & Hchildren & H).
    apply bind_returned in H as ([rest n2] & Hrest & H). injection H as <- <-.
    cbn [fst snd] in *.
    destruct (visitChildren_idempotent ctx factoryContext (unitLabel u) (flat_children u))
      with (n := nextId) (children' := children') (n' := n1) as [_ Hagain].
    { apply Forall_forall. intros child _. apply fixTree_idempotent. }
    { exact Hu. }
    { exact Hchildren. }
    cbn [fixRenamingErrors flat_children flat_id]. unfold unitLabel at 1. cbn [flat_id].
    fold (unitLabel u). rewrite Hagain. cbn [mbind Outcome_bind bindO fst snd].
    by rewrite (IH n1 rest n2 Hrest m).
Qed.

Lemma fixRenamingErrors_idempotent_witness :
  fixRenamingErrors SampleFlatten.renamed 0 21 [SampleFlatten.unitA; SampleFlatten.unitB' 20]
  = Returned ([SampleFlatten.unitA; SampleFlatten.unitB' 20], 21).
Proof.
  apply (fixRenamingErrors_idempotent SampleFlatten.renamed 0
           [SampleFlatten.unitA; SampleFlatten.unitB] _ 20 21).
  - apply Forall_cons_2; [apply Forall_nil_2|].
    apply Forall_cons_2; [|apply Forall_nil_2].
    unfold getChildrenBySelector. simpl.
    repeat apply Forall_cons_2; try apply Forall_nil_2;
      intros def Hm Hbase Href; try discriminate.
    injection Href as <-. left. vm_compute. reflexivity.
  - vm_compute. reflexivity.
Defined.

(** *** [parseSrcTriple], [ppSrcTripple], [reNumber] and [contains] on strings *)

Lemma digitValue_pretty_N_char (x : N) :
  (x < 10)%N -> digitValue (pretty_N_char x) = Some (Z.of_N x).
Proof.
  intros Hx.
  assert (x = 0 \/ x = 1 \/ x = 2 \/ x = 3 \/ x = 4 \/ x = 5 \/ x = 6 \/ x = 7 \/ x = 8
          \/ x = 9)%N as Hcases by lia.
  repeat (destruct Hcases as [->|Hcases]; [reflexivity|]). by subst.
Qed.

Lemma pretty_N_char_digit (x : N) :
  (48 <= Z.of_nat (Ascii.nat_of_ascii (pretty_N_char x)) <= 57)%Z.
Proof.
  unfold pretty_N_char. repeat case_match; split; apply Z.leb_le; reflexivity.
Qed.

Lemma parseDigits_pretty_N_go (x : N) (s : string) :
  parseDigits 10 (pretty_N_go x s) None
  = parseDigits 10 s (if decide (x = 0%N) then None else Some (Z.of_N x)).
Proof.
  revert s. induction (N.lt_wf_0 x) as [x _ IH]; intros s.
  destruct (decide (x = 0%N)) as [->|Hx]; [by rewrite pretty_N_go_0|].
  rewrite pretty_N_go_step by lia.
  rewrite IH by (apply N.div_lt; lia). cbn [parseDigits].
  rewrite digitValue_pretty_N_char by (apply N.mod_lt; lia).
  assert ((Z.of_N (x `mod` 10) <? 10)%Z = true) as ->.
  { apply Z.ltb_lt. pose proof (N.mod_lt x 10). lia. }
  f_equal. f_equal. pose proof (N.div_mod x 10).
  destruct (decide (x `div` 10 = 0)%N) as [Hd|Hd]; simpl; lia.
Qed.

Lemma isDecimal_pretty_N_go (x : N) (s : string) :
  (forall c, c ∈ String.list_ascii_of_string s ->
             (48 <= Z.of_nat (Ascii.nat_of_ascii c) <= 57)%Z) ->
  forall c, c ∈ String.list_ascii_of_string (pretty_N_go x s) ->
            (48 <= Z.of_nat (Ascii.nat_of_ascii c) <= 57)%Z.
Proof.
  revert s. induction (N.lt_wf_0 x) as [x _ IH]; intros s Hs.
  destruct (decide (x = 0%N)) as [->|Hx]; [by rewrite pretty_N_go_0|].
  rewrite pretty_N_go_step by lia. apply IH; [apply N.div_lt; lia|].
  intros c Hc. simpl in Hc. apply elem_of_cons in Hc as [->|Hc]; [|by apply Hs].
  apply pretty_N_char_digit.
Qed.

Lemma pretty_N_go_nonempty (x : N) (s : string) :
  (0 < x)%N -> pretty_N_go x s <> "".
Proof.
  revert s. induction (N.lt_wf_0 x) as [x _ IH]; intros s Hx.
  rewrite pretty_N_go_step by done.
  destruct (decide (x `div` 10 = 0)%N) as [->|Hd]; [by rewrite pretty_N_go_0|].
  apply IH; [apply N.div_lt; lia|by apply N.neq_0_lt_0].
Qed.

Lemma pretty_Z_decimal (z : Z) :
  (0 <= z)%Z ->
  isDecimal (pretty z) /\ parseDigits 10 (pretty z) None = Some z.
Proof.
  intros Hz. destruct z as [|p|p]; [| |lia].
  - split; [|done]. split; [done|]. intros c Hc. simpl in Hc.
    apply list_elem_of_singleton in Hc as ->. split; apply Z.leb_le; reflexivity.
  - unfold pretty, pretty_Z, pretty, pretty_positive, pretty, pretty_N.
    rewrite decide_False by done. split; [split|].
    + by apply pretty_N_go_nonempty.
    + apply isDecimal_pretty_N_go. intros c Hc. inversion Hc.
    + rewrite parseDigits_pretty_N_go. by rewrite decide_False by done.
Qed.

Lemma isDecimal_head (s : string) :
  isDecimal s ->
  exists c rest, s = String c rest /\ (48 <= Z.of_nat (Ascii.nat_of_ascii c) <= 57)%Z /\
                 forall c', c' ∈ String.list_ascii_of_string rest ->
                            (48 <= Z.of_nat (Ascii.nat_of_ascii c') <= 57)%Z.
Proof.
  intros [Hne Hall]. destruct s as [|c rest]; [done|]. exists c, rest.
  split; [done|]. split; [apply Hall; left|]. intros c' Hc'. apply Hall. by right.
Qed.

Lemma parseInt_decimal (s : string) :
  isDecimal s -> parseInt s = parseDigits 10 s None.
Proof.
  intros Hs. destruct (isDecimal_head s Hs) as (c & rest & -> & Hc & Hrest).
  unfold parseInt.
  assert (trimStart (String c rest) = String c rest) as ->.
  { cbn [trimStart]. unfold isWhiteSpace. rewrite bool_decide_eq_false_2; [done|].
    intros Hin. repeat (apply elem_of_cons in Hin as [Hin|Hin]; [lia|]). inversion Hin. }
  assert (stripSign (String c rest) = (1%Z, String c rest)) as ->.
  { cbn [stripSign].
    rewrite !decide_False; [done|intros ->; vm_compute in Hc; destruct Hc as [Hc _]; by apply Hc..]. }
  cbn [fst snd].
  assert (stripHexPrefix (String c rest) = (10%Z, String c rest)) as ->.
  { cbn [stripHexPrefix]. destruct rest as [|c2 rest]; [done|]. rewrite decide_False; [done|].
    intros [_ [-> | ->]];
      specialize (Hrest _ (list_elem_of_here _ _)); vm_compute in Hrest;
      destruct Hrest as [_ Hrest]; by apply Hrest. }
  cbn [fst snd]. destruct (parseDigits 10 (String c rest) None) as [m|]; simpl; [|done].
  f_equal. lia.
Qed.

Lemma split_decimal (s rest : string) :
  (forall c, c ∈ String.list_ascii_of_string s ->
             (48 <= Z.of_nat (Ascii.nat_of_ascii c) <= 57)%Z) ->
  split ":"%char s = [s] /\
  split ":"%char (s +:+ String ":"%char rest) = s :: split ":"%char rest.
Proof.
  induction s as [|c s IH]; intros Hs; [done|].
  destruct IH as [IH1 IH2]; [intros c' Hc'; apply Hs; by right|].
  assert (c <> ":"%char) as Hc.
  { intros ->. specialize (Hs _ (list_elem_of_here _ _)). vm_compute in Hs.
    destruct Hs as [_ Hs]. by apply Hs. }
  simpl. rewrite !decide_False by done. by rewrite IH1, IH2.
Qed.

(** X15: [parseSrcTriple] reads back what [ppSrcTripple] prints: on the
    printed form of a well-formed triple it returns the three numbers of
    the triple. *)
Theorem parseSrcTriple_ppSrcTripple (t : SrcTriple) :
  wf_triple t ->
  parseSrcTriple (ppSrcTripple t) = [Some (src0 t); Some (src1 t); Some (src2 t)].
Proof.
  intros (H0 & H1 & H2 & _).
  destruct (pretty_Z_decimal (src0 t) H0) as [[Hn0 Hd0] Hp0].
  destruct (pretty_Z_decimal (src1 t) H1) as [[Hn1 Hd1] Hp1].
  destruct (pretty_Z_decimal (src2 t) H2) as [[Hn2 Hd2] Hp2].
  unfold parseSrcTriple, ppSrcTripple.
  change (pretty (src0 t) +:+ ":" +:+ pretty (src1 t) +:+ ":" +:+ pretty (src2 t))
    with (pretty (src0 t) +:+ String ":"%char
            (pretty (src1 t) +:+ String ":"%char (pretty (src2 t)))).
  rewrite (proj2 (split_decimal _ _ Hd0)), (proj2 (split_decimal _ _ Hd1)),
    (proj1 (split_decimal _ "" Hd2)). simpl.
  rewrite !parseInt_decimal by done. by rewrite Hp0, Hp1, Hp2.
Qed.

Lemma parseSrcTriple_ppSrcTripple_witness :
  parseSrcTriple (ppSrcTripple (mkSrcTriple 120 45 3)) = [Some 120; Some 45; Some 3]%Z.
Proof.
  apply (parseSrcTriple_ppSrcTripple (mkSrcTriple 120 45 3)).
  unfold wf_triple; simpl; lia.
Defined.

Section ParsedTriples.
(** The triple that the callers of [parseSrcTriple] see, given as a record. *)
Variable parse : string -> SrcTriple.
Hypothesis parse_fields :
  forall src a b c, parseSrcTriple src = [Some a; Some b; Some c] ->
                    parse src = mkSrcTriple a b c.

Lemma parse_ppSrcTripple (t : SrcTriple) : wf_triple t -> parse (ppSrcTripple t) = t.
Proof.
  intros Ht. rewrite (parse_fields _ _ _ _ (parseSrcTriple_ppSrcTripple t Ht)).
  by destruct t.
Qed.

(** X16: on the printed form of a well-formed triple, [reNumber] replaces
    the file index and keeps the offset and the length; and renumbering
    twice is renumbering to the last index. *)
Theorem reNumber_replaces_index (t : SrcTriple) (i j : Z) :
  wf_triple t -> (0 <= i < 2 ^ 53)%Z ->
  reNumber parse (ppSrcTripple t) i = ppSrcTripple (mkSrcTriple (src0 t) (src1 t) i) /\
  reNumber parse (reNumber parse (ppSrcTripple t) i) j = reNumber parse (ppSrcTripple t) j.
Proof.
  intros Ht Hi. unfold reNumber.
  rewrite (parse_ppSrcTripple t Ht). split; [done|].
  rewrite parse_ppSrcTripple; [done|].
  destruct Ht as (? & ? & ? & ? & ?). unfold wf_triple. simpl. lia.
Qed.

(** X17: [contains] gives the same answer on the printed forms of two
    well-formed triples as on the triples themselves, also when only one of
    the two is given as a string. *)
Theorem contains_strings_agree (a b : SrcTriple) :
  wf_triple a -> wf_triple b ->
  contains parse (inr (ppSrcTripple a)) (inr (ppSrcTripple b))
    = contains parse (inl a) (inl b) /\
  contains parse (inr (ppSrcTripple a)) (inl b) = contains parse (inl a) (inl b) /\
  contains parse (inl a) (inr (ppSrcTripple b)) = contains parse (inl a) (inl b).
Proof.
  intros Ha Hb. unfold contains. by rewrite !parse_ppSrcTripple.
Qed.
End ParsedTriples.

Lemma sample_parse_fields (src : string) (a b c : Z) :
  parseSrcTriple src = [Some a; Some b; Some c] ->
  SampleTriples.parse src = mkSrcTriple a b c.
Proof. intros H. unfold SampleTriples.parse. by rewrite H. Qed.

Lemma reNumber_replaces_index_witness :
  reNumber SampleTriples.parse (ppSrcTripple (mkSrcTriple 120 45 3)) 0
    = ppSrcTripple (mkSrcTriple 120 45 0) /\
  reNumber SampleTriples.parse
           (reNumber SampleTriples.parse (ppSrcTripple (mkSrcTriple 120 45 3)) 0) 7
    = reNumber SampleTriples.parse (ppSrcTripple (mkSrcTriple 120 45 3)) 7.
Proof.
  apply (reNumber_replaces_index SampleTriples.parse sample_parse_fields
                                 (mkSrcTriple 120 45 3) 0 7).
  - unfold wf_triple; simpl; lia.
  - lia.
Defined.

Lemma contains_strings_agree_witness :
  contains SampleTriples.parse (inr (ppSrcTripple (mkSrcTriple 10 30 0)))
           (inr (ppSrcTripple (mkSrcTriple 15 5 0)))
  = contains SampleTriples.parse (inl (mkSrcTriple 10 30 0)) (inl (mkSrcTriple 15 5 0)).
Proof.
  apply (contains_strings_agree SampleTriples.parse sample_parse_fields
                                (mkSrcTriple 10 30 0) (mkSrcTriple 15 5 0)).
  - unfold wf_triple; simpl; lia.
  - unfold wf_triple; simpl; lia.
Defined.

(** *** [getInstrFileIdx] and [generateSrcMap2SrcMap] *)

Lemma indexOf_spec (l : list string) (x : string) :
  (x ∉ l -> indexOf l x = (-1)%Z) /\
  (x ∈ l -> exists i, indexOf l x = Z.of_nat i /\ l !! i = Some x /\ x ∉ take i l).
Proof.
  induction l as [|y l [IHout IHin]].
  - split; [done|]. intros Hx. inversion Hx.
  - cbn [indexOf]. destruct (decide (y = x)) as [->|Hne].
    + split; [intros Hx; exfalso; apply Hx; left|].
      intros _. exists 0. split; [done|]. split; [done|]. apply not_elem_of_nil.
    + split.
      * intros Hx. rewrite not_elem_of_cons in Hx. rewrite IHout by tauto.
        by rewrite decide_True.
      * intros Hx. apply elem_of_cons in Hx as [?|Hx]; [congruence|].
        destruct (IHin Hx) as (i & -> & Hi & Hbefore).
        rewrite decide_False by lia. exists (S i). split; [lia|]. split; [done|].
        simpl. rewrite not_elem_of_cons. split; [congruence|done].
Qed.

Section InstrFileIdx.
Variable pp : ASTNode -> string.
Variable ppList : list string -> string.

(** X18: the file index that [getInstrFileIdx] returns points into the
    instrumented source list that [generateInstrumentationMetadata] builds:
    in [files] mode it is the first position that holds the path of the
    node's unit, and the call fails exactly when the node has no unit or
    the path is not in the list; in the other modes it is 0, the position
    of the single output file. *)
Theorem getInstrFileIdx_in_source_list (ctx : InstrumentationContext)
        (paths instrSourceList : list string) (outputFile : option string)
        (node : ASTNode) :
  instrSourceList0 ctx paths outputFile = Returned instrSourceList ->
  (forall idx,
      getInstrFileIdx pp ppList node (outputMode ctx) instrSourceList = Returned idx ->
      exists i, idx = Z.of_nat i /\ i < length instrSourceList /\
                (outputMode ctx <> mode_files -> i = 0) /\
                (outputMode ctx = mode_files ->
                 exists path, node_unitPath node = Some path /\
                              instrSourceList !! i = Some path /\
                              path ∉ take i instrSourceList)) /\
  (outputMode ctx = mode_files ->
   ((exists idx, getInstrFileIdx pp ppList node (outputMode ctx) instrSourceList
                 = Returned idx) <->
    exists path, node_unitPath node = Some path /\ path ∈ instrSourceList)).
Proof.
  intros Hlist. unfold getInstrFileIdx. split.
  - intros idx Hidx. destruct (decide (outputMode ctx <> mode_files)) as [Hmode|Hmode].
    + injection Hidx as <-. exists 0. split; [done|]. split; [|done].
      unfold instrSourceList0 in Hlist. rewrite decide_False in Hlist by done.
      destruct outputFile; [|discriminate]. injection Hlist as <-. simpl. lia.
    + destruct (node_unitPath node) as [path|]; [|discriminate].
      destruct (decide (path ∈ instrSourceList)) as [Hin|Hnin].
      * destruct (proj2 (indexOf_spec instrSourceList path) Hin) as (i & Hi & Hl & Hbefore).
        rewrite Hi in Hidx. unfold assert in Hidx.
        rewrite bool_decide_eq_false_2 in Hidx by lia. injection Hidx as <-.
        exists i. split; [done|]. split; [by apply lookup_lt_Some in Hl|].
        split; [done|]. intros _. by exists path.
      * rewrite (proj1 (indexOf_spec instrSourceList path) Hnin) in Hidx.
        unfold assert in Hidx. by rewrite bool_decide_eq_true_2 in Hidx.
  - intros Hmode. rewrite decide_False by (by intros ?).
    destruct (node_unitPath node) as [path|].
    + destruct (decide (path ∈ instrSourceList)) as [Hin|Hnin].
      * destruct (proj2 (indexOf_spec instrSourceList path) Hin) as (i & Hi & _).
        rewrite Hi. unfold assert. rewrite bool_decide_eq_false_2 by lia.
        split; [eauto|]. intros _. eauto.
      * rewrite (proj1 (indexOf_spec instrSourceList path) Hnin).
        unfold assert. rewrite bool_decide_eq_true_2 by done.
        split; [by intros [? ?]|]. intros (path' & Heq & Hin). congruence.
    + split; [by intros [? ?]|]. by intros (path & ? & _).
Qed.
End InstrFileIdx.

Lemma getInstrFileIdx_in_source_list_witness :
  exists i, 0%Z = Z.of_nat i /\ i < length ["a.sol"; "__scribble_ReentrancyUtils.sol"] /\
            (outputMode SampleMetadata.context <> mode_files -> i = 0) /\
            (outputMode SampleMetadata.context = mode_files ->
             exists path, node_unitPath SampleMetadata.checkNode = Some path /\
                          ["a.sol"; "__scribble_ReentrancyUtils.sol"] !! i = Some path /\
                          path ∉ take i ["a.sol"; "__scribble_ReentrancyUtils.sol"]).
Proof.
  apply (proj1 (getInstrFileIdx_in_source_list
                  SampleMetadata.ppNode SampleMetadata.ppNames SampleMetadata.context
                  ["a.sol"] ["a.sol"; "__scribble_ReentrancyUtils.sol"] None
                  SampleMetadata.checkNode eq_refl)).
  reflexivity.
Defined.

Lemma mapO_Forall2 {A B : Type} (f : A -> Outcome B) (l : list A) (ys : list B) :
  mapO f l = Returned ys -> Forall2 (fun x y => f x = Returned y) l ys.
Proof.
  revert ys. induction l as [|x l IH]; intros ys H; simpl in H.
  - injection H as <-. constructor.
  - apply bind_returned in H as (y & Hy & H).
    apply bind_returned in H as (rest & Hrest & H). injection H as <-.
    constructor; [done|by apply IH].
Qed.

Lemma elem_of_concat_mapO {A B : Type} (f : A -> Outcome (list B)) (l : list A)
      (ys : list (list B)) (e : B) :
  mapO f l = Returned ys ->
  (e ∈ concat ys <-> exists x y, x ∈ l /\ f x = Returned y /\ e ∈ y).
Proof.
  intros H. apply mapO_Forall2 in H.
  induction H as [|x y l ys Hxy _ IH]; simpl.
  - split; [intros He; inversion He|]. intros (x & y & Hx & _). inversion Hx.
  - rewrite elem_of_app, IH. split.
    + intros [He|(x' & y' & Hx' & Hy' & He)].
      * exists x, y. split; [left|done].
      * exists x', y'. split; [by right|done].
    + intros (x' & y' & Hx' & Hy' & He). apply elem_of_cons in Hx' as [->|Hx'].
      * left. congruence.
      * right. eauto.
Qed.

Lemma or_iff_both (A B C D : Prop) : (A <-> C) -> (B <-> D) -> (A \/ B <-> C \/ D).
Proof. tauto. Qed.

Section SrcMapFacts.
Variable parse : string -> SrcTriple.
Variable dedup : list string -> list string.
Variable pp : ASTNode -> string.
Variable ppList : list string -> string.
Variable ctx : InstrumentationContext.
Variable newSrcMap : gmap nat (Z * Z).
Variables (originalSourceList instrSourceList : list string).

Lemma walkNode_entries (u : SourceUnit) (node : ASTNode) (entries : list (string * string))
      (entry : string * string) :
  walkNode parse pp ppList ctx newSrcMap instrSourceList u
           (indexOf originalSourceList (absolutePath u)) node = Returned entries ->
  (entry ∈ entries <->
   node_src node <> "0:0:0" /\ node_class node <> IsStructuredDocumentation /\
   exists newSrc instrFileIdx,
     newSrcMap !! node_id node = Some newSrc /\
     getInstrFileIdx pp ppList (unitNode u) (outputMode ctx) instrSourceList
       = Returned instrFileIdx /\
     entry = (ppRange newSrc instrFileIdx,
              reNumber parse (node_src node)
                       (indexOf originalSourceList (absolutePath u)))).
Proof.
  unfold walkNode. intros H.
  destruct (decide (node_src node = "0:0:0")) as [Hsrc|Hsrc].
  { injection H as <-. split; [intros He; inversion He|]. by intros [? _]. }
  destruct (decide (node_class node = IsStructuredDocumentation)) as [Hdoc|Hdoc].
  { injection H as <-. split; [intros He; inversion He|]. by intros (_ & ? & _). }
  destruct (newSrcMap !! node_id node) as [newSrc|].
  - apply bind_returned in H as (idx & Hidx & H). injection H as <-.
    rewrite list_elem_of_singleton. split.
    + intros ->. split; [done|]. split; [done|]. by exists newSrc, idx.
    + intros (_ & _ & newSrc' & idx' & Hsome & Hidx' & ->).
      injection Hsome as <-. rewrite Hidx in Hidx'. by injection Hidx' as <-.
  - apply bind_returned in H as ([] & _ & H). injection H as <-.
    split; [intros He; inversion He|]. by intros (_ & _ & ? & ? & ? & _).
Qed.

(** X19: when [generateSrcMap2SrcMap] returns, its source map holds exactly
    one kind of entry for the nodes walked in the units other than the
    utilities unit that are not new, not structured documentation and were
    printed, and one for the assertions that check a property; new nodes,
    documentation and the utilities unit leave no entry. *)
Theorem srcmap_entries (sortedUnits : list WalkedUnit) (utils : SourceUnit)
        (maps : list (string * string) * list string) :
  generateSrcMap2SrcMap parse dedup pp ppList ctx sortedUnits utils newSrcMap
                        originalSourceList instrSourceList = Returned maps ->
  forall entry,
    entry ∈ maps.1 <->
    fromWalkedNode parse pp ppList ctx newSrcMap originalSourceList instrSourceList
                   sortedUnits utils entry \/
    fromCheck pp ppList ctx newSrcMap instrSourceList entry.
Proof.
  unfold generateSrcMap2SrcMap. intros H entry.
  apply bind_returned in H as (fromUnits & HfromUnits & H).
  apply bind_returned in H as (fromChecks & HfromChecks & H).
  apply bind_returned in H as (other & _ & H). injection H as <-. simpl.
  rewrite elem_of_app.
  rewrite (elem_of_concat_mapO _ _ _ entry HfromUnits).
  rewrite (elem_of_concat_mapO _ _ _ entry HfromChecks).
  apply or_iff_both.
  - unfold fromWalkedNode. split.
    + intros (wu & entries & Hwu & Hrun & He).
      destruct (decide (unit_id (wu_unit wu) = unit_id utils)) as [Hu|Hu].
      { injection Hrun as <-. inversion He. }
      apply bind_returned in Hrun as (pairs & Hpairs & Hrun). injection Hrun as <-.
      apply (elem_of_concat_mapO _ _ _ entry Hpairs) in He as (node & y & Hnode & Hy & He).
      apply (walkNode_entries _ _ _ entry Hy) in He
        as (Hsrc & Hdoc & newSrc & idx & Hnew & Hidx & ->).
      by exists wu, node, newSrc, idx.
    + intros (wu & node & newSrc & idx & Hwu & Hu & Hnode & Hsrc & Hdoc & Hnew & Hidx & ->).
      apply mapO_Forall2 in HfromUnits.
      apply list_elem_of_lookup in Hwu as [i Hi].
      destruct (Forall2_lookup_l _ _ _ _ _ HfromUnits Hi) as (entries & _ & Hrun).
      exists wu, entries. split; [by apply list_elem_of_lookup_2 in Hi|]. split; [done|].
      simpl in Hrun. rewrite decide_False in Hrun by done.
      apply bind_returned in Hrun as (pairs & Hpairs & Hrun). injection Hrun as <-.
      apply (elem_of_concat_mapO _ _ _ _ Hpairs).
      pose proof Hpairs as Hall. apply mapO_Forall2 in Hall.
      apply list_elem_of_lookup in Hnode as [j Hj].
      destruct (Forall2_lookup_l _ _ _ _ _ Hall Hj) as (y & _ & Hy).
      exists node, y. split; [by apply list_elem_of_lookup_2 in Hj|]. split; [done|].
      apply (walkNode_entries _ _ _ _ Hy). split; [done|]. split; [done|].
      by exists newSrc, idx.
  - unfold fromCheck. split.
    + intros ([property assertions] & entries & Hin & Hrun & He).
      pose proof Hrun as Hall. apply mapO_Forall2 in Hall.
      apply list_elem_of_lookup in He as [j Hj].
      destruct (Forall2_lookup_r _ _ _ _ _ Hall Hj) as (assertion & Ha & Hy).
      simpl in Hy. apply bind_returned in Hy as (idx & Hidx & Hy).
      destruct (newSrcMap !! node_id assertion) as [src|] eqn:Hsrc; [|discriminate].
      injection Hy as <-.
      exists property, assertions, assertion, src, idx.
      split; [done|]. split; [by apply list_elem_of_lookup_2 in Ha|]. done.
    + intros (property & assertions & assertion & src & idx & Hin & Ha & Hsrc & Hidx & ->).
      apply mapO_Forall2 in HfromChecks.
      apply list_elem_of_lookup in Hin as [i Hi].
      destruct (Forall2_lookup_l _ _ _ _ _ HfromChecks Hi) as (entries & _ & Hrun).
      exists (property, assertions), entries.
      split; [by apply list_elem_of_lookup_2 in Hi|]. split; [done|].
      simpl in Hrun. apply mapO_Forall2 in Hrun.
      apply list_elem_of_lookup in Ha as [j Hj].
      destruct (Forall2_lookup_l _ _ _ _ _ Hrun Hj) as (y & Hy & Hrun').
      simpl in Hrun'. rewrite Hidx in Hrun'. cbn [mbind Outcome_bind bindO] in Hrun'.
      rewrite Hsrc in Hrun'. injection Hrun' as <-.
      by apply list_elem_of_lookup_2 in Hy.
Qed.
End SrcMapFacts.

Lemma srcmap_entries_witness :
  ("130:12:0", "16:18:0") ∈ [("130:12:0", "16:18:0")] <->
  fromWalkedNode SampleMetadata.parse SampleMetadata.ppNode SampleMetadata.ppNames
                 SampleMetadata.context SampleMetadata.printed ["a.sol"]
                 ["a.sol"; "__scribble_ReentrancyUtils.sol"]
                 SampleMetadata.units SampleMetadata.utils ("130:12:0", "16:18:0") \/
  fromCheck SampleMetadata.ppNode SampleMetadata.ppNames SampleMetadata.context
            SampleMetadata.printed ["a.sol"; "__scribble_ReentrancyUtils.sol"]
            ("130:12:0", "16:18:0").
Proof.
  apply (srcmap_entries SampleMetadata.parse (uniq []) SampleMetadata.ppNode
                        SampleMetadata.ppNames SampleMetadata.context
                        SampleMetadata.printed ["a.sol"]
                        ["a.sol"; "__scribble_ReentrancyUtils.sol"]
                        SampleMetadata.units SampleMetadata.utils
                        ([("130:12:0", "16:18:0")], [])).
  vm_compute. reflexivity.
Defined.

(** *** The merged source texts *)

Lemma addContents_lookup files contentsMap srcUnit path :
  addContents files contentsMap srcUnit !! path =
    match contentsMap !! path with
    | Some contents => Some contents
    | None => if decide (absolutePath srcUnit = path)
              then files !! sourceEntryKey srcUnit else None
    end.
Proof.
  unfold addContents.
  destruct (decide (is_Some (contentsMap !! absolutePath srcUnit))) as [[c Hc]|Hnone].
  - destruct (contentsMap !! path) eqn:Hpath; [done|].
    rewrite decide_False; [done|]. intros Heq. congruence.
  - assert (contentsMap !! absolutePath srcUnit = None) as Hn.
    { destruct (contentsMap !! absolutePath srcUnit) eqn:E; [|done].
      exfalso. apply Hnone. eauto. }
    destruct (files !! sourceEntryKey srcUnit) as [contents|] eqn:Hfile.
    + destruct (decide (absolutePath srcUnit = path)) as [<-|Hne].
      * by rewrite lookup_insert_eq, Hn.
      * rewrite lookup_insert_ne by done. by destruct (contentsMap !! path).
    + destruct (decide (absolutePath srcUnit = path)) as [<-|Hne].
      * by rewrite Hn.
      * by destruct (contentsMap !! path).
Qed.

Lemma addContents_fold files units contentsMap path :
  foldl (addContents files) contentsMap units !! path =
    match contentsMap !! path with
    | Some contents => Some contents
    | None => head (omap (fun srcUnit => if decide (absolutePath srcUnit = path)
                                         then files !! sourceEntryKey srcUnit else None)
                         units)
    end.
Proof.
  revert contentsMap. induction units as [|u units IH]; intros contentsMap; simpl.
  - by destruct (contentsMap !! path).
  - rewrite IH, addContents_lookup. destruct (contentsMap !! path); [done|].
    destruct (decide (absolutePath u = path)); [|done].
    by destruct (files !! sourceEntryKey u).
Qed.

(** X20: the text that the merge loop records for a path is the first one
    offered for it, in the order of the targets and of their units, by a
    unit with that path whose source entry the target's files hold; later
    offers never replace it, and a path that is never offered gets no
    text. *)
Theorem mergeContents_first_offer (groups : list (list SourceUnit * gmap string string))
        (path : string) :
  mergeContents groups !! path = head (offeredContents path groups).
Proof.
  unfold mergeContents, offeredContents.
  assert (forall contentsMap,
             foldl (fun contentsMap group =>
                      foldl (addContents group.2) contentsMap group.1) contentsMap groups
               !! path =
             match contentsMap !! path with
             | Some contents => Some contents
             | None => head (offeredContents path groups)
             end) as Hgen; [|by rewrite Hgen, lookup_empty].
  unfold offeredContents. induction groups as [|[units files] groups IH];
    intros contentsMap.
  - simpl. by destruct (contentsMap !! path).
  - cbn [foldl fst snd]. rewrite IH, addContents_fold, bind_cons. cbn [fst snd].
    destruct (contentsMap !! path); [done|].
    by destruct (omap _ units).
Qed.

(** *** The flattened text and its source map *)

Lemma append_cons (c : Ascii.ascii) (s1 s2 : string) :
  String c s1 +:+ s2 = String c (s1 +:+ s2).
Proof. reflexivity. Qed.

Lemma append_assoc (s1 s2 s3 : string) : (s1 +:+ s2) +:+ s3 = s1 +:+ (s2 +:+ s3).
Proof.
  induction s1 as [|c s1 IH]; [done|]. by rewrite !append_cons, IH.
Qed.

Lemma append_nil_r (s : string) : s +:+ "" = s.
Proof. induction s as [|c s IH]; [done|]. by rewrite append_cons, IH. Qed.

Lemma substring_append_skip (pre s : string) (n m : nat) :
  String.substring (String.length pre + n) m (pre +:+ s) = String.substring n m s.
Proof. induction pre as [|c pre IH]; [done|]. rewrite append_cons. simpl. exact IH. Qed.

Lemma substring_append_within (s post : string) (n m : nat) :
  n + m <= String.length s ->
  String.substring n m (s +:+ post) = String.substring n m s.
Proof.
  revert n m. induction s as [|c s IH]; intros n m Hlen; simpl in Hlen.
  - assert (n = 0) as -> by lia. assert (m = 0) as -> by lia. by destruct post.
  - rewrite append_cons. destruct n as [|n]; simpl.
    + destruct m as [|m]; [done|]. f_equal. apply IH. lia.
    + apply IH. lia.
Qed.

Section FlattenFacts.
Variable pp : ASTNode -> string.
Variable newContents : gmap nat string.
Variable newSrcMap : gmap nat (Z * Z).

Local Abbreviation flattenNode' := (flattenNode pp newSrcMap).
Local Abbreviation flattenUnit' := (flattenUnit pp newContents newSrcMap).

Lemma flattenNodes_spec flatContents nodes (m m' : gmap nat (Z * Z)) :
  foldO (flattenNode' flatContents) nodes m = Returned m' ->
  NoDup (map node_id nodes) ->
  (forall node localSrc,
      node ∈ nodes -> newSrcMap !! node_id node = Some localSrc ->
      m' !! node_id node
      = Some (Z.of_nat (String.length flatContents) + localSrc.1, localSrc.2)%Z) /\
  (forall id, id ∉ map node_id nodes -> m' !! id = m !! id).
Proof.
  revert m. induction nodes as [|node nodes IH]; intros m H Hnd.
  - injection H as <-. split; [|done]. intros node src Hnode. inversion Hnode.
  - cbn [foldO] in H. apply bind_returned in H as (m1 & Hnode & H).
    simpl in Hnd. apply NoDup_cons in Hnd as [Hfresh Hnd].
    destruct (IH m1 H Hnd) as [Hin Hout].
    assert (forall id, id <> node_id node -> m1 !! id = m !! id) as Hm1.
    { intros id Hid. unfold flattenNode in Hnode.
      destruct (newSrcMap !! node_id node) as [src|].
      - injection Hnode as <-. by rewrite lookup_insert_ne.
      - apply bind_returned in Hnode as ([] & _ & Hnode). by injection Hnode as <-. }
    split.
    + intros node' src Hnode' Hsrc. apply elem_of_cons in Hnode' as [->|Hnode'].
      * rewrite Hout by done. unfold flattenNode in Hnode. rewrite Hsrc in Hnode.
        injection Hnode as <-. apply lookup_insert_eq.
      * by apply Hin.
    + intros id Hid. simpl in Hid. rewrite not_elem_of_cons in Hid.
      destruct Hid as [Hne Hid]. rewrite Hout by done. by apply Hm1.
Qed.

Lemma flattenUnits_spec units flat0 (m0 : gmap nat (Z * Z)) flat m :
  foldO flattenUnit' units (flat0, m0) = Returned (flat, m) ->
  NoDup (map node_id (units ≫= wu_descendants)) ->
  (exists post, flat = flat0 +:+ post) /\
  (forall id, id ∉ map node_id (units ≫= wu_descendants) -> m !! id = m0 !! id) /\
  (forall wu, wu ∈ units ->
     exists pre post,
       flat = pre +:+ default "undefined" (newContents !! unit_id (wu_unit wu)) +:+ post /\
       forall node localSrc,
         node ∈ wu_descendants wu -> newSrcMap !! node_id node = Some localSrc ->
         m !! node_id node
         = Some (Z.of_nat (String.length pre) + localSrc.1, localSrc.2)%Z).
Proof.
  revert flat0 m0. induction units as [|u units IH]; intros flat0 m0 H Hnd.
  - injection H as <- <-. split; [exists ""; by rewrite append_nil_r|].
    split; [done|]. intros wu Hwu. inversion Hwu.
  - cbn [foldO] in H. apply bind_returned in H as ([flat1 m1] & Hu & H).
    rewrite bind_cons, map_app in Hnd. apply NoDup_app in Hnd as (Hndu & Hdisj & Hndrest).
    destruct (IH flat1 m1 H Hndrest) as ([post Hpost] & Hout & Hin).
    unfold flattenUnit in Hu. cbn [fst snd] in Hu.
    apply bind_returned in Hu as (m1' & Hnodes & Hu). injection Hu as <- <-.
    set (fc := if decide (flat0 <> "") then flat0 +:+ newline else flat0) in *.
    destruct (flattenNodes_spec fc _ m0 m1' Hnodes Hndu) as [Hnin Hnout].
    split; [|split].
    + exists ((if decide (flat0 <> "") then newline else "")
                +:+ default "undefined" (newContents !! unit_id (wu_unit u)) +:+ post).
      rewrite Hpost. unfold fc. destruct (decide (flat0 <> "")).
      * by rewrite !append_assoc.
      * by rewrite !append_assoc.
    + intros id Hid. rewrite bind_cons, map_app, not_elem_of_app in Hid.
      destruct Hid as [Hidu Hidrest]. rewrite Hout by done. by apply Hnout.
    + intros wu Hwu. apply elem_of_cons in Hwu as [->|Hwu].
      * exists fc, post. split; [by rewrite Hpost, append_assoc|].
        intros node src Hnode Hsrc. rewrite Hout; [by apply Hnin|].
        apply Hdisj. apply list_elem_of_fmap. by exists node.
      * by apply Hin.
Qed.

(** X21: in the flattened output every printed node of a unit keeps its
    text: the range that [flatSrcMap] records for the node has the length
    it had in the unit's own text, and the flattened text holds, at that
    range, what the unit's text holds at the node's local range. *)
Theorem flattened_ranges_keep_text (sortedUnits : list WalkedUnit) (flatContents : string)
        (flatSrcMap : gmap nat (Z * Z)) (wu : WalkedUnit) (node : ASTNode)
        (contents : string) (offset len : Z) :
  flattenUnits pp newContents newSrcMap sortedUnits = Returned (flatContents, flatSrcMap) ->
  NoDup (map node_id (sortedUnits ≫= wu_descendants)) ->
  wu ∈ sortedUnits -> node ∈ wu_descendants wu ->
  newContents !! unit_id (wu_unit wu) = Some contents ->
  newSrcMap !! node_id node = Some (offset, len) ->
  (0 <= offset)%Z -> (0 <= len)%Z ->
  (offset + len <= Z.of_nat (String.length contents))%Z ->
  exists flatOffset,
    flatSrcMap !! node_id node = Some (flatOffset, len) /\ (offset <= flatOffset)%Z /\
    String.substring (Z.to_nat flatOffset) (Z.to_nat len) flatContents
    = String.substring (Z.to_nat offset) (Z.to_nat len) contents.
Proof.
  intros Hrun Hnd Hwu Hnode Hcontents Hsrc Hoff Hlen Hfit.
  destruct (flattenUnits_spec _ _ _ _ _ Hrun Hnd) as (_ & _ & Hin).
  destruct (Hin wu Hwu) as (pre & post & Hflat & Hnodes).
  rewrite Hcontents in Hflat. simpl in Hflat.
  exists (Z.of_nat (String.length pre) + offset)%Z.
  split; [by apply (Hnodes node (offset, len))|]. split; [lia|].
  rewrite Hflat.
  replace (Z.to_nat (Z.of_nat (String.length pre) + offset))
    with (String.length pre + Z.to_nat offset) by lia.
  rewrite substring_append_skip. apply substring_append_within. lia.
Qed.
End FlattenFacts.

Lemma flattened_ranges_keep_text_witness :
  exists flatOffset,
    ({[ 60 := (11, 1)%Z; 61 := (25, 1)%Z ]} : gmap nat (Z * Z)) !! 61
      = Some (flatOffset, 1%Z) /\ (10 <= flatOffset)%Z /\
    String.substring (Z.to_nat flatOffset) (Z.to_nat 1)
                     ("contract A { }" +:+ newline +:+ "library L { }")
    = String.substring (Z.to_nat 10) (Z.to_nat 1) "library L { }".
Proof.
  apply (flattened_ranges_keep_text
           SampleMetadata.ppNode SampleFlat.printedText SampleFlat.printedRanges
           SampleFlat.units ("contract A { }" +:+ newline +:+ "library L { }")
           {[ 60 := (11, 1)%Z; 61 := (25, 1)%Z ]}
           (mkWalkedUnit Sample.unitL [SampleFlat.braceL]) SampleFlat.braceL).
  - vm_compute. reflexivity.
  - apply (bool_decide_unpack _). vm_compute. exact I.
  - right. left.
  - left.
  - reflexivity.
  - reflexivity.
  - lia.
  - lia.
  - vm_compute. discriminate.
Defined.

(** *** The files written in [files] mode *)

Lemma io_bind_returned {A B : Type} (m : IO A) (k : A -> IO B) w w1 a w' o :
  m w = (w1, Returned a) -> k a w1 = (w', o) -> io_bind m k w = (w', o).
Proof. intros Hm Hk. unfold io_bind. by rewrite Hm. Qed.

(** The three files of a changed unit. *)
Local Abbreviation instrumentedName' :=
  (fun u : SourceUnit => absolutePath u +:+ ".instrumented").
Local Abbreviation originalName' :=
  (fun u : SourceUnit => absolutePath u +:+ ".original").

Lemma touched_cons (u : SourceUnit) (units : list SourceUnit) :
  map absolutePath (u :: units) ++ map instrumentedName' (u :: units)
    ++ map originalName' (u :: units)
  ≡ₚ absolutePath u :: instrumentedName' u :: originalName' u
       :: map absolutePath units ++ map instrumentedName' units
       ++ map originalName' units.
Proof.
  simpl. constructor. rewrite <- Permutation_middle. constructor.
  rewrite app_assoc, <- Permutation_middle. constructor. by rewrite app_assoc.
Qed.

(** Two names that would clash are both among the names assumed
    distinct. *)
Local Ltac clash Hmap :=
  let Heq := fresh "Heq" in
  intros Heq;
  match goal with
  | H : _ ∉ map ?f _ |- _ => apply H; rewrite <- Heq; by apply (Hmap f)
  end.

Section WriteFiles.
Variable newContents : nat -> string.
Variable quiet : bool.

Lemma writeLoop_spec (units : list SourceUnit) (w : World) :
  exists w',
    io_forEach units (fun srcUnit =>
       io_bind (if quiet then io_ret tt
                else consoleError (absolutePath srcUnit +:+ " -> "
                                     +:+ (absolutePath srcUnit +:+ ".instrumented")))
               (fun _ => writeFileSync (absolutePath srcUnit +:+ ".instrumented")
                                       (newContents (unit_id srcUnit)))) w
    = (w', Returned tt) /\
    fileSystem w' = foldl (fun fs u => <[instrumentedName' u := newContents (unit_id u)]> fs)
                          (fileSystem w) units /\
    (quiet = true -> stderrLines w' = stderrLines w).
Proof.
  revert w. induction units as [|u units IH]; intros w.
  - exists w. by simpl.
  - set (w1 := mkWorld (<[instrumentedName' u := newContents (unit_id u)]> (fileSystem w))
                       (if quiet then stderrLines w
                        else stderrLines w ++ [absolutePath u +:+ " -> "
                                                 +:+ (absolutePath u +:+ ".instrumented")])).
    destruct (IH w1) as (w' & Hrun & Hfs & Herr).
    exists w'. split; [|split].
    + cbn [io_forEach]. apply (io_bind_returned _ _ w w1 tt); [|done].
      unfold w1. by destruct quiet.
    + by rewrite Hfs.
    + intros Hq. rewrite (Herr Hq). unfold w1. by rewrite Hq.
Qed.

Lemma armLoop_spec (units : list SourceUnit) (w : World) :
  NoDup (map absolutePath units ++ map instrumentedName' units ++ map originalName' units) ->
  (forall u, u ∈ units ->
             is_Some (fileSystem w !! absolutePath u) /\
             fileSystem w !! instrumentedName' u = Some (newContents (unit_id u))) ->
  exists w',
    io_forEach units (fun srcUnit =>
       io_bind (copy quiet (absolutePath srcUnit) (absolutePath srcUnit +:+ ".original"))
               (fun _ => copy quiet (absolutePath srcUnit +:+ ".instrumented")
                              (absolutePath srcUnit))) w
    = (w', Returned tt) /\
    (forall u, u ∈ units ->
               fileSystem w' !! absolutePath u = Some (newContents (unit_id u)) /\
               fileSystem w' !! originalName' u = fileSystem w !! absolutePath u) /\
    (forall q, q ∉ map absolutePath units ++ map originalName' units ->
               fileSystem w' !! q = fileSystem w !! q) /\
    (quiet = true -> stderrLines w' = stderrLines w).
Proof.
  revert w. induction units as [|u units IH]; intros w Hnd Hpre.
  - exists w. split; [done|]. split; [intros u Hu; inversion Hu|done].
  - rewrite touched_cons in Hnd.
    apply NoDup_cons in Hnd as [Hp Hnd]. apply NoDup_cons in Hnd as [Hi Hnd].
    apply NoDup_cons in Hnd as [Ho Hnd].
    rewrite !not_elem_of_cons in Hp. destruct Hp as (Hpi & Hpo & Hp).
    rewrite not_elem_of_cons in Hi. destruct Hi as (Hio & Hi).
    rewrite !not_elem_of_app in Hp, Hi, Ho.
    destruct Hp as (Hpp & Hpis & Hpos). destruct Hi as (Hip & Hiis & Hios).
    destruct Ho as (Hop & Hois & Hoos).
    destruct (Hpre u) as [[old Hold] Hnew]; [left|].
    set (fs1 := <[absolutePath u := newContents (unit_id u)]>
                  (<[originalName' u := old]> (fileSystem w))).
    set (w1 := mkWorld fs1
                 (if quiet then stderrLines w
                  else (stderrLines w
                          ++ ["Copying " +:+ absolutePath u +:+ " to "
                                +:+ (absolutePath u +:+ ".original")])
                         ++ ["Copying " +:+ (absolutePath u +:+ ".instrumented") +:+ " to "
                               +:+ absolutePath u])).
    assert (forall q, q <> absolutePath u -> q <> originalName' u ->
                      fs1 !! q = fileSystem w !! q) as Hfs1.
    { intros q H1 H2. unfold fs1. by rewrite !lookup_insert_ne. }
    assert (forall (f : SourceUnit -> string) v, v ∈ units -> f v ∈ map f units) as Hmap.
    { intros f v Hv. apply list_elem_of_fmap. by exists v. }
    destruct (IH w1 Hnd) as (w' & Hrun & Hin & Hout & Herr).
    { intros v Hv. destruct (Hpre v) as [Hsome Hvnew]; [by right|]. simpl.
      rewrite !Hfs1; [done|clash Hmap..]. }
    exists w'. split; [|split; [|split]].
    + cbn [io_forEach]. apply (io_bind_returned _ _ w w1 tt); [|done].
      unfold io_bind, copy, io_bind, copyFileSync.
      destruct quiet; simpl; rewrite Hold; simpl;
        rewrite lookup_insert_ne by (by intros ?); by rewrite Hnew.
    + intros v Hv. apply elem_of_cons in Hv as [->|Hv].
      * rewrite !Hout by (rewrite not_elem_of_app; done). simpl. unfold fs1.
        rewrite lookup_insert_eq. rewrite lookup_insert_ne by done.
        by rewrite lookup_insert_eq.
      * destruct (Hin v Hv) as [-> ->]. split; [done|]. simpl.
        apply Hfs1; clash Hmap.
    + intros q Hq. simpl in Hq. rewrite not_elem_of_cons, not_elem_of_app in Hq.
      rewrite not_elem_of_cons in Hq. destruct Hq as (Hq1 & Hq2 & Hq3 & Hq4).
      rewrite Hout by (rewrite not_elem_of_app; done). simpl. by apply Hfs1.
    + intros Hq. rewrite (Herr Hq). unfold w1. by rewrite Hq.
Qed.

Lemma writeInstrumentedFiles_spec (arm : bool) (changedUnits : list SourceUnit)
        (utils : SourceUnit) (w : World) :
  NoDup (outputNames changedUnits utils) ->
  (arm = true -> forall u, u ∈ changedUnits -> is_Some (fileSystem w !! absolutePath u)) ->
  exists w',
    writeInstrumentedFiles quiet arm newContents changedUnits utils w = (w', Returned tt) /\
    (forall u, u ∈ changedUnits ->
       fileSystem w' !! (absolutePath u +:+ ".instrumented")
         = Some (newContents (unit_id u)) /\
       fileSystem w' !! absolutePath u
         = (if arm then Some (newContents (unit_id u)) else fileSystem w !! absolutePath u) /\
       fileSystem w' !! (absolutePath u +:+ ".original")
         = (if arm then fileSystem w !! absolutePath u
            else fileSystem w !! (absolutePath u +:+ ".original"))) /\
    fileSystem w' !! absolutePath utils = Some (newContents (unit_id utils)) /\
    (forall q, q ∉ outputNames changedUnits utils -> fileSystem w' !! q = fileSystem w !! q) /\
    (quiet = true -> stderrLines w' = stderrLines w).
Proof.
  intros Hnd Hexist. unfold outputNames in *.
  apply NoDup_cons in Hnd as [Hutils Hnd].
  rewrite !not_elem_of_app in Hutils. destruct Hutils as (Hup & Hui & Huo).
  pose proof Hnd as Hnd'. apply NoDup_app in Hnd' as (Hndp & Hdisj & Hnd').
  apply NoDup_app in Hnd' as (Hndi & Hdisj' & Hndo).
  assert (forall (f : SourceUnit -> string) v, v ∈ changedUnits -> f v ∈ map f changedUnits)
    as Hmap.
  { intros f v Hv. apply list_elem_of_fmap. by exists v. }
  destruct (writeLoop_spec changedUnits w) as (w1 & Hrun1 & Hfs1 & Herr1).
  set (w2 := mkWorld (<[absolutePath utils := newContents (unit_id utils)]> (fileSystem w1))
                     (stderrLines w1)).
  assert (forall u, u ∈ changedUnits ->
            fileSystem w2 !! instrumentedName' u = Some (newContents (unit_id u))) as Hinstr.
  { intros u Hu. simpl. rewrite lookup_insert_ne.
    - rewrite Hfs1.
      by apply (foldl_insert_lookup instrumentedName' (fun u => newContents (unit_id u))).
    - intros Heq. apply Hui. rewrite Heq. by apply (Hmap instrumentedName'). }
  assert (forall q, q <> absolutePath utils -> q ∉ map instrumentedName' changedUnits ->
                    fileSystem w2 !! q = fileSystem w !! q) as Hkeep.
  { intros q Hq1 Hq2. simpl. rewrite lookup_insert_ne by done. rewrite Hfs1.
    by apply (foldl_insert_lookup_ne instrumentedName'
                (fun u => newContents (unit_id u))). }
  assert (forall u, u ∈ changedUnits -> fileSystem w2 !! absolutePath u
                                       = fileSystem w !! absolutePath u) as Hpath.
  { intros u Hu. apply Hkeep.
    - intros Heq. apply Hup. rewrite <- Heq. by apply (Hmap absolutePath).
    - intros Hin. apply (Hdisj (absolutePath u)); [by apply (Hmap absolutePath)|].
      apply elem_of_app. by left. }
  assert (forall u, u ∈ changedUnits -> fileSystem w2 !! originalName' u
                                       = fileSystem w !! originalName' u) as Horig.
  { intros u Hu. apply Hkeep.
    - intros Heq. apply Huo. rewrite <- Heq. by apply (Hmap originalName').
    - intros Hin. apply (Hdisj' (originalName' u)); [done|by apply (Hmap originalName')]. }
  assert (fileSystem w2 !! absolutePath utils = Some (newContents (unit_id utils))) as Hw2u
      by apply lookup_insert_eq.
  destruct arm.
  - destruct (armLoop_spec changedUnits w2 Hnd) as (w' & Hrun3 & Hin & Hout & Herr3).
    { intros u Hu. split; [rewrite Hpath by done; by apply Hexist|by apply Hinstr]. }
    exists w'. split; [|split; [|split; [|split]]].
    + unfold writeInstrumentedFiles.
      apply (io_bind_returned _ _ w w1 tt); [exact Hrun1|].
      by apply (io_bind_returned _ _ w1 w2 tt).
    + intros u Hu. destruct (Hin u Hu) as [Hp Ho]. split; [|split; [done|]].
      * rewrite Hout; [by apply Hinstr|]. rewrite not_elem_of_app. split.
        -- intros Hin'. apply (Hdisj _ Hin'). apply elem_of_app. left.
           by apply (Hmap instrumentedName').
        -- intros Hin'. by apply (Hdisj' (instrumentedName' u)); [apply (Hmap instrumentedName')|].
      * rewrite Ho. by apply Hpath.
    + rewrite Hout; [done|]. by rewrite not_elem_of_app.
    + intros q Hq. rewrite not_elem_of_cons, !not_elem_of_app in Hq.
      destruct Hq as (Hq1 & Hq2 & Hq3 & Hq4).
      rewrite Hout by (by rewrite not_elem_of_app). by apply Hkeep.
    + intros Hq. rewrite (Herr3 Hq). simpl. by apply Herr1.
  - exists w2. split; [|split; [|split; [|split]]].
    + unfold writeInstrumentedFiles.
      apply (io_bind_returned _ _ w w1 tt); [exact Hrun1|].
      by apply (io_bind_returned _ _ w1 w2 tt).
    + intros u Hu. split; [by apply Hinstr|]. split; [by apply Hpath|by apply Horig].
    + done.
    + intros q Hq. rewrite not_elem_of_cons, !not_elem_of_app in Hq.
      destruct Hq as (Hq1 & Hq2 & Hq3 & Hq4). by apply Hkeep.
    + intros Hq. simpl. by apply Herr1.
Qed.

(** X22: in [files] mode the instrumented text of every changed unit is
    written next to the unit under [.instrumented], and the utilities unit
    under its own path.  Under [--arm], when the files of the changed units
    exist, each one is first copied to [.original], which then holds its
    previous contents, and then replaced by the instrumented text; without
    [--arm] the units themselves stay as they were.  No other file is
    touched, and with [quiet] nothing is printed.  The names involved are
    taken to be distinct. *)
Theorem armed_files_keep_backup (arm : bool) (changedUnits : list SourceUnit)
        (utils : SourceUnit) (w : World) :
  NoDup (outputNames changedUnits utils) ->
  (arm = true -> forall u, u ∈ changedUnits -> is_Some (fileSystem w !! absolutePath u)) ->
  exists w',
    writeInstrumentedFiles quiet arm newContents changedUnits utils w = (w', Returned tt) /\
    (forall u, u ∈ changedUnits ->
       fileSystem w' !! (absolutePath u +:+ ".instrumented")
         = Some (newContents (unit_id u)) /\
       fileSystem w' !! absolutePath u
         = (if arm then Some (newContents (unit_id u)) else fileSystem w !! absolutePath u) /\
       fileSystem w' !! (absolutePath u +:+ ".original")
         = (if arm then fileSystem w !! absolutePath u
            else fileSystem w !! (absolutePath u +:+ ".original"))) /\
    fileSystem w' !! absolutePath utils = Some (newContents (unit_id utils)) /\
    (forall q, q ∉ outputNames changedUnits utils -> fileSystem w' !! q = fileSystem w !! q) /\
    (quiet = true -> stderrLines w' = stderrLines w).
Proof. apply writeInstrumentedFiles_spec. Qed.
End WriteFiles.

Lemma armed_files_keep_backup_witness :
  exists w',
    writeInstrumentedFiles true true (fun _ => "contract A { /* checks */ }")
                           [Sample.unitA] SampleMetadata.utils (mkWorld Sample.sources [])
    = (w', Returned tt) /\
    (forall u, u ∈ [Sample.unitA] ->
       fileSystem w' !! (absolutePath u +:+ ".instrumented")
         = Some "contract A { /* checks */ }" /\
       fileSystem w' !! absolutePath u = Some "contract A { /* checks */ }" /\
       fileSystem w' !! (absolutePath u +:+ ".original")
         = Sample.sources !! absolutePath u) /\
    fileSystem w' !! absolutePath SampleMetadata.utils = Some "contract A { /* checks */ }" /\
    (forall q, q ∉ outputNames [Sample.unitA] SampleMetadata.utils ->
               fileSystem w' !! q = Sample.sources !! q) /\
    (true = true -> stderrLines w' = []).
Proof.
  apply (armed_files_keep_backup (fun _ => "contract A { /* checks */ }") true true
                                 [Sample.unitA] SampleMetadata.utils
                                 (mkWorld Sample.sources [])).
  - apply (bool_decide_unpack _). vm_compute. exact I.
  - intros _ u Hu. apply list_elem_of_singleton in Hu as ->. by eexists.
Defined.

(** *** [isomorphic] *)

Lemma size_alter {A : Type} (f : A -> A) (m : gmap string A) (k : string) :
  size (alter f k m) = size m.
Proof.
  destruct (m !! k) as [x|] eqn:Hk.
  - assert (alter f k m = <[k := f x]> m) as ->.
    { apply map_eq. intros j. destruct (decide (k = j)) as [->|Hne].
      - by rewrite lookup_alter_eq, lookup_insert_eq, Hk.
      - by rewrite lookup_alter_ne, lookup_insert_ne. }
    apply map_size_insert_Some. by rewrite Hk.
  - assert (alter f k m = m) as ->; [|done].
    apply map_eq. intros j. destruct (decide (k = j)) as [->|Hne].
    + by rewrite lookup_alter_eq, Hk.
    + by rewrite lookup_alter_ne.
Qed.

Lemma fieldsAgree_spec (aProps bProps : gmap string FieldValue) :
  fieldsAgree aProps bProps = true <->
  forall name v, aProps !! name = Some v -> name <> "src" -> name <> "id" ->
                 isPrimitive v = true -> bProps !! name = Some v.
Proof.
  unfold fieldsAgree. rewrite forallb_forall. split.
  - intros H name v Hv Hsrc Hid Hprim.
    specialize (H (name, v)). simpl in H.
    rewrite decide_False in H by tauto. rewrite Hprim in H. simpl in H.
    apply negb_true_iff, negb_false_iff, bool_decide_eq_true in H; [done|].
    apply list_elem_of_In. by apply elem_of_map_to_list.
  - intros H [name v] Hin. apply list_elem_of_In, elem_of_map_to_list in Hin. simpl.
    destruct (decide (name = "src" \/ name = "id")) as [_|Hn]; [done|].
    destruct (isPrimitive v) eqn:Hprim; [|done]. simpl.
    rewrite bool_decide_eq_true_2; [done|]. apply H; tauto.
Qed.

Lemma fieldsAgree_relocate_l (move : string -> FieldValue -> FieldValue)
      (aProps bProps : gmap string FieldValue) :
  fieldsAgree (alter (move "src") "src" (alter (move "id") "id" aProps)) bProps
  = fieldsAgree aProps bProps.
Proof.
  apply eq_true_iff_eq. rewrite !fieldsAgree_spec.
  split; intros H name v Hv Hsrc Hid Hprim.
  - apply (H name v); [|done..]. by rewrite !lookup_alter_ne.
  - rewrite !lookup_alter_ne in Hv by done. by apply H.
Qed.

Lemma fieldsAgree_relocate_r (move : string -> FieldValue -> FieldValue)
      (aProps bProps : gmap string FieldValue) :
  fieldsAgree aProps (alter (move "src") "src" (alter (move "id") "id" bProps))
  = fieldsAgree aProps bProps.
Proof.
  apply eq_true_iff_eq. rewrite !fieldsAgree_spec.
  split; intros H name v Hv Hsrc Hid Hprim.
  - specialize (H name v Hv Hsrc Hid Hprim). by rewrite !lookup_alter_ne in H.
  - rewrite !lookup_alter_ne by done. by apply H.
Qed.

Lemma isomorphic_relocate_l (move : string -> FieldValue -> FieldValue) :
  forall a b, isomorphic (relocate move a) b = isomorphic a b.
Proof.
  fix IH 1. intros [ac af ach] [bc bf bch]. cbn [isomorphic relocate].
  rewrite !size_alter, fieldsAgree_relocate_l, !length_map.
  destruct (negb (bool_decide (ac = bc))); [done|].
  destruct (assert _ _) as [[]|?|?]; cbn [mbind Outcome_bind bindO]; try done.
  destruct (negb (fieldsAgree af bf)); [done|].
  destruct (negb (bool_decide (length ach = length bch))); [done|].
  clear ac af bc bf. revert bch.
  induction ach as [|x ach IHch]; intros [|y bch]; cbn [map]; try done.
  rewrite (IH x y). destruct (isomorphic x y) as [[]|?|?]; [apply IHch|done..].
Qed.

Lemma isomorphic_relocate_r (move : string -> FieldValue -> FieldValue) :
  forall a b, isomorphic a (relocate move b) = isomorphic a b.
Proof.
  fix IH 1. intros [ac af ach] [bc bf bch]. cbn [isomorphic relocate].
  rewrite !size_alter, fieldsAgree_relocate_r, !length_map.
  destruct (negb (bool_decide (ac = bc))); [done|].
  destruct (assert _ _) as [[]|?|?]; cbn [mbind Outcome_bind bindO]; try done.
  destruct (negb (fieldsAgree af bf)); [done|].
  destruct (negb (bool_decide (length ach = length bch))); [done|].
  clear ac af bc bf. revert bch.
  induction ach as [|x ach IHch]; intros [|y bch]; cbn [map]; try done.
  rewrite (IH x y). destruct (isomorphic x y) as [[]|?|?]; [apply IHch|done..].
Qed.

Lemma isomorphic_refl : forall a, isomorphic a a = Returned true.
Proof.
  fix IH 1. intros [c f ch]. cbn [isomorphic].
  rewrite bool_decide_eq_true_2 by done. cbn [negb].
  unfold assert. rewrite bool_decide_eq_true_2 by done. cbn [mbind Outcome_bind bindO].
  assert (fieldsAgree f f = true) as -> by (by apply fieldsAgree_spec).
  rewrite bool_decide_eq_true_2 by done. cbn [negb].
  induction ch as [|x ch IHch]; [done|].
  rewrite (IH x). apply IHch.
Qed.

(** X23: [isomorphic] relates every tree to itself, and it is blind to the
    fields [src] and [id]: changing their values, at any node of either
    tree, does not change its answer; so a tree and a copy of it that was
    moved and renumbered are isomorphic. *)
Theorem isomorphic_ignores_place (move move' : string -> FieldValue -> FieldValue) :
  (forall a, isomorphic a a = Returned true) /\
  (forall a b, isomorphic (relocate move a) (relocate move' b) = isomorphic a b) /\
  (forall a, isomorphic a (relocate move a) = Returned true).
Proof.
  split; [exact isomorphic_refl|]. split.
  - intros a b. by rewrite isomorphic_relocate_l, isomorphic_relocate_r.
  - intros a. by rewrite isomorphic_relocate_r, isomorphic_refl.
Qed.

Example sample_isomorphic :
  isomorphic SampleTree.sum
             (relocate (fun _ _ => StringValue "0:0:0") SampleTree.sum) = Returned true /\
  isomorphic SampleTree.sum
             (mkTree "BinaryOperation" {[ "id" := NumberValue 9;
                                          "src" := StringValue "10:5:0";
                                          "operator" := StringValue "-" ]}
                     [SampleTree.identifier; SampleTree.literal]) = Returned false.
Proof. split; vm_compute; reflexivity. Qed.

(** *** Arming and disarming *)

Lemma list_ascii_of_string_app (a b : string) :
  String.list_ascii_of_string (a +:+ b)
  = String.list_ascii_of_string a ++ String.list_ascii_of_string b.
Proof. induction a as [|c a IH]; [done|]. rewrite append_cons. simpl. by rewrite IH. Qed.

Lemma list_ascii_of_string_inj (a b : string) :
  String.list_ascii_of_string a = String.list_ascii_of_string b -> a = b.
Proof.
  intros H. rewrite <- (String.string_of_list_ascii_of_string a),
    <- (String.string_of_list_ascii_of_string b). by rewrite H.
Qed.

Lemma append_inj_r (a b s : string) : a +:+ s = b +:+ s -> a = b.
Proof.
  intros H. apply list_ascii_of_string_inj.
  apply (f_equal String.list_ascii_of_string) in H.
  rewrite !list_ascii_of_string_app in H. by apply app_inv_tail in H.
Qed.

Lemma original_ne_instrumented (a b : string) :
  a +:+ ".original" <> b +:+ ".instrumented".
Proof.
  intros H. apply (f_equal (fun s => last (String.list_ascii_of_string s))) in H.
  rewrite !list_ascii_of_string_app in H.
  change (String.list_ascii_of_string ".original")
    with (String.list_ascii_of_string ".origina" ++ ["l"%char]) in H.
  change (String.list_ascii_of_string ".instrumented")
    with (String.list_ascii_of_string ".instrumente" ++ ["d"%char]) in H.
  rewrite !app_assoc, !last_snoc in H. discriminate.
Qed.

Lemma strSetAdd_spec (s : list string) (x : string) :
  NoDup s -> NoDup (strSetAdd s x) /\ forall y, y ∈ strSetAdd s x <-> y ∈ s \/ y = x.
Proof.
  intros Hs. unfold strSetAdd. destruct (decide (x ∈ s)) as [Hx|Hx].
  - split; [done|]. intros y. split; [tauto|]. intros [?| ->]; done.
  - split.
    + apply NoDup_app. repeat split; [done| |apply NoDup_singleton].
      intros y Hy Hy'. apply list_elem_of_singleton in Hy'. by subst.
    + intros y. rewrite elem_of_app, list_elem_of_singleton. tauto.
Qed.

Section Collect.
Variable fs : gmap string string.
Variable helperFileName : option string.

Lemma collectNames_collected (names targetNames : list string) acc :
  collected fs helperFileName names acc ->
  collected fs helperFileName (names ++ targetNames)
    (foldl (fun acc targetName =>
              let originalFileName := targetName +:+ ".original" in
              let instrFileName := targetName +:+ ".instrumented" in
              (if bool_decide (is_Some (fs !! originalFileName))
               then strSetAdd acc.1 originalFileName else acc.1,
               if bool_decide (is_Some (fs !! instrFileName))
               then strSetAdd acc.2 instrFileName else acc.2))
           acc targetNames).
Proof.
  revert names acc. induction targetNames as [|t targetNames IH]; intros names acc Hacc.
  - by rewrite app_nil_r.
  - cbn [foldl]. replace (names ++ t :: targetNames) with ((names ++ [t]) ++ targetNames)
      by (by rewrite <- app_assoc).
    apply IH. destruct Hacc as (Hnd1 & Hnd2 & Ho & Hi & Hi'). cbv zeta. cbn [fst snd].
    destruct (strSetAdd_spec acc.1 (t +:+ ".original") Hnd1) as [Hnd1' Hm1].
    destruct (strSetAdd_spec acc.2 (t +:+ ".instrumented") Hnd2) as [Hnd2' Hm2].
    unfold collected. cbn [fst snd].
    split; [by case_bool_decide|]. split; [by case_bool_decide|]. split; [|split].
    + intros x. case_bool_decide as Hex.
      * rewrite Hm1, Ho. split.
        -- intros [(t' & Ht' & -> & Hx)| ->].
           ++ exists t'. split; [apply elem_of_app; by left|done].
           ++ exists t. split; [apply elem_of_app; right; left|done].
        -- intros (t' & Ht' & -> & Hx). apply elem_of_app in Ht' as [Ht'|Ht'].
           ++ left. by exists t'.
           ++ apply list_elem_of_singleton in Ht' as ->. by right.
      * rewrite Ho. split.
        -- intros (t' & Ht' & -> & Hx). exists t'. split; [apply elem_of_app; by left|done].
        -- intros (t' & Ht' & -> & Hx). apply elem_of_app in Ht' as [Ht'|Ht'].
           ++ by exists t'.
           ++ apply list_elem_of_singleton in Ht' as ->. done.
    + intros x Hx.
      assert (x ∈ acc.2 \/ (x = t +:+ ".instrumented" /\ is_Some (fs !! x))) as [Hin|[-> Hex]].
      { case_bool_decide as Hex; [|by left]. apply Hm2 in Hx as [?| ->]; [by left|by right]. }
      * destruct (Hi x Hin) as [Hsome [(t' & Ht' & ->)|Hh]]; (split; [done|]).
        -- left. exists t'. split; [apply elem_of_app; by left|done].
        -- by right.
      * split; [done|]. left. exists t. split; [apply elem_of_app; right; left|done].
    + intros t' Ht' Hex. apply elem_of_app in Ht' as [Ht'|Ht'].
      * specialize (Hi' t' Ht' Hex). case_bool_decide; [|done]. apply Hm2. by left.
      * apply list_elem_of_singleton in Ht' as ->.
        rewrite bool_decide_eq_true_2 by done. apply Hm2. by right.
Qed.

Lemma collectTarget_collected (names targetNames : list string) acc :
  collected fs helperFileName names acc ->
  collected fs helperFileName (names ++ targetNames) (collectTarget fs helperFileName acc targetNames).
Proof.
  intros Hacc. unfold collectTarget.
  pose proof (collectNames_collected names targetNames acc Hacc) as Hc.
  cbv zeta. destruct helperFileName as [helper|] eqn:Hh; [|done].
  case_bool_decide as Hex; [|done].
  destruct Hc as (Hnd1 & Hnd2 & Ho & Hi & Hi').
  destruct (strSetAdd_spec _ helper Hnd2) as [Hnd2' Hm2].
  split; [done|]. split; [done|]. split; [done|]. cbn [fst snd]. split.
  - intros x Hx. apply Hm2 in Hx as [Hx| ->]; [by apply Hi|]. split; [done|by right].
  - intros t Ht Hext. apply Hm2. left. by apply Hi'.
Qed.

Lemma collectTargets_collected (targetFiles : list (list string)) :
  collected fs helperFileName (concat targetFiles)
            (foldl (collectTarget fs helperFileName) ([], []) targetFiles).
Proof.
  assert (forall names acc,
             collected fs helperFileName names acc ->
             collected fs helperFileName (names ++ concat targetFiles)
                       (foldl (collectTarget fs helperFileName) acc targetFiles)) as Hgen.
  { induction targetFiles as [|targetNames targetFiles IH]; intros names acc Hacc.
    - simpl. by rewrite app_nil_r.
    - cbn [foldl concat]. rewrite app_assoc. apply IH. by apply collectTarget_collected. }
  apply (Hgen [] ([], [])). split; [constructor|]. split; [constructor|].
  split; [|split].
  - intros x. split; [intros Hx; inversion Hx|]. intros (t & Ht & _). inversion Ht.
  - intros x Hx. inversion Hx.
  - intros t Ht. inversion Ht.
Qed.
Lemma elem_of_strSetAdd (s : list string) (x y : string) :
  y ∈ strSetAdd s x <-> y ∈ s \/ y = x.
Proof.
  unfold strSetAdd. destruct (decide (x ∈ s)) as [Hx|Hx].
  - split; [tauto|]. intros [?| ->]; done.
  - rewrite elem_of_app, list_elem_of_singleton. tauto.
Qed.

Lemma collectTarget_grows (targetNames : list string) acc (x : string) :
  x ∈ acc.2 -> x ∈ (collectTarget fs helperFileName acc targetNames).2.
Proof.
  intros Hx. unfold collectTarget. cbv zeta.
  assert (forall acc, x ∈ acc.2 ->
            x ∈ (foldl (fun acc targetName =>
                          (if bool_decide (is_Some (fs !! (targetName +:+ ".original")))
                           then strSetAdd acc.1 (targetName +:+ ".original") else acc.1,
                           if bool_decide (is_Some (fs !! (targetName +:+ ".instrumented")))
                           then strSetAdd acc.2 (targetName +:+ ".instrumented") else acc.2))
                        acc targetNames).2) as Hnames.
  { induction targetNames as [|t targetNames IH]; intros acc' Hacc'; [done|].
    cbn [foldl]. apply IH. cbn [snd]. case_bool_decide; [|done].
    apply elem_of_strSetAdd. by left. }
  specialize (Hnames acc Hx).
  destruct helperFileName as [helper|]; [|done].
  case_bool_decide; [|done]. cbn [snd]. apply elem_of_strSetAdd. by left.
Qed.

Lemma collectTarget_helper (targetNames : list string) acc (helper : string) :
  helperFileName = Some helper -> is_Some (fs !! helper) ->
  helper ∈ (collectTarget fs helperFileName acc targetNames).2.
Proof.
  intros Hh Hex. unfold collectTarget. cbv zeta. rewrite Hh.
  rewrite bool_decide_eq_true_2 by done. cbn [snd]. apply elem_of_strSetAdd. by right.
Qed.

Lemma collectTargets_helper (targetFiles : list (list string)) (helper : string) :
  targetFiles <> [] -> helperFileName = Some helper -> is_Some (fs !! helper) ->
  helper ∈ (foldl (collectTarget fs helperFileName) ([], []) targetFiles).2.
Proof.
  intros Hne Hh Hex.
  assert (forall acc, helper ∈ acc.2 ->
                      helper ∈ (foldl (collectTarget fs helperFileName) acc targetFiles).2)
    as Hgrows.
  { clear Hne. induction targetFiles as [|targetNames rest IH]; intros acc Hacc; [done|].
    cbn [foldl]. apply IH. by apply collectTarget_grows. }
  destruct targetFiles as [|targetNames rest]; [done|]. cbn [foldl].
  assert (forall acc, helper ∈ acc.2 ->
                      helper ∈ (foldl (collectTarget fs helperFileName) acc rest).2) as Hrest.
  { clear Hne Hgrows. induction rest as [|targetNames' rest IH]; intros acc Hacc; [done|].
    cbn [foldl]. apply IH. by apply collectTarget_grows. }
  apply Hrest. by apply collectTarget_helper.
Qed.
End Collect.

Section Disarm.
Variable quiet : bool.
Variable names : list string.
Hypothesis Hnames : restorable names.

Lemma moveLoop_spec (originalFiles : list string) (w : World) :
  NoDup originalFiles ->
  (forall o, o ∈ originalFiles ->
             exists t, t ∈ names /\ o = t +:+ ".original" /\ is_Some (fileSystem w !! o)) ->
  exists w',
    io_forEach originalFiles (fun originalFileName =>
       move quiet originalFileName
            (replaceFirst ".sol.original" ".sol" originalFileName)) w
    = (w', Returned tt) /\
    (forall t, t ∈ names -> t +:+ ".original" ∈ originalFiles ->
               fileSystem w' !! t = fileSystem w !! (t +:+ ".original") /\
               fileSystem w' !! (t +:+ ".original") = None) /\
    (forall q, q ∉ originalFiles ->
               (forall t, t ∈ names -> t +:+ ".original" ∈ originalFiles -> q <> t) ->
               fileSystem w' !! q = fileSystem w !! q) /\
    (quiet = true -> stderrLines w' = stderrLines w).
Proof.
  revert w. induction originalFiles as [|o rest IH]; intros w Hnd Hpre.
  - exists w. split; [done|]. split; [intros t _ Ht; inversion Ht|done].
  - apply NoDup_cons in Hnd as [Ho Hnd].
    destruct (Hpre o) as (t & Ht & -> & [contents Hcontents]); [left|].
    destruct (Hnames t Ht) as (Hreplace & Hdistinct).
    assert (forall o', o' ∈ rest -> exists t', t' ∈ names /\ o' = t' +:+ ".original")
      as Hrest.
    { intros o' Ho'. destruct (Hpre o') as (t' & ? & ? & _); [by right|]. eauto. }
    set (fs1 := <[t := contents]> (delete (t +:+ ".original") (fileSystem w))).
    set (w1 := mkWorld fs1
                 (if quiet then stderrLines w
                  else stderrLines w
                         ++ ["Moving " +:+ (t +:+ ".original") +:+ " to " +:+ t])).
    assert (forall q, q <> t -> q <> t +:+ ".original" -> fs1 !! q = fileSystem w !! q)
      as Hfs1.
    { intros q H1 H2. unfold fs1. rewrite lookup_insert_ne by done.
      by rewrite lookup_delete_ne. }
    destruct (IH w1 Hnd) as (w' & Hrun & Hin & Hout & Herr).
    { intros o' Ho'. destruct (Hpre o') as (t' & Ht' & -> & Hsome); [by right|].
      exists t'. split; [done|]. split; [done|]. simpl. rewrite Hfs1; [done| |].
      - intros Heq. by destruct (Hdistinct t' Ht') as [? _].
      - intros Heq. apply Ho. by rewrite <- Heq. }
    exists w'. split; [|split; [|split]].
    + cbn [io_forEach]. apply (io_bind_returned _ _ w w1 tt); [|done].
      unfold move, io_bind, moveSync.
      destruct quiet; simpl; rewrite Hcontents, Hreplace;
        (destruct (decide _) as [Heq|]; [|done]);
        symmetry in Heq; by destruct (Hdistinct t Ht) as [? _].
    + intros t' Ht' Hin'. apply elem_of_cons in Hin' as [Heq|Hin'].
      * apply append_inj_r in Heq as ->.
        assert (fileSystem w' !! t = fileSystem w1 !! t) as ->.
        { apply Hout.
          - intros Hin'. destruct (Hrest _ Hin') as (t'' & Ht'' & Heq).
            by destruct (Hdistinct t'' Ht'') as [? _].
          - intros t'' Ht'' Hin'' ->. done. }
        assert (fileSystem w' !! (t +:+ ".original")
                = fileSystem w1 !! (t +:+ ".original")) as ->.
        { apply Hout; [done|].
          intros t'' Ht'' _ Heq. destruct (Hnames t'' Ht'') as (_ & Hd).
          by destruct (Hd t Ht) as [? _]. }
        simpl. unfold fs1. rewrite lookup_insert_eq, Hcontents. split; [done|].
        rewrite lookup_insert_ne
          by (intros Heq; by destruct (Hdistinct t Ht) as [? _]).
        apply lookup_delete_eq.
      * destruct (Hin t' Ht' Hin') as [-> ->]. split; [|done]. simpl. apply Hfs1.
        -- intros Heq. destruct (Hdistinct t' Ht') as [? _]. by symmetry in Heq.
        -- intros Heq. apply Ho. by rewrite <- Heq.
    + intros q Hq Hdest. rewrite not_elem_of_cons in Hq. destruct Hq as [Hq1 Hq2].
      rewrite Hout; [| done |].
      * simpl. apply Hfs1; [|done]. apply (Hdest t Ht). left.
      * intros t' Ht' Hin'. apply (Hdest t' Ht'). by right.
    + intros Hq. rewrite (Herr Hq). unfold w1. by rewrite Hq.
Qed.

Lemma removeLoop_spec (instrumentationFiles : list string) (w : World) :
  exists w',
    io_forEach instrumentationFiles (remove quiet) w = (w', Returned tt) /\
    (forall q, fileSystem w' !! q
               = if decide (q ∈ instrumentationFiles) then None else fileSystem w !! q) /\
    (quiet = true -> stderrLines w' = stderrLines w).
Proof.
  revert w. induction instrumentationFiles as [|i rest IH]; intros w.
  - exists w. split; [done|]. split; [|done]. intros q.
    rewrite decide_False; [done|apply not_elem_of_nil].
  - set (w1 := mkWorld (delete i (fileSystem w))
                       (if quiet then stderrLines w
                        else stderrLines w ++ ["Removing " +:+ i])).
    destruct (IH w1) as (w' & Hrun & Hfs & Herr).
    exists w'. split; [|split].
    + cbn [io_forEach]. apply (io_bind_returned _ _ w w1 tt); [|done].
      unfold remove, io_bind, removeSync. by destruct quiet.
    + intros q. rewrite Hfs. simpl.
      destruct (decide (q ∈ rest)) as [Hin|Hnin].
      * rewrite decide_True; [done|by right].
      * destruct (decide (q = i)) as [->|Hne].
        -- rewrite decide_True by left. apply lookup_delete_eq.
        -- rewrite decide_False by (rewrite not_elem_of_cons; tauto).
           by rewrite lookup_delete_ne.
    + intros Hq. rewrite (Herr Hq). unfold w1. by rewrite Hq.
Qed.
End Disarm.

Lemma disarmable_restorable (helperFileName : option string) (names : list string) :
  disarmable helperFileName names -> restorable names.
Proof. intros H t Ht. destruct (H t Ht) as (? & _ & ?). done. Qed.

(** What disarming does to the files of the targets, the utilities file
    among them or not: a file is restored from its backup when it has one,
    and then removed when it is the utilities file, was there from the
    start, and the instrumented files are not kept. *)
Lemma disarm_restores (quiet keepInstrumented : bool) (helperFileName : option string)
      (targetFiles : list (list string)) (w : World) :
  restorable (concat targetFiles) ->
  exists w',
    disarm quiet keepInstrumented helperFileName targetFiles w = (w', Returned tt) /\
    (forall t, t ∈ concat targetFiles ->
       fileSystem w' !! t
         = (if decide (keepInstrumented = false /\ helperFileName = Some t /\
                       is_Some (fileSystem w !! t))
            then None
            else if decide (is_Some (fileSystem w !! (t +:+ ".original")))
                 then fileSystem w !! (t +:+ ".original") else fileSystem w !! t) /\
       fileSystem w' !! (t +:+ ".original") = None /\
       (keepInstrumented = false -> fileSystem w' !! (t +:+ ".instrumented") = None)) /\
    (forall helper, keepInstrumented = false -> helperFileName = Some helper ->
                    targetFiles <> [] -> is_Some (fileSystem w !! helper) ->
                    fileSystem w' !! helper = None) /\
    (quiet = true -> stderrLines w' = stderrLines w).
Proof.
  intros Hnames. unfold disarm.
  destruct (collectTargets_collected (fileSystem w) helperFileName targetFiles)
    as (Hnd1 & Hnd2 & Ho & Hi & Hi').
  pose proof (collectTargets_helper (fileSystem w) helperFileName targetFiles) as Hhelper.
  set (sets := foldl (collectTarget (fileSystem w) helperFileName) ([], []) targetFiles) in *.
  destruct (moveLoop_spec quiet (concat targetFiles) Hnames sets.1 w Hnd1)
    as (w1 & Hrun1 & Hin1 & Hout1 & Herr1).
  { intros o Hin. by apply Ho. }
  assert (forall t, t ∈ concat targetFiles ->
            fileSystem w1 !! t
              = (if decide (is_Some (fileSystem w !! (t +:+ ".original")))
                 then fileSystem w !! (t +:+ ".original") else fileSystem w !! t) /\
            fileSystem w1 !! (t +:+ ".original") = None /\
            fileSystem w1 !! (t +:+ ".instrumented")
              = fileSystem w !! (t +:+ ".instrumented")) as Hmoved.
  { intros t Ht. destruct (Hnames t Ht) as (_ & Hdistinct).
    assert (forall q, (forall t', t' ∈ concat targetFiles -> q <> t') ->
                      q ∉ sets.1 -> fileSystem w1 !! q = fileSystem w !! q) as Hframe.
    { intros q Hq Hnin. apply Hout1; [done|]. intros t' Ht' _. by apply Hq. }
    split; [|split].
    - destruct (decide (is_Some (fileSystem w !! (t +:+ ".original")))) as [Hex|Hnex].
      + apply Hin1; [done|]. apply Ho. by exists t.
      + apply Hout1.
        * intros Hin. apply Ho in Hin as (t' & Ht' & Heq & _).
          by destruct (Hdistinct t' Ht') as [? _].
        * intros t' Ht' Hin ->. apply Hnex. apply Ho in Hin as (t'' & _ & Heq & Hsome).
          done.
    - destruct (decide (is_Some (fileSystem w !! (t +:+ ".original")))) as [Hex|Hnex].
      + apply Hin1; [done|]. apply Ho. by exists t.
      + rewrite Hframe.
        * destruct (fileSystem w !! (t +:+ ".original")) eqn:E; [|done].
          exfalso. apply Hnex. eauto.
        * intros t' Ht' Heq. destruct (Hnames t' Ht') as (_ & Hd').
          by destruct (Hd' t Ht) as [? _].
        * intros Hin. apply Ho in Hin as (_ & _ & _ & Hsome). done.
    - apply Hframe.
      + intros t' Ht' Heq. destruct (Hnames t' Ht') as (_ & Hd').
        by destruct (Hd' t Ht) as [_ ?].
      + intros Hin. apply Ho in Hin as (t' & _ & Heq & _).
        symmetry in Heq. by apply original_ne_instrumented in Heq. }
  destruct keepInstrumented.
  - exists w1. split; [|split; [|split]].
    + by apply (io_bind_returned _ _ w w1 tt).
    + intros t Ht. destruct (Hmoved t Ht) as (Ht1 & ? & _).
      rewrite decide_False by (by intros [? _]). done.
    + done.
    + done.
  - destruct (removeLoop_spec quiet sets.2 w1) as (w2 & Hrun2 & Hfs2 & Herr2).
    exists w2. split; [|split; [|split]].
    + by apply (io_bind_returned _ _ w w1 tt).
    + intros t Ht. destruct (Hmoved t Ht) as (Ht1 & Ht2 & Ht3).
      destruct (Hnames t Ht) as (_ & Hdistinct).
      rewrite !Hfs2. split; [|split].
      * destruct (decide (t ∈ sets.2)) as [Hin|Hnin].
        -- rewrite decide_True; [done|]. split; [done|].
           destruct (Hi t Hin) as [Hsome [(t' & Ht' & Heq)|Hh]]; [|done].
           by destruct (Hdistinct t' Ht') as [_ ?].
        -- rewrite decide_False; [done|]. intros (_ & Hh & Hsome). apply Hnin.
           apply Hhelper; [|done..]. intros Hnil. rewrite Hnil in Ht. inversion Ht.
      * destruct (decide (_ ∈ sets.2)); [done|exact Ht2].
      * intros _. destruct (decide (_ ∈ sets.2)) as [|Hnin]; [done|]. rewrite Ht3.
        destruct (fileSystem w !! (t +:+ ".instrumented")) eqn:E; [|done].
        exfalso. apply Hnin. apply Hi'; [done|]. rewrite E. eauto.
    + intros helper _ Hh Hne Hsome. rewrite Hfs2.
      rewrite decide_True; [done|]. by apply Hhelper.
    + intros Hq. rewrite (Herr2 Hq). by apply Herr1.
Qed.

Lemma disarm_spec (quiet keepInstrumented : bool) (helperFileName : option string)
      (targetFiles : list (list string)) (w : World) :
  disarmable helperFileName (concat targetFiles) ->
  exists w',
    disarm quiet keepInstrumented helperFileName targetFiles w = (w', Returned tt) /\
    (forall t, t ∈ concat targetFiles ->
       fileSystem w' !! t
         = (if decide (is_Some (fileSystem w !! (t +:+ ".original")))
            then fileSystem w !! (t +:+ ".original") else fileSystem w !! t) /\
       fileSystem w' !! (t +:+ ".original") = None /\
       (keepInstrumented = false -> fileSystem w' !! (t +:+ ".instrumented") = None)) /\
    (quiet = true -> stderrLines w' = stderrLines w).
Proof.
  intros Hnames.
  destruct (disarm_restores quiet keepInstrumented helperFileName targetFiles w
              (disarmable_restorable _ _ Hnames)) as (w' & Hrun & Hfiles & _ & Herr).
  exists w'. split; [done|]. split; [|done].
  intros t Ht. destruct (Hfiles t Ht) as (Hfile & Hrest). split; [|done].
  rewrite Hfile. destruct (Hnames t Ht) as (_ & Hhelper & _).
  rewrite decide_False; [done|]. by intros (_ & ? & _).
Qed.

(** X24: once the targets have compiled, [--disarm] puts every backup
    back: a file of a target that has a backup [.original] gets the
    contents of the backup, a file without one stays as it is, no backup
    is left, and unless [--keep-instrumented] is given no [.instrumented]
    version is left either.  The names of the files are taken to be such
    that a backup can be told from the file it was made for. *)
Theorem disarm_restores_backups (quiet keepInstrumented : bool)
        (helperFileName : option string) (targetFiles : list (list string)) (w : World) :
  disarmable helperFileName (concat targetFiles) ->
  exists w',
    disarm quiet keepInstrumented helperFileName targetFiles w = (w', Returned tt) /\
    (forall t, t ∈ concat targetFiles ->
       fileSystem w' !! t
         = (if decide (is_Some (fileSystem w !! (t +:+ ".original")))
            then fileSystem w !! (t +:+ ".original") else fileSystem w !! t) /\
       fileSystem w' !! (t +:+ ".original") = None /\
       (keepInstrumented = false -> fileSystem w' !! (t +:+ ".instrumented") = None)) /\
    (quiet = true -> stderrLines w' = stderrLines w).
Proof. apply disarm_spec. Qed.

(** X25: arming and then disarming restores the files.  The output of
    [files] mode is written with [--arm]; a later run with [--disarm] finds
    the changed units among the files of its targets, where the utilities
    file may be too.  The names written are taken to be distinct, and those
    of the targets' files such that no name is the backup or the
    instrumented version of another and a backup's name maps back to the
    name it was made for.  Then every changed unit has again the contents
    it had before arming and its backup is gone; and unless the
    instrumented files are kept, its instrumented version is gone and so is
    the utilities file, when that is the helper file of the later run. *)
Theorem arm_then_disarm_restores (newContents : nat -> string) (quiet quiet' keep : bool)
        (changedUnits : list SourceUnit) (utils : SourceUnit)
        (helperFileName : option string) (targetFiles : list (list string)) (w : World) :
  NoDup (outputNames changedUnits utils) ->
  (forall u, u ∈ changedUnits -> is_Some (fileSystem w !! absolutePath u)) ->
  (forall u, u ∈ changedUnits -> absolutePath u ∈ concat targetFiles) ->
  restorable (concat targetFiles) ->
  (forall u, u ∈ changedUnits -> helperFileName <> Some (absolutePath u)) ->
  exists armed disarmed,
    writeInstrumentedFiles quiet true newContents changedUnits utils w
      = (armed, Returned tt) /\
    disarm quiet' keep helperFileName targetFiles armed = (disarmed, Returned tt) /\
    (forall u, u ∈ changedUnits ->
       fileSystem armed !! absolutePath u = Some (newContents (unit_id u)) /\
       fileSystem disarmed !! absolutePath u = fileSystem w !! absolutePath u /\
       fileSystem disarmed !! (absolutePath u +:+ ".original") = None /\
       (keep = false ->
        fileSystem disarmed !! (absolutePath u +:+ ".instrumented") = None)) /\
    (keep = false -> helperFileName = Some (absolutePath utils) -> targetFiles <> [] ->
     fileSystem disarmed !! absolutePath utils = None).
Proof.
  intros Hnd Hexist Htargets Hnames Hhelper.
  destruct (writeInstrumentedFiles_spec newContents quiet true changedUnits utils w Hnd)
    as (armed & Harm & Hunits & Hutils & _); [by intros _|].
  destruct (disarm_restores quiet' keep helperFileName targetFiles armed Hnames)
    as (disarmed & Hdisarm & Hfiles & Hgone & _).
  exists armed, disarmed. split; [done|]. split; [done|]. split.
  - intros u Hu. destruct (Hunits u Hu) as (_ & Hnew & Hbackup).
    destruct (Hfiles (absolutePath u) (Htargets u Hu)) as (Hback & Hnone & Hinstr).
    split; [done|]. split; [|done].
    rewrite Hback, Hbackup. destruct (Hexist u Hu) as [c Hc].
    rewrite decide_False by (intros (_ & Hh & _); by apply (Hhelper u Hu)).
    rewrite decide_True; [done|]. rewrite Hc. eauto.
  - intros Hkeep Hh Hne. apply (Hgone _ Hkeep Hh Hne). rewrite Hutils. eauto.
Qed.

Lemma sample_disarmable :
  disarmable (Some "__scribble_ReentrancyUtils.sol") (concat [["a.sol"]]).
Proof.
  intros t Ht. simpl in Ht. apply list_elem_of_singleton in Ht as ->.
  split; [reflexivity|]. split; [discriminate|].
  intros t' Ht'. apply list_elem_of_singleton in Ht' as ->. split; discriminate.
Defined.

Lemma disarm_restores_backups_witness :
  exists w',
    disarm true false (Some "__scribble_ReentrancyUtils.sol") [["a.sol"]]
           (mkWorld {[ "a.sol" := "contract A { /* checks */ }";
                       "a.sol.original" := "contract A { }";
                       "a.sol.instrumented" := "contract A { /* checks */ }" ]} [])
    = (w', Returned tt) /\
    fileSystem w' !! "a.sol" = Some "contract A { }".
Proof.
  destruct (disarm_restores_backups true false (Some "__scribble_ReentrancyUtils.sol")
              [["a.sol"]]
              (mkWorld {[ "a.sol" := "contract A { /* checks */ }";
                          "a.sol.original" := "contract A { }";
                          "a.sol.instrumented" := "contract A { /* checks */ }" ]} [])
              sample_disarmable) as (w' & Hrun & Hfiles & _).
  exists w'. split; [exact Hrun|].
  destruct (Hfiles "a.sol") as (Hfile & _); [left|]. exact Hfile.
Defined.

Lemma sample_restorable :
  restorable (concat [["a.sol"; "__scribble_ReentrancyUtils.sol"]]).
Proof.
  intros t Ht. simpl in Ht.
  apply elem_of_cons in Ht as [->|Ht]; [|apply list_elem_of_singleton in Ht as ->];
    (split; [reflexivity|]); intros t' Ht';
    (apply elem_of_cons in Ht' as [->|Ht']; [|apply list_elem_of_singleton in Ht' as ->]);
    split; discriminate.
Defined.

Lemma arm_then_disarm_restores_witness :
  exists armed disarmed,
    writeInstrumentedFiles true true (fun _ => "contract A { /* checks */ }")
                           [Sample.unitA] SampleMetadata.utils (mkWorld Sample.sources [])
      = (armed, Returned tt) /\
    disarm true false (Some "__scribble_ReentrancyUtils.sol")
           [["a.sol"; "__scribble_ReentrancyUtils.sol"]] armed
      = (disarmed, Returned tt) /\
    fileSystem armed !! "a.sol" = Some "contract A { /* checks */ }" /\
    fileSystem disarmed !! "a.sol" = Some "contract A { }" /\
    fileSystem disarmed !! "a.sol.original" = None /\
    fileSystem disarmed !! "a.sol.instrumented" = None /\
    fileSystem disarmed !! "__scribble_ReentrancyUtils.sol" = None.
Proof.
  destruct (arm_then_disarm_restores (fun _ => "contract A { /* checks */ }")
              true true false [Sample.unitA] SampleMetadata.utils
              (Some "__scribble_ReentrancyUtils.sol")
              [["a.sol"; "__scribble_ReentrancyUtils.sol"]] (mkWorld Sample.sources []))
    as (armed & disarmed & Harm & Hdisarm & Hunits & Hutils).
  - apply (bool_decide_unpack _). vm_compute. exact I.
  - intros u Hu. apply list_elem_of_singleton in Hu as ->. by eexists.
  - intros u Hu. apply list_elem_of_singleton in Hu as ->. left.
  - exact sample_restorable.
  - intros u Hu. apply list_elem_of_singleton in Hu as ->. discriminate.
  - exists armed, disarmed. split; [exact Harm|]. split; [exact Hdisarm|].
    destruct (Hunits Sample.unitA) as (Hnew & Hold & Hbackup & Hinstr); [left|].
    split; [exact Hnew|]. split; [exact Hold|]. split; [exact Hbackup|].
    split; [exact (Hinstr eq_refl)|].
    apply Hutils; [reflexivity|reflexivity|discriminate].
Defined.
